(** * Existence-probe validators: a shallow embedding and its properties

    The three command-line validators of the repository
    ([colgate_validator.py], [email_validator.py] and
    [pepperdine/pepp_directory_validator.py]) drive a browser through
    Selenium.  The browser is an external collaborator, so it is modelled
    as an oracle: a [world] says, for every tick of a logical clock, what
    page the browser shows and whether the driver call made at that tick
    raises.  Every driver call reads the oracle at the current tick and
    advances the clock by one.  The Python functions are written in a
    small state-and-exception monad over that clock. *)

From Stdlib Require Import ZArith Ascii String List Lia Bool.
From stdpp Require Import base option list gmap strings.

Local Open Scope string_scope.
Local Open Scope list_scope.
Local Open Scope Z_scope.
Local Open Scope nat_scope.

(** ** Python strings *)

(** [str.strip], [str.lower] and the substring test [needle in hay] are
    given on byte strings; the whitespace and the letters are the ASCII
    ones.  They are Python's on ASCII text ([is_ascii], below). *)

Definition is_whitespace (c : ascii) : bool :=
  let n := nat_of_ascii c in
  ((9 <=? n) && (n <=? 13)) || ((28 <=? n) && (n <=? 32)).

Fixpoint str_lstrip (s : string) : string :=
  match s with
  | EmptyString => EmptyString
  | String c s' => if is_whitespace c then str_lstrip s' else s
  end.

Fixpoint str_rstrip (s : string) : string :=
  match s with
  | EmptyString => EmptyString
  | String c s' =>
      match str_rstrip s' with
      | EmptyString => if is_whitespace c then EmptyString else String c EmptyString
      | r => String c r
      end
  end.

Definition str_strip (s : string) : string := str_rstrip (str_lstrip s).

Definition lower_ascii (c : ascii) : ascii :=
  let n := nat_of_ascii c in
  if (65 <=? n) && (n <=? 90) then ascii_of_nat (n + 32) else c.

Fixpoint str_lower (s : string) : string :=
  match s with
  | EmptyString => EmptyString
  | String c s' => String (lower_ascii c) (str_lower s')
  end.

Fixpoint str_startswith (p s : string) : bool :=
  match p, s with
  | EmptyString, _ => true
  | String a p', String b s' => if Ascii.eqb a b then str_startswith p' s' else false
  | String _ _, EmptyString => false
  end.

(** [str_in needle hay] is Python's [needle in hay]. *)
Fixpoint str_in (needle hay : string) : bool :=
  str_startswith needle hay ||
  match hay with
  | EmptyString => false
  | String _ hay' => str_in needle hay'
  end.

(** [any(h in s for h in hints)] *)
Definition any_in (hints : list string) (s : string) : bool :=
  existsb (fun h => str_in h s) hints.

(** The text is ASCII.  On such text [str.strip], [str.lower],
    [str.split], the classes [\s] and [\d] of [re] and [len] are what
    is given here; on other text Python's are wider (U+00A0 is white
    space, U+212A lower-cases to [k], U+0661 is a digit, and [len]
    counts characters where [String.length] counts bytes). *)
Fixpoint is_ascii (s : string) : bool :=
  match s with
  | EmptyString => true
  | String c s' => (nat_of_ascii c <? 128)%nat && is_ascii s'
  end.

(** Truthiness of a string: [if txt], [not email]. *)
Definition truthy (s : string) : bool :=
  match s with EmptyString => false | _ => true end.

(** ** Exceptions *)

Inductive exn : Type :=
  | TimeoutException
  | NoSuchElementException
  | ElementNotInteractableException
  | StaleElementReferenceException
  | WebDriverException
  | TypeError
  | AttributeError
  | ValueError
  | OverflowError
  | OSError
  | UnicodeDecodeError
  | CsvError
  | SystemExit (code : Z).

(** The classes named in the [except] clauses of the three scripts. *)
Inductive exn_class : Type :=
  | CTimeoutException
  | CNoSuchElementException
  | CElementNotInteractableException
  | CWebDriverException
  | CTypeError
  | CException.

(** Python's subclass test.  The Selenium exceptions derive from
    [WebDriverException]; [SystemExit] derives from [BaseException] only,
    so [except Exception] does not catch it. *)
Definition isinstance (e : exn) (c : exn_class) : bool :=
  match c, e with
  | CException, SystemExit _ => false
  | CException, _ => true
  | CWebDriverException,
    (TimeoutException | NoSuchElementException | ElementNotInteractableException
     | StaleElementReferenceException | WebDriverException) => true
  | CTimeoutException, TimeoutException => true
  | CNoSuchElementException, NoSuchElementException => true
  | CElementNotInteractableException, ElementNotInteractableException => true
  | CTypeError, TypeError => true
  | _, _ => false
  end.

Arguments isinstance : simpl never.

Inductive res (A : Type) : Type :=
  | Ok (a : A)
  | Raise (e : exn).
Arguments Ok {A} a.
Arguments Raise {A} e.

(** ** The browser *)

Inductive By : Type :=
  | By_ID | By_NAME | By_CSS_SELECTOR | By_XPATH | By_TAG_NAME | By_LINK_TEXT
  | By_PARTIAL_LINK_TEXT.

Definition locator : Type := By * string.

#[global] Instance By_eq_dec : EqDecision By.
Proof. solve_decision. Defined.

#[global] Instance locator_eq_dec : EqDecision locator.
Proof. unfold locator. apply _. Defined.

(** What the scripts read of an element. *)
Record element : Type := Element {
  el_text : string;
  el_displayed : bool;
  el_enabled : bool;
}.

(** What the scripts read of the page the browser shows. *)
Record page : Type := Page {
  current_url : string;
  page_source : string;
  find_all : locator -> list element;
}.

(** The oracle.  [polls w t] is how many further polls a
    [WebDriverWait] of [t] milliseconds gets after its first one;
    [drawn_at w t] is what [random] draws at the tick [t];
    [load_fault w] is the exception, other than [FileNotFoundError],
    that opening and reading the output file raises, if it raises one
    ([PermissionError] and [IsADirectoryError] are [OSError]). *)
Record world : Type := World {
  page_at : nat -> page;
  fault_at : nat -> option exn;
  polls : Z -> nat;
  drawn_at : nat -> Z;
  load_fault : option exn;
}.

(** What the scripts do to the browser, in order. *)
Inductive event : Type :=
  | Launch
  | Quit
  | Get (url : string)
  | Click
  | Clear
  | SendKeys (text : string)
  | SendReturn
  | ExecuteScript (script : string) (args : list string)
  | SwitchToDefaultContent
  | SwitchToFrame
  | ExecuteCdpCmd (cmd : string)
  | Sleep (ms : Z)
  | SleepUniform (lo hi : Z).

Record state : Type := State {
  clock : nat;
  trace : list event;
}.

(** The monad of the scripts: a state is threaded through, and a
    computation either returns or raises.  The state survives a raise. *)
Definition Mon (S A : Type) : Type := S -> res A * S.

Definition ret {S A} (a : A) : Mon S A := fun s => (Ok a, s).
Definition bind {S A B} (m : Mon S A) (f : A -> Mon S B) : Mon S B :=
  fun s =>
    match m s with
    | (Ok a, s') => f a s'
    | (Raise e, s') => (Raise e, s')
    end.
Definition raise {S A} (e : exn) : Mon S A := fun s => (Raise e, s).

Declare Scope m_scope.
Delimit Scope m_scope with M.
Bind Scope m_scope with Mon.
Notation "x <- m ;; k" := (bind m (fun x => k))
  (at level 100, m at next level, right associativity) : m_scope.
Notation "m ;; k" := (bind m (fun _ => k))
  (at level 100, right associativity) : m_scope.
Local Open Scope m_scope.

(** [try: body except cls: handler] *)
Definition try_except {S A} (body : Mon S A) (cls : exn_class) (handler : Mon S A)
  : Mon S A :=
  fun s =>
    match body s with
    | (Ok a, s') => (Ok a, s')
    | (Raise e, s') => if isinstance e cls then handler s' else (Raise e, s')
    end.

(** [try: body finally: cleanup] *)
Definition try_finally {S A} (body : Mon S A) (cleanup : Mon S unit) : Mon S A :=
  fun s =>
    match body s with
    | (r, s') =>
        match cleanup s' with
        | (Ok _, s'') => (r, s'')
        | (Raise e, s'') => (Raise e, s'')
        end
    end.

(** The browser side of the state. *)
Abbreviation M := (Mon state).

Definition advance (evs : list event) (s : state) : state :=
  {| clock := S (clock s); trace := trace s ++ evs |}.

(** [time.sleep] refuses a negative duration with [ValueError], and
    one that a C timestamp of nanoseconds cannot hold with
    [OverflowError]. *)
Definition SLEEP_MAX : Z := 9223372036854.

Definition sleepable (ms : Z) : bool := (0 <=? ms)%Z && (ms <=? SLEEP_MAX)%Z.

Definition sleep_error (ms : Z) : option exn :=
  if (ms <? 0)%Z then Some ValueError
  else if (SLEEP_MAX <? ms)%Z then Some OverflowError
  else None.

Section Driver.
Variable w : world.

(** One driver call: it is logged, the oracle decides whether it
    raises, and otherwise [f] reads the page shown at this tick. *)
Definition call {A} (evs : list event) (f : page -> res A) : M A :=
  fun s =>
    match fault_at w (clock s) with
    | Some e => (Raise e, advance evs s)
    | None => (f (page_at w (clock s)), advance evs s)
    end.

(** [random.uniform(lo, hi)] at the tick [t]: what the oracle draws,
    kept between [lo] and [hi], whichever is the smaller. *)
Definition uniform (t : nat) (lo hi : Z) : Z :=
  Z.max (Z.min lo hi) (Z.min (Z.max lo hi) (drawn_at w t)).

(** [time.sleep(x)] and [time.sleep(random.uniform(a, b))].  The
    durations are finite, in milliseconds ([nan] and [inf] are not
    among them); one that [time.sleep] refuses raises, and nothing is
    slept. *)
Definition sleep (ms : Z) : M unit :=
  fun s =>
    match sleep_error ms with
    | Some e => (Raise e, s)
    | None => (Ok tt, advance [Sleep ms] s)
    end.
Definition sleep_uniform (lo hi : Z) : M unit :=
  fun s =>
    match sleep_error (uniform (clock s) lo hi) with
    | Some e => (Raise e, s)
    | None => (Ok tt, advance [SleepUniform lo hi] s)
    end.

Definition driver_get (url : string) : M unit := call [Get url] (fun _ => Ok tt).
Definition driver_quit : M unit := call [Quit] (fun _ => Ok tt).
(** [webdriver.Chrome(...)] *)
Definition webdriver_Chrome : M unit := call [Launch] (fun _ => Ok tt).
Definition driver_current_url : M string := call [] (fun p => Ok (current_url p)).
Definition driver_page_source : M string := call [] (fun p => Ok (page_source p)).
Definition find_elements (l : locator) : M (list element) :=
  call [] (fun p => Ok (find_all p l)).
Definition find_element (l : locator) : M element :=
  call [] (fun p => match find_all p l with
                    | e :: _ => Ok e
                    | [] => Raise NoSuchElementException
                    end).
Definition execute_script (script : string) (args : list string) : M unit :=
  call [ExecuteScript script args] (fun _ => Ok tt).
Definition switch_to_default_content : M unit :=
  call [SwitchToDefaultContent] (fun _ => Ok tt).
Definition switch_to_frame (e : element) : M unit :=
  call [SwitchToFrame] (fun _ => Ok tt).
Definition execute_cdp_cmd (cmd : string) : M unit :=
  call [ExecuteCdpCmd cmd] (fun _ => Ok tt).

(** An element shows what it showed when it was located; a node that
    changed in between is a fault of the call that reads it. *)
Definition text (e : element) : M string := call [] (fun _ => Ok (el_text e)).
Definition is_displayed (e : element) : M bool := call [] (fun _ => Ok (el_displayed e)).
Definition click (e : element) : M unit := call [Click] (fun _ => Ok tt).
Definition clear (e : element) : M unit := call [Clear] (fun _ => Ok tt).
Definition send_keys (e : element) (s : string) : M unit := call [SendKeys s] (fun _ => Ok tt).
Definition send_return (e : element) : M unit := call [SendReturn] (fun _ => Ok tt).

(** The conditions of [selenium.webdriver.support.expected_conditions]
    the scripts wait for, as one poll each. *)
Definition element_to_be_clickable (l : locator) : M (option element) :=
  call [] (fun p => match find_all p l with
                    | e :: _ => Ok (if el_displayed e && el_enabled e then Some e else None)
                    | [] => Raise NoSuchElementException
                    end).
Definition presence_of_element_located (l : locator) : M (option element) :=
  call [] (fun p => match find_all p l with
                    | e :: _ => Ok (Some e)
                    | [] => Raise NoSuchElementException
                    end).

(** [WebDriverWait(driver, timeout).until(method)]: poll, sleep, and
    raise [TimeoutException] when the time is up.  A
    [NoSuchElementException] of the method counts as "not yet". *)
Fixpoint until_loop {A} (n : nat) (method : M (option A)) : M A :=
  fun s =>
    let again s1 :=
      match n with
      | O => (Raise TimeoutException, advance [] s1)
      | S n' => until_loop n' method (advance [] s1)
      end in
    match method s with
    | (Ok (Some v), s1) => (Ok v, s1)
    | (Ok None, s1) => again s1
    | (Raise e, s1) =>
        if isinstance e CNoSuchElementException then again s1 else (Raise e, s1)
    end.

Definition wait_until {A} (timeout_ms : Z) (method : M (option A)) : M A :=
  until_loop (polls w timeout_ms) method.

(** A lambda that returns a [bool] as a wait condition. *)
Definition truth (m : M bool) : M (option unit) :=
  b <- m ;; ret (if b then Some tt else None).

(** [any(f(x) for x in l)], stopping at the first hit. *)
Fixpoint any_m {A} (f : A -> M bool) (l : list A) : M bool :=
  match l with
  | [] => ret false
  | x :: l' => b <- f x ;; if b then ret true else any_m f l'
  end.

(** [[x for x in l if f(x)]] *)
Fixpoint filter_m {A} (f : A -> M bool) (l : list A) : M (list A) :=
  match l with
  | [] => ret []
  | x :: l' => b <- f x ;; r <- filter_m f l' ;; ret (if b then x :: r else r)
  end.
End Driver.

(** ** CSV files and the state of a run *)

(** A CSV file is the list of its records, a record the list of its
    fields; the empty list is the empty file. *)
Definition record : Type := list string.
Definition file : Type := list record.

(** Every field of the file is ASCII text. *)
Definition ascii_file (f : file) : bool := forallb (forallb is_ascii) f.

(** A row of [csv.DictReader]: a field maps to [None] (Python's [None])
    when the record is shorter than the header. *)
Abbreviation row := (gmap string (option string)).

Fixpoint zip_fields (d : row) (fieldnames : list string) (rec : record) : row :=
  match fieldnames with
  | [] => d
  | k :: ks =>
      match rec with
      | v :: vs => zip_fields (<[k := Some v]> d) ks vs
      | [] => zip_fields (<[k := None]> d) ks []
      end
  end.

Definition nonblank (rec : record) : bool :=
  match rec with [] => false | _ => true end.

(** [csv.DictReader(f)]: the first record names the fields, blank
    records are skipped. *)
Definition DictReader (f : file) : list row :=
  match f with
  | [] => []
  | fieldnames :: recs => map (zip_fields ∅ fieldnames) (List.filter nonblank recs)
  end.

(** [row.get(k, default)] *)
Definition row_get (r : row) (k : string) (default : option string) : option string :=
  match r !! k with
  | Some v => v
  | None => default
  end.

(** [v or ""], and also what [csv] writes for the value [v]. *)
Definition or_empty (v : option string) : string :=
  match v with
  | Some s => s
  | None => ""
  end.

(** [csv.DictWriter(out, fieldnames).writerow(d)] for a [d] built with
    [row.get(k, "")] for every field. *)
Definition writerow (fieldnames : list string) (r : row) : record :=
  map (fun k => or_empty (row_get r k (Some ""))) fieldnames.

(** What a run did with its candidates, in order: a ghost log, kept for
    the statements.  [Probed r] notes a call of the probe for the row
    [r], [Wrote r] a call of the sink for it. *)
Inductive gevent : Type :=
  | Probed (r : row)
  | Wrote (r : row).

(** The state of a run: the browser, the output file ([None] when it
    does not exist), and the ghost log. *)
Record mstate : Type := MState {
  browser : state;
  output : option file;
  log : list gevent;
}.

Abbreviation MM := (Mon mstate).

Definition lift {A} (m : M A) : MM A :=
  fun st =>
    match m (browser st) with
    | (r, s') => (r, {| browser := s'; output := output st; log := log st |})
    end.

(** A call of the probe for the row [r], noted in the ghost log. *)
Definition probe {A} (r : row) (m : M A) : MM A :=
  fun st =>
    lift m {| browser := browser st; output := output st; log := log st ++ [Probed r] |}.

(** [open(args.output, newline="", encoding="utf-8")] and the reading
    of the file, with [FileNotFoundError] as [None]; any other
    exception is the oracle's. *)
Definition open_output (w : world) : MM (option file) :=
  fun st =>
    match load_fault w with
    | Some e => (Raise e, st)
    | None => (Ok (output st), st)
    end.

(** The records of a file that may not exist. *)
Definition contents (f : option file) : file :=
  match f with
  | Some recs => recs
  | None => []
  end.

(** The body of the three [write_valid]: open for appending, write the
    header when [out.tell() == 0], write the record. *)
Definition append_row (fieldnames : list string) (r : row) : MM unit :=
  fun st =>
    let out := contents (output st) in
    let out1 := match out with [] => out ++ [fieldnames] | _ => out end in
    (Ok tt, {| browser := browser st;
               output := Some (out1 ++ [writerow fieldnames r]);
               log := log st ++ [Wrote r] |}).

(** The exit status of the process for the way [main] ended. *)
Definition exit_code {A} (r : res A) : Z :=
  match r with
  | Ok _ => 0
  | Raise (SystemExit c) => c
  | Raise _ => 1
  end%Z.

(** ** The Microsoft validator, [colgate_validator.py] *)

Module Colgate.

Definition MS_LOGIN_URL : string :=
  "https://login.microsoftonline.com/5b75a9d0-188c-4a00-af54-5800ada1149f/saml2?SAMLRequest=lZJRb5swFIXf8ysQ72DjwGasJFLadFukLImabA97qYy5pJaMzXzNtv77Au3W9WGVxuPhnk%2FnHHmBsjWdWPfh3t7C9x4wzKLoV2ssiunXMu69FU6iRmFlCyiCEqf1551gKRWdd8EpZ%2BJXprc9EhF80M6Opu1mGR%2F2N7vDx%2B3%2BjkNRAS%2FmCvI8q%2FKyVHUpGS9YrWTFQDUwZ%2B8Yp6PxK3gcGMt4QE4gxB62FoO0YRApKxLKk4yeGRNzLubs23i1GfppK8PkvA%2BhQ0GIcRdt01Yr79A1wVmjLaTKtaSo3heyrGmSca6SXFKayKbIk4JTKmuZZXnZkLExG%2BHH5zGutK21vby9QvV0hOLT%2BXxMjofTeUSsf29z7Sz2LfgT%2BB9awZfb3UvezvkgzRDQXGSAFOqeyE4T5TxMYe4QHYlXAy6KFqMgpnH86r8AC%2FK39QXWif1QZrs5OqPVw6SP3wfnWxn%2B3TlLs0nRddJMp6K32IHSjYY6%2FoNZG%2BN%2BXnsYci3j4HuII7KazZ7CvH6nq0c%3D&RelayState=https%3A%2F%2Fportal.colgate.edu%2Fapi%2Fcore%2Fsaml_sso".

Section Probe.
Variable w : world.

(** The second [webdriver.Chrome] call is the fallback for a Selenium
    whose constructor has another signature. *)
Definition make_driver (headless : bool) : M unit :=
  try_except (webdriver_Chrome w) CTypeError (webdriver_Chrome w).

Definition load_login_page : M bool :=
  try_except
    (driver_get w MS_LOGIN_URL ;;
     wait_until w 20000 (presence_of_element_located w (By_TAG_NAME, "body")) ;;
     ret true)
    CException
    (ret false).

Definition at_username_step : M bool :=
  try_except
    (els1 <- find_elements w (By_ID, "i0116") ;;
     b1 <- any_m (is_displayed w) els1 ;;
     if b1 then ret true else
     els2 <- find_elements w (By_NAME, "loginfmt") ;;
     b2 <- any_m (is_displayed w) els2 ;;
     if b2 then ret true else
     els3 <- find_elements w (By_CSS_SELECTOR, "input[type='email']") ;;
     any_m (is_displayed w) els3)
    CException
    (ret false).

Definition at_password_step : M bool :=
  try_except
    (els <- find_elements w (By_ID, "i0118") ;;
     pw <- filter_m (is_displayed w) els ;;
     match pw with
     | _ :: _ =>
         headers <- find_elements w (By_ID, "loginHeader") ;;
         b <- any_m (fun h => t <- text w h ;; ret (str_in "password" (str_lower t)))
                headers ;;
         if b then ret true else ret true
     | [] => ret false
     end)
    CException
    (ret false).

(** The [for] loop of [go_back_to_username]: [true] when a button was
    clicked and the function returned from inside the loop. *)
Fixpoint go_back_loop (sels : list locator) : M bool :=
  match sels with
  | [] => ret false
  | sel :: rest =>
      clicked <- try_except
                   (btns <- find_elements w sel ;;
                    match btns with
                    | b :: _ => click w b ;; sleep 600 ;; ret true
                    | [] => ret false
                    end)
                   CException
                   (ret false) ;;
      if clicked then ret true else go_back_loop rest
  end.

Definition go_back_to_username : M unit :=
  clicked <- go_back_loop
    [ (By_ID, "idBtn_Back");
      (By_XPATH, "//a[contains(., 'Use another account') or contains(., 'use another account')]");
      (By_XPATH, "//div[@role='button' and contains(., 'Use another account')]") ] ;;
  if clicked then ret tt else (load_login_page ;; ret tt).

Fixpoint type_like_human (el : element) (text : string) : M unit :=
  match text with
  | EmptyString => ret tt
  | String ch rest =>
      send_keys w el (String ch EmptyString) ;;
      sleep_uniform w 70 130 ;;
      type_like_human el rest
  end.

(** The inner [for e in els] of [find_username_error_text]: the text
    it returns from, if any. *)
Fixpoint first_error_text (els : list element) : M (option string) :=
  match els with
  | [] => ret None
  | e :: rest =>
      t <- text w e ;;
      let txt := str_strip t in
      if truthy txt then
        d <- is_displayed w e ;;
        if d then ret (Some txt) else first_error_text rest
      else first_error_text rest
  end.

Fixpoint find_error_loop (sels : list locator) : M string :=
  match sels with
  | [] => ret ""
  | sel :: rest =>
      r <- try_except
             (els <- find_elements w sel ;; first_error_text els)
             CException
             (ret None) ;;
      match r with
      | Some txt => ret txt
      | None => find_error_loop rest
      end
  end.

Definition error_selectors : list locator :=
  [ (By_ID, "usernameError");
    (By_CSS_SELECTOR, "div[role='alert']");
    (By_CSS_SELECTOR, ".text-danger, .error, .alert") ].

Definition find_username_error_text : M string := find_error_loop error_selectors.

Definition invalid_hints : list string :=
  [ "this username may be incorrect";
    "we couldn't find an account";
    "enter a valid email address";
    "that microsoft account doesn't exist";
    "couldn't find your account";
    "no account found" ].

(** Lines 125-130: get to the username step; [false] is the early
    [return None]. *)
Definition reach_username_step : M bool :=
  here <- at_username_step ;;
  if here then ret true else
  go_back_to_username ;;
  try_except
    (wait_until w 8000 (truth at_username_step) ;; ret true)
    CTimeoutException
    (ret false).

(** Lines 135-145: the [for] loop that looks for the input;
    [email_input] is the variable of that name. *)
Fixpoint locate_email_input (wait : Z) (sels : list locator) (email_input : option element)
  : M (option element) :=
  match sels with
  | [] => ret email_input
  | sel :: rest =>
      located <- try_except
                   (el <- wait_until w wait (element_to_be_clickable w sel) ;; ret (Some el))
                   CTimeoutException
                   (ret None) ;;
      match located with
      | None => locate_email_input wait rest email_input
      | Some el =>
          d <- try_except (is_displayed w el) CTimeoutException (ret false) ;;
          if d then ret (Some el) else locate_email_input wait rest (Some el)
      end
  end.

(** Lines 132-152: fill the input in and press Return; [false] is the
    early [return None]. *)
Definition fill_and_submit (email : string) (timeout : Z) : M bool :=
  try_except
    (email_input <- locate_email_input timeout
       [ (By_ID, "i0116"); (By_NAME, "loginfmt");
         (By_CSS_SELECTOR, "input[type='email']") ] None ;;
     match email_input with
     | None => ret false
     | Some el =>
         clear w el ;;
         type_like_human el email ;;
         send_return w el ;;
         ret true
     end)
    CTimeoutException
    (ret false).

(** Lines 154-176: wait for an explicit state, then classify.
    [Some true] is [True], [Some false] is [False], [None] is [None]. *)
Definition classify_response : M (option bool) :=
  try_except
    (wait_until w 10000
       (truth (p <- at_password_step ;;
                 if p then ret true else
                 t <- find_username_error_text ;; ret (truthy t))))
    CTimeoutException
    (ret tt) ;;
  t <- find_username_error_text ;;
  let err_text := str_lower t in
  if any_in invalid_hints err_text then ret (Some false) else
  p <- at_password_step ;;
  if p then ret (Some true) else
  ret None.

Definition enter_email_and_submit (email : string) : M (option bool) :=
  ok <- reach_username_step ;;
  if negb ok then ret None else
  submitted <- fill_and_submit email 12000 ;;
  if negb submitted then ret None else
  classify_response.
End Probe.

(** The command line. *)
Record args : Type := Args {
  no_headless : bool;
  sleep_min : Z;
  sleep_max : Z;
  cooldown_n : Z;
  cooldown_s : Z;
}.

Definition fieldnames : list string := ["full_name"; "email"].

Definition write_valid (r : row) : MM unit := append_row fieldnames r.

(** Lines 201-208: the emails of an earlier run. *)
Definition load_valid_emails (f : option file) : gset string :=
  match f with
  | None => ∅
  | Some recs =>
      foldl (fun valid_emails r =>
               let e := str_lower (str_strip (or_empty (row_get r "email" (Some "")))) in
               if truthy e then valid_emails ∪ {[ e ]} else valid_emails)
            ∅ (DictReader recs)
  end.

(** The variables of the loop. *)
Record vars : Type := Vars {
  seen_emails : gset string;
  valid_emails : gset string;
  processed : Z;
}.

Section Main.
Variable w : world.
Variable a : args.

(** Lines 223-245, the body of the [for] loop; a [continue] hands the
    variables back as they are. *)
Definition body (r : row) (v : vars) : MM vars :=
  let email := str_strip (or_empty (row_get r "email" (Some ""))) in
  if negb (truthy email) then ret v else
  if bool_decide (str_lower email ∈ seen_emails v)
     || bool_decide (str_lower email ∈ valid_emails v)
  then ret v else
  let seen := seen_emails v ∪ {[ str_lower email ]} in
  verdict <- probe r (enter_email_and_submit w email) ;;
  valid <- match verdict with
           | Some true => write_valid r ;; ret (valid_emails v ∪ {[ str_lower email ]})
           | _ => ret (valid_emails v)
           end ;;
  let processed := (processed v + 1)%Z in
  lift (sleep_uniform w (sleep_min a) (sleep_max a)) ;;
  (if negb (cooldown_n a =? 0)%Z && (processed mod cooldown_n a =? 0)%Z
   then lift (sleep (cooldown_s a)) else ret tt) ;;
  lift (go_back_to_username w) ;;
  ret (Vars seen valid processed).

(** Lines 222-245, the [for] loop over the input rows. *)
Fixpoint loop (rows : list row) (v : vars) : MM vars :=
  match rows with
  | [] => ret v
  | r :: rest => v' <- body r v ;; loop rest v'
  end.

Definition main (input_csv : file) : MM unit :=
  let headless := negb (no_headless a) in
  lift (make_driver w headless) ;;
  loaded <- lift (load_login_page w) ;;
  if negb loaded then lift (driver_quit w) ;; raise (SystemExit 1) else
  prior <- open_output w ;;
  try_finally
    (loop (DictReader input_csv) (Vars ∅ (load_valid_emails prior) 0%Z))
    (try_except (lift (driver_quit w)) CException (ret tt)) ;;
  ret tt.
End Main.

End Colgate.

(** ** The Google validator, [email_validator.py] *)

Module Google.

Definition GOOGLE_SIGNIN_URL : string :=
  "https://accounts.google.com/signin/v2/identifier?hl=en&flowName=GlifWebSignIn&flowEntry=ServiceLogin".

Definition password_selector : locator :=
  (By_CSS_SELECTOR, "input[type='password'], input[name='Passwd']").

Definition scroll_into_view : string := "arguments[0].scrollIntoView({block:'center'});".

Section Probe.
Variable w : world.

Definition make_driver (headless : bool) : M unit :=
  try_except (webdriver_Chrome w) CTypeError (webdriver_Chrome w) ;;
  try_except (execute_cdp_cmd w "Page.addScriptToEvaluateOnNewDocument")
    CException (ret tt).

(** The [for] loop of [consent_click_if_present]; both [except]
    clauses [continue]. *)
Fixpoint consent_loop (sels : list string) : M unit :=
  match sels with
  | [] => ret tt
  | sel :: rest =>
      clicked <- try_except
                   (elem <- wait_until w 2000
                              (element_to_be_clickable w (By_CSS_SELECTOR, sel)) ;;
                    t <- text w elem ;;
                    let label := str_lower (str_strip t) in
                    if any_in ["i agree"; "accept"; "agree"] label
                    then click w elem ;; sleep 300 ;; ret true
                    else ret false)
                   CException
                   (ret false) ;;
      if clicked then ret tt else consent_loop rest
  end.

Definition consent_click_if_present : M unit :=
  consent_loop ["button#L2AGLb"; "form[action*='consent'] button"; "div[role='dialog'] button"].

Definition account_chooser_bypass : M unit :=
  try_except
    (chooser <- find_elements w
       (By_XPATH, "//div[text()='Use another account' or contains(., 'Use another account')]") ;;
     match chooser with
     | c :: _ => click w c ;; sleep 400
     | [] => ret tt
     end)
    CException
    (ret tt).

Definition detect_invalid_by_message : M bool :=
  page <- driver_page_source w ;;
  if str_in "Couldn't find your Google Account" page then ret true else
  if str_in "Enter a valid email" page || str_in "Enter an email or phone number" page
  then ret true else
  hit <- try_except
           (err <- find_elements w (By_CSS_SELECTOR, "div.o6cuMc") ;;
            any_m (fun e => t <- text w e ;; ret (str_in "Couldn't find" t)) err)
           CException
           (ret false) ;;
  if hit then ret true else
  hit2 <- try_except
            (error_div <- find_element w (By_CSS_SELECTOR, "div[aria-live='assertive']") ;;
             t1 <- text w error_div ;;
             if negb (truthy t1) then ret false else
             t2 <- text w error_div ;;
             if str_in "Couldn't find" t2 then ret true else
             t3 <- text w error_div ;;
             ret (str_in "Enter a valid" t3))
            CNoSuchElementException
            (ret false) ;;
  if hit2 then ret true else
  ret false.

Definition is_saml_flow : M bool :=
  url <- driver_current_url w ;;
  ret (str_in "/saml2/" url || str_in "/o/saml2/" url || str_in "/samlredirect" url
       || str_in "/sso/" url).

Definition at_password_step : M bool :=
  url <- driver_current_url w ;;
  if any_in [ "/v2/challenge/password"; "/signin/v2/challenge/pwd";
              "/v3/signin/challenge/pwd"; "/signin/challenge/pwd";
              "/challenge/password" ] url
  then ret true else
  found <- try_except
             (pwd <- find_elements w password_selector ;;
              ret (match pwd with [] => false | _ => true end))
             CException
             (ret false) ;;
  if found then ret true else
  ret false.

(** Lines 153-165: type the wrong password; [false] is the early
    [return None]. *)
Definition submit_wrong_password (timeout : Z) : M bool :=
  try_except
    (pwd_input <- wait_until w timeout (element_to_be_clickable w password_selector) ;;
     execute_script w scroll_into_view [] ;;
     try_except (click w pwd_input) CException (ret tt) ;;
     clear w pwd_input ;;
     send_keys w pwd_input "NotTheRightPassword123!!" ;;
     send_return w pwd_input ;;
     ret true)
    CTimeoutException
    (ret false).

(** Lines 167-177: what the page says once the wrong password is in. *)
Definition check_password_outcome : M (option bool) :=
  try_except
    (wait_until w 8000
       (truth (page <- driver_page_source w ;;
               if str_in "Wrong password" page then ret true
               else detect_invalid_by_message)))
    CTimeoutException
    (ret tt) ;;
  page <- driver_page_source w ;;
  if str_in "Wrong password" page || str_in "Enter your password" page
     || str_in "Try again" page
  then ret (Some true) else
  invalid <- detect_invalid_by_message ;;
  if invalid then ret (Some false) else
  ret None.

Definition submit_wrong_password_and_check (timeout : Z) : M (option bool) :=
  sent <- submit_wrong_password timeout ;;
  if negb sent then ret None else
  check_password_outcome.

(** The [for] loop of [find_identifier_input]. *)
Fixpoint find_identifier_loop (wait : Z) (sels : list locator) : M (option element) :=
  match sels with
  | [] => ret None
  | sel :: rest =>
      r <- try_except
             (elem <- wait_until w wait (element_to_be_clickable w sel) ;; ret (Some elem))
             CTimeoutException
             (ret None) ;;
      match r with
      | Some elem => ret (Some elem)
      | None => find_identifier_loop wait rest
      end
  end.

Definition find_identifier_input (wait : Z) : M (option element) :=
  find_identifier_loop wait
    [ (By_ID, "identifierId"); (By_CSS_SELECTOR, "input[type='email']");
      (By_NAME, "identifier") ].

Definition click_next_if_present : M unit :=
  try_except
    (btn <- wait_until w 3000 (element_to_be_clickable w (By_ID, "identifierNext")) ;;
     execute_script w scroll_into_view [] ;;
     click w btn)
    CException
    (ret tt).

(** A method call on a variable that may hold [None]. *)
Definition on_element {A} (email_input : option element) (method : element -> M A) : M A :=
  match email_input with
  | Some el => method el
  | None => raise AttributeError
  end.

(** Lines 215-242: fill the identifier in and submit it; [false] is
    the early [return None]. *)
Definition fill_and_submit (email : string) (per_item_timeout : Z) : M bool :=
  try_except
    (found <- find_identifier_input per_item_timeout ;;
     match found with
     | None => ret false
     | Some el =>
         execute_script w scroll_into_view [] ;;
         try_except (click w el) CException (ret tt) ;;
         email_input <- try_except
                          (clear w el ;; ret (Some el))
                          CElementNotInteractableException
                          (find_identifier_input per_item_timeout) ;;
         typed <- try_except
                    (on_element email_input (fun e => send_keys w e email) ;;
                     ret email_input)
                    CElementNotInteractableException
                    (again <- find_identifier_input per_item_timeout ;;
                     match again with
                     | None => ret None
                     | Some e => send_keys w e email ;; ret (Some e)
                     end) ;;
         match typed with
         | None => ret false
         | Some e =>
             send_return w e ;;
             sleep 300 ;;
             click_next_if_present ;;
             ret true
         end
     end)
    CTimeoutException
    (ret false).

(** Lines 246-267: classify what came back.  [Some true] is [True],
    [Some false] is [False], [None] is [None]. *)
Definition classify_response : M (option bool) :=
  saml <- is_saml_flow ;;
  if saml then ret None else
  invalid <- detect_invalid_by_message ;;
  if invalid then ret (Some false) else
  pwd <- at_password_step ;;
  if pwd then submit_wrong_password_and_check 10000 else
  try_except
    (wait_until w 8000
       (truth (p <- at_password_step ;;
               if p then ret true else
               i <- detect_invalid_by_message ;;
               if i then ret true else
               is_saml_flow)))
    CTimeoutException
    (ret tt) ;;
  saml <- is_saml_flow ;;
  if saml then ret None else
  invalid <- detect_invalid_by_message ;;
  if invalid then ret (Some false) else
  pwd <- at_password_step ;;
  if pwd then submit_wrong_password_and_check 10000 else
  ret None.

(** Lines 207-242: load the sign-in page and submit the identifier;
    [false] is the early [return None]. *)
Definition submit_identifier (email : string) : M bool :=
  loaded <- try_except (driver_get w GOOGLE_SIGNIN_URL ;; ret true)
              CWebDriverException (ret false) ;;
  if negb loaded then ret false else
  consent_click_if_present ;;
  account_chooser_bypass ;;
  fill_and_submit email 15000.

Definition validate_email_google (email : string) : M (option bool) :=
  submitted <- submit_identifier email ;;
  if negb submitted then ret None else
  sleep 1200 ;;
  classify_response.
End Probe.

(** The command line. *)
Record args : Type := Args {
  no_headless : bool;
  sleep_min : Z;
  sleep_max : Z;
  restart_n : Z;
}.

Definition fieldnames : list string := ["full_name"; "username"; "email"].

Definition write_valid (r : row) : MM unit := append_row fieldnames r.

(** The variables of the loop. *)
Record vars : Type := Vars {
  seen_emails : gset string;
  valid_emails : gset string;
  assigned_people : gset (string * string);
  total_checked : Z;
  total_valid : Z;
}.

Section Main.
Variable w : world.
Variable a : args.
(** [unidecode.unidecode], a third-party transliteration to ASCII. *)
Variable unidecode : string -> string.

Definition normalize_person_key (full_name username : option string) : string * string :=
  let name_key := str_lower (str_strip (unidecode (or_empty full_name))) in
  let user_key := str_lower (str_strip (or_empty username)) in
  (name_key, user_key).

(** Lines 294-301: the emails and the people of an earlier run. *)
Definition load_prior (f : option file) : gset string * gset (string * string) :=
  match f with
  | None => (∅, ∅)
  | Some recs =>
      foldl (fun '(valid_emails, assigned_people) r =>
               (valid_emails ∪ {[ str_strip (or_empty (row_get r "email" (Some ""))) ]},
                assigned_people ∪
                  {[ normalize_person_key (row_get r "full_name" (Some ""))
                                          (row_get r "username" (Some "")) ]}))
            (∅, ∅) (DictReader recs)
  end.

(** Lines 347-353: recycle the browser. *)
Definition restart_driver (headless : bool) : M unit :=
  try_except (driver_quit w) CException (ret tt) ;;
  sleep 2000 ;;
  make_driver w headless.

(** Lines 321-353, the body of the [for] loop; a [continue] hands the
    variables back as they are. *)
Definition body (r : row) (v : vars) : MM vars :=
  let email := str_strip (or_empty (row_get r "email" (Some ""))) in
  let full_name := or_empty (row_get r "full_name" (Some "")) in
  let username := or_empty (row_get r "username" (Some "")) in
  let person_key := normalize_person_key (Some full_name) (Some username) in
  if negb (truthy email) || bool_decide (email ∈ seen_emails v)
     || bool_decide (email ∈ valid_emails v)
  then ret v else
  if bool_decide (person_key ∈ assigned_people v) then ret v else
  let seen := seen_emails v ∪ {[ email ]} in
  verdict <- probe r (validate_email_google w email) ;;
  let total_checked := (total_checked v + 1)%Z in
  counted <- match verdict with
             | Some true =>
                 write_valid r ;;
                 ret (assigned_people v ∪ {[ person_key ]}, (total_valid v + 1)%Z)
             | Some false => ret (assigned_people v, total_valid v)
             | None =>
                 lift (sleep_uniform w (sleep_min a + 1000) (sleep_max a + 3000)) ;;
                 ret (assigned_people v, total_valid v)
             end ;;
  lift (sleep_uniform w (sleep_min a) (sleep_max a)) ;;
  (if negb (restart_n a =? 0)%Z && (total_checked mod restart_n a =? 0)%Z
   then lift (restart_driver (negb (no_headless a))) else ret tt) ;;
  ret (Vars seen (valid_emails v) (fst counted) total_checked (snd counted)).

(** Lines 320-353, the [for] loop over the input rows. *)
Fixpoint loop (rows : list row) (v : vars) : MM vars :=
  match rows with
  | [] => ret v
  | r :: rest => v' <- body r v ;; loop rest v'
  end.

Definition main (input_csv : file) : MM unit :=
  let headless := negb (no_headless a) in
  lift (make_driver w headless) ;;
  prior <- open_output w ;;
  let loaded := load_prior prior in
  let total_valid := Z.of_nat (size (fst loaded)) in
  try_finally
    (loop (DictReader input_csv) (Vars ∅ (fst loaded) (snd loaded) 0%Z total_valid))
    (try_except (lift (driver_quit w)) CException (ret tt)) ;;
  ret tt.
End Main.

End Google.

(** ** The portal validator, [pepperdine/pepp_directory_validator.py] *)

Module Pepperdine.

Definition PORTAL_URL : string := "https://vine.pepperdine.edu/login_only".

Section Probe.
Variable w : world.

Definition make_driver (headless : bool) : M unit :=
  try_except (webdriver_Chrome w) CTypeError (webdriver_Chrome w).

(** The snapshot files are not part of the model; reading the page
    for them is. *)
Definition save_snapshot (label : string) : M unit :=
  try_except (driver_page_source w ;; ret tt) CException (ret tt).

Definition try_switch_iframe : M unit :=
  try_except
    (switch_to_default_content w ;;
     iframes <- find_elements w (By_TAG_NAME, "iframe") ;;
     match iframes with
     | [f] => switch_to_frame w f
     | _ => ret tt
     end)
    CException
    (ret tt).

(** The inner [for by, sel] of [click_close_if_present]. *)
Fixpoint click_close_buttons (timeout : Z) (sels : list locator) : M bool :=
  match sels with
  | [] => ret false
  | sel :: rest =>
      clicked <- try_except
                   (btn <- wait_until w timeout (element_to_be_clickable w sel) ;;
                    click w btn ;; sleep 100 ;; ret true)
                   CException
                   (ret false) ;;
      if clicked then ret true else click_close_buttons timeout rest
  end.

Inductive scope : Type := scope_current | scope_default | scope_frame.

Fixpoint click_close_scopes (timeout : Z) (scopes : list scope) : M bool :=
  match scopes with
  | [] => ret false
  | sc :: rest =>
      try_except
        (match sc with
         | scope_current => ret tt
         | scope_default => switch_to_default_content w
         | scope_frame => try_switch_iframe
         end)
        CException
        (ret tt) ;;
      clicked <- click_close_buttons timeout
        [ (By_XPATH, "//button[normalize-space()='Close']");
          (By_XPATH, "//button[contains(translate(., 'CLOSE', 'close'), 'close')]");
          (By_XPATH, "//button[contains(., 'OK') or contains(., 'Ok') or contains(., 'Got it') or contains(., 'Dismiss')]");
          (By_CSS_SELECTOR, ".modal-footer .btn, .modal button.btn, .bootbox .btn-primary, .bootbox .btn") ] ;;
      if clicked then ret true else click_close_scopes timeout rest
  end.

Definition click_close_if_present : M bool :=
  click_close_scopes 2000 [scope_current; scope_default; scope_frame].

Fixpoint click_forgot_link (sels : list locator) : M bool :=
  match sels with
  | [] => ret false
  | sel :: rest =>
      clicked <- try_except
                   (el <- wait_until w 3000 (element_to_be_clickable w sel) ;;
                    click w el ;; sleep 200 ;; ret true)
                   CException
                   (ret false) ;;
      if clicked then ret true else click_forgot_link rest
  end.

Fixpoint open_forgot_url (urls : list string) : M bool :=
  match urls with
  | [] => ret false
  | url :: rest =>
      opened <- try_except
                  (driver_get w url ;;
                   wait_until w 4000 (presence_of_element_located w (By_TAG_NAME, "body")) ;;
                   ret true)
                  CException
                  (ret false) ;;
      if opened then ret true else open_forgot_url rest
  end.

Definition navigate_to_forgot (timeout : Z) : M bool :=
  switch_to_default_content w ;;
  driver_get w PORTAL_URL ;;
  loaded <- try_except
              (wait_until w timeout (presence_of_element_located w (By_TAG_NAME, "body")) ;;
               ret true)
              CTimeoutException
              (ret false) ;;
  if negb loaded then ret false else
  try_switch_iframe ;;
  clicked <- click_forgot_link
    [ (By_LINK_TEXT, "Forgot Password?");
      (By_PARTIAL_LINK_TEXT, "Forgot Password");
      (By_XPATH, "//a[contains(., 'Forgot Password')]");
      (By_XPATH, "//button[contains(., 'Forgot Password')]");
      (By_CSS_SELECTOR, "a[href*='forgot']") ] ;;
  if clicked then ret true else
  opened <- open_forgot_url
    [ "https://vine.pepperdine.edu/forgot_password";
      "https://vine.pepperdine.edu/forgot" ] ;;
  if opened then ret true else
  save_snapshot "no_forgot_link" ;;
  ret false.

Fixpoint locate_reset_loop (timeout : Z) (sels : list locator) : M (option element) :=
  match sels with
  | [] => ret None
  | sel :: rest =>
      r <- try_except
             (el <- wait_until w timeout (presence_of_element_located w sel) ;;
              ret (Some el))
             CTimeoutException
             (ret None) ;;
      match r with
      | Some el => ret (Some el)
      | None => locate_reset_loop timeout rest
      end
  end.

Definition locate_reset_input (timeout : Z) : M (option element) :=
  try_switch_iframe ;;
  locate_reset_loop timeout
    [ (By_CSS_SELECTOR, "input[type='email']"); (By_NAME, "email"); (By_ID, "email");
      (By_CSS_SELECTOR, "input[type='text']"); (By_NAME, "username");
      (By_ID, "username") ].

Fixpoint locate_submit_loop (sels : list locator) : M (option element) :=
  match sels with
  | [] => ret None
  | sel :: rest =>
      btns <- find_elements w sel ;;
      match btns with
      | b :: _ => ret (Some b)
      | [] => locate_submit_loop rest
      end
  end.

Definition locate_submit : M (option element) :=
  try_except
    (locate_submit_loop
       [ (By_CSS_SELECTOR, "button[type='submit']");
         (By_XPATH, "//button[contains(., 'Submit') or contains(., 'Next') or contains(., 'Continue') or contains(., 'Send')]");
         (By_XPATH, "//input[@type='submit']") ])
    CException
    (ret None).

Definition ensure_on_reset_page : M bool :=
  inp <- locate_reset_input 2000 ;;
  match inp with
  | Some _ => ret true
  | None =>
      reopened <- navigate_to_forgot 6000 ;;
      if reopened then
        again <- locate_reset_input 3000 ;;
        ret (match again with Some _ => true | None => false end)
      else ret false
  end.

Definition set_input_value_fast (el : element) (value : string) : M unit :=
  try_except
    (execute_script w "arguments[0].value = arguments[1];" [value])
    CException
    (try_except (clear w el) CException (ret tt) ;;
     send_keys w el value).

Definition error_hints : list string :=
  [ "not recognized"; "could not be found"; "no account"; "invalid"; "doesn't match";
    "does not exist"; "we could not find"; "we couldn't find"; "can't find"; "unknown";
    "sorry, we have no record of this email address."; "register on peppervine" ].

Definition success_hints : list string :=
  [ "email has been sent"; "instructions have been sent"; "reset link sent";
    "check your email"; "we have emailed"; "password reset"; "email was sent" ].

(** The [for a in alerts] of [submit_username_for_reset]: the verdict
    it returns from, if any. *)
Fixpoint scan_alerts (alerts : list element) : M (option bool) :=
  match alerts with
  | [] => ret None
  | al :: rest =>
      t <- text w al ;;
      let txt := str_lower (str_strip t) in
      if negb (truthy txt) then scan_alerts rest else
      if any_in [ "not recognized"; "not found"; "invalid"; "no account"; "unknown";
                  "no record of this email" ] txt
      then click_close_if_present ;; ret (Some false) else
      if any_in [ "reset"; "sent"; "check your email"; "emailed" ] txt
      then click_close_if_present ;; ret (Some true) else
      scan_alerts rest
  end.

Definition submit_username_for_reset (email : string) : M (option bool) :=
  on_page <- ensure_on_reset_page ;;
  if negb on_page then save_snapshot "cannot_open_reset" ;; ret None else
  inp <- locate_reset_input 3000 ;;
  match inp with
  | None => save_snapshot "no_input" ;; ret None
  | Some el =>
      set_input_value_fast el email ;;
      try_except (send_return w el) CException (ret tt) ;;
      btn <- locate_submit ;;
      match btn with
      | Some b => try_except (click w b) CException (ret tt)
      | None => ret tt
      end ;;
      sleep 800 ;;
      src <- driver_page_source w ;;
      let page_lower := str_lower src in
      if any_in success_hints page_lower then click_close_if_present ;; ret (Some true) else
      if any_in error_hints page_lower then click_close_if_present ;; ret (Some false) else
      found <- try_except
                 (alerts <- find_elements w
                    (By_CSS_SELECTOR, ".alert, .error, .message, [role='alert'], .modal") ;;
                  scan_alerts alerts)
                 CException
                 (ret None) ;;
      match found with
      | Some v => ret (Some v)
      | None => save_snapshot "ambiguous" ;; click_close_if_present ;; ret None
      end
  end.
End Probe.

(** The command line. *)
Record args : Type := Args {
  no_headless : bool;
  sleep_min : Z;
  sleep_max : Z;
  limit : Z;
}.

Definition fieldnames : list string := ["full_name"; "email"].

Definition write_valid (r : row) : MM unit := append_row fieldnames r.

(** The variables of the loop. *)
Record vars : Type := Vars {
  seen_emails : gset string;
  valid_emails : gset string;
  processed : Z;
}.

Section Main.
Variable w : world.
Variable a : args.

(** Lines 299-317, the body of the [for] loop after the [--limit]
    test; a [continue] hands the variables back as they are. *)
Definition body (r : row) (v : vars) : MM vars :=
  let email := str_strip (or_empty (row_get r "email" (Some ""))) in
  if negb (truthy email) || bool_decide (email ∈ seen_emails v) then ret v else
  let seen := seen_emails v ∪ {[ email ]} in
  verdict <- probe r (submit_username_for_reset w email) ;;
  valid <- match verdict with
           | Some true => write_valid r ;; ret (valid_emails v ∪ {[ email ]})
           | _ => ret (valid_emails v)
           end ;;
  let processed := (processed v + 1)%Z in
  lift (ensure_on_reset_page w) ;;
  lift (sleep_uniform w (sleep_min a) (sleep_max a)) ;;
  ret (Vars seen valid processed).

(** Lines 296-317, the [for] loop over the input rows, with its
    [break]. *)
Fixpoint loop (rows : list row) (v : vars) : MM vars :=
  match rows with
  | [] => ret v
  | r :: rest =>
      if negb (limit a =? 0)%Z && (limit a <=? processed v)%Z then ret v else
      v' <- body r v ;; loop rest v'
  end.

Definition main (input_csv : file) : MM unit :=
  let headless := negb (no_headless a) in
  lift (make_driver w headless) ;;
  reached <- lift (navigate_to_forgot w 10000) ;;
  if negb reached then lift (driver_quit w) ;; raise (SystemExit 1) else
  try_finally
    (loop (DictReader input_csv) (Vars ∅ ∅ 0%Z))
    (try_except (lift (driver_quit w)) CException (ret tt)) ;;
  ret tt.
End Main.

End Pepperdine.

(** ** The permutation generators, [permute_emails_generic.py] and
    [pepperdine/permute_emails.py] *)

(** The regular expressions of the two scripts work on single
    characters and on runs of them; they are given as the functions
    they compute. *)

Definition is_lower_letter (c : ascii) : bool :=
  let n := nat_of_ascii c in (97 <=? n) && (n <=? 122).

Definition is_upper_letter (c : ascii) : bool :=
  let n := nat_of_ascii c in (65 <=? n) && (n <=? 90).

Definition is_digit (c : ascii) : bool :=
  let n := nat_of_ascii c in (48 <=? n) && (n <=? 57).

(** The class [[\._-]]. *)
Definition is_separator (c : ascii) : bool :=
  Ascii.eqb c "."%char || Ascii.eqb c "_"%char || Ascii.eqb c "-"%char.

(** The class [[a-z0-9\._-]]. *)
Definition is_local_char (c : ascii) : bool :=
  is_lower_letter c || is_digit c || is_separator c.

(** [re.sub(r"[^...]", "", s)]: the characters of the class stay. *)
Fixpoint str_filter (keep : ascii -> bool) (s : string) : string :=
  match s with
  | EmptyString => EmptyString
  | String c s' => if keep c then String c (str_filter keep s') else str_filter keep s'
  end.

(** [re.sub(r"[^...]", " ", s)]: the characters outside the class
    become a space each. *)
Fixpoint str_blank (keep : ascii -> bool) (s : string) : string :=
  match s with
  | EmptyString => EmptyString
  | String c s' => String (if keep c then c else " "%char) (str_blank keep s')
  end.

(** [re.sub(r"[...]+", lambda m: m.group(0)[0], s)]: a run of
    characters of the class becomes its first character.  [in_run]
    says that the character before was of the class. *)
Fixpoint collapse_runs (cls : ascii -> bool) (in_run : bool) (s : string) : string :=
  match s with
  | EmptyString => EmptyString
  | String c s' =>
      if cls c
      then if in_run then collapse_runs cls true s' else String c (collapse_runs cls true s')
      else String c (collapse_runs cls false s')
  end.

(** [re.sub(r"[...]+", " ", s)]: a run of characters of the class
    becomes one space. *)
Fixpoint blank_runs (cls : ascii -> bool) (in_run : bool) (s : string) : string :=
  match s with
  | EmptyString => EmptyString
  | String c s' =>
      if cls c
      then if in_run then blank_runs cls true s' else String " "%char (blank_runs cls true s')
      else String c (blank_runs cls false s')
  end.

(** [s.strip(chars)] *)
Fixpoint lstrip_chars (strip : ascii -> bool) (s : string) : string :=
  match s with
  | EmptyString => EmptyString
  | String c s' => if strip c then lstrip_chars strip s' else s
  end.

Fixpoint rstrip_chars (strip : ascii -> bool) (s : string) : string :=
  match s with
  | EmptyString => EmptyString
  | String c s' =>
      match rstrip_chars strip s' with
      | EmptyString => if strip c then EmptyString else String c EmptyString
      | r => String c r
      end
  end.

Definition strip_chars (strip : ascii -> bool) (s : string) : string :=
  rstrip_chars strip (lstrip_chars strip s).

(** [s[:1]] *)
Definition str_first (s : string) : string :=
  match s with
  | EmptyString => EmptyString
  | String c _ => String c EmptyString
  end.

(** The maximal runs of characters outside the class [delim], in
    order.  [word] is the run being read, backwards. *)
Fixpoint split_runs (delim : ascii -> bool) (word : list ascii) (s : string) : list string :=
  let flush := match word with
               | [] => []
               | _ => [string_of_list_ascii (rev word)]
               end in
  match s with
  | EmptyString => flush
  | String c s' =>
      if delim c then flush ++ split_runs delim [] s' else split_runs delim (c :: word) s'
  end.

(** [s.split()] *)
Definition str_split (s : string) : list string := split_runs is_whitespace [] s.

(** The three lines that make a local part of a variant, the same in
    both scripts. *)
Definition clean_local_part (local_part : string) : string :=
  let lp := str_filter is_local_char local_part in
  let lp := collapse_runs is_separator false lp in
  strip_chars is_separator lp.

(** [candidates.add(f"{lp}@{domain}")] for the variants, in order. *)
Definition add_variants (domain : string) (variants : list string) : gset string :=
  foldl (fun candidates local_part =>
           let lp := clean_local_part local_part in
           if truthy lp then candidates ∪ {[ lp +:+ "@" +:+ domain ]} else candidates)
        ∅ variants.

(** The exceptions of the scripts that have no browser. *)
Inductive script_error : Type :=
  | EValueError
  | EAttributeError
  | EKeyError.

(** [read_rows], the same in both scripts.  It is a generator: what
    it yields is given in order, and an exception ends it. *)
Inductive item : Type :=
  | Yield (full_name username : string)
  | Throw (e : script_error).

(** The loop over the header: the last field whose lower-case name is
    one of [names]. *)
Definition find_key (names header : list string) : option string :=
  foldl (fun key k => if existsb (String.eqb (str_lower k)) names then Some k else key)
        None header.

(** [(row.get(key, "") or "").strip()].  The key may be [None]: under
    that key [csv.DictReader] keeps the fields of a record beyond the
    header, as a list, and a list has no [strip]. *)
Definition get_stripped (header : list string) (rec : record) (key : option string)
  : script_error + string :=
  match key with
  | Some k => inr (str_strip (or_empty (row_get (zip_fields ∅ header rec) k (Some ""))))
  | None => if (length header <? length rec)%nat then inl EAttributeError else inr ""
  end.

Fixpoint yield_rows (g : record -> script_error + (string * string)) (recs : list record)
  : list item :=
  match recs with
  | [] => []
  | rec :: recs' =>
      match g rec with
      | inl e => [Throw e]
      | inr (full_name, username) => Yield full_name username :: yield_rows g recs'
      end
  end.

Definition is_none (k : option string) : bool :=
  match k with None => true | Some _ => false end.

Definition read_rows (f : file) : list item :=
  let header := match f with [] => [] | fieldnames :: _ => fieldnames end in
  let recs := List.filter nonblank (tail f) in
  let full_name_key := find_key ["fullname"; "full_name"; "name"] header in
  let username_key := find_key ["username"; "user_name"; "handle"] header in
  let first_key := find_key ["first_name"; "firstname"; "first"] header in
  let last_key := find_key ["last_name"; "lastname"; "last"] header in
  if is_none full_name_key && truthy (or_empty first_key) && truthy (or_empty last_key)
  then
    yield_rows (fun rec =>
                  match get_stripped header rec first_key with
                  | inl e => inl e
                  | inr first =>
                      match get_stripped header rec last_key with
                      | inl e => inl e
                      | inr last =>
                          if negb (truthy first) || negb (truthy last)
                          then inr ("", "")
                          else inr (first +:+ " " +:+ last, "")
                      end
                  end) recs
  else
    let full_name_key :=
      if is_none full_name_key && existsb (String.eqb "fullName") header
      then Some "fullName" else full_name_key in
    let username_key :=
      if is_none username_key
      then (if existsb (String.eqb "username") header then Some "username" else None)
      else username_key in
    if is_none full_name_key && (is_none first_key || is_none last_key)
    then [Throw EValueError]
    else
      yield_rows (fun rec =>
                    match get_stripped header rec full_name_key with
                    | inl e => inl e
                    | inr full_name =>
                        match get_stripped header rec username_key with
                        | inl e => inl e
                        | inr username => inr (full_name, username)
                        end
                    end) recs.

(** The loop of [main], which the two scripts share but for the way a
    row gives a name ([name_of]) and the generator ([generate]).  The
    order in which Python goes through a set is not fixed:
    [set_order n s] is the order for the set [s] at the row [n]. *)
Record people : Type := People {
  unique_emails : gset string;
  output_rows : list (string * string * string);
  processed_people : Z;
}.

Section PeopleLoop.
Variable name_of : string -> string -> option string * option string.
Variable generate : option string -> option string -> gset string.
Variable set_order : nat -> gset string -> list string.
Variable limit : Z.

(** Lines 119-124 of [permute_emails_generic.py]: the addresses of one
    person. *)
Definition add_emails (full_name username : string) (emails : list string)
    (st : people * bool) : people * bool :=
  foldl (fun '(p, person_had_any) email =>
           if bool_decide (email ∈ unique_emails p) then (p, person_had_any)
           else ({| unique_emails := unique_emails p ∪ {[ email ]};
                    output_rows := output_rows p ++ [(full_name, username, email)];
                    processed_people := processed_people p |}, true))
        st emails.

Fixpoint people_loop (n : nat) (items : list item) (p : people) : script_error + people :=
  match items with
  | [] => inr p
  | Throw e :: _ => inl e
  | Yield full_name username :: rest =>
      if negb (limit =? 0)%Z && (limit <=? processed_people p)%Z then inr p
      else if negb (truthy full_name) && negb (truthy username)
      then people_loop (S n) rest p
      else
        let '(first, last) := name_of full_name username in
        if negb (truthy (or_empty first)) && negb (truthy (or_empty last))
        then people_loop (S n) rest p
        else
          let emails := generate first last in
          let '(p, person_had_any) :=
            add_emails full_name username (set_order n emails) (p, false) in
          people_loop (S n) rest
            (if person_had_any
             then {| unique_emails := unique_emails p; output_rows := output_rows p;
                     processed_people := (processed_people p + 1)%Z |}
             else p)
  end.

(** The end of [main]: the output is written when the loop is over, so
    a run that raises writes nothing. *)
Definition permute_main (input_csv : file) : script_error + file :=
  match people_loop 0 (read_rows input_csv)
          {| unique_emails := ∅; output_rows := []; processed_people := 0%Z |} with
  | inl e => inl e
  | inr p =>
      inr (["full_name"; "username"; "email"]
             :: map (fun '(full_name, username, email) => [full_name; username; email])
                  (output_rows p))
  end.
End PeopleLoop.

Module PermuteGeneric.
Section Unidecode.
(** [unidecode.unidecode], a third-party transliteration to ASCII. *)
Variable unidecode : string -> string.

Definition normalize_token (token : string) : string :=
  str_filter is_lower_letter (str_lower (unidecode token)).

Definition split_name (full_name_raw : string) : option string * option string :=
  if negb (truthy full_name_raw) then (None, None) else
  let ascii_name := unidecode full_name_raw in
  let ascii_name := blank_runs is_separator false ascii_name in
  let ascii_name :=
    str_blank (fun c => is_lower_letter c || is_upper_letter c || is_whitespace c)
      ascii_name in
  let parts := str_split (str_strip ascii_name) in
  match parts with
  | [] => (None, None)
  | [only_part] =>
      let only := normalize_token only_part in
      (if truthy only then Some only else None, None)
  | first_part :: _ =>
      let first := normalize_token first_part in
      let last := normalize_token (List.last parts "") in
      (if truthy first then Some first else None,
       if truthy last then Some last else None)
  end.
End Unidecode.

Definition generate_permutations (first last : option string) (domain : string)
  : gset string :=
  if negb (truthy (or_empty first)) && negb (truthy (or_empty last)) then ∅ else
  let f := or_empty first in
  let l := or_empty last in
  let fi := if truthy f then str_first f else "" in
  let li := if truthy l then str_first l else "" in
  let variants :=
    if truthy f && truthy l
    then [ f +:+ "." +:+ l; fi +:+ l; f +:+ li; f +:+ l ]
    else if truthy f then [f] else [] in
  add_variants domain variants.

(** The command line. *)
Record args : Type := Args {
  domain : string;
  limit : Z;
}.

Definition main (unidecode : string -> string) (set_order : nat -> gset string -> list string)
    (a : args) (input_csv : file) : script_error + file :=
  permute_main (fun full_name _ => split_name unidecode full_name)
    (fun first last => generate_permutations first last (domain a))
    set_order (limit a) input_csv.
End PermuteGeneric.

Module PermutePepperdine.
Definition PEPPERDINE_DOMAIN : string := "pepperdine.edu".

(** [normalize_token] and [split_name] are, character for character,
    those of [permute_emails_generic.py]. *)
Section Unidecode.
Variable unidecode : string -> string.

Definition normalize_token : string -> string := PermuteGeneric.normalize_token unidecode.

Definition split_name : string -> option string * option string :=
  PermuteGeneric.split_name unidecode.

(** [re.split(r"[\._\-]+|\d+", username)] cuts at the runs of
    separators and at the runs of digits; its non-empty pieces are the
    runs of the other characters.  The digits are [0] to [9], which are
    those of [\d] on ASCII text. *)
Definition split_username (username : string) : option string * option string :=
  if negb (truthy username) then (None, None) else
  let pieces :=
    map normalize_token (split_runs (fun c => is_separator c || is_digit c) [] username) in
  match pieces with
  | [] => (None, None)
  | [token] => (if truthy token then Some token else None, None)
  | first_piece :: _ =>
      (if truthy first_piece then Some first_piece else None,
       let last_piece := List.last pieces "" in
       if truthy last_piece then Some last_piece else None)
  end.

(** [a or b] *)
Definition py_or (a b : option string) : option string :=
  if truthy (or_empty a) then a else b.

Definition derive_name_from_row (full_name username : string)
  : option string * option string :=
  let '(first, last) := split_name full_name in
  if truthy (or_empty first) && truthy (or_empty last) then (first, last) else
  let '(u_first, u_last) := split_username username in
  (py_or first u_first, py_or last u_last).
End Unidecode.

Definition generate_permutations (first last : option string) (mode : string)
  : gset string :=
  if negb (truthy (or_empty first)) && negb (truthy (or_empty last)) then ∅ else
  let f := or_empty first in
  let l := or_empty last in
  let fi := if truthy f then str_first f else "" in
  let li := if truthy l then str_first l else "" in
  let base_variants :=
    if truthy f && truthy l
    then [ f +:+ "." +:+ l; fi +:+ l; f +:+ li; f +:+ l ]
         ++ (if String.eqb mode "broad"
             then [ l +:+ fi; f +:+ "_" +:+ l; fi +:+ "_" +:+ l; f +:+ "-" +:+ l; l +:+ "." +:+ f ]
             else [])
    else (if truthy f then [f] else [])
         ++ (if truthy l && String.eqb mode "broad" then [l] else []) in
  add_variants PEPPERDINE_DOMAIN base_variants.

(** The command line. *)
Record args : Type := Args {
  mode : string;
  limit : Z;
}.

Definition main (unidecode : string -> string) (set_order : nat -> gset string -> list string)
    (a : args) (input_csv : file) : script_error + file :=
  permute_main (derive_name_from_row unidecode)
    (fun first last => generate_permutations first last (mode a))
    set_order (limit a) input_csv.
End PermutePepperdine.

(** *** Well-formed local parts *)

Fixpoint str_forall (P : ascii -> bool) (s : string) : bool :=
  match s with
  | EmptyString => true
  | String c s' => P c && str_forall P s'
  end.

(** The first character is of the class. *)
Definition head_in (cls : ascii -> bool) (s : string) : bool :=
  match s with
  | EmptyString => false
  | String c _ => cls c
  end.

(** The last character is of the class. *)
Fixpoint last_in (cls : ascii -> bool) (s : string) : bool :=
  match s with
  | EmptyString => false
  | String c EmptyString => cls c
  | String _ s' => last_in cls s'
  end.

(** No two characters of the class are next to each other. *)
Fixpoint no_double (cls : ascii -> bool) (s : string) : bool :=
  match s with
  | EmptyString => true
  | String c s' => negb (cls c && head_in cls s') && no_double cls s'
  end.

(** A local part as the generators mean it: lower-case letters, digits
    and single separators, with a letter or a digit at both ends. *)
Definition well_formed_local (lp : string) : bool :=
  truthy lp && str_forall is_local_char lp && no_double is_separator lp
  && negb (head_in is_separator lp) && negb (last_in is_separator lp).

(** The four patterns of an address: first.last, flast, firstl,
    firstlast. *)
Definition four_patterns (f l domain : string) : gset string :=
  {[ (f +:+ "." +:+ l) +:+ "@" +:+ domain; (str_first f +:+ l) +:+ "@" +:+ domain;
     (f +:+ str_first l) +:+ "@" +:+ domain; (f +:+ l) +:+ "@" +:+ domain ]}.


(** An address the generators mean to make: a well-formed local part,
    [@], and the domain. *)
Definition address_at (domain e : string) : Prop :=
  exists lp, e = lp +:+ "@" +:+ domain /\ well_formed_local lp = true.

(** What the loop of [main] keeps, for the rows [items] yields and a
    generator of at most [k] addresses a person. *)
Definition people_inv (name_of : string -> string -> option string * option string)
    (generate : option string -> option string -> gset string) (limit : Z) (k : nat)
    (items : list item) (p : people) : Prop :=
  NoDup (map snd (output_rows p))
  /\ (forall e, In e (map snd (output_rows p)) <-> e ∈ unique_emails p)
  /\ (forall full_name username e,
        In (full_name, username, e) (output_rows p) ->
        In (Yield full_name username) items
        /\ e ∈ generate (fst (name_of full_name username)) (snd (name_of full_name username)))
  /\ (0 <= processed_people p)%Z
  /\ (Z.of_nat (length (output_rows p)) <= Z.of_nat k * processed_people p)%Z
  /\ ((0 < limit)%Z -> (processed_people p <= limit)%Z)
  /\ ((limit < 0)%Z -> output_rows p = []).

(** The addresses a person can get from the Pepperdine generator. *)
Definition per_person (mode : string) : nat :=
  if String.eqb mode "broad" then 9 else 4.

(** The records [main] writes for its rows. *)
Definition permuted_records (rows : list (string * string * string)) : file :=
  ["full_name"; "username"; "email"]
    :: map (fun '(full_name, username, email) => [full_name; username; email]) rows.

(** The header has a field whose lower-case name is one of [names]. *)
Definition has_column (names header : list string) : bool :=
  existsb (fun k => existsb (String.eqb (str_lower k)) names) header.

(** The header names the people: by a full-name field, or by a
    first-name and a last-name field. *)
Definition name_columns (header : list string) : bool :=
  has_column ["fullname"; "full_name"; "name"] header
  || (has_column ["first_name"; "firstname"; "first"] header
      && has_column ["last_name"; "lastname"; "last"] header).

(** The header has a full-name field and no user-name field, and a
    record is longer than the header. *)
Definition overlong_record (input_csv : file) : Prop :=
  let header := hd [] input_csv in
  has_column ["fullname"; "full_name"; "name"] header = true
  /\ has_column ["username"; "user_name"; "handle"] header = false
  /\ exists rec, In rec (tail input_csv) /\ length header < length rec.

(** An input of the permutation scripts, and one with a record longer
    than its header. *)
Definition people_csv : file :=
  [["Name"; "handle"]; ["Jane Doe"; "jdoe"]; []; ["jane doe"; "x"];
   ["Ann-Marie O'Neil"; ""]; [""; "bob.smith7"]].

Definition overlong_csv : file := [["name"]; ["Jane Doe"]; ["John Roe"; "x"]].

(** ** Merging the verified addresses, [merge_colgate_verified.py] *)

Module Merge.

(** [email.split("@", 1)[0]] *)
Fixpoint before_at (email : string) : string :=
  match email with
  | EmptyString => EmptyString
  | String c s => if Ascii.eqb c "@"%char then EmptyString else String c (before_at s)
  end.

(** What follows the first [@], if there is one. *)
Fixpoint after_at (email : string) : option string :=
  match email with
  | EmptyString => None
  | String c s => if Ascii.eqb c "@"%char then Some s else after_at s
  end.

(** The class [[A-Za-z0-9\.-]]. *)
Definition is_domain_char (c : ascii) : bool :=
  is_upper_letter c || is_lower_letter c || is_digit c
  || Ascii.eqb c "."%char || Ascii.eqb c "-"%char.

(** [[A-Za-z0-9\.-]+$]: one character of the class or more, up to the
    end or to a newline that ends the string. *)
Fixpoint domain_to_end (s : string) : bool :=
  match s with
  | EmptyString => false
  | String c s' =>
      is_domain_char c
      && match s' with
         | EmptyString => true
         | String n EmptyString => Ascii.eqb n (ascii_of_nat 10) || domain_to_end s'
         | _ => domain_to_end s'
         end
  end.

(** [EMAIL_RE.match(email)], as its first group: [[^@]+] takes what is
    before the first [@]. *)
Definition EMAIL_RE_match (email : string) : option string :=
  match after_at email with
  | Some rest =>
      if truthy (before_at email) && domain_to_end rest then Some (before_at email) else None
  | None => None
  end.

(** [re.split(r"\s+", full_name.strip())] without its empty pieces is
    [full_name.split()].  The white space is the ASCII one, which is
    that of [\s] and of [strip] on ASCII text. *)
Definition split_name (full_name : string) : string * string :=
  let parts := str_split (str_strip full_name) in
  match parts with
  | [] => ("", "")
  | first_part :: _ =>
      (str_lower first_part,
       if (1 <? length parts)%nat then str_lower (List.last parts "") else "")
  end.

Definition classify_local (local first last : string) : Z :=
  let l := str_lower local in
  if truthy first && truthy last && String.eqb l (first +:+ "." +:+ last) then 3%Z
  else if truthy first && truthy last && String.eqb l (first +:+ last) then 2%Z
  else if truthy first && truthy last && (1 <=? String.length first)%nat
          && String.eqb l (str_first first +:+ last) then 1%Z
  else if truthy first && truthy last && (1 <=? String.length last)%nat
          && String.eqb l (first +:+ str_first last) then 1%Z
  else if str_in "." l then 2%Z
  else 0%Z.

(** The key of [max] in [choose_best], for the name [(f, l)].  The
    length is that of the byte string, which is [len] on ASCII text. *)
Definition score (f l email : string) : Z * Z :=
  let local := match EMAIL_RE_match email with
               | Some group1 => group1
               | None => before_at email
               end in
  (classify_local local f l, Z.of_nat (String.length local)).

(** The order of Python on pairs. *)
Definition tuple_lt (a b : Z * Z) : bool :=
  (fst a <? fst b)%Z || ((fst a =? fst b)%Z && (snd a <? snd b)%Z).

(** [max([existing_email, candidate_email], key=score)]: the first of
    the greatest. *)
Definition choose_best (existing_email candidate_email full_name : string) : string :=
  let '(f, l) := split_name full_name in
  if tuple_lt (score f l existing_email) (score f l candidate_email)
  then candidate_email else existing_email.

(** A [dict] with its order, that of the first insertion of the keys. *)
Definition dict : Type := list (string * string).

Fixpoint dict_get (d : dict) (k : string) : option string :=
  match d with
  | [] => None
  | (k', v) :: d' => if String.eqb k k' then Some v else dict_get d' k
  end.

Fixpoint dict_set (d : dict) (k v : string) : dict :=
  match d with
  | [] => [(k, v)]
  | (k', v') :: d' => if String.eqb k k' then (k, v) :: d' else (k', v') :: dict_set d' k v
  end.

(** Lines 58-66, one row. *)
Definition merge_row (best_by_name : dict) (r : row) : dict :=
  let full := str_strip (or_empty (row_get r "full_name" (Some ""))) in
  let email := str_lower (str_strip (or_empty (row_get r "email" (Some "")))) in
  if negb (truthy full) || negb (truthy email) then best_by_name
  else match dict_get best_by_name full with
       | None => dict_set best_by_name full email
       | Some existing => dict_set best_by_name full (choose_best existing email full)
       end.

(** [files] are the files [glob] finds, in the order of [sorted]. *)
Definition best_of (files : list file) : dict :=
  foldl (fun best_by_name f => foldl merge_row best_by_name (DictReader f)) [] files.

(** The output file and the number returned. *)
Definition merge_verified (files : list file) : file * nat :=
  let best_by_name := best_of files in
  (["full_name"; "email"] :: map (fun '(full, email) => [full; email]) best_by_name,
   length best_by_name).
End Merge.

(** The name and the address [merge_verified] reads in a row, and the
    rows it does not skip. *)
Definition verified_pair (r : row) : string * string :=
  (str_strip (or_empty (row_get r "full_name" (Some ""))),
   str_lower (str_strip (or_empty (row_get r "email" (Some ""))))).

Definition verified_pairs (files : list file) : list (string * string) :=
  List.filter (fun '(full, email) => truthy full && truthy email)
    (map verified_pair (flat_map DictReader files)).

(** The key of [choose_best] for an address of the person [full]. *)
Definition score_of (full email : string) : Z * Z :=
  Merge.score (fst (Merge.split_name full)) (snd (Merge.split_name full)) email.

(** What the loop of [merge_verified] keeps, for the pairs [ps] read so
    far: one entry a name, which is one of the addresses read for the
    name and has the greatest key among them. *)
Definition merge_inv (d : Merge.dict) (ps : list (string * string)) : Prop :=
  NoDup (map fst d)
  /\ (forall full email,
        Merge.dict_get d full = Some email ->
        In (full, email) ps
        /\ forall email', In (full, email') ps ->
                          Merge.tuple_lt (score_of full email) (score_of full email') = false)
  /\ (forall full email', In (full, email') ps -> exists email, Merge.dict_get d full = Some email).

(** Two files of verified addresses. *)
Definition verified_csvs : list file :=
  [[["full_name"; "email"]; ["Jane Doe"; "jdoe@colgate.edu"];
    ["John Roe"; "jroe@colgate.edu"]];
   [["full_name"; "email"]; [" Jane Doe"; "Jane.Doe@colgate.edu"];
    ["Jane Doe"; "janedoe@colgate.edu"]; ["John Roe"; "johnr@colgate.edu"]]].

(** ** The batches, [split_batches.py] *)

Module SplitBatches.

Definition fieldnames : list string := ["full_name"; "username"; "email"].

(** A row of [csv.DictReader] with the fields of the record beyond the
    header, which the reader keeps under the key [None]; there is no
    such key when there are none. *)
Definition drow : Type := row * list string.

Definition read (f : file) : list drow :=
  match f with
  | [] => []
  | header :: recs =>
      map (fun rec => (zip_fields ∅ header rec, drop (length header) rec))
        (List.filter nonblank recs)
  end.

(** [people.setdefault(k, []).append(r)]; the order of a [dict] is
    that of the first insertion of its keys. *)
Fixpoint setdefault_append (people : list (option string * list drow))
    (k : option string) (r : drow) : list (option string * list drow) :=
  match people with
  | [] => [(k, [r])]
  | (k', rs) :: people' =>
      if bool_decide (k = k') then (k', rs ++ [r]) :: people'
      else (k', rs) :: setdefault_append people' k r
  end.

(** Lines 8-9.  [r['full_name']] raises [KeyError] when the row has no
    such field. *)
Fixpoint group (rows : list drow) (people : list (option string * list drow))
  : script_error + list (option string * list drow) :=
  match rows with
  | [] => inr people
  | r :: rows' =>
      match fst r !! "full_name" with
      | None => inl EKeyError
      | Some k => group rows' (setdefault_append people k r)
      end
  end.

(** Lines 13-14, from the index [idx] on. *)
Fixpoint deal (idx : nat) (people : list (option string * list drow))
    (batches : list (list drow)) : list (list drow) :=
  match people with
  | [] => batches
  | (_, rs) :: people' => deal (S idx) people' (alter (fun b => b ++ rs) (idx mod 11) batches)
  end.

(** [csv.DictWriter] refuses a row with a key that is not one of its
    field names. *)
Definition wrong_fields (r : drow) : bool :=
  negb (bool_decide (dom (fst r) ⊆ list_to_set fieldnames))
  || match snd r with [] => false | _ => true end.

(** [w.writerows(batch)]: the records written, and the exception if
    one is raised. *)
Fixpoint writerows (batch : list drow) : list record * option script_error :=
  match batch with
  | [] => ([], None)
  | r :: batch' =>
      if wrong_fields r then ([], Some EValueError)
      else let '(recs, e) := writerows batch' in (writerow fieldnames (fst r) :: recs, e)
  end.

(** Lines 16-22: the files written, in order; an exception ends the
    run. *)
Fixpoint write_batches (batches : list (list drow)) : list file * option script_error :=
  match batches with
  | [] => ([], None)
  | batch :: batches' =>
      let '(recs, e) := writerows batch in
      match e with
      | Some err => ([fieldnames :: recs], Some err)
      | None =>
          let '(files, e') := write_batches batches' in
          ((fieldnames :: recs) :: files, e')
      end
  end.

(** The batches of line 14. *)
Definition batches_of (people : list (option string * list drow)) : list (list drow) :=
  deal 0 people (replicate 11 []).

(** The script: the files it writes and the exception it ends with,
    if any. *)
Definition script (input : file) : list file * option script_error :=
  match group (read input) [] with
  | inl e => ([], Some e)
  | inr people => write_batches (batches_of people)
  end.
End SplitBatches.

(** What the grouping keeps: one entry a name, whose rows have that
    name, and all the rows read so far. *)
Definition group_inv (people : list (option string * list SplitBatches.drow))
    (rows : list SplitBatches.drow) : Prop :=
  NoDup (map fst people)
  /\ (forall k rs r, In (k, rs) people -> In r rs -> fst r !! "full_name" = Some k)
  /\ concat (map snd people) ≡ₚ rows.

(** The file of a batch. *)
Definition batch_file (batch : list row) : file :=
  SplitBatches.fieldnames :: map (writerow SplitBatches.fieldnames) batch.

(** An input of the script: twelve people, the first with two rows. *)
Definition twelve_people_csv : file :=
  ["full_name"; "email"]
    :: ["p0"; "a@x.edu"] :: ["p1"; "b@x.edu"] :: ["p0"; "c@x.edu"]
    :: map (fun n => [n; "d@x.edu"])
         ["p2"; "p3"; "p4"; "p5"; "p6"; "p7"; "p8"; "p9"; "p10"; "p11"].

(** ** Statements about pages and oracles *)

(** A sequence of calls of a sink. *)
Fixpoint write_all (write_valid : row -> MM unit) (rs : list row) : MM unit :=
  match rs with
  | [] => ret tt
  | r :: rest => write_valid r ;; write_all write_valid rest
  end.

(** The header a sink writes in front of its row: none unless the file
    is empty. *)
Definition header_for (fieldnames : list string) (f : option file) : list record :=
  match contents f with
  | [] => [fieldnames]
  | _ => []
  end.

(** [ensures t0 m R]: started at or after tick [t0], the computation
    [m] ends with a result in [R], at or after [t0]. *)
Definition ensures (t0 : nat) {A} (m : M A) (R : res A -> Prop) : Prop :=
  forall s, t0 <= clock s ->
    exists r s', m s = (r, s') /\ R r /\ t0 <= clock s'.

(** The results that are a value in [P]. *)
Definition returns {A} (P : A -> Prop) : res A -> Prop :=
  fun r => exists a, r = Ok a /\ P a.

(** The results that are a value or a [TimeoutException]. *)
Definition may_time_out {A} : res A -> Prop :=
  fun r => match r with
           | Ok _ => True
           | Raise e => e = TimeoutException
           end.

(** The results of a poll: a value, or "no such element". *)
Definition may_miss {A} : res A -> Prop :=
  fun r => match r with
           | Ok _ => True
           | Raise e => e = NoSuchElementException
           end.

(** A computation that returns from every state. *)
Definition total {S A} (m : Mon S A) : Prop :=
  forall s, exists a s', m s = (Ok a, s').

(** From tick [t0] on no driver call raises and every page satisfies [Q]. *)
Definition calm (w : world) (t0 : nat) (Q : page -> Prop) : Prop :=
  forall t, t0 <= t -> fault_at w t = None /\ Q (page_at w t).

(** The events of browsing: all but the launch and the quit of a
    browser and the two-second pause between them. *)
Definition browsing_event (ev : event) : bool :=
  match ev with
  | Launch | Quit => false
  | Sleep ms => negb (ms =? 2000)%Z
  | _ => true
  end.

(** [emits P m]: the computation [m] adds events in [P] only, and does
    not turn the clock back. *)
Definition emits (P : event -> bool) {A} (m : M A) : Prop :=
  forall s, exists evs,
    trace (snd (m s)) = trace s ++ evs
    /\ forallb P evs = true
    /\ clock s <= clock (snd (m s)).

Abbreviation browsing := (emits browsing_event).

(** The pause of a restart, and how many of them a trace has. *)
Definition restart_pause (ev : event) : bool :=
  match ev with
  | Sleep ms => (ms =? 2000)%Z
  | _ => false
  end.

Definition restarts (tr : list event) : nat := length (List.filter restart_pause tr).

(** All events but that pause. *)
Definition no_pause (ev : event) : bool := negb (restart_pause ev).

(** How many probes a ghost log has. *)
Definition probes (l : list gevent) : nat :=
  length (List.filter (fun g => match g with Probed _ => true | Wrote _ => false end) l).

(** A step of a run that leaves the output file and the ghost log as
    they are. *)
Definition keeps_files {A} (m : MM A) : Prop :=
  forall st, output (snd (m st)) = output st /\ log (snd (m st)) = log st.

(** A step of a run that neither probes nor pauses for a restart. *)
Definition steady {A} (m : MM A) : Prop :=
  forall st r st', m st = (r, st') ->
    restarts (trace (browser st')) = restarts (trace (browser st))
    /\ probes (log st') = probes (log st).

(** The rows a ghost log probed, and those it wrote, in order. *)
Fixpoint probed_rows (l : list gevent) : list row :=
  match l with
  | [] => []
  | Probed r :: l' => r :: probed_rows l'
  | Wrote _ :: l' => probed_rows l'
  end.

Fixpoint written_rows (l : list gevent) : list row :=
  match l with
  | [] => []
  | Wrote r :: l' => r :: written_rows l'
  | Probed _ :: l' => written_rows l'
  end.

(** The email of a row as the three loops read it. *)
Definition email_of (r : row) : string :=
  str_strip (or_empty (row_get r "email" (Some ""))).

(** What an iteration that probes the row [r] adds to the ghost log. *)
Definition probe_tail (r : row) (written : bool) : list gevent :=
  if written then [Probed r; Wrote r] else [Probed r].

(** What an iteration that probes the row [r] does to the files: it
    notes the probe; if [written], it also appends the row to the
    output and notes that. *)
Definition probe_effect (fieldnames : list string) (r : row) (written : bool)
    (st st' : mstate) : Prop :=
  log st' = log st ++ probe_tail r written
  /\ output st' = if written
                  then Some (contents (output st) ++ header_for fieldnames (output st)
                             ++ [writerow fieldnames r])
                  else output st.

(** The output file after a run whose ghost log is [l], from the file
    [out0]: untouched if nothing was written, else [out0], the header
    if [out0] was empty, and one record for each row written. *)
Definition output_after (fieldnames : list string) (out0 : option file) (l : list gevent)
  : option file :=
  match written_rows l with
  | [] => out0
  | ws => Some (contents out0 ++ header_for fieldnames out0 ++ map (writerow fieldnames) ws)
  end.

Section Dedup.
Context {K : Type}.
Variable key : row -> K.

(** The probes of a log are for distinct keys, all in [seen] and none
    in [prior], and the rows written are among the rows probed, in
    order. *)
Definition log_inv (seen prior : K -> Prop) (l : list gevent) : Prop :=
  NoDup (map key (probed_rows l))
  /\ (forall r, In r (probed_rows l) -> seen (key r) /\ ~ prior (key r))
  /\ written_rows l `sublist_of` probed_rows l.

(** No row probed after a row was written has the key of that row. *)
Fixpoint none_after_write (l : list gevent) : Prop :=
  match l with
  | [] => True
  | Probed _ :: l' => none_after_write l'
  | Wrote r :: l' =>
      (forall r', In r' (probed_rows l') -> key r' <> key r) /\ none_after_write l'
  end.
End Dedup.

(** The person of a row as the Google loop reads it. *)
Definition person_of (unidecode : string -> string) (r : row) : string * string :=
  Google.normalize_person_key unidecode
    (Some (or_empty (row_get r "full_name" (Some ""))))
    (Some (or_empty (row_get r "username" (Some "")))).

(** The rows of an output file that may not exist. *)
Definition prior_rows (out : option file) : list row := DictReader (contents out).

(** What holds of a run of the Google loop, with the sets of the loop
    and the output file [out0] the run started from. *)
Definition google_inv (u : string -> string) (out0 : option file)
    (seen valid : gset string) (assigned : gset (string * string)) (st : mstate) : Prop :=
  log_inv email_of (fun k => k ∈ seen) (fun k => k ∈ valid) (log st)
  /\ (forall r0, In r0 (prior_rows out0) -> email_of r0 ∈ valid)
  /\ (forall r0, In r0 (prior_rows out0) -> person_of u r0 ∈ assigned)
  /\ (forall r, In r (written_rows (log st)) -> person_of u r ∈ assigned)
  /\ (forall r0 r, In r0 (prior_rows out0) -> In r (probed_rows (log st)) ->
                   person_of u r <> person_of u r0)
  /\ none_after_write (person_of u) (log st)
  /\ NoDup (map (person_of u) (written_rows (log st)))
  /\ output st = output_after Google.fieldnames out0 (log st).

(** The key of the Microsoft loop: the email, lower-cased. *)
Definition lowered_email (r : row) : string := str_lower (email_of r).

(** What holds of a run of the Microsoft loop. *)
Definition colgate_inv (out0 : option file) (seen valid : gset string) (st : mstate) : Prop :=
  log_inv lowered_email (fun k => k ∈ seen) (fun k => k ∈ Colgate.load_valid_emails out0)
    (log st)
  /\ Colgate.load_valid_emails out0 ⊆ valid
  /\ (forall r, In r (probed_rows (log st)) -> truthy (email_of r) = true)
  /\ output st = output_after Colgate.fieldnames out0 (log st).

(** What holds of a run of the portal loop. *)
Definition pepperdine_inv (out0 : option file) (seen : gset string) (st : mstate) : Prop :=
  log_inv email_of (fun k => k ∈ seen) (fun _ => False) (log st)
  /\ output st = output_after Pepperdine.fieldnames out0 (log st).

(** No driver call ever raises of itself: what is left to raise is the
    expiry of a wait and an element that is not there. *)
Definition fault_free (w : world) : Prop := calm w 0 (fun _ => True).

(** The sleep arguments of a run are durations [time.sleep] takes:
    numbers (not [nan], not [inf]) that are neither negative nor
    beyond [SLEEP_MAX]. *)
Definition colgate_sleeps (a : Colgate.args) : bool :=
  sleepable (Colgate.sleep_min a) && sleepable (Colgate.sleep_max a)
  && sleepable (Colgate.cooldown_s a).

Definition google_sleeps (a : Google.args) : bool :=
  sleepable (Google.sleep_min a) && sleepable (Google.sleep_max a)
  && sleepable (Google.sleep_min a + 1000) && sleepable (Google.sleep_max a + 3000).

Definition pepperdine_sleeps (a : Pepperdine.args) : bool :=
  sleepable (Pepperdine.sleep_min a) && sleepable (Pepperdine.sleep_max a).

Abbreviation always_returns m := (ensures 0 m (returns (fun _ => True))).
Abbreviation returns_or_times_out m := (ensures 0 m may_time_out).

(** *** The Microsoft page *)

(** A password input is visible. *)
Definition ms_password_visible (p : page) : bool :=
  existsb el_displayed (find_all p (By_ID, "i0118")).

(** An element of an error region that shows text. *)
Definition shows_text (e : element) : bool :=
  truthy (str_strip (el_text e)) && el_displayed e.

(** No error region shows any text. *)
Definition ms_no_error_text (p : page) : bool :=
  forallb (fun sel => forallb (fun e => negb (shows_text e)) (find_all p sel))
    Colgate.error_selectors.

(** The text of an element reads as a known "no such account" message. *)
Definition ms_known_error (e : element) : bool :=
  any_in Colgate.invalid_hints (str_lower (str_strip (el_text e))).

(** No error region shows a known message. *)
Definition ms_no_known_error (p : page) : bool :=
  forallb (fun sel => forallb (fun e => negb (shows_text e && ms_known_error e))
                        (find_all p sel))
    Colgate.error_selectors.

(** Some error region shows a known message. *)
Definition ms_known_error_shown (p : page) : bool := negb (ms_no_known_error p).

(** Neither signal: no visible password input, no known message. *)
Definition ms_quiet (p : page) : bool :=
  negb (ms_password_visible p) && ms_no_known_error p.

(** The text [find_username_error_text] reads off a page that does not
    change: the first text shown, in the order of the selectors. *)
Fixpoint first_shown (els : list element) : option string :=
  match els with
  | [] => None
  | e :: rest => if shows_text e then Some (str_strip (el_text e)) else first_shown rest
  end.

Fixpoint shown_error_in (p : page) (sels : list locator) : string :=
  match sels with
  | [] => ""
  | sel :: rest =>
      match first_shown (find_all p sel) with
      | Some txt => txt
      | None => shown_error_in p rest
      end
  end.

Definition ms_shown_error (p : page) : string := shown_error_in p Colgate.error_selectors.

(** *** The Google page *)

(** The address is that of a SAML or SSO redirect. *)
Definition g_saml (p : page) : bool :=
  let url := current_url p in
  str_in "/saml2/" url || str_in "/o/saml2/" url || str_in "/samlredirect" url
  || str_in "/sso/" url.

(** A known "no such account" message, in the source of the page or in
    one of its two error regions. *)
Definition g_invalid_source (p : page) : bool :=
  let src := page_source p in
  str_in "Couldn't find your Google Account" src
  || str_in "Enter a valid email" src || str_in "Enter an email or phone number" src.

Definition g_invalid_region (p : page) : bool :=
  existsb (fun e => str_in "Couldn't find" (el_text e))
    (find_all p (By_CSS_SELECTOR, "div.o6cuMc")).

Definition g_invalid_live (p : page) : bool :=
  match find_all p (By_CSS_SELECTOR, "div[aria-live='assertive']") with
  | e :: _ =>
      truthy (el_text e)
      && (str_in "Couldn't find" (el_text e) || str_in "Enter a valid" (el_text e))
  | [] => false
  end.

Definition g_invalid_message (p : page) : bool :=
  g_invalid_source p || g_invalid_region p || g_invalid_live p.

(** A password field is on the page; one of them is visible. *)
Definition g_password_field (p : page) : bool :=
  match find_all p Google.password_selector with
  | [] => false
  | _ => true
  end.

Definition g_password_visible (p : page) : bool :=
  existsb el_displayed (find_all p Google.password_selector).

(** The page answers a password: "wrong password", "try again" or the
    prompt for the password. *)
Definition g_password_reply (p : page) : bool :=
  let src := page_source p in
  str_in "Wrong password" src || str_in "Enter your password" src || str_in "Try again" src.

(** The verdict read off the page that answers the wrong password. *)
Definition g_password_verdict (p : page) : option bool :=
  if g_password_reply p then Some true
  else if g_invalid_message p then Some false
  else None.

(** Neither signal: no visible password field, no known message. *)
Definition g_quiet (p : page) : bool :=
  negb (g_password_visible p) && negb (g_invalid_message p).

(** A message about a wrong password in the source of the page: two of
    the three strings of [g_password_reply], without the prompt. *)
Definition g_wrong_password_message (p : page) : bool :=
  let src := page_source p in
  str_in "Wrong password" src || str_in "Try again" src.

(** *** The bounded waits for a signal *)

(** The wait [Colgate.classify_response] starts with
    (colgate_validator.py, lines 155-158). *)
Definition colgate_signal_wait (w : world) : M unit :=
  wait_until w 10000
    (truth (p <- Colgate.at_password_step w ;;
            if p then ret true else
            t <- Colgate.find_username_error_text w ;; ret (truthy t))).

(** The three tests [Google.classify_response] makes before it waits
    (email_validator.py, lines 246-253); [true] when one of them
    settles the probe. *)
Definition google_first_look (w : world) : M bool :=
  saml <- Google.is_saml_flow w ;;
  if saml then ret true else
  invalid <- Google.detect_invalid_by_message w ;;
  if invalid then ret true else
  Google.at_password_step w.

(** The wait that follows them (email_validator.py, lines 255-258). *)
Definition google_signal_wait (w : world) : M unit :=
  wait_until w 8000
    (truth (p <- Google.at_password_step w ;;
            if p then ret true else
            i <- Google.detect_invalid_by_message w ;;
            if i then ret true else
            Google.is_saml_flow w)).

(** *** Pages without the input the probe looks for *)

(** No email input of the Microsoft page is displayed. *)
Definition ms_username_hidden (p : page) : bool :=
  forallb (fun sel => negb (existsb el_displayed (find_all p sel)))
    [ (By_ID, "i0116"); (By_NAME, "loginfmt"); (By_CSS_SELECTOR, "input[type='email']") ].

(** What [element_to_be_clickable] finds for the selector [l]. *)
Definition clickable (p : page) (l : locator) : bool :=
  match find_all p l with
  | e :: _ => el_displayed e && el_enabled e
  | [] => false
  end.

(** None of the identifier inputs of the Google page can be clicked. *)
Definition g_identifier_missing (p : page) : bool :=
  forallb (fun sel => negb (clickable p sel))
    [ (By_ID, "identifierId"); (By_CSS_SELECTOR, "input[type='email']");
      (By_NAME, "identifier") ].

(** How a run of the Microsoft validator starts: the browser is
    launched and the login page loaded. *)
Definition colgate_startup (w : world) (a : Colgate.args) : M bool :=
  Colgate.make_driver w (negb (Colgate.no_headless a)) ;; Colgate.load_login_page w.

(** *** Runs and their files *)

(** The file a sink leaves when it starts without one and writes the
    rows [ws]: nothing, or the header and one record for each row. *)
Definition written_file (fieldnames : list string) (ws : list row) : option file :=
  match ws with
  | [] => None
  | _ => Some (fieldnames :: map (writerow fieldnames) ws)
  end.

(** A row as [csv.DictReader] reads it back from the record a sink
    wrote for it. *)
Definition read_back (fieldnames : list string) (r : row) : row :=
  zip_fields ∅ fieldnames (writerow fieldnames r).

(** The rows of an input file that have an email: the candidates. *)
Definition has_email (r : row) : bool := truthy (email_of r).

Definition candidates (input_csv : file) : list row :=
  List.filter has_email (DictReader input_csv).

(** What an iteration of a loop does to the ghost log: nothing, or it
    notes a probe of its row, which then has an email. *)
Definition probes_own_row (r : row) (st st' : mstate) : Prop :=
  log st' = log st
  \/ (exists written, log st' = log st ++ probe_tail r written)
     /\ has_email r = true.

(** The driver raises exceptions, not [SystemExit]. *)
Definition ordinary (w : world) : Prop :=
  forall t c, fault_at w t <> Some (SystemExit c).

(** A result that is a value, or an exception that [except Exception]
    catches. *)
Definition contained {A} : res A -> Prop :=
  fun r => match r with
           | Ok _ => True
           | Raise e => isinstance e CException = true
           end.

Abbreviation raises_exceptions_only m := (ensures 0 m contained).

(** How a run of the portal validator starts. *)
Definition pepperdine_startup (w : world) (a : Pepperdine.args) : M bool :=
  Pepperdine.make_driver w (negb (Pepperdine.no_headless a)) ;;
  Pepperdine.navigate_to_forgot w 10000.

(** *** What a probe does to the browser *)

(** The events of [type_like_human]: a key and a pause for every
    character. *)
Fixpoint typing (text : string) : list event :=
  match text with
  | EmptyString => []
  | String ch rest =>
      SendKeys (String ch EmptyString) :: SleepUniform 70 130 :: typing rest
  end.

(** The text the key strokes of a trace spell. *)
Fixpoint keys_sent (evs : list event) : string :=
  match evs with
  | [] => ""
  | SendKeys k :: rest => k ++ keys_sent rest
  | _ :: rest => keys_sent rest
  end.

(** The events of moving about: a click, a page load, a pause. *)
Definition navigation_event (ev : event) : bool :=
  match ev with
  | Click | Get _ | Sleep _ => true
  | _ => false
  end.

(** No event at all. *)
Definition no_event (ev : event) : bool := false.

Abbreviation silent := (emits no_event).

(** *** The portal page *)

(** The selectors [locate_reset_input] tries, in order. *)
Definition pepp_reset_selectors : list locator :=
  [ (By_CSS_SELECTOR, "input[type='email']"); (By_NAME, "email"); (By_ID, "email");
    (By_CSS_SELECTOR, "input[type='text']"); (By_NAME, "username");
    (By_ID, "username") ].

(** What the alerts of a page say: the first alert whose text names a
    failure or a success decides, a failure first. *)
Fixpoint pepp_alert_verdict (alerts : list element) : option bool :=
  match alerts with
  | [] => None
  | al :: rest =>
      let txt := str_lower (str_strip (el_text al)) in
      if negb (truthy txt) then pepp_alert_verdict rest else
      if any_in [ "not recognized"; "not found"; "invalid"; "no account"; "unknown";
                  "no record of this email" ] txt
      then Some false else
      if any_in [ "reset"; "sent"; "check your email"; "emailed" ] txt
      then Some true else
      pepp_alert_verdict rest
  end.

(** The selector of the alerts [submit_username_for_reset] reads. *)
Definition pepp_alert_selector : locator :=
  (By_CSS_SELECTOR, ".alert, .error, .message, [role='alert'], .modal").

(** The verdict read off the page that answers a submission, from its
    source and its alerts: a success hint in the source, else an error
    hint in the source, else what the alerts say.  The source is
    lower-cased as ASCII text is. *)
Definition pepp_verdict_of (src : string) (alerts : list element) : option bool :=
  let page_lower := str_lower src in
  if any_in Pepperdine.success_hints page_lower then Some true
  else if any_in Pepperdine.error_hints page_lower then Some false
  else pepp_alert_verdict alerts.

(** A page that has no reset input. *)
Definition pepp_no_input (p : page) : Prop :=
  forall sel, In sel pepp_reset_selectors -> find_all p sel = [].

(** A page that has the reset input under the selector [sel], the
    source [src] and the alerts [alerts]. *)
Definition pepp_answer (sel : locator) (src : string) (alerts : list element) (p : page)
  : Prop :=
  find_all p sel <> [] /\ page_source p = src /\ find_all p pepp_alert_selector = alerts.

(** ** Example pages and oracles *)

(** A page given by the elements each selector finds. *)
Definition example_dom (l : list (locator * list element)) : locator -> list element :=
  fun k =>
    match List.find (fun kv => bool_decide (fst kv = k)) l with
    | Some kv => snd kv
    | None => []
    end.

Definition shown (t : string) : element := Element t true true.

(** An oracle that never raises: it shows [before] up to tick [n], and
    [after] from then on. *)
Definition example_world (n : nat) (before after : page) : world :=
  {| page_at := fun t => if t <? n then before else after;
     fault_at := fun _ => None;
     polls := fun _ => 1;
     drawn_at := fun _ => 0%Z;
     load_fault := None |}.

(** The same with three pages: [first] up to tick [n1], [second] up to
    tick [n2], [third] from then on. *)
Definition example_world3 (n1 n2 : nat) (first second third : page) : world :=
  {| page_at := fun t => if t <? n1 then first else if t <? n2 then second else third;
     fault_at := fun _ => None;
     polls := fun _ => 1;
     drawn_at := fun _ => 0%Z;
     load_fault := None |}.

(** An oracle like [example_world], but the driver call of tick [k]
    raises [e]. *)
Definition faulty_world (n : nat) (before after : page) (k : nat) (e : exn) : world :=
  {| page_at := fun t => if t <? n then before else after;
     fault_at := fun t => if t =? k then Some e else None;
     polls := fun _ => 1;
     drawn_at := fun _ => 0%Z;
     load_fault := None |}.

(** An oracle like [example_world], but the output file of an earlier
    run cannot be read: opening it raises [e]. *)
Definition unreadable_world (n : nat) (before after : page) (e : exn) : world :=
  {| page_at := fun t => if t <? n then before else after;
     fault_at := fun _ => None;
     polls := fun _ => 1;
     drawn_at := fun _ => 0%Z;
     load_fault := Some e |}.

(** How many times a trace launches a browser. *)
Definition launches (tr : list event) : nat :=
  length (List.filter (fun ev => match ev with Launch => true | _ => false end) tr).

Definition start : state := {| clock := 0; trace := [] |}.

Definition jane : row :=
  zip_fields ∅ ["full_name"; "username"; "email"] ["Jane Doe"; "jdoe"; "jane.doe@x.edu"].

Definition fresh_run : mstate := {| browser := start; output := None; log := [] |}.

Definition ms_username_page : page :=
  Page "https://login.microsoftonline.com/" ""
    (example_dom [ ((By_TAG_NAME, "body"), [shown ""]); ((By_ID, "i0116"), [shown ""]) ]).

Definition ms_password_page : page :=
  Page "https://login.microsoftonline.com/" ""
    (example_dom [ ((By_TAG_NAME, "body"), [shown ""]);
                   ((By_ID, "i0118"), [shown ""]);
                   ((By_ID, "loginHeader"), [shown "Enter password"]) ]).

Definition ms_blank_page : page :=
  Page "https://login.microsoftonline.com/" ""
    (example_dom [ ((By_TAG_NAME, "body"), [shown ""]) ]).

Definition ms_error_page : page :=
  Page "https://login.microsoftonline.com/" ""
    (example_dom [ ((By_TAG_NAME, "body"), [shown ""]);
                   ((By_ID, "usernameError"),
                    [shown "We couldn't find an account with that username."]) ]).

(** Two alerts: a prompt, and after it a known message. *)
Definition ms_two_alerts : list element :=
  [ shown "Enter your email, phone, or Skype.";
    shown "We couldn't find an account with that username." ].

Definition ms_two_alerts_page : page :=
  Page "https://login.microsoftonline.com/" ""
    (example_dom [ ((By_TAG_NAME, "body"), [shown ""]);
                   ((By_CSS_SELECTOR, "div[role='alert']"), ms_two_alerts) ]).

Definition ms_two_alerts_password_page : page :=
  Page "https://login.microsoftonline.com/" ""
    (example_dom [ ((By_TAG_NAME, "body"), [shown ""]);
                   ((By_CSS_SELECTOR, "div[role='alert']"), ms_two_alerts);
                   ((By_ID, "i0118"), [shown ""]) ]).

Definition ms_error_password_page : page :=
  Page "https://login.microsoftonline.com/" ""
    (example_dom [ ((By_TAG_NAME, "body"), [shown ""]);
                   ((By_ID, "usernameError"),
                    [shown "We couldn't find an account with that username."]);
                   ((By_ID, "i0118"), [shown ""]) ]).

(** What the browser shows when nothing was loaded. *)
Definition no_page : page := Page "" "" (example_dom []).

Definition colgate_args : Colgate.args :=
  {| Colgate.no_headless := false; Colgate.sleep_min := 4000; Colgate.sleep_max := 7500;
     Colgate.cooldown_n := 15; Colgate.cooldown_s := 30000 |}.

Definition colgate_vars : Colgate.vars :=
  {| Colgate.seen_emails := ∅; Colgate.valid_emails := ∅; Colgate.processed := 0 |}.

Definition g_identifier_page : page :=
  Page Google.GOOGLE_SIGNIN_URL ""
    (example_dom [ ((By_ID, "identifierId"), [shown ""]);
                   ((By_ID, "identifierNext"), [shown "Next"]) ]).

Definition g_blank_page : page :=
  Page "https://accounts.google.com/signin/v2/identifier" "" (example_dom []).

(** A known message on a page. *)
Definition g_error_page : page :=
  Page "https://accounts.google.com/signin/v2/identifier"
    "<div>Couldn't find your Google Account</div>" (example_dom []).

Definition g_error_password_page : page :=
  Page "https://accounts.google.com/signin/v2/identifier"
    "<div>Couldn't find your Google Account</div>"
    (example_dom [ (Google.password_selector, [shown ""]) ]).

(** The same on the page of an SSO redirect. *)
Definition g_sso_error_page : page :=
  Page "https://idp.x.edu/sso/login" "<div>Enter a valid email</div>" (example_dom []).

Definition g_sso_error_password_page : page :=
  Page "https://idp.x.edu/sso/login" "<div>Enter a valid email</div>"
    (example_dom [ (Google.password_selector, [shown ""]) ]).

Definition g_password_page : page :=
  Page "https://accounts.google.com/v3/signin/challenge/pwd" "<div>Welcome</div>"
    (example_dom [ (Google.password_selector, [shown ""]) ]).

Definition g_wrong_password_page : page :=
  Page "https://accounts.google.com/v3/signin/challenge/pwd"
    "<div>Wrong password. Try again or click Forgot password to reset it.</div>"
    (example_dom [ (Google.password_selector, [shown ""]) ]).

(** The password step and nothing more: the prompt for the password,
    and no message about a wrong one. *)
Definition g_password_prompt_page : page :=
  Page "https://accounts.google.com/v3/signin/challenge/pwd"
    "<div>Enter your password</div>"
    (example_dom [ (Google.password_selector, [shown ""]) ]).

Definition google_args : Google.args :=
  {| Google.no_headless := false; Google.sleep_min := 1800; Google.sleep_max := 4000;
     Google.restart_n := 200 |}.

(** Restart after every probe. *)
Definition google_args_restart_1 : Google.args :=
  {| Google.no_headless := false; Google.sleep_min := 1800; Google.sleep_max := 4000;
     Google.restart_n := 1 |}.

Definition jane_csv : file :=
  [ ["full_name"; "username"; "email"]; ["Jane Doe"; "jdoe"; "jane.doe@x.edu"] ].

(** The same address twice, in two spellings. *)
Definition jane_twice_csv : file :=
  [ ["full_name"; "username"; "email"];
    ["Jane Doe"; "jdoe"; "Jane.Doe@x.edu"];
    ["Jane Doe"; "jdoe"; "jane.doe@x.edu"] ].

(** Two people for the Microsoft validator. *)
Definition jane_and_john_csv : file :=
  [ ["full_name"; "email"];
    ["Jane Doe"; "jane.doe@x.edu"];
    ["John Roe"; "john.roe@x.edu"] ].

(** The same two people for the Google validator. *)
Definition jane_and_john_users_csv : file :=
  [ ["full_name"; "username"; "email"];
    ["Jane Doe"; "jdoe"; "jane.doe@x.edu"];
    ["John Roe"; "jroe"; "john.roe@x.edu"] ].

(** An input file that has the addresses only. *)
Definition emails_only_csv : file :=
  [ ["email"]; ["jane.doe@x.edu"]; ["john.roe@x.edu"] ].

(** An output file of an earlier run of the portal validator. *)
Definition jane_verified : file := [ ["full_name"; "email"]; ["Jane Doe"; "jane.doe@x.edu"] ].

(** A portal page that has the link, the input and the button, and
    says that the email was sent. *)
Definition pepp_sent_page : page :=
  Page Pepperdine.PORTAL_URL "<p>Check your email for the reset link.</p>"
    (example_dom [ ((By_TAG_NAME, "body"), [shown ""]);
                   ((By_LINK_TEXT, "Forgot Password?"), [shown "Forgot Password?"]);
                   ((By_CSS_SELECTOR, "input[type='email']"), [shown ""]);
                   ((By_CSS_SELECTOR, "button[type='submit']"), [shown "Submit"]) ]).

(** A portal page titled "Password Reset" that says that the address
    is not known. *)
Definition pepp_reset_error_page : page :=
  Page Pepperdine.PORTAL_URL
    "<title>Password Reset</title><p>Sorry, we have no record of this email address.</p>"
    (example_dom [ ((By_TAG_NAME, "body"), [shown ""]);
                   ((By_CSS_SELECTOR, "input[type='email']"), [shown ""]);
                   ((By_CSS_SELECTOR, "button[type='submit']"), [shown "Submit"]) ]).

Definition pepperdine_args : Pepperdine.args :=
  {| Pepperdine.no_headless := false; Pepperdine.sleep_min := 600;
     Pepperdine.sleep_max := 1200; Pepperdine.limit := 0 |}.

(** The portal validator with [--limit 1] and with [--limit -1]. *)
Definition pepperdine_args_limit_1 : Pepperdine.args :=
  {| Pepperdine.no_headless := false; Pepperdine.sleep_min := 600;
     Pepperdine.sleep_max := 1200; Pepperdine.limit := 1 |}.

Definition pepperdine_args_limit_neg : Pepperdine.args :=
  {| Pepperdine.no_headless := false; Pepperdine.sleep_min := 600;
     Pepperdine.sleep_max := 1200; Pepperdine.limit := -1 |}.

Definition google_vars : Google.vars :=
  {| Google.seen_emails := ∅; Google.valid_emails := ∅; Google.assigned_people := ∅;
     Google.total_checked := 0; Google.total_valid := 0 |}.

(** * Properties *)

(** ** The monad *)

Lemma ensures_ret t0 {A} (a : A) (R : res A -> Prop) :
  R (Ok a) -> ensures t0 (ret a) R.
Proof. intros HR s Hs. exists (Ok a), s. auto. Qed.

Lemma ensures_raise t0 {A} (e : exn) (R : res A -> Prop) :
  R (Raise e) -> ensures t0 (raise e) R.
Proof. intros HR s Hs. exists (Raise e), s. auto. Qed.

Lemma ensures_weaken t0 {A} (m : M A) (R1 R2 : res A -> Prop) :
  ensures t0 m R1 -> (forall r, R1 r -> R2 r) -> ensures t0 m R2.
Proof.
  intros Hm Himp s Hs. destruct (Hm s Hs) as (r & s' & Heq & HR & Hc).
  exists r, s'. auto.
Qed.

Lemma ensures_bind t0 {A B} (m : M A) (f : A -> M B) (R1 : res A -> Prop)
    (R2 : res B -> Prop) :
  ensures t0 m R1 ->
  (forall a, R1 (Ok a) -> ensures t0 (f a) R2) ->
  (forall e, R1 (Raise e) -> R2 (Raise e)) ->
  ensures t0 (bind m f) R2.
Proof.
  intros Hm Hf He s Hs. unfold bind.
  destruct (Hm s Hs) as (r & s' & Heq & HR & Hc). rewrite Heq.
  destruct r as [a|e].
  - exact (Hf a HR s' Hc).
  - exists (Raise e), s'. auto.
Qed.

Lemma ensures_try_except t0 {A} (m h : M A) (c : exn_class) (R1 R2 : res A -> Prop) :
  ensures t0 m R1 ->
  (forall a, R1 (Ok a) -> R2 (Ok a)) ->
  (forall e, R1 (Raise e) -> isinstance e c = false -> R2 (Raise e)) ->
  (forall e, R1 (Raise e) -> isinstance e c = true -> ensures t0 h R2) ->
  ensures t0 (try_except m c h) R2.
Proof.
  intros Hm Hok Hpass Hcatch s Hs. unfold try_except.
  destruct (Hm s Hs) as (r & s' & Heq & HR & Hc). rewrite Heq.
  destruct r as [a|e].
  - exists (Ok a), s'. auto.
  - destruct (isinstance e c) eqn:Hi.
    + exact (Hcatch e HR Hi s' Hc).
    + exists (Raise e), s'. auto.
Qed.

Lemma sleep_error_sleepable (ms : Z) : sleepable ms = true -> sleep_error ms = None.
Proof.
  unfold sleepable, sleep_error. intros H. apply andb_true_iff in H as [H0 H1].
  apply Z.leb_le in H0, H1.
  destruct (ms <? 0)%Z eqn:Hn; [apply Z.ltb_lt in Hn; lia|].
  destruct (SLEEP_MAX <? ms)%Z eqn:Hx; [apply Z.ltb_lt in Hx; lia|reflexivity].
Qed.

Lemma sleep_error_cases (ms : Z) (e : exn) :
  sleep_error ms = Some e -> e = ValueError \/ e = OverflowError.
Proof.
  unfold sleep_error. destruct (ms <? 0)%Z; [intros [= <-]; auto|].
  destruct (SLEEP_MAX <? ms)%Z; [intros [= <-]; auto|discriminate].
Qed.

Lemma sleepable_uniform (w : world) (t : nat) (lo hi : Z) :
  sleepable lo = true -> sleepable hi = true -> sleepable (uniform w t lo hi) = true.
Proof.
  unfold sleepable, uniform. intros Hlo Hhi.
  apply andb_true_iff in Hlo as [L0 L1]. apply andb_true_iff in Hhi as [H0 H1].
  apply Z.leb_le in L0, L1, H0, H1. apply andb_true_iff. split; apply Z.leb_le; lia.
Qed.

Lemma sleep_ok (ms : Z) (s : state) :
  sleepable ms = true -> sleep ms s = (Ok tt, advance [Sleep ms] s).
Proof. intros H. unfold sleep. rewrite (sleep_error_sleepable ms H). reflexivity. Qed.

Lemma sleep_uniform_ok (w : world) (lo hi : Z) (s : state) :
  sleepable lo = true -> sleepable hi = true ->
  sleep_uniform w lo hi s = (Ok tt, advance [SleepUniform lo hi] s).
Proof.
  intros Hlo Hhi. unfold sleep_uniform.
  rewrite (sleep_error_sleepable _ (sleepable_uniform w (clock s) lo hi Hlo Hhi)). reflexivity.
Qed.

Lemma sleep_inv (ms : Z) (s s' : state) (u : unit) :
  sleep ms s = (Ok u, s') -> s' = advance [Sleep ms] s.
Proof. unfold sleep. destruct (sleep_error ms); [discriminate|]. intros [= _ <-]. reflexivity. Qed.

Lemma sleep_uniform_inv (w : world) (lo hi : Z) (s s' : state) (u : unit) :
  sleep_uniform w lo hi s = (Ok u, s') -> s' = advance [SleepUniform lo hi] s.
Proof.
  unfold sleep_uniform. destruct (sleep_error _); [discriminate|].
  intros [= _ <-]. reflexivity.
Qed.

Lemma ensures_sleep t0 (ms : Z) (R : res unit -> Prop) :
  sleepable ms = true -> R (Ok tt) -> ensures t0 (sleep ms) R.
Proof.
  intros Hms HR s Hs. exists (Ok tt), (advance [Sleep ms] s).
  rewrite (sleep_ok ms s Hms). simpl. auto with lia.
Qed.

Lemma ensures_sleep_uniform (w : world) t0 (lo hi : Z) (R : res unit -> Prop) :
  sleepable lo = true -> sleepable hi = true ->
  R (Ok tt) -> ensures t0 (sleep_uniform w lo hi) R.
Proof.
  intros Hlo Hhi HR s Hs. exists (Ok tt), (advance [SleepUniform lo hi] s).
  rewrite (sleep_uniform_ok w lo hi s Hlo Hhi). simpl. auto with lia.
Qed.

(** A sleep that is refused raises an exception, and leaves the state. *)
Lemma ensures_sleep_contained t0 (ms : Z) : ensures t0 (sleep ms) contained.
Proof.
  intros s Hs. unfold sleep. destruct (sleep_error ms) as [e|] eqn:He.
  - exists (Raise e), s. split; [reflexivity|]. split; [|exact Hs].
    destruct (sleep_error_cases ms e He) as [-> | ->]; reflexivity.
  - exists (Ok tt), (advance [Sleep ms] s). simpl. auto with lia.
Qed.

Lemma ensures_sleep_uniform_contained (w : world) t0 (lo hi : Z) :
  ensures t0 (sleep_uniform w lo hi) contained.
Proof.
  intros s Hs. unfold sleep_uniform.
  destruct (sleep_error (uniform w (clock s) lo hi)) as [e|] eqn:He.
  - exists (Raise e), s. split; [reflexivity|]. split; [|exact Hs].
    destruct (sleep_error_cases _ e He) as [-> | ->]; reflexivity.
  - exists (Ok tt), (advance [SleepUniform lo hi] s). simpl. auto with lia.
Qed.

Lemma ensures_bind_ret t0 {A B} (m : M A) (f : A -> M B) (P : A -> Prop)
    (R : res B -> Prop) :
  ensures t0 m (returns P) ->
  (forall a, P a -> ensures t0 (f a) R) ->
  ensures t0 (bind m f) R.
Proof.
  intros Hm Hf. eapply ensures_bind; [exact Hm| |].
  - intros a (a' & [= <-] & Ha). auto.
  - intros e (a' & [=] & _).
Qed.

Lemma ensures_try_ret t0 {A} (m h : M A) (c : exn_class) (P : A -> Prop) :
  ensures t0 m (returns P) -> ensures t0 (try_except m c h) (returns P).
Proof.
  intros Hm. eapply ensures_try_except; [exact Hm|auto| |];
    intros e (a' & [=] & _).
Qed.

Lemma ensures_ret_val t0 {A} (a : A) (P : A -> Prop) :
  P a -> ensures t0 (ret a) (returns P).
Proof. intros Ha. apply ensures_ret. exists a. auto. Qed.

Section Calm.
Variable w : world.
Variable t0 : nat.
Variable Q : page -> Prop.
Hypothesis Hcalm : calm w t0 Q.

(** A driver call on a calm oracle reads a page that satisfies [Q]. *)
Lemma ensures_call {A} (evs : list event) (f : page -> res A) (R : res A -> Prop) :
  (forall p, Q p -> R (f p)) -> ensures t0 (call w evs f) R.
Proof.
  intros HR s Hs. unfold call.
  destruct (Hcalm (clock s) Hs) as [Hf Hq]. rewrite Hf.
  eexists _, _. split; [reflexivity|]. split; [auto|]. simpl. lia.
Qed.

(** A wait whose condition is met at every poll returns at the first. *)
Lemma ensures_until_hit {A} (n : nat) (method : M (option A)) (R : res A -> Prop) :
  ensures t0 method (fun r => exists v, r = Ok (Some v) /\ R (Ok v)) ->
  ensures t0 (until_loop n method) R.
Proof.
  intros Hm s Hs. destruct (Hm s Hs) as (r & s' & Heq & (v & -> & HR) & Hc).
  destruct n; simpl; rewrite Heq; eauto.
Qed.

(** A wait whose condition is met at no poll times out. *)
Lemma ensures_until_miss {A} (n : nat) (method : M (option A)) (R : res A -> Prop) :
  ensures t0 method (fun r => r = Ok None \/ r = Raise NoSuchElementException) ->
  R (Raise TimeoutException) ->
  ensures t0 (until_loop n method) R.
Proof.
  intros Hm HR. induction n as [|n IH]; intros s Hs;
    destruct (Hm s Hs) as (r & s' & Heq & [-> | ->] & Hc); simpl; rewrite Heq; simpl.
  1,2: eexists _, _; split; [reflexivity|]; split; [exact HR|]; simpl; lia.
  1,2: apply IH; simpl; lia.
Qed.

(** A wait in general: it returns what a poll found, or times out, or
    passes on what a poll raised. *)
Lemma ensures_until {A} (n : nat) (method : M (option A)) (Rm : res (option A) -> Prop)
    (R : res A -> Prop) :
  ensures t0 method Rm ->
  (forall v, Rm (Ok (Some v)) -> R (Ok v)) ->
  R (Raise TimeoutException) ->
  (forall e, Rm (Raise e) -> isinstance e CNoSuchElementException = false -> R (Raise e)) ->
  ensures t0 (until_loop n method) R.
Proof.
  intros Hm Hhit Hout Hpass. induction n as [|n IH]; intros s Hs;
    destruct (Hm s Hs) as (r & s' & Heq & Hr & Hc); simpl; rewrite Heq;
    destruct r as [[v|]|e]; try destruct (isinstance e CNoSuchElementException) eqn:Hi.
  all: try (eexists _, _; split; [reflexivity|]; split; [eauto|]; simpl; lia).
  all: apply IH; simpl; lia.
Qed.

Lemma ensures_truth (m : M bool) (R : res (option unit) -> Prop) :
  ensures t0 m (fun r => match r with
                         | Ok b => R (Ok (if b then Some tt else None))
                         | Raise e => R (Raise e)
                         end) ->
  ensures t0 (truth m) R.
Proof.
  intros Hm. unfold truth. eapply ensures_bind; [exact Hm| |]; simpl.
  - intros b Hb. apply ensures_ret. exact Hb.
  - auto.
Qed.

Lemma ensures_read {A} (evs : list event) (f : page -> A) (P : A -> Prop) :
  (forall p, Q p -> P (f p)) -> ensures t0 (call w evs (fun p => Ok (f p))) (returns P).
Proof. intros HP. apply ensures_call. intros p Hp. exists (f p). auto. Qed.

Lemma ensures_find_elements (l : locator) (P : list element -> Prop) :
  (forall p, Q p -> P (find_all p l)) -> ensures t0 (find_elements w l) (returns P).
Proof. apply ensures_read. Qed.

Lemma ensures_text (e : element) : ensures t0 (text w e) (returns (eq (el_text e))).
Proof. apply (ensures_read [] (fun _ => el_text e)). reflexivity. Qed.

Lemma ensures_is_displayed (e : element) :
  ensures t0 (is_displayed w e) (returns (eq (el_displayed e))).
Proof. apply (ensures_read [] (fun _ => el_displayed e)). reflexivity. Qed.

Lemma filter_displayed (els : list element) :
  ensures t0 (filter_m (is_displayed w) els) (returns (eq (List.filter el_displayed els))).
Proof.
  induction els as [|e els IH]; simpl.
  - apply ensures_ret_val. reflexivity.
  - eapply ensures_bind_ret; [apply ensures_is_displayed|]. intros b <-.
    eapply ensures_bind_ret; [exact IH|]. intros l <-.
    apply ensures_ret_val. reflexivity.
Qed.

Lemma any_returns {A} (f : A -> M bool) (g : A -> bool) (l : list A) :
  (forall x, ensures t0 (f x) (returns (eq (g x)))) ->
  ensures t0 (any_m f l) (returns (eq (existsb g l))).
Proof.
  intros Hf. induction l as [|x l IH]; simpl.
  - apply ensures_ret_val. reflexivity.
  - eapply ensures_bind_ret; [apply Hf|]. intros b <-.
    destruct (g x); simpl; [apply ensures_ret_val; reflexivity | exact IH].
Qed.
End Calm.

(** ** The Microsoft classifier on a calm oracle *)

Section ColgateCalm.
Variable w : world.
Variable t0 : nat.
Variable Q : page -> Prop.
Hypothesis Hcalm : calm w t0 Q.

Lemma at_password_step_visible :
  (forall p, Q p -> ms_password_visible p = true) ->
  ensures t0 (Colgate.at_password_step w) (returns (eq true)).
Proof.
  intros Hvis. unfold Colgate.at_password_step. apply ensures_try_ret.
  eapply ensures_bind_ret.
  { apply (ensures_find_elements w t0 Q Hcalm) with
      (P := fun els => existsb el_displayed els = true).
    intros p Hp. exact (Hvis p Hp). }
  intros els Hex. apply existsb_exists in Hex as (e & Hin & Hd).
  eapply ensures_bind_ret; [apply (filter_displayed w t0 Q Hcalm)|]. intros pw <-.
  assert (Hne : In e (List.filter el_displayed els)) by (apply filter_In; auto).
  destruct (List.filter el_displayed els) as [|x l]; [inversion Hne|].
  eapply ensures_bind_ret.
  { apply (ensures_find_elements w t0 Q Hcalm) with (P := fun _ => True). auto. }
  intros headers _.
  eapply ensures_bind_ret.
  { apply any_returns with (g := fun h => str_in "password" (str_lower (el_text h))).
    intros h. eapply ensures_bind_ret; [apply (ensures_text w t0 Q Hcalm)|].
    intros t <-. apply ensures_ret_val. reflexivity. }
  intros b _. destruct b; apply ensures_ret_val; reflexivity.
Qed.

Lemma at_password_step_hidden :
  (forall p, Q p -> ms_password_visible p = false) ->
  ensures t0 (Colgate.at_password_step w) (returns (eq false)).
Proof.
  intros Hvis. unfold Colgate.at_password_step. apply ensures_try_ret.
  eapply ensures_bind_ret.
  { apply (ensures_find_elements w t0 Q Hcalm) with
      (P := fun els => List.filter el_displayed els = []).
    intros p Hp. specialize (Hvis p Hp). unfold ms_password_visible in Hvis.
    induction (find_all p (By_ID, "i0118")) as [|e l IH]; [reflexivity|].
    simpl in *. destruct (el_displayed e); [discriminate|auto]. }
  intros els Hnil.
  eapply ensures_bind_ret; [apply (filter_displayed w t0 Q Hcalm)|]. intros pw <-.
  rewrite Hnil. apply ensures_ret_val. reflexivity.
Qed.

(** What the scan of one error region returns is a text that region
    shows. *)
Lemma first_error_text_shown (els : list element) (P : string -> Prop) :
  (forall e, In e els -> shows_text e = true -> P (str_strip (el_text e))) ->
  ensures t0 (Colgate.first_error_text w els)
    (returns (fun r => match r with Some txt => P txt | None => True end)).
Proof.
  induction els as [|e els IH]; intros HP; simpl.
  - apply ensures_ret_val. exact I.
  - eapply ensures_bind_ret; [apply (ensures_text w t0 Q Hcalm)|]. intros t <-.
    assert (IH' := IH (fun e' He' => HP e' (or_intror He'))).
    destruct (truthy (str_strip (el_text e))) eqn:Ht; [|exact IH'].
    eapply ensures_bind_ret; [apply (ensures_is_displayed w t0 Q Hcalm)|]. intros d <-.
    destruct (el_displayed e) eqn:Hd; [|exact IH'].
    apply ensures_ret_val. apply HP; [left; reflexivity|].
    unfold shows_text. rewrite Ht, Hd. reflexivity.
Qed.

Lemma find_error_loop_shown (sels : list locator) (P : string -> Prop) :
  P "" ->
  (forall p sel e, Q p -> In sel sels -> In e (find_all p sel) -> shows_text e = true ->
                   P (str_strip (el_text e))) ->
  ensures t0 (Colgate.find_error_loop w sels) (returns P).
Proof.
  intros Hempty. induction sels as [|sel sels IH]; intros HP; simpl.
  - apply ensures_ret_val. exact Hempty.
  - eapply ensures_bind_ret.
    { apply ensures_try_ret. eapply ensures_bind_ret.
      - apply (ensures_find_elements w t0 Q Hcalm) with
          (P := fun els => forall e, In e els -> shows_text e = true ->
                                     P (str_strip (el_text e))).
        intros p Hp e He Hs. apply (HP p sel e); auto. left; reflexivity.
      - intros els Hels. apply first_error_text_shown. exact Hels. }
    intros [txt|] Hr.
    + apply ensures_ret_val. exact Hr.
    + apply IH. intros p sel' e Hp Hsel. apply HP; auto. right; exact Hsel.
Qed.

Lemma find_username_error_text_shown (P : string -> Prop) :
  P "" ->
  (forall p sel e, Q p -> In sel Colgate.error_selectors -> In e (find_all p sel) ->
                   shows_text e = true -> P (str_strip (el_text e))) ->
  ensures t0 (Colgate.find_username_error_text w) (returns P).
Proof. apply find_error_loop_shown. Qed.

(** The wait of [classify_response] never raises on a calm oracle,
    whatever the pages show. *)
Lemma classify_wait_returns :
  ensures t0
    (try_except
       (wait_until w 10000
          (truth (p <- Colgate.at_password_step w ;;
                  if p then ret true else
                  t <- Colgate.find_username_error_text w ;; ret (truthy t))))
       CTimeoutException (ret tt))
    (returns (fun _ => True)).
Proof.
  eapply ensures_try_except with (R1 := fun r => r = Ok tt \/ r = Raise TimeoutException).
  - unfold wait_until. eapply ensures_until with (Rm := returns (fun _ => True)).
    + apply ensures_truth. eapply ensures_bind.
      * unfold Colgate.at_password_step. apply ensures_try_ret with (P := fun _ => True).
        eapply ensures_bind_ret.
        { apply (ensures_find_elements w t0 Q Hcalm) with (P := fun _ => True). auto. }
        intros els _. eapply ensures_bind_ret; [apply (filter_displayed w t0 Q Hcalm)|].
        intros pw _. destruct pw; [apply ensures_ret_val; exact I|].
        eapply ensures_bind_ret.
        { apply (ensures_find_elements w t0 Q Hcalm) with (P := fun _ => True). auto. }
        intros headers _. eapply ensures_bind_ret.
        { apply any_returns with (g := fun h => str_in "password" (str_lower (el_text h))).
          intros h. eapply ensures_bind_ret; [apply (ensures_text w t0 Q Hcalm)|].
          intros t <-. apply ensures_ret_val. reflexivity. }
        intros b _. destruct b; apply ensures_ret_val; exact I.
      * intros [|] _.
        { apply ensures_ret. eexists; split; [reflexivity|exact I]. }
        eapply ensures_bind_ret.
        { apply find_username_error_text_shown with (P := fun _ => True); auto. }
        intros t _. apply ensures_ret. eexists; split; [reflexivity|exact I].
      * intros e (a & [=] & _).
    + intros []. left. reflexivity.
    + right. reflexivity.
    + intros e (a & [=] & _).
  - intros [] _. exists tt. auto.
  - intros e [[=]|[= ->]] [=].
  - intros e _ _. apply ensures_ret_val. exact I.
Qed.

Lemma first_error_text_exact (els : list element) :
  ensures t0 (Colgate.first_error_text w els) (returns (eq (first_shown els))).
Proof.
  induction els as [|e els IH]; simpl.
  - apply ensures_ret_val. reflexivity.
  - eapply ensures_bind_ret; [apply (ensures_text w t0 Q Hcalm)|]. intros t <-.
    unfold shows_text. destruct (truthy (str_strip (el_text e))); simpl; [|exact IH].
    eapply ensures_bind_ret; [apply (ensures_is_displayed w t0 Q Hcalm)|]. intros d <-.
    destruct (el_displayed e); [|exact IH].
    apply ensures_ret_val. reflexivity.
Qed.

(** On a page that stays as it is, [find_username_error_text] returns
    the first text shown. *)
Lemma find_username_error_text_exact (p : page) :
  (forall p', Q p' -> p' = p) ->
  ensures t0 (Colgate.find_username_error_text w) (returns (eq (ms_shown_error p))).
Proof.
  intros Hstable. unfold Colgate.find_username_error_text, ms_shown_error.
  induction Colgate.error_selectors as [|sel sels IH]; simpl.
  - apply ensures_ret_val. reflexivity.
  - eapply ensures_bind_ret.
    { apply ensures_try_ret. eapply ensures_bind_ret.
      - apply (ensures_find_elements w t0 Q Hcalm) with (P := eq (find_all p sel)).
        intros p' Hp'. rewrite (Hstable p' Hp'). reflexivity.
      - intros els <-. apply first_error_text_exact. }
    intros r <-. destruct (first_shown (find_all p sel)); [|exact IH].
    apply ensures_ret_val. reflexivity.
Qed.

(** The classifier, from what its two readings return. *)
Lemma classify_response_ensures (hint b : bool) :
  ensures t0 (Colgate.find_username_error_text w)
    (returns (fun t => any_in Colgate.invalid_hints (str_lower t) = hint)) ->
  ensures t0 (Colgate.at_password_step w) (returns (eq b)) ->
  ensures t0 (Colgate.classify_response w)
    (returns (eq (if hint then Some false else if b then Some true else None))).
Proof.
  intros Herr Hpw. unfold Colgate.classify_response.
  eapply ensures_bind_ret; [apply classify_wait_returns|]. intros _ _.
  eapply ensures_bind_ret; [exact Herr|]. intros t Ht. cbv beta zeta in *. rewrite Ht.
  destruct hint; [apply ensures_ret_val; reflexivity|].
  eapply ensures_bind_ret; [exact Hpw|]. intros b' <-.
  destruct b; apply ensures_ret_val; reflexivity.
Qed.
End ColgateCalm.

(** The probe is its three phases in a row. *)
Lemma enter_email_and_submit_phases (w : world) (email : string) (s0 s1 s2 : state) :
  Colgate.reach_username_step w s0 = (Ok true, s1) ->
  Colgate.fill_and_submit w email 12000 s1 = (Ok true, s2) ->
  Colgate.enter_email_and_submit w email s0 = Colgate.classify_response w s2.
Proof.
  intros H1 H2. unfold Colgate.enter_email_and_submit, bind. rewrite H1. simpl.
  rewrite H2. reflexivity.
Qed.

Lemma forallb_In {A} (f : A -> bool) (l : list A) (x : A) :
  forallb f l = true -> In x l -> f x = true.
Proof. intros H. apply forallb_forall. exact H. Qed.

(** C5. In the Microsoft validator, once the email is submitted, if the
    page shows a visible password input and no error text from then on
    (and the driver answers), the verdict is [True] (valid), never
    [None]. *)
Theorem colgate_password_step_is_valid (w : world) (email : string) (s0 s1 s2 : state) :
  Colgate.reach_username_step w s0 = (Ok true, s1) ->
  Colgate.fill_and_submit w email 12000 s1 = (Ok true, s2) ->
  calm w (clock s2)
    (fun p => ms_password_visible p = true /\ ms_no_error_text p = true) ->
  exists s3, Colgate.enter_email_and_submit w email s0 = (Ok (Some true), s3).
Proof.
  intros H1 H2 Hcalm. rewrite (enter_email_and_submit_phases w email s0 s1 s2 H1 H2).
  destruct (classify_response_ensures w (clock s2) _ Hcalm false true) with (s := s2)
    as (r & s3 & Heq & (v & -> & <-) & _).
  - apply (find_username_error_text_shown w (clock s2) _ Hcalm).
    + reflexivity.
    + intros p sel e [_ Hno] Hsel He Hshow. exfalso.
      pose proof (forallb_In _ _ _ (forallb_In _ _ _ Hno Hsel) He) as Hn.
      simpl in Hn. rewrite Hshow in Hn. discriminate.
  - apply (at_password_step_visible w (clock s2) _ Hcalm). intros p [Hv _]. exact Hv.
  - lia.
  - exists s3. exact Heq.
Qed.

(** ** The Google classifier on a calm oracle *)

Section GoogleCalm.
Variable w : world.
Variable t0 : nat.
Variable Q : page -> Prop.
Hypothesis Hcalm : calm w t0 Q.

Lemma is_saml_flow_reads :
  ensures t0 (Google.is_saml_flow w) (returns (fun b => exists p, Q p /\ b = g_saml p)).
Proof.
  unfold Google.is_saml_flow. eapply ensures_bind_ret.
  - apply (ensures_read w t0 Q Hcalm [] current_url) with
      (P := fun u => exists p, Q p /\ u = current_url p). eauto.
  - intros url (p & Hp & ->). apply ensures_ret_val. exists p. auto.
Qed.

(** The scan of the first error region. *)
Lemma detect_region_reads (els : list element) :
  ensures t0
    (any_m (fun e => t <- text w e ;; ret (str_in "Couldn't find" t)) els)
    (returns (eq (existsb (fun e => str_in "Couldn't find" (el_text e)) els))).
Proof.
  apply any_returns. intros e.
  eapply ensures_bind_ret; [apply (ensures_text w t0 Q Hcalm)|].
  intros t <-. apply ensures_ret_val. reflexivity.
Qed.

(** On a page that stays as it is, [detect_invalid_by_message] says
    whether a known message is there. *)
Lemma detect_invalid_exact (p : page) :
  (forall p', Q p' -> p' = p) ->
  ensures t0 (Google.detect_invalid_by_message w) (returns (eq (g_invalid_message p))).
Proof.
  intros Hstable. unfold Google.detect_invalid_by_message, g_invalid_message.
  eapply ensures_bind_ret.
  { apply (ensures_read w t0 Q Hcalm [] page_source) with (P := eq (page_source p)).
    intros p' Hp'. rewrite (Hstable p' Hp'). reflexivity. }
  intros src <-. unfold g_invalid_source. cbv zeta.
  destruct (str_in "Couldn't find your Google Account" (page_source p));
    [apply ensures_ret_val; reflexivity|]. cbn [orb].
  destruct (str_in "Enter a valid email" (page_source p)
            || str_in "Enter an email or phone number" (page_source p));
    [apply ensures_ret_val; reflexivity|].
  simpl. eapply ensures_bind_ret.
  { apply ensures_try_ret. eapply ensures_bind_ret.
    - apply (ensures_find_elements w t0 Q Hcalm) with
        (P := eq (find_all p (By_CSS_SELECTOR, "div.o6cuMc"))).
      intros p' Hp'. rewrite (Hstable p' Hp'). reflexivity.
    - intros els <-. apply detect_region_reads. }
  intros hit <-. fold (g_invalid_region p).
  destruct (g_invalid_region p); [apply ensures_ret_val; reflexivity|].
  simpl. eapply ensures_bind_ret with (P := eq (g_invalid_live p)).
  { unfold g_invalid_live.
    eapply ensures_try_except with
      (R1 := fun r => match find_all p (By_CSS_SELECTOR, "div[aria-live='assertive']") with
                      | e :: _ =>
                          r = Ok (truthy (el_text e)
                                  && (str_in "Couldn't find" (el_text e)
                                      || str_in "Enter a valid" (el_text e)))
                      | [] => r = Raise NoSuchElementException
                      end).
    - eapply ensures_bind with
        (R1 := fun r => match find_all p (By_CSS_SELECTOR, "div[aria-live='assertive']") with
                        | e :: _ => r = Ok e
                        | [] => r = Raise NoSuchElementException
                        end).
      + apply (ensures_call w t0 Q Hcalm). intros p' Hp'. rewrite (Hstable p' Hp').
        destruct (find_all p _); reflexivity.
      + intros e He.
        destruct (find_all p (By_CSS_SELECTOR, "div[aria-live='assertive']")) as [|e0 l];
          [discriminate|]. injection He as ->.
        eapply ensures_bind_ret; [apply (ensures_text w t0 Q Hcalm)|]. intros t1 <-.
        destruct (truthy (el_text e0)); simpl; [|apply ensures_ret; reflexivity].
        eapply ensures_bind_ret; [apply (ensures_text w t0 Q Hcalm)|]. intros t2 <-.
        destruct (str_in "Couldn't find" (el_text e0)); simpl;
          [apply ensures_ret; reflexivity|].
        eapply ensures_bind_ret; [apply (ensures_text w t0 Q Hcalm)|]. intros t3 <-.
        apply ensures_ret. reflexivity.
      + intros e He.
        destruct (find_all p (By_CSS_SELECTOR, "div[aria-live='assertive']")) as [|e0 l];
          [injection He as ->; reflexivity|discriminate].
    - intros a Ha.
      destruct (find_all p (By_CSS_SELECTOR, "div[aria-live='assertive']")) as [|e0 l];
        [discriminate|]. injection Ha as ->. eexists; split; reflexivity.
    - intros e He Hi.
      destruct (find_all p (By_CSS_SELECTOR, "div[aria-live='assertive']")) as [|e0 l];
        [|discriminate]. injection He as ->. discriminate.
    - intros e He Hi.
      destruct (find_all p (By_CSS_SELECTOR, "div[aria-live='assertive']")) as [|e0 l];
        [|discriminate]. apply ensures_ret_val. reflexivity. }
  intros hit2 <-. destruct (g_invalid_live p); apply ensures_ret_val; reflexivity.
Qed.

(** While no known message is on any page, [detect_invalid_by_message]
    says no. *)
Lemma detect_invalid_false :
  (forall p, Q p -> g_invalid_message p = false) ->
  ensures t0 (Google.detect_invalid_by_message w) (returns (eq false)).
Proof.
  intros Hno.
  assert (Hsrc : forall p, Q p -> g_invalid_source p = false).
  { intros p Hp. specialize (Hno p Hp). unfold g_invalid_message in Hno.
    destruct (g_invalid_source p); [discriminate|reflexivity]. }
  assert (Hreg : forall p, Q p -> g_invalid_region p = false).
  { intros p Hp. specialize (Hno p Hp). unfold g_invalid_message in Hno.
    destruct (g_invalid_source p), (g_invalid_region p); try discriminate; reflexivity. }
  assert (Hlive : forall p, Q p -> g_invalid_live p = false).
  { intros p Hp. specialize (Hno p Hp). unfold g_invalid_message in Hno.
    destruct (g_invalid_source p), (g_invalid_region p), (g_invalid_live p);
      try discriminate; reflexivity. }
  unfold Google.detect_invalid_by_message.
  eapply ensures_bind_ret.
  { apply (ensures_read w t0 Q Hcalm [] page_source) with
      (P := fun src =>
         str_in "Couldn't find your Google Account" src
         || str_in "Enter a valid email" src
         || str_in "Enter an email or phone number" src = false).
    intros p Hp. exact (Hsrc p Hp). }
  intros src Hs. cbv beta in Hs.
  destruct (str_in "Couldn't find your Google Account" src); [cbn [orb] in Hs; discriminate|].
  cbn [orb] in Hs. rewrite Hs.
  eapply ensures_bind_ret with (P := eq false).
  { apply ensures_try_ret. eapply ensures_bind_ret.
    - apply (ensures_find_elements w t0 Q Hcalm) with
        (P := fun els => existsb (fun e => str_in "Couldn't find" (el_text e)) els = false).
      intros p Hp. exact (Hreg p Hp).
    - intros els Hels. cbv beta in Hels.
      eapply ensures_weaken; [apply detect_region_reads|].
      intros r (b & -> & Hb). exists b. split; [reflexivity|congruence]. }
  intros hit <-.
  eapply ensures_bind_ret with (P := eq false).
  { eapply ensures_try_except with
      (R1 := fun r => r = Ok false \/ r = Raise NoSuchElementException).
    - eapply ensures_bind with
        (R1 := fun r => (exists e, r = Ok e /\
                           truthy (el_text e)
                           && (str_in "Couldn't find" (el_text e)
                               || str_in "Enter a valid" (el_text e)) = false)
                        \/ r = Raise NoSuchElementException).
      + apply (ensures_call w t0 Q Hcalm). intros p Hp. specialize (Hlive p Hp).
        unfold g_invalid_live in Hlive.
        destruct (find_all p (By_CSS_SELECTOR, "div[aria-live='assertive']")) as [|e0 l];
          [right; reflexivity|left; eauto].
      + intros e [(e' & [= <-] & He)|[=]].
        eapply ensures_bind_ret; [apply (ensures_text w t0 Q Hcalm)|]. intros t1 <-.
        destruct (truthy (el_text e)); simpl in *; [|apply ensures_ret; auto].
        eapply ensures_bind_ret; [apply (ensures_text w t0 Q Hcalm)|]. intros t2 <-.
        destruct (str_in "Couldn't find" (el_text e)); simpl in *; [discriminate|].
        eapply ensures_bind_ret; [apply (ensures_text w t0 Q Hcalm)|]. intros t3 <-.
        rewrite He. apply ensures_ret. auto.
      + intros e [(e' & [=] & _)|[= ->]]. auto.
    - intros a [[= ->]|[=]]. eexists; split; reflexivity.
    - intros e [[=]|[= ->]] [=].
    - intros e _ _. apply ensures_ret_val. reflexivity. }
  intros hit2 <-. apply ensures_ret_val. reflexivity.
Qed.

Lemma google_at_password_step_returns :
  ensures t0 (Google.at_password_step w) (returns (fun _ => True)).
Proof.
  unfold Google.at_password_step. eapply ensures_bind_ret.
  { apply (ensures_read w t0 Q Hcalm [] current_url) with (P := fun _ => True). auto. }
  intros url _. destruct (any_in _ url); [apply ensures_ret_val; exact I|].
  eapply ensures_bind_ret with (P := fun _ => True).
  { apply ensures_try_ret. eapply ensures_bind_ret.
    - apply (ensures_find_elements w t0 Q Hcalm) with (P := fun _ => True). auto.
    - intros pwd _. apply ensures_ret_val. exact I. }
  intros [|] _; apply ensures_ret_val; exact I.
Qed.

(** While no password field is visible, the wrong password is never
    typed: the wait for the field times out, and the result is [None]. *)
Lemma submit_wrong_password_hidden (timeout : Z) :
  (forall p, Q p -> g_password_visible p = false) ->
  ensures t0 (Google.submit_wrong_password_and_check w timeout) (returns (eq None)).
Proof.
  intros Hhid. unfold Google.submit_wrong_password_and_check.
  eapply ensures_bind_ret with (P := eq false).
  { unfold Google.submit_wrong_password.
    eapply ensures_try_except with (R1 := eq (Raise TimeoutException)).
    - eapply ensures_bind with (R1 := eq (Raise TimeoutException)).
      + unfold wait_until. apply ensures_until_miss; [|reflexivity].
        apply (ensures_call w t0 Q Hcalm). intros p Hp. specialize (Hhid p Hp).
        unfold g_password_visible in Hhid.
        destruct (find_all p Google.password_selector) as [|e l]; [auto|].
        simpl in Hhid. destruct (el_displayed e); [discriminate|]. auto.
      + intros a [=].
      + intros e [= <-]. reflexivity.
    - intros a [=].
    - intros e [= <-] [=].
    - intros e _ _. apply ensures_ret_val. reflexivity. }
  intros sent <-. apply ensures_ret_val. reflexivity.
Qed.

(** The second wait of [classify_response] never raises while no known
    message shows. *)
Lemma google_classify_wait_returns :
  (forall p, Q p -> g_invalid_message p = false) ->
  ensures t0
    (try_except
       (wait_until w 8000
          (truth (p <- Google.at_password_step w ;;
                  if p then ret true else
                  i <- Google.detect_invalid_by_message w ;;
                  if i then ret true else
                  Google.is_saml_flow w)))
       CTimeoutException (ret tt))
    (returns (fun _ => True)).
Proof.
  intros Hno.
  eapply ensures_try_except with (R1 := fun r => r = Ok tt \/ r = Raise TimeoutException).
  - unfold wait_until. eapply ensures_until with (Rm := returns (fun _ => True)).
    + apply ensures_truth. eapply ensures_bind.
      * apply google_at_password_step_returns.
      * intros [|] _.
        { apply ensures_ret. eexists; split; [reflexivity|exact I]. }
        eapply ensures_bind_ret; [apply (detect_invalid_false Hno)|]. intros i <-.
        eapply ensures_weaken; [apply is_saml_flow_reads|].
        intros r (b & -> & _). eexists; split; [reflexivity|exact I].
      * intros e (a & [=] & _).
    + intros []. left. reflexivity.
    + right. reflexivity.
    + intros e (a & [=] & _).
  - intros [] _. exists tt. auto.
  - intros e [[=]|[= ->]] [=].
  - intros e _ _. apply ensures_ret_val. exact I.
Qed.

(** With neither signal on any page, the classifier says [None]. *)
Lemma google_classify_quiet :
  (forall p, Q p -> g_quiet p = true) ->
  ensures t0 (Google.classify_response w) (returns (eq None)).
Proof.
  intros Hq.
  assert (Hno : forall p, Q p -> g_invalid_message p = false).
  { intros p Hp. specialize (Hq p Hp). unfold g_quiet in Hq.
    apply andb_true_iff in Hq as [_ H]. apply negb_true_iff in H. exact H. }
  assert (Hhid : forall p, Q p -> g_password_visible p = false).
  { intros p Hp. specialize (Hq p Hp). unfold g_quiet in Hq.
    apply andb_true_iff in Hq as [H _]. apply negb_true_iff in H. exact H. }
  unfold Google.classify_response.
  eapply ensures_bind_ret; [apply is_saml_flow_reads|].
  intros [|] _; [apply ensures_ret_val; reflexivity|].
  eapply ensures_bind_ret; [apply (detect_invalid_false Hno)|]. intros i <-.
  eapply ensures_bind_ret; [apply google_at_password_step_returns|].
  intros [|] _; [apply (submit_wrong_password_hidden _ Hhid)|].
  eapply ensures_bind_ret; [apply (google_classify_wait_returns Hno)|]. intros _ _.
  eapply ensures_bind_ret; [apply is_saml_flow_reads|].
  intros [|] _; [apply ensures_ret_val; reflexivity|].
  eapply ensures_bind_ret; [apply (detect_invalid_false Hno)|]. intros i <-.
  eapply ensures_bind_ret; [apply google_at_password_step_returns|].
  intros [|] _; [apply (submit_wrong_password_hidden _ Hhid)|].
  apply ensures_ret_val. reflexivity.
Qed.

(** On a page that stays as it is, is not a SAML redirect and carries a
    known message, the classifier says [False]. *)
Lemma google_classify_invalid (p : page) :
  (forall p', Q p' -> p' = p) ->
  g_saml p = false ->
  g_invalid_message p = true ->
  ensures t0 (Google.classify_response w) (returns (eq (Some false))).
Proof.
  intros Hstable Hsaml Hinv. unfold Google.classify_response.
  eapply ensures_bind_ret; [apply is_saml_flow_reads|].
  intros b (p' & Hp' & ->). rewrite (Hstable p' Hp'), Hsaml.
  eapply ensures_bind_ret; [apply (detect_invalid_exact p Hstable)|]. intros i <-.
  rewrite Hinv. apply ensures_ret_val. reflexivity.
Qed.
End GoogleCalm.

Lemma validate_email_google_phases (w : world) (email : string) (s0 s1 : state) :
  Google.submit_identifier w email s0 = (Ok true, s1) ->
  Google.validate_email_google w email s0
  = Google.classify_response w (advance [Sleep 1200] s1).
Proof.
  intros H1. unfold Google.validate_email_google, bind. rewrite H1. reflexivity.
Qed.

(** ** Steps of a run that do not write *)

Lemma keeps_ret {A} (a : A) : keeps_files (ret a).
Proof. intros st. split; reflexivity. Qed.

Lemma keeps_raise {A} (e : exn) : keeps_files (@raise mstate A e).
Proof. intros st. split; reflexivity. Qed.

Lemma keeps_lift {A} (m : M A) : keeps_files (lift m).
Proof. intros st. unfold lift. destruct (m (browser st)). split; reflexivity. Qed.

Lemma keeps_bind {A B} (m : MM A) (f : A -> MM B) :
  keeps_files m -> (forall a, keeps_files (f a)) -> keeps_files (bind m f).
Proof.
  intros Hm Hf st. unfold bind. destruct (Hm st) as [Ho Hl].
  destruct (m st) as [[a|e] st']; simpl in *; [|auto].
  destruct (Hf a st') as [Ho' Hl']. split; congruence.
Qed.

Lemma keeps_try_except {A} (m h : MM A) (c : exn_class) :
  keeps_files m -> keeps_files h -> keeps_files (try_except m c h).
Proof.
  intros Hm Hh st. unfold try_except. destruct (Hm st) as [Ho Hl].
  destruct (m st) as [[a|e] st']; simpl in *; [auto|].
  destruct (isinstance e c); [|auto].
  destruct (Hh st') as [Ho' Hl']. split; congruence.
Qed.

Lemma keeps_try_finally {A} (m : MM A) (h : MM unit) :
  keeps_files m -> keeps_files h -> keeps_files (try_finally m h).
Proof.
  intros Hm Hh st. unfold try_finally. destruct (Hm st) as [Ho Hl].
  destruct (m st) as [r st']. destruct (Hh st') as [Ho' Hl'].
  destruct (h st') as [[[]|e] st'']; simpl in *; split; congruence.
Qed.

Lemma keeps_run {A} (m : MM A) (st st' : mstate) (r : res A) :
  keeps_files m -> m st = (r, st') -> output st' = output st /\ log st' = log st.
Proof. intros Hm Heq. specialize (Hm st). rewrite Heq in Hm. exact Hm. Qed.

Ltac keeps :=
  repeat first
    [ apply keeps_ret | apply keeps_raise | apply keeps_lift
    | apply keeps_try_except | apply keeps_try_finally
    | apply keeps_bind; [|intros]
    | match goal with
      | |- keeps_files (if ?b then _ else _) => destruct b
      | |- keeps_files (match ?x with _ => _ end) => destruct x
      end ].

(** The body of the Microsoft loop writes only for a verdict [True]. *)
Lemma colgate_body_writes_only_valid (w : world) (a : Colgate.args) (r : row)
    (v : Colgate.vars) (st : mstate) :
  (forall s', Colgate.enter_email_and_submit w
                (str_strip (or_empty (row_get r "email" (Some "")))) (browser st)
              <> (Ok (Some true), s')) ->
  output (snd (Colgate.body w a r v st)) = output st.
Proof.
  intros Hnot. unfold Colgate.body. cbv zeta.
  destruct (negb (truthy _)); [reflexivity|].
  destruct (_ || _); [reflexivity|].
  unfold bind at 1. unfold probe at 1. unfold lift at 1. cbn [browser output log].
  destruct (Colgate.enter_email_and_submit w _ (browser st)) as [[verdict|e] s'] eqn:Hp;
    [|reflexivity].
  assert (Hv : verdict <> Some true) by (intros ->; exact (Hnot s' eq_refl)).
  set (st1 := {| browser := s'; output := output st; log := log st ++ [Probed r] |}).
  change (output st) with (output st1).
  match goal with |- output (snd (?m st1)) = _ => assert (Hk : keeps_files m) end.
  { destruct verdict as [[|]|]; [congruence| |]; keeps. }
  apply Hk.
Qed.

(** The body of the Google loop writes only for a verdict [True]. *)
Lemma google_body_writes_only_valid (w : world) (a : Google.args)
    (unidecode : string -> string) (r : row) (v : Google.vars) (st : mstate) :
  (forall s', Google.validate_email_google w
                (str_strip (or_empty (row_get r "email" (Some "")))) (browser st)
              <> (Ok (Some true), s')) ->
  output (snd (Google.body w a unidecode r v st)) = output st.
Proof.
  intros Hnot. unfold Google.body. cbv zeta.
  destruct (_ || _); [reflexivity|].
  destruct (bool_decide _); [reflexivity|].
  unfold bind at 1. unfold probe at 1. unfold lift at 1. cbn [browser output log].
  destruct (Google.validate_email_google w _ (browser st)) as [[verdict|e] s'] eqn:Hp;
    [|reflexivity].
  assert (Hv : verdict <> Some true) by (intros ->; exact (Hnot s' eq_refl)).
  set (st1 := {| browser := s'; output := output st; log := log st ++ [Probed r] |}).
  change (output st) with (output st1).
  match goal with |- output (snd (?m st1)) = _ => assert (Hk : keeps_files m) end.
  { destruct verdict as [[|]|]; [congruence| |]; keeps. }
  apply Hk.
Qed.

Lemma example_world_after (n : nat) (before after : page) (t : nat) :
  n <= t -> page_at (example_world n before after) t = after.
Proof. intros H. simpl. destruct (Nat.ltb_spec t n); [lia|reflexivity]. Qed.

Lemma colgate_password_step_is_valid_witness :
  let w := example_world 34 ms_username_page ms_password_page in
  let s1 := snd (Colgate.reach_username_step w start) in
  let s2 := snd (Colgate.fill_and_submit w "jane.doe@x.edu" 12000 s1) in
  Colgate.reach_username_step w start = (Ok true, s1) /\
  Colgate.fill_and_submit w "jane.doe@x.edu" 12000 s1 = (Ok true, s2) /\
  calm w (clock s2) (fun p => ms_password_visible p = true /\ ms_no_error_text p = true) /\
  exists s3, Colgate.enter_email_and_submit w "jane.doe@x.edu" start = (Ok (Some true), s3).
Proof.
  intros w s1 s2.
  assert (H1 : Colgate.reach_username_step w start = (Ok true, s1)) by (vm_compute; reflexivity).
  assert (H2 : Colgate.fill_and_submit w "jane.doe@x.edu" 12000 s1 = (Ok true, s2))
    by (vm_compute; reflexivity).
  assert (H3 : calm w (clock s2)
                 (fun p => ms_password_visible p = true /\ ms_no_error_text p = true)).
  { intros t Ht. split; [reflexivity|]. unfold w. rewrite example_world_after.
    - split; vm_compute; reflexivity.
    - vm_compute in Ht. exact Ht. }
  split; [exact H1|]. split; [exact H2|]. split; [exact H3|].
  exact (colgate_password_step_is_valid w "jane.doe@x.edu" start s1 s2 H1 H2 H3).
Defined.

(** The two classifiers, with their bounded waits named. *)
Lemma colgate_classify_waits_first (w : world) :
  Colgate.classify_response w
  = (try_except (colgate_signal_wait w) CTimeoutException (ret tt) ;;
     t <- Colgate.find_username_error_text w ;;
     if any_in Colgate.invalid_hints (str_lower t) then ret (Some false) else
     p <- Colgate.at_password_step w ;;
     if p then ret (Some true) else
     ret None).
Proof. reflexivity. Qed.

Lemma google_classify_waits_second (w : world) :
  Google.classify_response w
  = (saml <- Google.is_saml_flow w ;;
     if saml then ret None else
     invalid <- Google.detect_invalid_by_message w ;;
     if invalid then ret (Some false) else
     pwd <- Google.at_password_step w ;;
     if pwd then Google.submit_wrong_password_and_check w 10000 else
     try_except (google_signal_wait w) CTimeoutException (ret tt) ;;
     saml <- Google.is_saml_flow w ;;
     if saml then ret None else
     invalid <- Google.detect_invalid_by_message w ;;
     if invalid then ret (Some false) else
     pwd <- Google.at_password_step w ;;
     if pwd then Google.submit_wrong_password_and_check w 10000 else
     ret None).
Proof. reflexivity. Qed.

(** C1, as stated, fails: that neither signal shows within the bounded
    wait does not make the verdict unknown, for both classifiers read
    the page again once the wait has expired.  Microsoft: the email is
    submitted at tick 34, the pages of the ticks 34 to 43 show neither
    a password input nor an error text, the wait expires at tick 44,
    and the password step is shown from tick 44 on; the verdict is
    [True] and the row is written.  Google: the identifier is submitted
    at tick 24, the first look finds nothing, the pages of the ticks 24
    to 44 show neither signal, the wait expires at tick 45, and the
    password step is shown from tick 45 on; the wrong password is
    typed, the verdict is [True] and the row is written. *)
Lemma unknown_after_wait_counterexample :
  (let w := example_world3 34 44 ms_username_page ms_blank_page ms_password_page in
   let s1 := snd (Colgate.reach_username_step w start) in
   let s2 := snd (Colgate.fill_and_submit w "jane.doe@x.edu" 12000 s1) in
   let s3 := snd (colgate_signal_wait w s2) in
   Colgate.reach_username_step w start = (Ok true, s1)
   /\ Colgate.fill_and_submit w "jane.doe@x.edu" 12000 s1 = (Ok true, s2)
   /\ colgate_signal_wait w s2 = (Raise TimeoutException, s3)
   /\ (clock s2 = 34 /\ clock s3 = 44)
   /\ (forall t, clock s2 <= t < clock s3 ->
       fault_at w t = None /\ ms_quiet (page_at w t) = true)
   /\ fst (Colgate.enter_email_and_submit w "jane.doe@x.edu" start) = Ok (Some true)
   /\ output fresh_run = None
   /\ output (snd (Colgate.body w colgate_args jane colgate_vars fresh_run))
      = Some [["full_name"; "email"]; ["Jane Doe"; "jane.doe@x.edu"]])
  /\
  (let w := example_world3 24 45 g_identifier_page g_blank_page g_wrong_password_page in
   let s1 := snd (Google.submit_identifier w "jane.doe@x.edu" start) in
   let s2 := snd (google_first_look w (snd (sleep 1200 s1))) in
   let s3 := snd (google_signal_wait w s2) in
   Google.submit_identifier w "jane.doe@x.edu" start = (Ok true, s1)
   /\ google_first_look w (snd (sleep 1200 s1)) = (Ok false, s2)
   /\ google_signal_wait w s2 = (Raise TimeoutException, s3)
   /\ (clock s1 = 24 /\ clock s3 = 45)
   /\ (forall t, clock s1 <= t < clock s3 ->
       fault_at w t = None /\ g_quiet (page_at w t) = true)
   /\ fst (Google.validate_email_google w "jane.doe@x.edu" start) = Ok (Some true)
   /\ output fresh_run = None
   /\ output (snd (Google.body w google_args id jane google_vars fresh_run))
      = Some [["full_name"; "username"; "email"]; ["Jane Doe"; "jdoe"; "jane.doe@x.edu"]]).
Proof.
  split; cbv zeta.
  - do 3 (split; [vm_compute; reflexivity|]).
    split; [split; vm_compute; reflexivity|].
    split; [|repeat split; vm_compute; reflexivity].
    intros t [Hlo Hhi]. vm_compute in Hlo, Hhi.
    split; [reflexivity|]. cbn [page_at example_world3].
    destruct (Nat.ltb_spec t 34); [lia|]. destruct (Nat.ltb_spec t 44); [|lia].
    vm_compute; reflexivity.
  - do 3 (split; [vm_compute; reflexivity|]).
    split; [split; vm_compute; reflexivity|].
    split; [|repeat split; vm_compute; reflexivity].
    intros t [Hlo Hhi]. vm_compute in Hlo, Hhi.
    split; [reflexivity|]. cbn [page_at example_world3].
    destruct (Nat.ltb_spec t 24); [lia|]. destruct (Nat.ltb_spec t 45); [|lia].
    vm_compute; reflexivity.
Qed.

(** C1, amended. When, from the submission on, neither signal shows (no
    visible password control, no known error message), during the
    bounded wait and when the page is read again after it, and the
    driver answers, the verdict is [None] (unknown), and the iteration
    of the loop that made the probe leaves the output file as it was.
    The first part is the Microsoft validator, the second the Google
    validator. *)
Theorem unknown_when_neither_signal :
  (forall (w : world) (a : Colgate.args) (r : row) (v : Colgate.vars) (st : mstate)
          (s1 s2 : state),
      let email := str_strip (or_empty (row_get r "email" (Some ""))) in
      Colgate.reach_username_step w (browser st) = (Ok true, s1) ->
      Colgate.fill_and_submit w email 12000 s1 = (Ok true, s2) ->
      calm w (clock s2) (fun p => ms_quiet p = true) ->
      (exists s3, Colgate.enter_email_and_submit w email (browser st) = (Ok None, s3)) /\
      output (snd (Colgate.body w a r v st)) = output st)
  /\
  (forall (w : world) (a : Google.args) (unidecode : string -> string) (r : row)
          (v : Google.vars) (st : mstate) (s1 : state),
      let email := str_strip (or_empty (row_get r "email" (Some ""))) in
      Google.submit_identifier w email (browser st) = (Ok true, s1) ->
      calm w (clock s1) (fun p => g_quiet p = true) ->
      (exists s3, Google.validate_email_google w email (browser st) = (Ok None, s3)) /\
      output (snd (Google.body w a unidecode r v st)) = output st).
Proof.
  split.
  - intros w a r v st s1 s2 email H1 H2 Hcalm.
    assert (Hv : exists s3,
               Colgate.enter_email_and_submit w email (browser st) = (Ok None, s3)).
    { rewrite (enter_email_and_submit_phases w email _ s1 s2 H1 H2).
      destruct (classify_response_ensures w (clock s2) _ Hcalm false false) with (s := s2)
        as (r' & s3 & Heq & (v' & -> & <-) & _).
      - apply (find_username_error_text_shown w (clock s2) _ Hcalm).
        + reflexivity.
        + intros p sel e Hq Hsel He Hshow. unfold ms_quiet in Hq.
          apply andb_true_iff in Hq as [_ Hno].
          pose proof (forallb_In _ _ _ (forallb_In _ _ _ Hno Hsel) He) as Hn.
          simpl in Hn. rewrite Hshow in Hn. simpl in Hn.
          apply negb_true_iff in Hn. exact Hn.
      - apply (at_password_step_hidden w (clock s2) _ Hcalm). intros p Hq.
        unfold ms_quiet in Hq. apply andb_true_iff in Hq as [Hh _].
        apply negb_true_iff in Hh. exact Hh.
      - lia.
      - exists s3. exact Heq. }
    split; [exact Hv|].
    apply colgate_body_writes_only_valid. intros s' Hs'.
    destruct Hv as (s3 & Hs3). fold email in Hs'. congruence.
  - intros w a unidecode r v st s1 email H1 Hcalm.
    assert (Hv : exists s3,
               Google.validate_email_google w email (browser st) = (Ok None, s3)).
    { rewrite (validate_email_google_phases w email _ s1 H1).
      destruct (google_classify_quiet w (clock s1) _ Hcalm) with (s := advance [Sleep 1200] s1)
        as (r' & s3 & Heq & (v' & -> & <-) & _).
      - auto.
      - simpl. lia.
      - exists s3. exact Heq. }
    split; [exact Hv|].
    apply google_body_writes_only_valid. intros s' Hs'.
    destruct Hv as (s3 & Hs3). fold email in Hs'. congruence.
Qed.

Lemma unknown_when_neither_signal_witness :
  (let w := example_world 34 ms_username_page ms_blank_page in
   let s1 := snd (Colgate.reach_username_step w start) in
   let s2 := snd (Colgate.fill_and_submit w "jane.doe@x.edu" 12000 s1) in
   calm w (clock s2) (fun p => ms_quiet p = true) /\
   (exists s3, Colgate.enter_email_and_submit w "jane.doe@x.edu" start = (Ok None, s3)) /\
   output (snd (Colgate.body w colgate_args jane colgate_vars fresh_run)) = None)
  /\
  (let w := example_world 24 g_identifier_page g_blank_page in
   let s1 := snd (Google.submit_identifier w "jane.doe@x.edu" start) in
   calm w (clock s1) (fun p => g_quiet p = true) /\
   (exists s3, Google.validate_email_google w "jane.doe@x.edu" start = (Ok None, s3)) /\
   output (snd (Google.body w google_args id jane google_vars fresh_run)) = None).
Proof.
  split.
  - intros w s1 s2.
    assert (H3 : calm w (clock s2) (fun p => ms_quiet p = true)).
    { intros t Ht. split; [reflexivity|]. unfold w. rewrite example_world_after.
      - vm_compute; reflexivity.
      - vm_compute in Ht. exact Ht. }
    split; [exact H3|].
    apply (proj1 unknown_when_neither_signal w colgate_args jane colgate_vars fresh_run s1 s2).
    + vm_compute; reflexivity.
    + vm_compute; reflexivity.
    + exact H3.
  - intros w s1.
    assert (H3 : calm w (clock s1) (fun p => g_quiet p = true)).
    { intros t Ht. split; [reflexivity|]. unfold w. rewrite example_world_after.
      - vm_compute; reflexivity.
      - vm_compute in Ht. exact Ht. }
    split; [exact H3|].
    apply (proj2 unknown_when_neither_signal w google_args id jane google_vars fresh_run s1).
    + vm_compute; reflexivity.
    + exact H3.
Defined.

(** ** The result sink *)

Lemma append_row_output (fn : list string) (r : row) (st : mstate) :
  append_row fn r st
  = (Ok tt, {| browser := browser st;
               output := Some (contents (output st) ++ header_for fn (output st)
                               ++ [writerow fn r]);
               log := log st ++ [Wrote r] |}).
Proof.
  unfold append_row, header_for. destruct (contents (output st)); reflexivity.
Qed.

(** Once the file has a record, a run of the sink only adds its rows. *)
Lemma write_all_nonempty (fn : list string) (rs : list row) (st : mstate) :
  contents (output st) <> [] ->
  exists st', write_all (append_row fn) rs st = (Ok tt, st')
              /\ browser st' = browser st
              /\ contents (output st') = contents (output st) ++ map (writerow fn) rs.
Proof.
  revert st. induction rs as [|r rs IH]; intros st Hne; simpl.
  - exists st. rewrite app_nil_r. auto.
  - unfold bind. rewrite append_row_output.
    unfold header_for. destruct (contents (output st)) as [|h t] eqn:Hc; [congruence|].
    edestruct IH as (st' & Heq & Hb & Hout); [|exists st'; split; [exact Heq|]].
    + simpl. discriminate.
    + simpl in *. split; [exact Hb|]. rewrite Hout. rewrite <- app_assoc. reflexivity.
Qed.

Lemma write_all_output (fn : list string) (r : row) (rs : list row) (st : mstate) :
  exists st', write_all (append_row fn) (r :: rs) st = (Ok tt, st')
              /\ browser st' = browser st
              /\ output st' = Some (contents (output st) ++ header_for fn (output st)
                                    ++ map (writerow fn) (r :: rs)).
Proof.
  simpl. unfold bind. rewrite append_row_output.
  edestruct (write_all_nonempty fn rs) as (st' & Heq & Hb & Hout);
    [|exists st'; split; [exact Heq|]].
  - simpl. intros H. apply List.app_eq_nil in H as [_ H].
    apply List.app_eq_nil in H as [_ H]. discriminate.
  - simpl in *. split; [exact Hb|].
    destruct (output st') as [f|] eqn:Hf; simpl in Hout.
    + rewrite Hout. rewrite <- !app_assoc. reflexivity.
    + exfalso. symmetry in Hout. apply List.app_eq_nil in Hout as [H _].
      apply List.app_eq_nil in H as [_ H]. apply List.app_eq_nil in H as [_ H].
      discriminate.
Qed.


(** ** A known message on the page *)

Lemma calm_stable (w : world) (t0 : nat) (p : page) :
  calm w t0 (eq p) -> forall p', p = p' -> p' = p.
Proof. intros _ p' H. symmetry. exact H. Qed.

(** The Microsoft probe says [False] when the first text the error
    regions show is a known message, whatever else the page shows. *)
Lemma colgate_invalid_on_shown_error (w : world) (email : string) (s0 s1 s2 : state)
    (p : page) :
  Colgate.reach_username_step w s0 = (Ok true, s1) ->
  Colgate.fill_and_submit w email 12000 s1 = (Ok true, s2) ->
  calm w (clock s2) (eq p) ->
  any_in Colgate.invalid_hints (str_lower (ms_shown_error p)) = true ->
  exists s3, Colgate.enter_email_and_submit w email s0 = (Ok (Some false), s3).
Proof.
  intros H1 H2 Hcalm Hhint. rewrite (enter_email_and_submit_phases w email s0 s1 s2 H1 H2).
  destruct (classify_response_ensures w (clock s2) _ Hcalm true
              (ms_password_visible p)) with (s := s2)
    as (r & s3 & Heq & (v & -> & <-) & _).
  - eapply ensures_weaken.
    + apply (find_username_error_text_exact w (clock s2) _ Hcalm p).
      apply (calm_stable w (clock s2)). exact Hcalm.
    + intros r (t & -> & <-). exists (ms_shown_error p). auto.
  - destruct (ms_password_visible p) eqn:Hv.
    + apply (at_password_step_visible w (clock s2) _ Hcalm). intros p' <-. exact Hv.
    + apply (at_password_step_hidden w (clock s2) _ Hcalm). intros p' <-. exact Hv.
  - lia.
  - exists s3. exact Heq.
Qed.

(** The Google probe says [False] when the page carries a known
    message and is not an SSO redirect, whatever else it shows. *)
Lemma google_invalid_on_message (w : world) (email : string) (s0 s1 : state) (p : page) :
  Google.submit_identifier w email s0 = (Ok true, s1) ->
  calm w (clock s1) (eq p) ->
  g_saml p = false ->
  g_invalid_message p = true ->
  exists s3, Google.validate_email_google w email s0 = (Ok (Some false), s3).
Proof.
  intros H1 Hcalm Hsaml Hinv. rewrite (validate_email_google_phases w email s0 s1 H1).
  destruct (google_classify_invalid w (clock s1) _ Hcalm p) with
    (s := advance [Sleep 1200] s1) as (r & s3 & Heq & (v & -> & <-) & _).
  - apply (calm_stable w (clock s1)). exact Hcalm.
  - exact Hsaml.
  - exact Hinv.
  - simpl. lia.
  - exists s3. exact Heq.
Qed.

(** C10, as stated, fails.  Microsoft: two alerts are shown, the second
    a known message, and a password input is visible; the verdict is
    [True].  Google: a known message and a password field on the page
    of an SSO redirect; the verdict is [None]. *)
Lemma invalid_precedence_counterexample :
  (ms_known_error_shown ms_two_alerts_password_page = true /\
   ms_password_visible ms_two_alerts_password_page = true /\
   fst (Colgate.enter_email_and_submit
          (example_world 34 ms_username_page ms_two_alerts_password_page)
          "jane.doe@x.edu" start) = Ok (Some true))
  /\
  (g_invalid_message g_sso_error_password_page = true /\
   g_password_field g_sso_error_password_page = true /\
   fst (Google.validate_email_google
          (example_world 24 g_identifier_page g_sso_error_password_page)
          "jane.doe@x.edu" start) = Ok None).
Proof. repeat split; vm_compute; reflexivity. Qed.

(** C10, amended. Once the email is submitted, on a page that stays as
    it is and has a password field, the verdict is [False] (invalid)
    when, for Microsoft, the first text shown by the error regions is a
    known message, and when, for Google, a known message is on the page
    and the address is not that of a SAML or SSO redirect. *)
Theorem invalid_message_precedes_password_step :
  (forall (w : world) (email : string) (s0 s1 s2 : state) (p : page),
      Colgate.reach_username_step w s0 = (Ok true, s1) ->
      Colgate.fill_and_submit w email 12000 s1 = (Ok true, s2) ->
      calm w (clock s2) (eq p) ->
      any_in Colgate.invalid_hints (str_lower (ms_shown_error p)) = true ->
      ms_password_visible p = true ->
      exists s3, Colgate.enter_email_and_submit w email s0 = (Ok (Some false), s3))
  /\
  (forall (w : world) (email : string) (s0 s1 : state) (p : page),
      Google.submit_identifier w email s0 = (Ok true, s1) ->
      calm w (clock s1) (eq p) ->
      g_saml p = false ->
      g_invalid_message p = true ->
      g_password_field p = true ->
      exists s3, Google.validate_email_google w email s0 = (Ok (Some false), s3)).
Proof.
  split.
  - intros w email s0 s1 s2 p H1 H2 Hcalm Hhint _.
    exact (colgate_invalid_on_shown_error w email s0 s1 s2 p H1 H2 Hcalm Hhint).
  - intros w email s0 s1 p H1 Hcalm Hsaml Hinv _.
    exact (google_invalid_on_message w email s0 s1 p H1 Hcalm Hsaml Hinv).
Qed.

Lemma example_world_calm (n t0 : nat) (before after : page) :
  n <= t0 -> calm (example_world n before after) t0 (eq after).
Proof.
  intros Hn t Ht. split; [reflexivity|]. rewrite example_world_after; [reflexivity|lia].
Qed.

Lemma invalid_message_precedes_password_step_witness :
  (let w := example_world 34 ms_username_page ms_error_password_page in
   calm w 34 (eq ms_error_password_page) /\
   any_in Colgate.invalid_hints (str_lower (ms_shown_error ms_error_password_page)) = true /\
   ms_password_visible ms_error_password_page = true /\
   exists s3, Colgate.enter_email_and_submit w "jane.doe@x.edu" start
              = (Ok (Some false), s3))
  /\
  (let w := example_world 24 g_identifier_page g_error_password_page in
   calm w 24 (eq g_error_password_page) /\
   g_saml g_error_password_page = false /\
   g_invalid_message g_error_password_page = true /\
   g_password_field g_error_password_page = true /\
   exists s3, Google.validate_email_google w "jane.doe@x.edu" start
              = (Ok (Some false), s3)).
Proof.
  split.
  - intros w.
    assert (Hc : calm w 34 (eq ms_error_password_page)) by (apply example_world_calm; lia).
    split; [exact Hc|]. split; [vm_compute; reflexivity|]. split; [vm_compute; reflexivity|].
    eapply (proj1 invalid_message_precedes_password_step w "jane.doe@x.edu" start).
    + vm_compute; reflexivity.
    + vm_compute; reflexivity.
    + exact Hc.
    + vm_compute; reflexivity.
    + vm_compute; reflexivity.
  - intros w.
    assert (Hc : calm w 24 (eq g_error_password_page)) by (apply example_world_calm; lia).
    split; [exact Hc|]. repeat (split; [vm_compute; reflexivity|]).
    eapply (proj2 invalid_message_precedes_password_step w "jane.doe@x.edu" start).
    + vm_compute; reflexivity.
    + exact Hc.
    + vm_compute; reflexivity.
    + vm_compute; reflexivity.
    + vm_compute; reflexivity.
Defined.

(** C6, as stated, fails.  Microsoft: two alerts are shown, the second
    a known message, and no password input; Google: a known message and
    no password field on the page of an SSO redirect.  Both verdicts
    are [None], not [False]. *)
Lemma invalid_on_known_message_counterexample :
  (ms_known_error_shown ms_two_alerts_page = true /\
   ms_password_visible ms_two_alerts_page = false /\
   fst (Colgate.enter_email_and_submit
          (example_world 34 ms_username_page ms_two_alerts_page)
          "jane.doe@x.edu" start) = Ok None)
  /\
  (g_invalid_message g_sso_error_page = true /\
   g_password_field g_sso_error_page = false /\
   fst (Google.validate_email_google
          (example_world 24 g_identifier_page g_sso_error_page)
          "jane.doe@x.edu" start) = Ok None).
Proof. repeat split; vm_compute; reflexivity. Qed.

(** C6, amended. Once the email is submitted, on a page that stays as
    it is and has no password input, the verdict is [False] (invalid)
    and the iteration of the loop leaves the output file as it was,
    when, for Microsoft, the first text shown by the error regions is a
    known message, and when, for Google, a known message is on the page
    and the address is not that of a SAML or SSO redirect. *)
Theorem invalid_on_known_message :
  (forall (w : world) (a : Colgate.args) (r : row) (v : Colgate.vars) (st : mstate)
          (s1 s2 : state) (p : page),
      let email := str_strip (or_empty (row_get r "email" (Some ""))) in
      Colgate.reach_username_step w (browser st) = (Ok true, s1) ->
      Colgate.fill_and_submit w email 12000 s1 = (Ok true, s2) ->
      calm w (clock s2) (eq p) ->
      any_in Colgate.invalid_hints (str_lower (ms_shown_error p)) = true ->
      ms_password_visible p = false ->
      (exists s3, Colgate.enter_email_and_submit w email (browser st)
                  = (Ok (Some false), s3)) /\
      output (snd (Colgate.body w a r v st)) = output st)
  /\
  (forall (w : world) (a : Google.args) (unidecode : string -> string) (r : row)
          (v : Google.vars) (st : mstate) (s1 : state) (p : page),
      let email := str_strip (or_empty (row_get r "email" (Some ""))) in
      Google.submit_identifier w email (browser st) = (Ok true, s1) ->
      calm w (clock s1) (eq p) ->
      g_saml p = false ->
      g_invalid_message p = true ->
      g_password_field p = false ->
      (exists s3, Google.validate_email_google w email (browser st)
                  = (Ok (Some false), s3)) /\
      output (snd (Google.body w a unidecode r v st)) = output st).
Proof.
  split.
  - intros w a r v st s1 s2 p email H1 H2 Hcalm Hhint _.
    pose proof (colgate_invalid_on_shown_error w email _ s1 s2 p H1 H2 Hcalm Hhint) as Hv.
    split; [exact Hv|].
    apply colgate_body_writes_only_valid. intros s' Hs'.
    destruct Hv as (s3 & Hs3). fold email in Hs'. congruence.
  - intros w a unidecode r v st s1 p email H1 Hcalm Hsaml Hinv _.
    pose proof (google_invalid_on_message w email _ s1 p H1 Hcalm Hsaml Hinv) as Hv.
    split; [exact Hv|].
    apply google_body_writes_only_valid. intros s' Hs'.
    destruct Hv as (s3 & Hs3). fold email in Hs'. congruence.
Qed.

Lemma invalid_on_known_message_witness :
  (let w := example_world 34 ms_username_page ms_error_page in
   calm w 34 (eq ms_error_page) /\
   any_in Colgate.invalid_hints (str_lower (ms_shown_error ms_error_page)) = true /\
   ms_password_visible ms_error_page = false /\
   (exists s3, Colgate.enter_email_and_submit w "jane.doe@x.edu" start
               = (Ok (Some false), s3)) /\
   output (snd (Colgate.body w colgate_args jane colgate_vars fresh_run)) = None)
  /\
  (let w := example_world 24 g_identifier_page g_error_page in
   calm w 24 (eq g_error_page) /\
   g_saml g_error_page = false /\
   g_invalid_message g_error_page = true /\
   g_password_field g_error_page = false /\
   (exists s3, Google.validate_email_google w "jane.doe@x.edu" start
               = (Ok (Some false), s3)) /\
   output (snd (Google.body w google_args id jane google_vars fresh_run)) = None).
Proof.
  split.
  - intros w.
    assert (Hc : calm w 34 (eq ms_error_page)) by (apply example_world_calm; lia).
    split; [exact Hc|]. split; [vm_compute; reflexivity|]. split; [vm_compute; reflexivity|].
    eapply (proj1 invalid_on_known_message w colgate_args jane colgate_vars fresh_run).
    + vm_compute; reflexivity.
    + vm_compute; reflexivity.
    + exact Hc.
    + vm_compute; reflexivity.
    + vm_compute; reflexivity.
  - intros w.
    assert (Hc : calm w 24 (eq g_error_page)) by (apply example_world_calm; lia).
    split; [exact Hc|]. repeat (split; [vm_compute; reflexivity|]).
    eapply (proj2 invalid_on_known_message w google_args id jane google_vars fresh_run).
    + vm_compute; reflexivity.
    + exact Hc.
    + vm_compute; reflexivity.
    + vm_compute; reflexivity.
    + vm_compute; reflexivity.
Defined.

(** ** What the probes do to the browser *)

Section Emits.
Variable P : event -> bool.

Lemma emits_ret {A} (a : A) : emits P (ret a).
Proof. intros s. exists []. simpl. rewrite app_nil_r. auto. Qed.

Lemma emits_raise {A} (e : exn) : emits P (@raise state A e).
Proof. intros s. exists []. simpl. rewrite app_nil_r. auto. Qed.

Lemma emits_bind {A B} (m : M A) (f : A -> M B) :
  emits P m -> (forall a, emits P (f a)) -> emits P (bind m f).
Proof.
  intros Hm Hf s. unfold bind. destruct (Hm s) as (evs & Ht & Hev & Hc).
  destruct (m s) as [[a|e] s1]; simpl in *.
  - destruct (Hf a s1) as (evs' & Ht' & Hev' & Hc').
    exists (evs ++ evs'). rewrite Ht', Ht, forallb_app, Hev, Hev', app_assoc.
    repeat split; auto. lia.
  - exists evs. auto.
Qed.

Lemma emits_try_except {A} (m h : M A) (c : exn_class) :
  emits P m -> emits P h -> emits P (try_except m c h).
Proof.
  intros Hm Hh s. unfold try_except. destruct (Hm s) as (evs & Ht & Hev & Hc).
  destruct (m s) as [[a|e] s1]; simpl in *.
  - exists evs. auto.
  - destruct (isinstance e c).
    + destruct (Hh s1) as (evs' & Ht' & Hev' & Hc').
      exists (evs ++ evs'). rewrite Ht', Ht, forallb_app, Hev, Hev', app_assoc.
      repeat split; auto. lia.
    + exists evs. auto.
Qed.

Lemma emits_call (w : world) {A} (evs : list event) (f : page -> res A) :
  forallb P evs = true -> emits P (call w evs f).
Proof.
  intros Hev s. exists evs. unfold call.
  destruct (fault_at w (clock s)); simpl; auto.
Qed.

Lemma emits_sleep (ms : Z) : P (Sleep ms) = true -> emits P (sleep ms).
Proof.
  intros Hms s. unfold sleep. destruct (sleep_error ms).
  - exists []. simpl. rewrite app_nil_r. auto.
  - exists [Sleep ms]. simpl. rewrite Hms. auto.
Qed.

Lemma emits_sleep_uniform (w : world) (lo hi : Z) :
  P (SleepUniform lo hi) = true -> emits P (sleep_uniform w lo hi).
Proof.
  intros Hev s. unfold sleep_uniform. destruct (sleep_error _).
  - exists []. simpl. rewrite app_nil_r. auto.
  - exists [SleepUniform lo hi]. simpl. rewrite Hev. auto.
Qed.

Lemma emits_advance (s : state) :
  exists evs, trace (advance [] s) = trace s ++ evs
              /\ forallb P evs = true
              /\ clock s <= clock (advance [] s).
Proof. exists []. simpl. auto. Qed.

Lemma emits_until_loop {A} (n : nat) (method : M (option A)) :
  emits P method -> emits P (until_loop n method).
Proof.
  intros Hm. induction n as [|n IH]; intros s; simpl;
    destruct (Hm s) as (evs & Ht & Hev & Hc);
    destruct (method s) as [[[v|]|e] s1]; simpl in *;
    try destruct (isinstance e CNoSuchElementException);
    try (exists evs; simpl; rewrite ?app_nil_r; auto with lia; fail).
  all: destruct (IH (advance [] s1)) as (evs' & Ht' & Hev' & Hc');
    exists (evs ++ evs'); rewrite Ht'; simpl; rewrite Ht, forallb_app, Hev, Hev';
    rewrite app_nil_r, app_assoc; simpl in Hc'; repeat split; auto; lia.
Qed.

Lemma emits_wait_until (w : world) {A} (timeout : Z) (method : M (option A)) :
  emits P method -> emits P (wait_until w timeout method).
Proof. apply emits_until_loop. Qed.

Lemma emits_truth (m : M bool) : emits P m -> emits P (truth m).
Proof.
  intros Hm. unfold truth. apply emits_bind; [exact Hm|]. intros b. apply emits_ret.
Qed.

Lemma emits_any_m {A} (f : A -> M bool) (l : list A) :
  (forall x, emits P (f x)) -> emits P (any_m f l).
Proof.
  intros Hf. induction l as [|x l IH]; simpl; [apply emits_ret|].
  apply emits_bind; [apply Hf|]. intros [|]; [apply emits_ret|exact IH].
Qed.

Lemma emits_filter_m {A} (f : A -> M bool) (l : list A) :
  (forall x, emits P (f x)) -> emits P (filter_m f l).
Proof.
  intros Hf. induction l as [|x l IH]; simpl; [apply emits_ret|].
  apply emits_bind; [apply Hf|]. intros b.
  apply emits_bind; [exact IH|]. intros r. apply emits_ret.
Qed.

End Emits.

Create HintDb emits_db.

Ltac emits :=
  repeat first
    [ assumption
    | solve [typeclasses eauto 3 with emits_db]
    | progress cbv zeta
    | apply emits_ret | apply emits_raise
    | apply emits_call; reflexivity
    | apply emits_sleep; reflexivity
    | apply emits_sleep_uniform; reflexivity
    | apply emits_try_except
    | apply emits_wait_until
    | apply emits_until_loop
    | apply emits_truth
    | apply emits_any_m; intros
    | apply emits_filter_m; intros
    | apply emits_bind; [|intros]
    | match goal with
      | |- emits _ (if ?b then _ else _) => destruct b
      | |- emits _ (match ?x with _ => _ end) => destruct x
      end ].

Lemma browsing_detect_invalid (w : world) : browsing (Google.detect_invalid_by_message w).
Proof.
  unfold Google.detect_invalid_by_message, driver_page_source, find_elements,
    find_element, text. emits.
Qed.
#[global] Hint Resolve browsing_detect_invalid : emits_db.

Ltac unfold_driver :=
  unfold driver_get, driver_current_url, driver_page_source, find_elements, find_element,
    execute_script, execute_cdp_cmd, switch_to_default_content, switch_to_frame, text,
    is_displayed, click, clear, send_keys, send_return, element_to_be_clickable,
    presence_of_element_located.

Lemma browsing_is_saml_flow (w : world) : browsing (Google.is_saml_flow w).
Proof. unfold Google.is_saml_flow. unfold_driver. emits. Qed.

Lemma browsing_google_at_password_step (w : world) : browsing (Google.at_password_step w).
Proof. unfold Google.at_password_step. unfold_driver. emits. Qed.

Lemma browsing_consent_loop (w : world) (sels : list string) :
  browsing (Google.consent_loop w sels).
Proof.
  induction sels as [|sel sels IH]; simpl; [apply emits_ret|].
  unfold_driver. emits.
Qed.

Lemma browsing_account_chooser_bypass (w : world) :
  browsing (Google.account_chooser_bypass w).
Proof. unfold Google.account_chooser_bypass. unfold_driver. emits. Qed.

Lemma browsing_submit_wrong_password (w : world) (timeout : Z) :
  browsing (Google.submit_wrong_password w timeout).
Proof. unfold Google.submit_wrong_password. unfold_driver. emits. Qed.

#[global] Hint Resolve browsing_is_saml_flow browsing_google_at_password_step
  browsing_consent_loop browsing_account_chooser_bypass browsing_submit_wrong_password
  : emits_db.

Lemma browsing_check_password_outcome (w : world) :
  browsing (Google.check_password_outcome w).
Proof. unfold Google.check_password_outcome. unfold_driver. emits. Qed.

Lemma browsing_find_identifier_loop (w : world) (wait : Z) (sels : list locator) :
  browsing (Google.find_identifier_loop w wait sels).
Proof.
  induction sels as [|sel sels IH]; simpl; [apply emits_ret|].
  unfold_driver. emits.
Qed.

Lemma browsing_click_next_if_present (w : world) :
  browsing (Google.click_next_if_present w).
Proof. unfold Google.click_next_if_present. unfold_driver. emits. Qed.

#[global] Hint Resolve browsing_check_password_outcome browsing_find_identifier_loop
  browsing_click_next_if_present : emits_db.

Lemma browsing_fill_and_submit (w : world) (email : string) (timeout : Z) :
  browsing (Google.fill_and_submit w email timeout).
Proof.
  unfold Google.fill_and_submit, Google.find_identifier_input, Google.on_element.
  unfold_driver. emits.
Qed.

Lemma browsing_submit_wrong_password_and_check (w : world) (timeout : Z) :
  browsing (Google.submit_wrong_password_and_check w timeout).
Proof. unfold Google.submit_wrong_password_and_check. emits. Qed.

#[global] Hint Resolve browsing_fill_and_submit browsing_submit_wrong_password_and_check
  : emits_db.

Lemma browsing_classify_response (w : world) : browsing (Google.classify_response w).
Proof. unfold Google.classify_response. emits. Qed.

Lemma browsing_submit_identifier (w : world) (email : string) :
  browsing (Google.submit_identifier w email).
Proof.
  unfold Google.submit_identifier, Google.consent_click_if_present. unfold_driver. emits.
Qed.

#[global] Hint Resolve browsing_classify_response browsing_submit_identifier : emits_db.

Lemma browsing_validate_email_google (w : world) (email : string) :
  browsing (Google.validate_email_google w email).
Proof. unfold Google.validate_email_google. emits. Qed.

(** ** The password step of the Google validator *)

Lemma bind_inv {S A B} (m : Mon S A) (f : A -> Mon S B) (s s' : S) (b : B) :
  bind m f s = (Ok b, s') ->
  exists a s1, m s = (Ok a, s1) /\ f a s1 = (Ok b, s').
Proof.
  unfold bind. destruct (m s) as [[a|e] s1]; [eauto|discriminate].
Qed.

Lemma open_output_inv (w : world) (st st' : mstate) (prior : option file) :
  open_output w st = (Ok prior, st') -> prior = output st /\ st' = st.
Proof.
  unfold open_output. destruct (load_fault w); [discriminate|]. intros [= <- <-]. auto.
Qed.

(** The load of the output: it raises what the oracle says, or gives
    the file. *)
Lemma open_output_cases (w : world) (st : mstate) :
  (exists e, load_fault w = Some e /\ open_output w st = (Raise e, st))
  \/ (load_fault w = None /\ open_output w st = (Ok (output st), st)).
Proof.
  unfold open_output. destruct (load_fault w) as [e|]; [left; exists e; auto|right; auto].
Qed.

(** The two cases of the load, in a goal about a run. *)
Ltac load_cases :=
  match goal with
  | |- context [open_output ?w ?st] =>
      let e := fresh "el" in
      let H := fresh "Hopen" in
      destruct (open_output_cases w st) as [(e & _ & H)|[_ H]]; rewrite H; clear H
  end.

Lemma try_except_inv {S A} (m h : Mon S A) (c : exn_class) (s s' : S) (a : A) :
  try_except m c h s = (Ok a, s') ->
  m s = (Ok a, s') \/ exists e s1, m s = (Raise e, s1) /\ h s1 = (Ok a, s').
Proof.
  unfold try_except. destruct (m s) as [[a'|e] s1]; [auto|].
  destruct (isinstance e c); [eauto|discriminate].
Qed.

Lemma call_inv (w : world) {A} (evs : list event) (f : page -> res A) (s s' : state)
    (a : A) :
  call w evs f s = (Ok a, s') ->
  fault_at w (clock s) = None /\ f (page_at w (clock s)) = Ok a /\ s' = advance evs s.
Proof.
  unfold call. destruct (fault_at w (clock s)); [discriminate|].
  intros [= -> <-]. auto.
Qed.

Lemma browsing_clock {A} (m : M A) (s s' : state) (r : res A) :
  browsing m -> m s = (r, s') -> clock s <= clock s'.
Proof. intros Hm Heq. destruct (Hm s) as (_ & _ & _ & Hc). rewrite Heq in Hc. exact Hc. Qed.

Lemma browsing_trace {A} (m : M A) (s s' : state) (r : res A) :
  browsing m -> m s = (r, s') -> exists evs, trace s' = trace s ++ evs.
Proof.
  intros Hm Heq. destruct (Hm s) as (evs & Ht & _ & _). rewrite Heq in Ht. eauto.
Qed.

(** A verdict [True] of the classifier comes out of
    [submit_wrong_password_and_check]. *)
Lemma classify_valid_inv (w : world) (s s' : state) :
  Google.classify_response w s = (Ok (Some true), s') ->
  exists s1, Google.submit_wrong_password_and_check w 10000 s1 = (Ok (Some true), s').
Proof.
  unfold Google.classify_response. intros H.
  apply bind_inv in H as ([|] & sa & _ & H); [discriminate|].
  apply bind_inv in H as ([|] & sb & _ & H); [discriminate|].
  apply bind_inv in H as ([|] & sc & _ & H); [eauto|].
  apply bind_inv in H as (_ & sd & _ & H).
  apply bind_inv in H as ([|] & se & _ & H); [discriminate|].
  apply bind_inv in H as ([|] & sf & _ & H); [discriminate|].
  apply bind_inv in H as ([|] & sg & _ & H); [eauto|discriminate].
Qed.

Lemma submit_wrong_password_typed (w : world) (timeout : Z) (s1 s2 : state) :
  Google.submit_wrong_password w timeout s1 = (Ok true, s2) ->
  exists evs,
    trace s2 = trace s1 ++ evs ++ [Clear; SendKeys "NotTheRightPassword123!!"; SendReturn].
Proof.
  unfold Google.submit_wrong_password. intros H.
  apply try_except_inv in H as [H|(e & sx & _ & [=])].
  apply bind_inv in H as (pwd_input & sa & Hwait & H).
  apply bind_inv in H as ([] & sb & Hscript & H).
  apply bind_inv in H as ([] & sc & Hclick & H).
  apply bind_inv in H as ([] & sd & Hclear & H).
  apply call_inv in Hclear as (_ & _ & ->).
  apply bind_inv in H as ([] & se & Hkeys & H).
  apply call_inv in Hkeys as (_ & _ & ->).
  apply bind_inv in H as ([] & sf & Hret & H).
  apply call_inv in Hret as (_ & _ & ->).
  injection H as <-.
  assert (Hpre : exists evs, trace sc = trace s1 ++ evs).
  { eapply (browsing_trace
              (pwd_input <- wait_until w timeout
                              (element_to_be_clickable w Google.password_selector) ;;
               execute_script w Google.scroll_into_view [] ;;
               try_except (click w pwd_input) CException (ret tt))).
    - unfold_driver. emits.
    - unfold bind. rewrite Hwait. rewrite Hscript. exact Hclick. }
  destruct Hpre as (evs & Hevs). exists evs. simpl. rewrite Hevs.
  rewrite <- !app_assoc. reflexivity.
Qed.

(** A verdict [True] of [check_password_outcome] was read off a page
    that answers the password. *)
Lemma check_password_outcome_valid (w : world) (s2 s' : state) :
  Google.check_password_outcome w s2 = (Ok (Some true), s') ->
  exists t, clock s2 <= t /\ fault_at w t = None /\ g_password_reply (page_at w t) = true.
Proof.
  unfold Google.check_password_outcome. intros H.
  apply bind_inv in H as ([] & sa & Hwait & H).
  apply bind_inv in H as (src & sb & Hsrc & H).
  apply call_inv in Hsrc as (Hfault & [= <-] & ->).
  exists (clock sa). split.
  - eapply browsing_clock; [|exact Hwait]. unfold_driver. emits.
  - split; [exact Hfault|]. unfold g_password_reply. cbv zeta.
    destruct (_ || _); [reflexivity|].
    apply bind_inv in H as ([|] & sc & _ & H); discriminate.
Qed.

Section GooglePasswordCalm.
Variable w : world.
Variable t0 : nat.
Variable p : page.
Hypothesis Hcalm : calm w t0 (eq p).

(** On a page that stays as it is, [check_password_outcome] reads the
    verdict off that page. *)
Lemma check_password_outcome_exact :
  ensures t0 (Google.check_password_outcome w) (returns (eq (g_password_verdict p))).
Proof.
  pose proof (calm_stable w t0 p Hcalm) as Hstable.
  assert (Hsrc : ensures t0 (driver_page_source w) (returns (eq (page_source p)))).
  { apply (ensures_read w t0 _ Hcalm [] page_source). intros p' <-. reflexivity. }
  unfold Google.check_password_outcome.
  eapply ensures_bind_ret with (P := fun _ => True).
  { eapply ensures_try_except with
      (R1 := fun r => r = Ok tt \/ r = Raise TimeoutException).
    - unfold wait_until. eapply ensures_until with (Rm := returns (fun _ => True)).
      + apply ensures_truth. eapply ensures_bind_ret; [exact Hsrc|]. intros src _.
        destruct (str_in "Wrong password" src).
        * apply ensures_ret. eexists; split; [reflexivity|exact I].
        * eapply ensures_weaken; [apply (detect_invalid_exact w t0 _ Hcalm p Hstable)|].
          intros r (b & -> & _). eexists; split; [reflexivity|exact I].
      + intros []. left. reflexivity.
      + right. reflexivity.
      + intros e (a & [=] & _).
    - intros [] _. exists tt. auto.
    - intros e [[=]|[= ->]] [=].
    - intros e _ _. apply ensures_ret_val. exact I. }
  intros _ _. eapply ensures_bind_ret; [exact Hsrc|]. intros src <-.
  unfold g_password_verdict, g_password_reply. cbv zeta.
  destruct (_ || _); [apply ensures_ret_val; reflexivity|].
  eapply ensures_bind_ret; [apply (detect_invalid_exact w t0 _ Hcalm p Hstable)|].
  intros i <-. destruct (g_invalid_message p); apply ensures_ret_val; reflexivity.
Qed.
End GooglePasswordCalm.

(** C4, as stated, fails: the password step by itself yields [True].
    The page that follows the identifier is the password step and
    nothing more, a password field under the prompt "Enter your
    password"; it stays as it is when the wrong password is typed.  No
    page of the run carries "Wrong password" or "Try again", or a
    message about an unknown account, and no call raises; yet the
    verdict is [True] and the row is written. *)
Lemma valid_on_password_prompt_counterexample :
  let w := example_world 24 g_identifier_page g_password_prompt_page in
  fst (Google.validate_email_google w "jane.doe@x.edu" start) = Ok (Some true)
  /\ (forall t, fault_at w t = None
                /\ g_wrong_password_message (page_at w t) = false
                /\ g_invalid_message (page_at w t) = false)
  /\ output fresh_run = None
  /\ output (snd (Google.body w google_args id jane google_vars fresh_run))
     = Some [["full_name"; "username"; "email"]; ["Jane Doe"; "jdoe"; "jane.doe@x.edu"]].
Proof.
  cbv zeta. split; [vm_compute; reflexivity|].
  split; [|split; vm_compute; reflexivity].
  intros t. split; [reflexivity|]. cbn [page_at example_world].
  destruct (t <? 24); split; vm_compute; reflexivity.
Qed.

(** C4, amended. In the Google validator a verdict [True] (valid) is reached
    only after the wrong password was typed into the password field and
    a page then answered it ("Wrong password", "Try again", or the
    prompt "Enter your password"); and once the wrong password is
    typed, on a page that stays as it is, the verdict is [True] if the
    page answers the password, [False] if it carries a known "no such
    account" message instead, and [None] otherwise. *)
Theorem google_valid_after_wrong_password (w : world) :
  (forall (email : string) (s0 s' : state),
      Google.validate_email_google w email s0 = (Ok (Some true), s') ->
      exists (s1 s2 : state) (evs : list event) (t : nat),
        Google.submit_wrong_password w 10000 s1 = (Ok true, s2)
        /\ trace s2 = trace s1 ++ evs
                      ++ [Clear; SendKeys "NotTheRightPassword123!!"; SendReturn]
        /\ Google.check_password_outcome w s2 = (Ok (Some true), s')
        /\ clock s2 <= t /\ fault_at w t = None
        /\ g_password_reply (page_at w t) = true)
  /\
  (forall (timeout : Z) (s1 s2 : state) (p : page),
      Google.submit_wrong_password w timeout s1 = (Ok true, s2) ->
      calm w (clock s2) (eq p) ->
      exists s3, Google.submit_wrong_password_and_check w timeout s1
                 = (Ok (g_password_verdict p), s3)).
Proof.
  split.
  - intros email s0 s' H. unfold Google.validate_email_google in H.
    apply bind_inv in H as ([|] & sa & _ & H); [|discriminate]. simpl in H.
    apply bind_inv in H as ([] & sb & _ & H).
    apply classify_valid_inv in H as (s1 & H).
    unfold Google.submit_wrong_password_and_check in H.
    apply bind_inv in H as ([|] & s2 & Hsent & H); [|discriminate]. simpl in H.
    destruct (submit_wrong_password_typed w 10000 s1 s2 Hsent) as (evs & Hevs).
    destruct (check_password_outcome_valid w s2 s' H) as (t & Ht & Hf & Hr).
    exists s1, s2, evs, t. auto 10.
  - intros timeout s1 s2 p Hsent Hcalm. unfold Google.submit_wrong_password_and_check, bind.
    rewrite Hsent. simpl.
    destruct (check_password_outcome_exact w (clock s2) p Hcalm s2) as
      (r & s3 & Heq & (v & -> & <-) & _); [lia|].
    exists s3. exact Heq.
Qed.

Lemma example_world3_calm (n1 n2 t0 : nat) (first second third : page) :
  n1 <= t0 -> n2 <= t0 -> calm (example_world3 n1 n2 first second third) t0 (eq third).
Proof.
  intros H1 H2 t Ht. split; [reflexivity|]. simpl.
  destruct (Nat.ltb_spec t n1); [lia|]. destruct (Nat.ltb_spec t n2); [lia|]. reflexivity.
Qed.

Lemma google_valid_after_wrong_password_witness :
  let w := example_world3 24 36 g_identifier_page g_password_page g_wrong_password_page in
  let s' := snd (Google.validate_email_google w "jane.doe@x.edu" start) in
  let s1 := {| clock := 30; trace := [] |} in
  let s2 := snd (Google.submit_wrong_password w 10000 s1) in
  Google.validate_email_google w "jane.doe@x.edu" start = (Ok (Some true), s') /\
  (exists (s1 s2 : state) (evs : list event) (t : nat),
      Google.submit_wrong_password w 10000 s1 = (Ok true, s2)
      /\ trace s2 = trace s1 ++ evs
                    ++ [Clear; SendKeys "NotTheRightPassword123!!"; SendReturn]
      /\ Google.check_password_outcome w s2 = (Ok (Some true), s')
      /\ clock s2 <= t /\ fault_at w t = None
      /\ g_password_reply (page_at w t) = true) /\
  Google.submit_wrong_password w 10000 s1 = (Ok true, s2) /\
  calm w (clock s2) (eq g_wrong_password_page) /\
  exists s3, Google.submit_wrong_password_and_check w 10000 s1 = (Ok (Some true), s3).
Proof.
  intros w s' s1 s2.
  assert (H1 : Google.validate_email_google w "jane.doe@x.edu" start = (Ok (Some true), s'))
    by (vm_compute; reflexivity).
  assert (H2 : Google.submit_wrong_password w 10000 s1 = (Ok true, s2))
    by (vm_compute; reflexivity).
  assert (H3 : calm w (clock s2) (eq g_wrong_password_page)).
  { apply example_world3_calm; vm_compute; lia. }
  split; [exact H1|]. split.
  - exact (proj1 (google_valid_after_wrong_password w) "jane.doe@x.edu" start s' H1).
  - split; [exact H2|]. split; [exact H3|].
    exact (proj2 (google_valid_after_wrong_password w) 10000%Z s1 s2 g_wrong_password_page H2 H3).
Defined.

(** ** Recycling the browser *)

Lemma emits_restarts (P : event -> bool) {A} (m : M A) (s s' : state) (r : res A) :
  emits P m ->
  (forall ev, P ev = true -> restart_pause ev = false) ->
  m s = (r, s') ->
  restarts (trace s') = restarts (trace s).
Proof.
  intros Hm HP Heq. destruct (Hm s) as (evs & Ht & Hev & _). rewrite Heq in Ht.
  simpl in Ht. rewrite Ht. unfold restarts. rewrite List.filter_app, length_app.
  assert (Hnil : List.filter restart_pause evs = []).
  { clear Ht. induction evs as [|ev evs IH]; [reflexivity|]. simpl in *.
    apply andb_true_iff in Hev as [H1 H2]. rewrite (HP ev H1). auto. }
  rewrite Hnil. simpl. lia.
Qed.

Lemma browsing_no_pause (ev : event) : browsing_event ev = true -> restart_pause ev = false.
Proof. destruct ev; simpl; try reflexivity. intros H. apply negb_true_iff in H. exact H. Qed.

Lemma no_pause_spec (ev : event) : no_pause ev = true -> restart_pause ev = false.
Proof. unfold no_pause. intros H. apply negb_true_iff in H. exact H. Qed.

Lemma emits_google_make_driver (w : world) (headless : bool) :
  emits no_pause (Google.make_driver w headless).
Proof. unfold Google.make_driver, webdriver_Chrome. unfold_driver. emits. Qed.

Lemma emits_quit_quietly (w : world) :
  emits no_pause (try_except (driver_quit w) CException (ret tt)).
Proof. unfold driver_quit. emits. Qed.

(** A restart that returns has paused once. *)
Lemma restart_driver_pauses (w : world) (headless : bool) (s s' : state) :
  Google.restart_driver w headless s = (Ok tt, s') ->
  restarts (trace s') = S (restarts (trace s)).
Proof.
  unfold Google.restart_driver. intros H.
  apply bind_inv in H as ([] & sa & Hquit & H).
  apply bind_inv in H as ([] & sb & Hsleep & H).
  rewrite (emits_restarts _ _ _ _ _ (emits_google_make_driver w headless) no_pause_spec H).
  injection Hsleep as <-.
  rewrite <- (emits_restarts _ _ _ _ _ (emits_quit_quietly w) no_pause_spec Hquit).
  unfold restarts. simpl. rewrite List.filter_app, length_app. simpl. lia.
Qed.

(** A restart whose launch fails: one attempt, and the failure is raised. *)
Lemma restart_driver_fails (w : world) (headless : bool) (s : state) (e : exn) :
  (forall c, fault_at w (clock s) <> Some (SystemExit c)) ->
  fault_at w (S (S (clock s))) = Some e ->
  isinstance e CTypeError = false ->
  exists s', Google.restart_driver w headless s = (Raise e, s')
             /\ trace s' = trace s ++ [Quit; Sleep 2000; Launch].
Proof.
  intros Hquit Hfault Hty.
  unfold Google.restart_driver, Google.make_driver, bind, try_except, driver_quit,
    webdriver_Chrome, call, sleep.
  destruct (fault_at w (clock s)) as [e0|] eqn:Hq.
  - assert (Hi : isinstance e0 CException = true).
    { destruct e0; try reflexivity. exfalso. exact (Hquit code eq_refl). }
    rewrite Hi. simpl. rewrite Hfault, Hty. eexists. split; [reflexivity|].
    simpl. rewrite <- !app_assoc. reflexivity.
  - simpl. rewrite Hfault, Hty. eexists. split; [reflexivity|].
    simpl. rewrite <- !app_assoc. reflexivity.
Qed.

Lemma lift_inv {A} (m : M A) (st st' : mstate) (r : res A) :
  lift m st = (r, st') ->
  exists s', m (browser st) = (r, s')
             /\ st' = {| browser := s'; output := output st; log := log st |}.
Proof.
  unfold lift. destruct (m (browser st)) as [r' s']. intros [= -> <-]. eauto.
Qed.

Lemma probe_inv {A} (r0 : row) (m : M A) (st st' : mstate) (r : res A) :
  probe r0 m st = (r, st') ->
  exists s', m (browser st) = (r, s')
             /\ st' = {| browser := s'; output := output st;
                         log := log st ++ [Probed r0] |}.
Proof.
  unfold probe. intros H. apply lift_inv in H as (s' & Hm & ->). eauto.
Qed.

Lemma steady_ret {A} (a : A) : steady (ret a).
Proof. intros st r st' [= <- <-]. auto. Qed.

Lemma steady_bind {A B} (m : MM A) (f : A -> MM B) :
  steady m -> (forall a, steady (f a)) -> steady (bind m f).
Proof.
  intros Hm Hf st r st'. unfold bind. destruct (m st) as [[a|e] st1] eqn:H1.
  - intros H2. destruct (Hm _ _ _ H1) as [Hr Hp]. destruct (Hf a _ _ _ H2) as [Hr' Hp'].
    split; congruence.
  - intros [= <- <-]. exact (Hm _ _ _ H1).
Qed.

Lemma steady_lift (P : event -> bool) {A} (m : M A) :
  emits P m -> (forall ev, P ev = true -> restart_pause ev = false) -> steady (lift m).
Proof.
  intros Hm HP st r st' H. apply lift_inv in H as (s' & Heq & ->). simpl.
  split; [|reflexivity]. exact (emits_restarts P m _ _ _ Hm HP Heq).
Qed.

Lemma probes_app (l1 l2 : list gevent) : probes (l1 ++ l2) = probes l1 + probes l2.
Proof. unfold probes. rewrite List.filter_app, length_app. reflexivity. Qed.

Lemma steady_append_row (fn : list string) (r : row) : steady (append_row fn r).
Proof.
  intros st r' st'. rewrite append_row_output. intros [= <- <-]. simpl.
  rewrite probes_app. split; [reflexivity|]. cbn. lia.
Qed.

Lemma emits_sleep_uniform_browsing (w : world) (lo hi : Z) : browsing (sleep_uniform w lo hi).
Proof. apply emits_sleep_uniform. reflexivity. Qed.

(** What an iteration of the Google loop that returns does to the
    counters: nothing if it skips its row; otherwise it probes once, and
    pauses for a restart exactly when the count of probes has become a
    multiple of [restart_n]. *)
Lemma google_body_counts (w : world) (a : Google.args) (u : string -> string) (r : row)
    (v v' : Google.vars) (st st' : mstate) :
  Google.body w a u r v st = (Ok v', st') ->
  (v' = v /\ st' = st)
  \/ (Google.total_checked v' = (Google.total_checked v + 1)%Z
      /\ probes (log st') = S (probes (log st))
      /\ restarts (trace (browser st'))
         = restarts (trace (browser st))
           + (if negb (Google.restart_n a =? 0)%Z
                 && ((Google.total_checked v + 1) mod Google.restart_n a =? 0)%Z
              then 1 else 0)).
Proof.
  unfold Google.body. cbv zeta.
  destruct (_ || _); [intros [= <- <-]; auto|].
  destruct (bool_decide _); [intros [= <- <-]; auto|].
  intros H. right.
  apply bind_inv in H as (verdict & st1 & Hprobe & H).
  apply probe_inv in Hprobe as (s1 & Hp & ->).
  pose proof (emits_restarts _ _ _ _ _ (browsing_validate_email_google w _)
                browsing_no_pause Hp) as Hr1.
  apply bind_inv in H as (counted & st2 & Hcount & H).
  assert (H2 : restarts (trace (browser st2)) = restarts (trace s1)
               /\ probes (log st2) = probes (log st ++ [Probed r])).
  { assert (Hs : steady
                   (match verdict with
                    | Some true =>
                        Google.write_valid r ;;
                        ret (Google.assigned_people v
                               ∪ {[ Google.normalize_person_key u
                                     (Some (or_empty (row_get r "full_name" (Some ""))))
                                     (Some (or_empty (row_get r "username" (Some "")))) ]},
                             (Google.total_valid v + 1)%Z)
                    | Some false => ret (Google.assigned_people v, Google.total_valid v)
                    | None =>
                        lift (sleep_uniform w (Google.sleep_min a + 1000)
                                (Google.sleep_max a + 3000)) ;;
                        ret (Google.assigned_people v, Google.total_valid v)
                    end)).
    { destruct verdict as [[|]|].
      - apply steady_bind; [apply steady_append_row|intros; apply steady_ret].
      - apply steady_ret.
      - apply steady_bind; [|intros; apply steady_ret].
        apply (steady_lift browsing_event);
          [apply emits_sleep_uniform_browsing|apply browsing_no_pause]. }
    exact (Hs _ _ _ Hcount). }
  destruct H2 as [Hr2 Hp2]. rewrite probes_app in Hp2. unfold probes at 3 in Hp2.
  simpl in Hp2.
  apply bind_inv in H as ([] & st3 & Hsleep & H).
  destruct (steady_lift browsing_event _ (emits_sleep_uniform_browsing _ _ _)
              browsing_no_pause _ _ _ Hsleep) as [Hr3 Hp3].
  apply bind_inv in H as ([] & st4 & Hrestart & H).
  injection H as <- <-. simpl.
  split; [reflexivity|].
  destruct (negb (Google.restart_n a =? 0)%Z
            && ((Google.total_checked v + 1) mod Google.restart_n a =? 0)%Z).
  - apply lift_inv in Hrestart as (s4 & Hrd & ->). simpl.
    apply restart_driver_pauses in Hrd. split; [lia|]. rewrite Hrd. lia.
  - injection Hrestart as <-. split; lia.
Qed.

Lemma div_succ (c n : Z) :
  (0 <= c)%Z -> (0 <= n)%Z ->
  ((c + 1) / n = c / n + (if negb (n =? 0) && ((c + 1) mod n =? 0) then 1 else 0))%Z.
Proof.
  intros Hc Hn. destruct (Z.eqb_spec n 0) as [->|Hn0]; simpl.
  - rewrite !Z.div_0_r. reflexivity.
  - destruct (Z.eqb_spec ((c + 1) mod n) 0) as [Hm|Hm];
      Z.div_mod_to_equations; nia.
Qed.

Lemma google_loop_counts (w : world) (a : Google.args) (u : string -> string)
    (rows : list row) (v v' : Google.vars) (st st' : mstate) :
  (0 <= Google.restart_n a)%Z ->
  Google.loop w a u rows v st = (Ok v', st') ->
  Google.total_checked v = Z.of_nat (probes (log st)) ->
  Z.of_nat (restarts (trace (browser st))) = (Google.total_checked v / Google.restart_n a)%Z ->
  Google.total_checked v' = Z.of_nat (probes (log st'))
  /\ Z.of_nat (restarts (trace (browser st')))
     = (Google.total_checked v' / Google.restart_n a)%Z.
Proof.
  intros Hn. revert v st. induction rows as [|r rows IH]; intros v st H Hc Hr; simpl in H.
  - injection H as <- <-. auto.
  - apply bind_inv in H as (v1 & st1 & Hbody & H).
    apply google_body_counts in Hbody as [[-> ->]|(Hc1 & Hp1 & Hr1)].
    + exact (IH v st H Hc Hr).
    + apply (IH v1 st1 H).
      * rewrite Hc1, Hp1, Hc. lia.
      * rewrite Hr1, Hc1, div_succ; [|lia|exact Hn].
        destruct (negb _ && _); lia.
Qed.

Lemma try_finally_inv {S A} (m : Mon S A) (h : Mon S unit) (s s' : S) (a : A) :
  try_finally m h s = (Ok a, s') ->
  exists s1, m s = (Ok a, s1) /\ h s1 = (Ok tt, s').
Proof.
  unfold try_finally. destruct (m s) as [r s1]. destruct (h s1) as [[[]|e] s2] eqn:Hh.
  - intros [= -> <-]. eauto.
  - discriminate.
Qed.

Lemma steady_try_except {A} (m h : MM A) (c : exn_class) :
  steady m -> steady h -> steady (try_except m c h).
Proof.
  intros Hm Hh st r st'. unfold try_except. destruct (m st) as [[a|e] st1] eqn:H1.
  - intros [= <- <-]. exact (Hm _ _ _ H1).
  - destruct (isinstance e c).
    + intros H2. destruct (Hm _ _ _ H1) as [Hr Hp]. destruct (Hh _ _ _ H2) as [Hr' Hp'].
      split; congruence.
    + intros [= <- <-]. exact (Hm _ _ _ H1).
Qed.

Lemma emits_driver_quit (w : world) : emits no_pause (driver_quit w).
Proof. unfold driver_quit. emits. Qed.

(** The count of restarts in a run of the Google validator that ends
    normally. *)
Lemma google_main_restarts (w : world) (a : Google.args) (u : string -> string)
    (input_csv : file) (out : option file) (st' : mstate) :
  (0 <= Google.restart_n a)%Z ->
  Google.main w a u input_csv {| browser := start; output := out; log := [] |}
  = (Ok tt, st') ->
  Z.of_nat (restarts (trace (browser st')))
  = (Z.of_nat (probes (log st')) / Google.restart_n a)%Z.
Proof.
  intros Hn H. unfold Google.main in H. cbv zeta in H.
  apply bind_inv in H as ([] & st1 & Hlaunch & H).
  destruct (steady_lift no_pause _ (emits_google_make_driver w _) no_pause_spec _ _ _ Hlaunch)
    as [Hr1 Hp1]. simpl in Hr1, Hp1.
  apply bind_inv in H as (prior & st2 & Hopen & H).
  apply open_output_inv in Hopen as [-> ->].
  apply bind_inv in H as (vend & st3 & Hrun & H). injection H as <-.
  apply try_finally_inv in Hrun as (stl & Hloop & Hquit).
  assert (Hs : steady (try_except (lift (driver_quit w)) CException (ret tt))).
  { apply steady_try_except; [|apply steady_ret].
    apply (steady_lift no_pause); [apply emits_driver_quit|apply no_pause_spec]. }
  destruct (Hs _ _ _ Hquit) as [-> ->].
  apply google_loop_counts in Hloop as [Hc Hr];
    [|exact Hn|simpl; rewrite Hp1; reflexivity|simpl; rewrite Hr1; reflexivity].
  rewrite Hr, Hc. reflexivity.
Qed.

(** C8, as stated, fails.  With a restart after every probe, the launch
    of the first restart fails once: no second launch is tried, though
    no later call would fail, and the run ends on the failure, with
    exit status 1. *)
Lemma restart_retry_counterexample :
  let w := faulty_world 26 g_identifier_page g_blank_page 57 WebDriverException in
  let run := Google.main w google_args_restart_1 id jane_csv fresh_run in
  fst run = Raise WebDriverException
  /\ exit_code (fst run) = 1%Z
  /\ launches (trace (browser (snd run))) = 2
  /\ (forall t, 57 < t -> fault_at w t = None).
Proof.
  intros w run. repeat split; try (vm_compute; reflexivity).
  intros t Ht. simpl. destruct (Nat.eqb_spec t 57); [lia|reflexivity].
Qed.

(** C8, amended. In a run of the Google validator that starts with an
    empty log and ends normally, with a restart threshold [N >= 0],
    the pause of two seconds that only a restart makes was taken
    [probes / N] times (never if [N] is 0): one restart for every [N]
    probes.  A restart whose launch fails, not with a [TypeError], is
    not retried: it has quit, paused for two seconds and asked for one
    launch, and it raises the failure. *)
Theorem restart_every_n_probes :
  (forall (w : world) (a : Google.args) (u : string -> string) (input_csv : file)
          (out : option file) (st' : mstate),
      (0 <= Google.restart_n a)%Z ->
      Google.main w a u input_csv {| browser := start; output := out; log := [] |}
      = (Ok tt, st') ->
      Z.of_nat (restarts (trace (browser st')))
      = (Z.of_nat (probes (log st')) / Google.restart_n a)%Z)
  /\
  (forall (w : world) (headless : bool) (s : state) (e : exn),
      (forall c, fault_at w (clock s) <> Some (SystemExit c)) ->
      fault_at w (S (S (clock s))) = Some e ->
      isinstance e CTypeError = false ->
      exists s', Google.restart_driver w headless s = (Raise e, s')
                 /\ trace s' = trace s ++ [Quit; Sleep 2000; Launch]).
Proof.
  split.
  - intros. eapply google_main_restarts; eassumption.
  - intros. apply restart_driver_fails; assumption.
Qed.

Lemma restart_every_n_probes_witness :
  (let w := example_world 26 g_identifier_page g_blank_page in
   let run := Google.main w google_args_restart_1 id jane_csv fresh_run in
   (0 <= Google.restart_n google_args_restart_1)%Z /\
   run = (Ok tt, snd run) /\
   Z.of_nat (restarts (trace (browser (snd run))))
   = (Z.of_nat (probes (log (snd run))) / 1)%Z)
  /\
  (let w := faulty_world 0 g_blank_page g_blank_page 2 WebDriverException in
   (forall c, fault_at w (clock start) <> Some (SystemExit c)) /\
   fault_at w 2 = Some WebDriverException /\
   isinstance WebDriverException CTypeError = false /\
   exists s', Google.restart_driver w true start = (Raise WebDriverException, s')
              /\ trace s' = [Quit; Sleep 2000; Launch]).
Proof.
  split.
  - intros w run.
    assert (H0 : (0 <= Google.restart_n google_args_restart_1)%Z) by (vm_compute; discriminate).
    assert (H1 : run = (Ok tt, snd run)) by (vm_compute; reflexivity).
    split; [exact H0|]. split; [exact H1|].
    exact (proj1 restart_every_n_probes w google_args_restart_1 id jane_csv None (snd run)
             H0 H1).
  - intros w.
    assert (H0 : forall c, fault_at w (clock start) <> Some (SystemExit c)) by discriminate.
    assert (H1 : fault_at w 2 = Some WebDriverException) by reflexivity.
    assert (H2 : isinstance WebDriverException CTypeError = false) by reflexivity.
    split; [exact H0|]. split; [exact H1|]. split; [exact H2|].
    exact (proj2 restart_every_n_probes w true start WebDriverException H0 H1 H2).
Defined.

(** ** What an iteration does to the files *)

(** An iteration of the Google loop either skips its row or probes it,
    and then only when the email and the person are new. *)
Lemma google_body_effect (w : world) (a : Google.args) (u : string -> string) (r : row)
    (v : Google.vars) (st st' : mstate) (res : res Google.vars) :
  let key := Google.normalize_person_key u
               (Some (or_empty (row_get r "full_name" (Some ""))))
               (Some (or_empty (row_get r "username" (Some "")))) in
  Google.body w a u r v st = (res, st') ->
  (res = Ok v /\ st' = st)
  \/ (exists written,
        probe_effect Google.fieldnames r written st st'
        /\ truthy (email_of r) = true
        /\ (email_of r ∉ Google.seen_emails v)
        /\ (email_of r ∉ Google.valid_emails v)
        /\ (key ∉ Google.assigned_people v)
        /\ forall v', res = Ok v' ->
             Google.seen_emails v' = Google.seen_emails v ∪ {[ email_of r ]}
             /\ Google.valid_emails v' = Google.valid_emails v
             /\ Google.assigned_people v'
                = if written then Google.assigned_people v ∪ {[ key ]}
                  else Google.assigned_people v).
Proof.
  intros key. unfold Google.body. cbv zeta. fold (email_of r). fold key.
  destruct (truthy (email_of r)) eqn:Ht; [|intros [= <- <-]; auto].
  destruct (bool_decide (email_of r ∈ Google.seen_emails v)) eqn:Hs;
    [intros [= <- <-]; auto|].
  destruct (bool_decide (email_of r ∈ Google.valid_emails v)) eqn:Hv;
    [intros [= <- <-]; auto|].
  destruct (bool_decide (key ∈ Google.assigned_people v)) eqn:Hk;
    [intros [= <- <-]; auto|].
  apply bool_decide_eq_false in Hs, Hv, Hk. simpl.
  intros H. right.
  unfold bind at 1 in H.
  destruct (probe r (Google.validate_email_google w (email_of r)) st) as [[verdict|e] st1]
    eqn:Hprobe; apply probe_inv in Hprobe as (s1 & _ & ->).
  - destruct verdict as [[|]|].
    + unfold bind at 1 in H. unfold bind at 1 in H. unfold Google.write_valid in H.
      rewrite append_row_output in H. cbn [ret browser output log] in H.
      match type of H with ?m ?stw = _ => assert (Hk2 : keeps_files m) by keeps;
        destruct (keeps_run m _ _ _ Hk2 H) as [Ho Hl] end.
      exists true. simpl in Ho, Hl. rewrite <- app_assoc in Hl.
      split; [split; [exact Hl|exact Ho]|]. split; [reflexivity|]. do 3 (split; [assumption|]).
      intros v' ->. apply bind_inv in H as ([] & sx & _ & H).
      apply bind_inv in H as ([] & sy & _ & H). injection H as <- _. auto.
    + unfold bind at 1 in H. cbn [ret] in H.
      match type of H with ?m ?stw = _ => assert (Hk2 : keeps_files m) by keeps;
        destruct (keeps_run m _ _ _ Hk2 H) as [Ho Hl] end.
      exists false. simpl in Ho, Hl.
      split; [split; [exact Hl|exact Ho]|]. split; [reflexivity|]. do 3 (split; [assumption|]).
      intros v' ->. apply bind_inv in H as ([] & sx & _ & H).
      apply bind_inv in H as ([] & sy & _ & H). injection H as <- _. auto.
    + match type of H with ?m ?stw = _ => assert (Hk2 : keeps_files m) by keeps;
        destruct (keeps_run m _ _ _ Hk2 H) as [Ho Hl] end.
      exists false. simpl in Ho, Hl.
      split; [split; [exact Hl|exact Ho]|]. split; [reflexivity|]. do 3 (split; [assumption|]).
      intros v' ->. apply bind_inv in H as (c & sx & Hc & H).
      apply bind_inv in Hc as ([] & sz & _ & Hc). injection Hc as <- _.
      apply bind_inv in H as ([] & sx' & _ & H).
      apply bind_inv in H as ([] & sy & _ & H). injection H as <- _. auto.
  - injection H as <- <-. exists false.
    split; [split; reflexivity|]. split; [reflexivity|]. do 3 (split; [assumption|]). discriminate.
Qed.

(** ** Ghost logs *)

Lemma probed_rows_app (l1 l2 : list gevent) :
  probed_rows (l1 ++ l2) = probed_rows l1 ++ probed_rows l2.
Proof.
  induction l1 as [|[r|r] l1 IH]; simpl; [reflexivity|rewrite IH; reflexivity|exact IH].
Qed.

Lemma written_rows_app (l1 l2 : list gevent) :
  written_rows (l1 ++ l2) = written_rows l1 ++ written_rows l2.
Proof.
  induction l1 as [|[r|r] l1 IH]; simpl; [reflexivity|exact IH|rewrite IH; reflexivity].
Qed.

Lemma sublist_map {A B} (f : A -> B) (l1 l2 : list A) :
  l1 `sublist_of` l2 -> map f l1 `sublist_of` map f l2.
Proof. induction 1; simpl; constructor; assumption. Qed.

Lemma probed_rows_tail (r : row) (written : bool) :
  probed_rows (probe_tail r written) = [r].
Proof. destruct written; reflexivity. Qed.

Lemma written_rows_tail (r : row) (written : bool) :
  written_rows (probe_tail r written) = if written then [r] else [].
Proof. destruct written; reflexivity. Qed.

Section DedupLemmas.
Context {K : Type}.
Variable key : row -> K.

(** Probing a row whose key is neither seen nor prior keeps the log in
    order, with the key now seen. *)
Lemma log_inv_step (seen seen' prior : K -> Prop) (l : list gevent) (r : row)
    (written : bool) :
  log_inv key seen prior l ->
  ~ seen (key r) ->
  ~ prior (key r) ->
  (forall k, seen k -> seen' k) ->
  seen' (key r) ->
  log_inv key seen' prior (l ++ probe_tail r written).
Proof.
  intros (Hnd & Hall & Hsub) Hns Hnp Hmono Hr.
  unfold log_inv. rewrite probed_rows_app, written_rows_app, probed_rows_tail,
    written_rows_tail, map_app. simpl. split; [|split].
  - apply NoDup_app. split; [exact Hnd|]. split; [|apply NoDup_singleton].
    intros k Hk Hk'. apply list_elem_of_In in Hk. apply in_map_iff in Hk as (r0 & <- & Hr0).
    apply list_elem_of_singleton in Hk'. destruct (Hall r0 Hr0) as [Hs _].
    rewrite Hk' in Hs. exact (Hns Hs).
  - intros r0 Hr0. apply in_app_iff in Hr0 as [Hr0|[<-|[]]].
    + destruct (Hall r0 Hr0). auto.
    + auto.
  - apply sublist_app; [exact Hsub|]. destruct written; [reflexivity|apply sublist_nil_l].
Qed.

Lemma none_after_write_app (l1 l2 : list gevent) :
  none_after_write key l1 ->
  none_after_write key l2 ->
  (forall r0 r', In r0 (written_rows l1) -> In r' (probed_rows l2) -> key r' <> key r0) ->
  none_after_write key (l1 ++ l2).
Proof.
  intros H1 H2. induction l1 as [|[r|r] l1 IH]; simpl in *; intros Hx.
  - exact H2.
  - apply IH; assumption.
  - destruct H1 as [Ha Hb]. split.
    + intros r' Hr'. rewrite probed_rows_app in Hr'. apply in_app_iff in Hr' as [Hr'|Hr'].
      * apply Ha. exact Hr'.
      * apply Hx; [left; reflexivity|exact Hr'].
    + apply IH; [exact Hb|]. intros r0 r' Hr0. apply Hx. right. exact Hr0.
Qed.

Lemma none_after_write_step (l : list gevent) (r : row) (written : bool) :
  none_after_write key l ->
  (forall r0, In r0 (written_rows l) -> key r <> key r0) ->
  none_after_write key (l ++ probe_tail r written).
Proof.
  intros Hl Hr. apply none_after_write_app; [exact Hl| |].
  - destruct written; simpl; [|exact I]. split; [intros r' []|exact I].
  - intros r0 r' Hr0 Hr'. rewrite probed_rows_tail in Hr'. destruct Hr' as [<-|[]].
    apply Hr. exact Hr0.
Qed.
End DedupLemmas.

(** An iteration that probes keeps the output file in step with the
    ghost log. *)
Lemma output_after_step (fn : list string) (out0 : option file) (r : row) (written : bool)
    (st st' : mstate) :
  probe_effect fn r written st st' ->
  output st = output_after fn out0 (log st) ->
  output st' = output_after fn out0 (log st').
Proof.
  intros [Hl Ho] Hout. rewrite Ho, Hl. unfold output_after in *.
  rewrite written_rows_app, written_rows_tail. destruct written.
  - rewrite Hout. destruct (written_rows (log st)) as [|r0 ws]; simpl.
    + reflexivity.
    + unfold header_for at 2. simpl.
      destruct (contents out0 ++ header_for fn out0 ++ _) eqn:Hc.
      * exfalso. apply List.app_eq_nil in Hc as [_ Hc].
        apply List.app_eq_nil in Hc as [_ Hc]. discriminate.
      * rewrite <- Hc. f_equal. simpl. rewrite map_app. simpl.
        rewrite <- !List.app_assoc. reflexivity.
  - rewrite app_nil_r. exact Hout.
Qed.

(** ** The Google run: emails and people *)

Lemma load_prior_rows (u : string -> string) (rows : list row)
    (acc : gset string * gset (string * string)) :
  let r := foldl (fun '(valid_emails, assigned_people) r =>
                    (valid_emails ∪ {[ str_strip (or_empty (row_get r "email" (Some ""))) ]},
                     assigned_people ∪
                       {[ Google.normalize_person_key u (row_get r "full_name" (Some ""))
                            (row_get r "username" (Some "")) ]}))
                 acc rows in
  (forall e, e ∈ fst acc -> e ∈ fst r)
  /\ (forall k, k ∈ snd acc -> k ∈ snd r)
  /\ (forall r0, In r0 rows -> email_of r0 ∈ fst r /\ person_of u r0 ∈ snd r).
Proof.
  revert acc. induction rows as [|r0 rows IH]; intros [E A]; simpl.
  - split; [auto|]. split; [auto|]. intros r1 [].
  - specialize (IH (E ∪ {[ str_strip (or_empty (row_get r0 "email" (Some ""))) ]},
                    A ∪ {[ Google.normalize_person_key u (row_get r0 "full_name" (Some ""))
                             (row_get r0 "username" (Some "")) ]})).
    destruct IH as (HE & HA & Hrows). simpl in HE, HA. split; [|split].
    + intros e He. apply HE. set_solver.
    + intros k Hk. apply HA. set_solver.
    + intros r1 [<-|H]; [|apply Hrows, H]. split.
      * apply HE. unfold email_of. set_solver.
      * apply HA. unfold person_of, Google.normalize_person_key. simpl. set_solver.
Qed.

Lemma load_prior_covers (u : string -> string) (out : option file) (r0 : row) :
  In r0 (prior_rows out) ->
  email_of r0 ∈ fst (Google.load_prior u out)
  /\ person_of u r0 ∈ snd (Google.load_prior u out).
Proof.
  unfold prior_rows, Google.load_prior. destruct out as [f|]; simpl.
  - intros H. apply (load_prior_rows u (DictReader f) (∅, ∅)). exact H.
  - intros [].
Qed.

(** An iteration of the Google loop keeps the run in order. *)
Lemma google_body_inv (w : world) (a : Google.args) (u : string -> string) (r : row)
    (out0 : option file) (v : Google.vars) (st st' : mstate) (res : res Google.vars) :
  google_inv u out0 (Google.seen_emails v) (Google.valid_emails v)
    (Google.assigned_people v) st ->
  Google.body w a u r v st = (res, st') ->
  exists seen' assigned',
    google_inv u out0 seen' (Google.valid_emails v) assigned' st'
    /\ forall v', res = Ok v' ->
         Google.seen_emails v' = seen' /\ Google.valid_emails v' = Google.valid_emails v
         /\ Google.assigned_people v' = assigned'.
Proof.
  intros Hinv Hbody.
  apply google_body_effect in Hbody
    as [[-> ->]|(written & Heff & Ht & Hs & Hv & Hk & Hres)].
  { exists (Google.seen_emails v), (Google.assigned_people v). split; [exact Hinv|].
    intros v' [= <-]. auto. }
  fold (person_of u r) in Hk, Hres.
  destruct Hinv as (Hlog & HE0 & HA0 & Hwr & Hpr & Hnone & Hnd & Hout).
  exists (Google.seen_emails v ∪ {[ email_of r ]}),
    (if written then Google.assigned_people v ∪ {[ person_of u r ]}
     else Google.assigned_people v).
  split; [|exact Hres].
  pose proof Heff as [Hl Ho]. unfold google_inv. rewrite Hl.
  rewrite probed_rows_app, written_rows_app, probed_rows_tail, written_rows_tail.
  split; [|split; [|split; [|split; [|split; [|split; [|split]]]]]].
  - eapply log_inv_step; [exact Hlog|exact Hs|exact Hv| |]; set_solver.
  - exact HE0.
  - intros r0 Hr0. specialize (HA0 r0 Hr0). destruct written; set_solver.
  - intros r1 Hr1. apply in_app_iff in Hr1 as [Hr1|Hr1].
    + specialize (Hwr r1 Hr1). destruct written; set_solver.
    + destruct written; [|destruct Hr1]. destruct Hr1 as [<-|[]]. set_solver.
  - intros r0 r1 Hr0 Hr1. apply in_app_iff in Hr1 as [Hr1|[<-|[]]].
    + exact (Hpr r0 r1 Hr0 Hr1).
    + intros Heq. apply Hk. rewrite Heq. exact (HA0 r0 Hr0).
  - apply none_after_write_step; [exact Hnone|].
    intros r0 Hr0 Heq. apply Hk. rewrite Heq. exact (Hwr r0 Hr0).
  - rewrite map_app. apply NoDup_app. split; [exact Hnd|]. split.
    + intros k Hk1 Hk2. destruct written; [|inversion Hk2].
      apply list_elem_of_singleton in Hk2. subst k.
      apply list_elem_of_In, in_map_iff in Hk1 as (r0 & Heq & Hr0).
      apply Hk. rewrite <- Heq. exact (Hwr r0 Hr0).
    + destruct written; simpl; [apply NoDup_singleton|apply NoDup_nil_2].
  - rewrite <- Hl. exact (output_after_step _ _ _ _ _ _ Heff Hout).
Qed.

Lemma google_loop_inv (w : world) (a : Google.args) (u : string -> string)
    (out0 : option file) (rows : list row) (v : Google.vars) (st st' : mstate)
    (res : res Google.vars) :
  google_inv u out0 (Google.seen_emails v) (Google.valid_emails v)
    (Google.assigned_people v) st ->
  Google.loop w a u rows v st = (res, st') ->
  exists seen' assigned', google_inv u out0 seen' (Google.valid_emails v) assigned' st'.
Proof.
  revert v st. induction rows as [|r rows IH]; intros v st Hinv H; simpl in H.
  - injection H as <- <-. eauto.
  - unfold bind in H. destruct (Google.body w a u r v st) as [[v1|e] st1] eqn:Hbody.
    + destruct (google_body_inv _ _ _ _ _ _ _ _ _ Hinv Hbody)
        as (seen' & assigned' & Hinv' & Hres).
      destruct (Hres v1 eq_refl) as (<- & Hv1 & <-). rewrite <- Hv1 in Hinv'.
      rewrite <- Hv1. exact (IH v1 st1 Hinv' H).
    + injection H as <- <-.
      destruct (google_body_inv _ _ _ _ _ _ _ _ _ Hinv Hbody)
        as (seen' & assigned' & Hinv' & _). eauto.
Qed.

Lemma google_inv_files (u : string -> string) (out0 : option file) (seen valid : gset string)
    (assigned : gset (string * string)) (st1 st2 : mstate) :
  log st2 = log st1 -> output st2 = output st1 ->
  google_inv u out0 seen valid assigned st1 -> google_inv u out0 seen valid assigned st2.
Proof. unfold google_inv. intros -> ->. auto. Qed.

Lemma google_inv_start (u : string -> string) (out : option file) (s : state) :
  google_inv u out ∅ (fst (Google.load_prior u out)) (snd (Google.load_prior u out))
    {| browser := s; output := out; log := [] |}.
Proof.
  unfold google_inv, log_inv. simpl.
  split; [split; [apply NoDup_nil_2|split; [intros r []|apply sublist_nil_l]]|].
  split; [intros r0 H; apply (load_prior_covers u out r0 H)|].
  split; [intros r0 H; apply (load_prior_covers u out r0 H)|].
  split; [intros r []|]. split; [intros r0 r _ []|]. split; [exact I|].
  split; [apply NoDup_nil_2|reflexivity].
Qed.

(** Whatever way a run of the Google validator ends, it is in order. *)
Lemma google_main_inv (w : world) (a : Google.args) (u : string -> string)
    (input_csv : file) (s0 : state) (out : option file) :
  exists seen assigned,
    google_inv u out seen (fst (Google.load_prior u out)) assigned
      (snd (Google.main w a u input_csv {| browser := s0; output := out; log := [] |})).
Proof.
  unfold Google.main. cbv zeta. unfold bind at 1.
  destruct (lift (Google.make_driver w (negb (Google.no_headless a))) _)
    as [[[]|e] st1] eqn:Hlaunch; apply lift_inv in Hlaunch as (s1 & _ & ->); simpl.
  2:{ eexists _, _. apply google_inv_start. }
  unfold bind at 1. load_cases; [simpl; eexists _, _; apply google_inv_start|].
  cbn [output].
  unfold bind, try_finally.
  destruct (Google.loop w a u _ _ _) as [resl stl] eqn:Hloop.
  apply google_loop_inv with (out0 := out) in Hloop as (seen & assigned & Hinv);
    [|apply google_inv_start].
  simpl in Hinv.
  assert (Hk : keeps_files (try_except (lift (driver_quit w)) CException (ret tt)))
    by keeps.
  destruct (Hk stl) as [Ho Hl].
  destruct (try_except (lift (driver_quit w)) CException (ret tt) stl) as [[[]|e] stc];
    simpl in Ho, Hl; exists seen, assigned.
  - destruct resl; simpl; exact (google_inv_files _ _ _ _ _ _ _ Hl Ho Hinv).
  - simpl. exact (google_inv_files _ _ _ _ _ _ _ Hl Ho Hinv).
Qed.

(** C9. In any run of the Google validator, however it ends: no row is
    probed after a row with the same person key (name and username,
    normalized) was written; no row is probed whose person key is that
    of a row of the output file the run started from; the rows written
    are rows that were probed, in order, their person keys differ from
    one another, and the output file is the file the run started from
    with one record for each of them. *)
Theorem one_address_per_person (w : world) (a : Google.args) (u : string -> string)
    (input_csv : file) (s0 : state) (out : option file) :
  let st' := snd (Google.main w a u input_csv {| browser := s0; output := out; log := [] |}) in
  none_after_write (person_of u) (log st')
  /\ (forall r0 r, In r0 (prior_rows out) -> In r (probed_rows (log st')) ->
                  person_of u r <> person_of u r0)
  /\ written_rows (log st') `sublist_of` probed_rows (log st')
  /\ NoDup (map (person_of u) (written_rows (log st')))
  /\ output st' = output_after Google.fieldnames out (log st').
Proof.
  intros st'.
  destruct (google_main_inv w a u input_csv s0 out)
    as (seen & assigned & (_ & _ & Hsub) & _ & _ & _ & Hpr & Hnone & Hnd & Hout).
  fold st' in Hsub, Hpr, Hnone, Hnd, Hout. auto.
Qed.

(** ** The Microsoft and the portal runs: emails *)

(** An iteration of the Microsoft loop either skips its row or probes
    it, and then only when the lower-cased email is new. *)
Lemma colgate_body_effect (w : world) (a : Colgate.args) (r : row) (v : Colgate.vars)
    (st st' : mstate) (res : res Colgate.vars) :
  Colgate.body w a r v st = (res, st') ->
  (res = Ok v /\ st' = st)
  \/ (exists written,
        probe_effect Colgate.fieldnames r written st st'
        /\ truthy (email_of r) = true
        /\ (str_lower (email_of r) ∉ Colgate.seen_emails v)
        /\ (str_lower (email_of r) ∉ Colgate.valid_emails v)
        /\ forall v', res = Ok v' ->
             Colgate.seen_emails v' = Colgate.seen_emails v ∪ {[ str_lower (email_of r) ]}
             /\ Colgate.valid_emails v'
                = if written then Colgate.valid_emails v ∪ {[ str_lower (email_of r) ]}
                  else Colgate.valid_emails v).
Proof.
  unfold Colgate.body. cbv zeta. fold (email_of r).
  destruct (truthy (email_of r)) eqn:Ht; [|intros [= <- <-]; auto].
  destruct (bool_decide (str_lower (email_of r) ∈ Colgate.seen_emails v)) eqn:Hs;
    [intros [= <- <-]; auto|].
  destruct (bool_decide (str_lower (email_of r) ∈ Colgate.valid_emails v)) eqn:Hv;
    [intros [= <- <-]; auto|].
  apply bool_decide_eq_false in Hs, Hv. simpl.
  intros H. right.
  unfold bind at 1 in H.
  destruct (probe r (Colgate.enter_email_and_submit w (email_of r)) st) as [[verdict|e] st1]
    eqn:Hprobe; apply probe_inv in Hprobe as (s1 & _ & ->).
  - destruct verdict as [[|]|].
    + unfold bind at 1 in H. unfold bind at 1 in H. unfold Colgate.write_valid in H.
      rewrite append_row_output in H. cbn [ret browser output log] in H.
      match type of H with ?m ?stw = _ => assert (Hk2 : keeps_files m) by keeps;
        destruct (keeps_run m _ _ _ Hk2 H) as [Ho Hl] end.
      exists true. simpl in Ho, Hl. rewrite <- app_assoc in Hl.
      split; [split; [exact Hl|exact Ho]|]. split; [reflexivity|].
      do 2 (split; [assumption|]).
      intros v' ->. apply bind_inv in H as ([] & sx & _ & H).
      apply bind_inv in H as ([] & sy & _ & H).
      apply bind_inv in H as ([] & sz & _ & H). injection H as <- _. auto.
    + unfold bind at 1 in H. cbn [ret] in H.
      match type of H with ?m ?stw = _ => assert (Hk2 : keeps_files m) by keeps;
        destruct (keeps_run m _ _ _ Hk2 H) as [Ho Hl] end.
      exists false. simpl in Ho, Hl.
      split; [split; [exact Hl|exact Ho]|]. split; [reflexivity|].
      do 2 (split; [assumption|]).
      intros v' ->. apply bind_inv in H as ([] & sx & _ & H).
      apply bind_inv in H as ([] & sy & _ & H).
      apply bind_inv in H as ([] & sz & _ & H). injection H as <- _. auto.
    + unfold bind at 1 in H. cbn [ret] in H.
      match type of H with ?m ?stw = _ => assert (Hk2 : keeps_files m) by keeps;
        destruct (keeps_run m _ _ _ Hk2 H) as [Ho Hl] end.
      exists false. simpl in Ho, Hl.
      split; [split; [exact Hl|exact Ho]|]. split; [reflexivity|].
      do 2 (split; [assumption|]).
      intros v' ->. apply bind_inv in H as ([] & sx & _ & H).
      apply bind_inv in H as ([] & sy & _ & H).
      apply bind_inv in H as ([] & sz & _ & H). injection H as <- _. auto.
  - injection H as <- <-. exists false.
    split; [split; reflexivity|]. split; [reflexivity|].
    do 2 (split; [assumption|]). discriminate.
Qed.

(** An iteration of the portal loop either skips its row or probes it,
    and then only when the email is new. *)
Lemma pepperdine_body_effect (w : world) (a : Pepperdine.args) (r : row)
    (v : Pepperdine.vars) (st st' : mstate) (res : res Pepperdine.vars) :
  Pepperdine.body w a r v st = (res, st') ->
  (res = Ok v /\ st' = st)
  \/ (exists written,
        probe_effect Pepperdine.fieldnames r written st st'
        /\ truthy (email_of r) = true
        /\ (email_of r ∉ Pepperdine.seen_emails v)
        /\ forall v', res = Ok v' ->
             Pepperdine.seen_emails v' = Pepperdine.seen_emails v ∪ {[ email_of r ]}).
Proof.
  unfold Pepperdine.body. cbv zeta. fold (email_of r).
  destruct (truthy (email_of r)) eqn:Ht; [|intros [= <- <-]; auto].
  destruct (bool_decide (email_of r ∈ Pepperdine.seen_emails v)) eqn:Hs;
    [intros [= <- <-]; auto|].
  apply bool_decide_eq_false in Hs. simpl.
  intros H. right.
  unfold bind at 1 in H.
  destruct (probe r (Pepperdine.submit_username_for_reset w (email_of r)) st)
    as [[verdict|e] st1] eqn:Hprobe; apply probe_inv in Hprobe as (s1 & _ & ->).
  - destruct verdict as [[|]|].
    + unfold bind at 1 in H. unfold bind at 1 in H. unfold Pepperdine.write_valid in H.
      rewrite append_row_output in H. cbn [ret browser output log] in H.
      match type of H with ?m ?stw = _ => assert (Hk2 : keeps_files m) by keeps;
        destruct (keeps_run m _ _ _ Hk2 H) as [Ho Hl] end.
      exists true. simpl in Ho, Hl. rewrite <- app_assoc in Hl.
      split; [split; [exact Hl|exact Ho]|]. split; [reflexivity|].
      split; [assumption|].
      intros v' ->. apply bind_inv in H as (x & sx & _ & H).
      apply bind_inv in H as ([] & sy & _ & H). injection H as <- _. auto.
    + unfold bind at 1 in H. cbn [ret] in H.
      match type of H with ?m ?stw = _ => assert (Hk2 : keeps_files m) by keeps;
        destruct (keeps_run m _ _ _ Hk2 H) as [Ho Hl] end.
      exists false. simpl in Ho, Hl.
      split; [split; [exact Hl|exact Ho]|]. split; [reflexivity|].
      split; [assumption|].
      intros v' ->. apply bind_inv in H as (x & sx & _ & H).
      apply bind_inv in H as ([] & sy & _ & H). injection H as <- _. auto.
    + unfold bind at 1 in H. cbn [ret] in H.
      match type of H with ?m ?stw = _ => assert (Hk2 : keeps_files m) by keeps;
        destruct (keeps_run m _ _ _ Hk2 H) as [Ho Hl] end.
      exists false. simpl in Ho, Hl.
      split; [split; [exact Hl|exact Ho]|]. split; [reflexivity|].
      split; [assumption|].
      intros v' ->. apply bind_inv in H as (x & sx & _ & H).
      apply bind_inv in H as ([] & sy & _ & H). injection H as <- _. auto.
  - injection H as <- <-. exists false.
    split; [split; reflexivity|]. split; [reflexivity|].
    split; [assumption|]. discriminate.
Qed.

Lemma truthy_lower (s : string) : truthy (str_lower s) = truthy s.
Proof. destruct s; reflexivity. Qed.

Lemma load_valid_rows (rows : list row) (acc : gset string) :
  let r := foldl (fun valid_emails r =>
                    let e := str_lower (str_strip (or_empty (row_get r "email" (Some "")))) in
                    if truthy e then valid_emails ∪ {[ e ]} else valid_emails)
                 acc rows in
  (forall e, e ∈ acc -> e ∈ r)
  /\ (forall r0, In r0 rows -> truthy (lowered_email r0) = true -> lowered_email r0 ∈ r).
Proof.
  revert acc. induction rows as [|r0 rows IH]; intros acc; simpl.
  - split; [auto|]. intros r1 [].
  - fold (email_of r0). fold (lowered_email r0).
    destruct (truthy (lowered_email r0)) eqn:Ht.
    + destruct (IH (acc ∪ {[ lowered_email r0 ]})) as (Hacc & Hrows). split.
      * intros e He. apply Hacc. set_solver.
      * intros r1 [<-|H] Ht1; [apply Hacc; set_solver|exact (Hrows r1 H Ht1)].
    + destruct (IH acc) as (Hacc & Hrows). split; [exact Hacc|].
      intros r1 [<-|H] Ht1; [congruence|exact (Hrows r1 H Ht1)].
Qed.

Lemma load_valid_covers (out : option file) (r0 : row) :
  In r0 (prior_rows out) ->
  truthy (lowered_email r0) = true ->
  lowered_email r0 ∈ Colgate.load_valid_emails out.
Proof.
  unfold prior_rows, Colgate.load_valid_emails. destruct out as [f|]; simpl.
  - intros H. apply (load_valid_rows (DictReader f) ∅). exact H.
  - intros [].
Qed.

Lemma colgate_body_inv (w : world) (a : Colgate.args) (r : row) (out0 : option file)
    (v : Colgate.vars) (st st' : mstate) (res : res Colgate.vars) :
  colgate_inv out0 (Colgate.seen_emails v) (Colgate.valid_emails v) st ->
  Colgate.body w a r v st = (res, st') ->
  exists seen' valid',
    colgate_inv out0 seen' valid' st'
    /\ forall v', res = Ok v' ->
         Colgate.seen_emails v' = seen' /\ Colgate.valid_emails v' = valid'.
Proof.
  intros Hinv Hbody.
  apply colgate_body_effect in Hbody as [[-> ->]|(written & Heff & Ht & Hs & Hv & Hres)].
  { exists (Colgate.seen_emails v), (Colgate.valid_emails v). split; [exact Hinv|].
    intros v' [= <-]. auto. }
  fold (lowered_email r) in Hs, Hv, Hres.
  destruct Hinv as (Hlog & Hsub & Htr & Hout).
  exists (Colgate.seen_emails v ∪ {[ lowered_email r ]}),
    (if written then Colgate.valid_emails v ∪ {[ lowered_email r ]}
     else Colgate.valid_emails v).
  split; [|exact Hres].
  pose proof Heff as [Hl Ho]. unfold colgate_inv. rewrite Hl.
  rewrite probed_rows_app, probed_rows_tail.
  split; [|split; [|split]].
  - eapply log_inv_step; [exact Hlog|exact Hs| | |]; set_solver.
  - destruct written; set_solver.
  - intros r1 Hr1. apply in_app_iff in Hr1 as [Hr1|[<-|[]]]; [exact (Htr r1 Hr1)|exact Ht].
  - rewrite <- Hl. exact (output_after_step _ _ _ _ _ _ Heff Hout).
Qed.

Lemma colgate_loop_inv (w : world) (a : Colgate.args) (out0 : option file)
    (rows : list row) (v : Colgate.vars) (st st' : mstate) (res : res Colgate.vars) :
  colgate_inv out0 (Colgate.seen_emails v) (Colgate.valid_emails v) st ->
  Colgate.loop w a rows v st = (res, st') ->
  exists seen' valid', colgate_inv out0 seen' valid' st'.
Proof.
  revert v st. induction rows as [|r rows IH]; intros v st Hinv H; simpl in H.
  - injection H as <- <-. eauto.
  - unfold bind in H. destruct (Colgate.body w a r v st) as [[v1|e] st1] eqn:Hbody;
      destruct (colgate_body_inv _ _ _ _ _ _ _ _ Hinv Hbody)
        as (seen' & valid' & Hinv' & Hres).
    + destruct (Hres v1 eq_refl) as (<- & <-). exact (IH v1 st1 Hinv' H).
    + injection H as <- <-. eauto.
Qed.

Lemma colgate_inv_files (out0 : option file) (seen valid : gset string) (st1 st2 : mstate) :
  log st2 = log st1 -> output st2 = output st1 ->
  colgate_inv out0 seen valid st1 -> colgate_inv out0 seen valid st2.
Proof. unfold colgate_inv. intros -> ->. auto. Qed.

Lemma colgate_inv_start (out : option file) (s : state) :
  colgate_inv out ∅ (Colgate.load_valid_emails out)
    {| browser := s; output := out; log := [] |}.
Proof.
  unfold colgate_inv, log_inv. simpl.
  split; [split; [apply NoDup_nil_2|split; [intros r []|apply sublist_nil_l]]|].
  split; [reflexivity|]. split; [intros r []|reflexivity].
Qed.

(** Whatever way a run of the Microsoft validator ends, it is in order. *)
Lemma colgate_main_inv (w : world) (a : Colgate.args) (input_csv : file) (s0 : state)
    (out : option file) :
  exists seen valid,
    colgate_inv out seen valid
      (snd (Colgate.main w a input_csv {| browser := s0; output := out; log := [] |})).
Proof.
  unfold Colgate.main. cbv zeta. unfold bind at 1.
  destruct (lift (Colgate.make_driver w (negb (Colgate.no_headless a))) _)
    as [[[]|e] st1] eqn:Hlaunch; apply lift_inv in Hlaunch as (s1 & _ & ->); simpl.
  2:{ eexists _, _. apply colgate_inv_start. }
  unfold bind at 1.
  destruct (lift (Colgate.load_login_page w) _) as [[loaded|e] st2] eqn:Hload;
    apply lift_inv in Hload as (s2 & _ & ->); simpl.
  2:{ eexists _, _. apply colgate_inv_start. }
  destruct loaded; simpl.
  - unfold bind at 1. load_cases; [simpl; eexists _, _; apply colgate_inv_start|].
    cbn [output]. unfold bind, try_finally.
    destruct (Colgate.loop w a _ _ _) as [resl stl] eqn:Hloop.
    apply colgate_loop_inv with (out0 := out) in Hloop as (seen & valid & Hinv);
      [|apply colgate_inv_start].
    assert (Hk : keeps_files (try_except (lift (driver_quit w)) CException (ret tt)))
      by keeps.
    destruct (Hk stl) as [Ho Hl].
    destruct (try_except (lift (driver_quit w)) CException (ret tt) stl) as [[[]|e] stc];
      simpl in Ho, Hl; exists seen, valid.
    + destruct resl; simpl; exact (colgate_inv_files _ _ _ _ _ Hl Ho Hinv).
    + simpl. exact (colgate_inv_files _ _ _ _ _ Hl Ho Hinv).
  - assert (Hk : keeps_files (lift (driver_quit w) ;; @raise mstate unit (SystemExit 1)))
      by keeps.
    match goal with |- context [snd (?m ?st)] => destruct (Hk st) as [Ho Hl] end.
    eexists _, _. eapply colgate_inv_files; [exact Hl|exact Ho|apply colgate_inv_start].
Qed.

Lemma pepperdine_body_inv (w : world) (a : Pepperdine.args) (r : row) (out0 : option file)
    (v : Pepperdine.vars) (st st' : mstate) (res : res Pepperdine.vars) :
  pepperdine_inv out0 (Pepperdine.seen_emails v) st ->
  Pepperdine.body w a r v st = (res, st') ->
  exists seen',
    pepperdine_inv out0 seen' st'
    /\ forall v', res = Ok v' -> Pepperdine.seen_emails v' = seen'.
Proof.
  intros Hinv Hbody.
  apply pepperdine_body_effect in Hbody as [[-> ->]|(written & Heff & Ht & Hs & Hres)].
  { exists (Pepperdine.seen_emails v). split; [exact Hinv|]. intros v' [= <-]. auto. }
  destruct Hinv as (Hlog & Hout).
  exists (Pepperdine.seen_emails v ∪ {[ email_of r ]}).
  split; [|exact Hres].
  pose proof Heff as [Hl Ho]. unfold pepperdine_inv. rewrite Hl. split.
  - eapply log_inv_step; [exact Hlog|exact Hs| | |]; set_solver.
  - rewrite <- Hl. exact (output_after_step _ _ _ _ _ _ Heff Hout).
Qed.

Lemma pepperdine_loop_inv (w : world) (a : Pepperdine.args) (out0 : option file)
    (rows : list row) (v : Pepperdine.vars) (st st' : mstate) (res : res Pepperdine.vars) :
  pepperdine_inv out0 (Pepperdine.seen_emails v) st ->
  Pepperdine.loop w a rows v st = (res, st') ->
  exists seen', pepperdine_inv out0 seen' st'.
Proof.
  revert v st. induction rows as [|r rows IH]; intros v st Hinv H; simpl in H.
  - injection H as <- <-. eauto.
  - destruct (negb (Pepperdine.limit a =? 0)%Z
              && (Pepperdine.limit a <=? Pepperdine.processed v)%Z).
    { injection H as <- <-. eauto. }
    unfold bind in H. destruct (Pepperdine.body w a r v st) as [[v1|e] st1] eqn:Hbody;
      destruct (pepperdine_body_inv _ _ _ _ _ _ _ _ Hinv Hbody) as (seen' & Hinv' & Hres).
    + rewrite <- (Hres v1 eq_refl) in Hinv'. exact (IH v1 st1 Hinv' H).
    + injection H as <- <-. eauto.
Qed.

Lemma pepperdine_inv_files (out0 : option file) (seen : gset string) (st1 st2 : mstate) :
  log st2 = log st1 -> output st2 = output st1 ->
  pepperdine_inv out0 seen st1 -> pepperdine_inv out0 seen st2.
Proof. unfold pepperdine_inv. intros -> ->. auto. Qed.

Lemma pepperdine_inv_start (out : option file) (s : state) :
  pepperdine_inv out ∅ {| browser := s; output := out; log := [] |}.
Proof.
  unfold pepperdine_inv, log_inv. simpl.
  split; [split; [apply NoDup_nil_2|split; [intros r []|apply sublist_nil_l]]|reflexivity].
Qed.

(** Whatever way a run of the portal validator ends, it is in order. *)
Lemma pepperdine_main_inv (w : world) (a : Pepperdine.args) (input_csv : file) (s0 : state)
    (out : option file) :
  exists seen,
    pepperdine_inv out seen
      (snd (Pepperdine.main w a input_csv {| browser := s0; output := out; log := [] |})).
Proof.
  unfold Pepperdine.main. cbv zeta. unfold bind at 1.
  destruct (lift (Pepperdine.make_driver w (negb (Pepperdine.no_headless a))) _)
    as [[[]|e] st1] eqn:Hlaunch; apply lift_inv in Hlaunch as (s1 & _ & ->); simpl.
  2:{ eexists. apply pepperdine_inv_start. }
  unfold bind at 1.
  destruct (lift (Pepperdine.navigate_to_forgot w 10000) _) as [[reached|e] st2] eqn:Hnav;
    apply lift_inv in Hnav as (s2 & _ & ->); simpl.
  2:{ eexists. apply pepperdine_inv_start. }
  destruct reached; simpl.
  - unfold bind, try_finally.
    destruct (Pepperdine.loop w a _ _ _) as [resl stl] eqn:Hloop.
    apply pepperdine_loop_inv with (out0 := out) in Hloop as (seen & Hinv);
      [|apply pepperdine_inv_start].
    assert (Hk : keeps_files (try_except (lift (driver_quit w)) CException (ret tt)))
      by keeps.
    destruct (Hk stl) as [Ho Hl].
    destruct (try_except (lift (driver_quit w)) CException (ret tt) stl) as [[[]|e] stc];
      simpl in Ho, Hl; exists seen.
    + destruct resl; simpl; exact (pepperdine_inv_files _ _ _ _ Hl Ho Hinv).
    + simpl. exact (pepperdine_inv_files _ _ _ _ Hl Ho Hinv).
  - assert (Hk : keeps_files (lift (driver_quit w) ;; @raise mstate unit (SystemExit 1)))
      by keeps.
    match goal with |- context [snd (?m ?st)] => destruct (Hk st) as [Ho Hl] end.
    eexists. eapply pepperdine_inv_files; [exact Hl|exact Ho|apply pepperdine_inv_start].
Qed.

Lemma written_nodup {K} (key : row -> K) (seen prior : K -> Prop) (l : list gevent) :
  log_inv key seen prior l -> NoDup (map key (written_rows l)).
Proof.
  intros (Hnd & _ & Hsub). apply (sublist_NoDup _ (map key (probed_rows l))); [exact Hnd|apply sublist_map; exact Hsub].
Qed.

(** C2, as stated, fails.  Google: an address given in two spellings
    that differ in case only is probed twice.  Portal: a run over an
    output file that has the address already probes it again and writes
    it again. *)
Lemma probed_once_counterexample :
  (let run := Google.main (example_world 26 g_identifier_page g_blank_page) google_args id
                jane_twice_csv fresh_run in
   map lowered_email (probed_rows (log (snd run))) = ["jane.doe@x.edu"; "jane.doe@x.edu"])
  /\
  (let run := Pepperdine.main (example_world 0 pepp_sent_page pepp_sent_page)
                pepperdine_args jane_csv
                {| browser := start; output := Some jane_verified; log := [] |} in
   map email_of (prior_rows (Some jane_verified)) = ["jane.doe@x.edu"]
   /\ map email_of (probed_rows (log (snd run))) = ["jane.doe@x.edu"]
   /\ output (snd run)
      = Some [ ["full_name"; "email"]; ["Jane Doe"; "jane.doe@x.edu"];
               ["Jane Doe"; "jane.doe@x.edu"] ]).
Proof. repeat split; vm_compute; reflexivity. Qed.

(** C2, amended. In any run of a validator, however it ends, the rows
    probed have distinct emails, the rows written are rows that were
    probed and have distinct emails, and the output file is the file
    the run started from with one record for each of them; the
    Microsoft and the Google validator probe no row whose email is that
    of a row of the output file the run started from.  Emails are
    compared after trimming, and, in the Microsoft validator only,
    lower-casing. *)
Theorem probed_and_written_once (s0 : state) (out : option file) (input_csv : file)
    (w : world) :
  (forall (a : Colgate.args),
      let st' := snd (Colgate.main w a input_csv
                        {| browser := s0; output := out; log := [] |}) in
      NoDup (map lowered_email (probed_rows (log st')))
      /\ written_rows (log st') `sublist_of` probed_rows (log st')
      /\ NoDup (map lowered_email (written_rows (log st')))
      /\ (forall r0 r, In r0 (prior_rows out) -> In r (probed_rows (log st')) ->
                      lowered_email r <> lowered_email r0)
      /\ output st' = output_after Colgate.fieldnames out (log st'))
  /\
  (forall (a : Google.args) (u : string -> string),
      let st' := snd (Google.main w a u input_csv
                        {| browser := s0; output := out; log := [] |}) in
      NoDup (map email_of (probed_rows (log st')))
      /\ written_rows (log st') `sublist_of` probed_rows (log st')
      /\ NoDup (map email_of (written_rows (log st')))
      /\ (forall r0 r, In r0 (prior_rows out) -> In r (probed_rows (log st')) ->
                      email_of r <> email_of r0)
      /\ output st' = output_after Google.fieldnames out (log st'))
  /\
  (forall (a : Pepperdine.args),
      let st' := snd (Pepperdine.main w a input_csv
                        {| browser := s0; output := out; log := [] |}) in
      NoDup (map email_of (probed_rows (log st')))
      /\ written_rows (log st') `sublist_of` probed_rows (log st')
      /\ NoDup (map email_of (written_rows (log st')))
      /\ output st' = output_after Pepperdine.fieldnames out (log st')).
Proof.
  split; [|split].
  - intros a st'.
    destruct (colgate_main_inv w a input_csv s0 out) as (seen & valid & Hlog & _ & Htr & Hout).
    fold st' in Hlog, Htr, Hout.
    pose proof (written_nodup _ _ _ _ Hlog) as Hw. destruct Hlog as (Hnd & Hall & Hsub).
    repeat (split; [assumption|]). split; [|exact Hout].
    intros r0 r Hr0 Hr Heq. destruct (Hall r Hr) as [_ Hnp]. apply Hnp.
    rewrite Heq. apply load_valid_covers; [exact Hr0|].
    rewrite <- Heq. unfold lowered_email. rewrite truthy_lower. exact (Htr r Hr).
  - intros a u st'.
    destruct (google_main_inv w a u input_csv s0 out)
      as (seen & assigned & Hlog & HE0 & _ & _ & _ & _ & _ & Hout).
    fold st' in Hlog, Hout.
    pose proof (written_nodup _ _ _ _ Hlog) as Hw. destruct Hlog as (Hnd & Hall & Hsub).
    repeat (split; [assumption|]). split; [|exact Hout].
    intros r0 r Hr0 Hr Heq. destruct (Hall r Hr) as [_ Hnp]. apply Hnp.
    rewrite Heq. exact (HE0 r0 Hr0).
  - intros a st'.
    destruct (pepperdine_main_inv w a input_csv s0 out) as (seen & Hlog & Hout).
    fold st' in Hlog, Hout.
    pose proof (written_nodup _ _ _ _ Hlog) as Hw. destruct Hlog as (Hnd & Hall & Hsub).
    repeat (split; [assumption|]). exact Hout.
Qed.

(** ** Probes on an oracle that does not raise *)

Section FaultFree.
Variable w : world.
Hypothesis Hff : fault_free w.

Lemma returns_call {A} (evs : list event) (f : page -> A) :
  always_returns (call w evs (fun p => Ok (f p))).
Proof. apply (ensures_read w 0 _ Hff). auto. Qed.

Lemma returns_sleep (ms : Z) : sleepable ms = true -> always_returns (sleep ms).
Proof. intros H. apply ensures_sleep; [exact H|]. exists tt. auto. Qed.

Lemma returns_sleep_uniform (lo hi : Z) :
  sleepable lo = true -> sleepable hi = true -> always_returns (sleep_uniform w lo hi).
Proof. intros Hlo Hhi. apply ensures_sleep_uniform; [exact Hlo|exact Hhi|]. exists tt. auto. Qed.

Lemma returns_ret {A} (a : A) : always_returns (ret a).
Proof. apply ensures_ret_val. exact I. Qed.

Lemma returns_bind {A B} (m : M A) (f : A -> M B) :
  always_returns m -> (forall a, always_returns (f a)) -> always_returns (bind m f).
Proof. intros Hm Hf. eapply ensures_bind_ret; [exact Hm|]. intros a _. apply Hf. Qed.

Lemma times_out_of_returns {A} (m : M A) : always_returns m -> returns_or_times_out m.
Proof. intros Hm. eapply ensures_weaken; [exact Hm|]. intros r (a & -> & _). exact I. Qed.

Lemma times_out_bind {A B} (m : M A) (f : A -> M B) :
  returns_or_times_out m -> (forall a, returns_or_times_out (f a)) ->
  returns_or_times_out (bind m f).
Proof.
  intros Hm Hf. eapply ensures_bind; [exact Hm| |].
  - intros a _. apply Hf.
  - intros e He. exact He.
Qed.

(** [except] clauses that catch a [TimeoutException]. *)
Lemma returns_try_catch {A} (m h : M A) (c : exn_class) :
  isinstance TimeoutException c = true ->
  returns_or_times_out m -> always_returns h -> always_returns (try_except m c h).
Proof.
  intros Hc Hm Hh. eapply ensures_try_except; [exact Hm| | |].
  - intros a _. exists a. auto.
  - intros e -> Hi. congruence.
  - intros e _ _. exact Hh.
Qed.

Lemma times_out_try {A} (m h : M A) (c : exn_class) :
  returns_or_times_out m -> returns_or_times_out h ->
  returns_or_times_out (try_except m c h).
Proof.
  intros Hm Hh. eapply ensures_try_except; [exact Hm| | |].
  - intros a _. exact I.
  - intros e He _. exact He.
  - intros e _ _. exact Hh.
Qed.

(** The polls of the expected conditions raise nothing but "no such
    element". *)
Lemma poll_clickable (l : locator) : ensures 0 (element_to_be_clickable w l) may_miss.
Proof.
  apply (ensures_call w 0 _ Hff). intros p _. destruct (find_all p l); simpl; auto.
Qed.

Lemma poll_presence (l : locator) : ensures 0 (presence_of_element_located w l) may_miss.
Proof.
  apply (ensures_call w 0 _ Hff). intros p _. destruct (find_all p l); simpl; auto.
Qed.

Lemma times_out_until {A} (n : nat) (method : M (option A)) :
  ensures 0 method may_miss -> returns_or_times_out (until_loop n method).
Proof.
  intros Hm. eapply ensures_until; [exact Hm| | |].
  - intros v _. exact I.
  - reflexivity.
  - intros e -> [=].
Qed.

Lemma times_out_wait_clickable (timeout : Z) (l : locator) :
  returns_or_times_out (wait_until w timeout (element_to_be_clickable w l)).
Proof. apply times_out_until, poll_clickable. Qed.

Lemma times_out_wait_presence (timeout : Z) (l : locator) :
  returns_or_times_out (wait_until w timeout (presence_of_element_located w l)).
Proof. apply times_out_until, poll_presence. Qed.

Lemma times_out_wait_truth (timeout : Z) (m : M bool) :
  always_returns m -> returns_or_times_out (wait_until w timeout (truth m)).
Proof.
  intros Hm. apply times_out_until. unfold truth.
  eapply ensures_bind_ret; [exact Hm|]. intros b _. apply ensures_ret. exact I.
Qed.

Lemma returns_any_m {A} (f : A -> M bool) (l : list A) :
  (forall x, always_returns (f x)) -> always_returns (any_m f l).
Proof.
  intros Hf. induction l as [|x l IH]; simpl; [apply returns_ret|].
  apply returns_bind; [apply Hf|]. intros [|]; [apply returns_ret|exact IH].
Qed.

Lemma returns_filter_m {A} (f : A -> M bool) (l : list A) :
  (forall x, always_returns (f x)) -> always_returns (filter_m f l).
Proof.
  intros Hf. induction l as [|x l IH]; simpl; [apply returns_ret|].
  apply returns_bind; [apply Hf|]. intros b.
  apply returns_bind; [exact IH|]. intros r. apply returns_ret.
Qed.
End FaultFree.

Create HintDb returns_db.

(** Goals [always_returns m] and [returns_or_times_out m], by the shape
    of [m]. *)
Ltac returns :=
  repeat first
    [ assumption
    | solve [typeclasses eauto 3 with returns_db]
    | progress cbv zeta
    | apply returns_ret
    | apply returns_sleep; first [reflexivity | assumption]
    | apply returns_sleep_uniform; first [reflexivity | assumption]
    | apply returns_call; assumption
    | apply times_out_wait_clickable; assumption
    | apply times_out_wait_presence; assumption
    | apply times_out_wait_truth
    | apply returns_any_m; intros
    | apply returns_filter_m; intros
    | apply returns_try_catch; [reflexivity| |]
    | apply ensures_try_ret
    | apply returns_bind; [|intros]
    | apply times_out_bind; [|intros]
    | match goal with
      | |- ensures _ (if ?b then _ else _) _ => destruct b
      | |- ensures _ (match ?x with _ => _ end) _ => destruct x
      end
    | apply times_out_try
    | apply times_out_of_returns ].

Section ColgateFaultFree.
Variable w : world.
Hypothesis Hff : fault_free w.

Lemma returns_colgate_make_driver (headless : bool) :
  always_returns (Colgate.make_driver w headless).
Proof. unfold Colgate.make_driver, webdriver_Chrome. returns. Qed.

Lemma returns_load_login_page : always_returns (Colgate.load_login_page w).
Proof. unfold Colgate.load_login_page. unfold_driver. returns. Qed.

Lemma returns_at_username_step : always_returns (Colgate.at_username_step w).
Proof. unfold Colgate.at_username_step. unfold_driver. returns. Qed.

Lemma returns_at_password_step : always_returns (Colgate.at_password_step w).
Proof. unfold Colgate.at_password_step. unfold_driver. returns. Qed.

Lemma returns_go_back_loop (sels : list locator) :
  always_returns (Colgate.go_back_loop w sels).
Proof.
  induction sels as [|sel sels IH]; simpl; [apply returns_ret|]. unfold_driver. returns.
Qed.

Lemma returns_go_back_to_username : always_returns (Colgate.go_back_to_username w).
Proof.
  unfold Colgate.go_back_to_username.
  apply returns_bind; [apply returns_go_back_loop|]. intros [|]; [apply returns_ret|].
  apply returns_bind; [apply returns_load_login_page|]. intros _. apply returns_ret.
Qed.

Lemma returns_type_like_human (el : element) (text : string) :
  always_returns (Colgate.type_like_human w el text).
Proof.
  induction text as [|ch text IH]; simpl; [apply returns_ret|]. unfold_driver. returns.
Qed.

Lemma returns_first_error_text (els : list element) :
  always_returns (Colgate.first_error_text w els).
Proof.
  induction els as [|e els IH]; simpl; [apply returns_ret|]. unfold_driver. returns.
Qed.

Lemma returns_find_error_loop (sels : list locator) :
  always_returns (Colgate.find_error_loop w sels).
Proof.
  induction sels as [|sel sels IH]; simpl; [apply returns_ret|].
  apply returns_bind.
  - apply ensures_try_ret. apply returns_bind; [unfold_driver; returns|].
    intros els. apply returns_first_error_text.
  - intros [txt|]; [apply returns_ret|exact IH].
Qed.

Lemma returns_find_username_error_text :
  always_returns (Colgate.find_username_error_text w).
Proof. apply returns_find_error_loop. Qed.

Lemma returns_reach_username_step : always_returns (Colgate.reach_username_step w).
Proof.
  unfold Colgate.reach_username_step.
  apply returns_bind; [apply returns_at_username_step|]. intros [|]; [apply returns_ret|].
  apply returns_bind; [apply returns_go_back_to_username|]. intros _.
  apply returns_try_catch; [reflexivity| |apply returns_ret].
  apply times_out_bind; [|intros; apply times_out_of_returns, returns_ret].
  apply times_out_wait_truth, returns_at_username_step.
Qed.

Lemma returns_locate_email_input (wait : Z) (sels : list locator)
    (email_input : option element) :
  always_returns (Colgate.locate_email_input w wait sels email_input).
Proof.
  revert email_input. induction sels as [|sel sels IH]; intros email_input; simpl;
    [apply returns_ret|].
  apply returns_bind.
  - apply returns_try_catch; [reflexivity| |apply returns_ret].
    apply times_out_bind; [apply times_out_wait_clickable; exact Hff|].
    intros el. apply times_out_of_returns, returns_ret.
  - intros [el|]; [|apply IH].
    apply returns_bind.
    + apply ensures_try_ret. unfold_driver. apply returns_call. exact Hff.
    + intros [|]; [apply returns_ret|apply IH].
Qed.

Lemma returns_colgate_fill_and_submit (email : string) (timeout : Z) :
  always_returns (Colgate.fill_and_submit w email timeout).
Proof.
  unfold Colgate.fill_and_submit.
  apply returns_try_catch; [reflexivity| |apply returns_ret].
  apply times_out_of_returns.
  apply returns_bind; [apply returns_locate_email_input|].
  intros [el|]; [|apply returns_ret].
  apply returns_bind; [unfold_driver; apply returns_call; exact Hff|]. intros _.
  apply returns_bind; [apply returns_type_like_human|]. intros _.
  apply returns_bind; [unfold_driver; apply returns_call; exact Hff|]. intros _.
  apply returns_ret.
Qed.

Lemma returns_colgate_classify_response : always_returns (Colgate.classify_response w).
Proof.
  unfold Colgate.classify_response.
  apply returns_bind.
  - apply returns_try_catch; [reflexivity| |apply returns_ret].
    apply times_out_wait_truth.
    apply returns_bind; [apply returns_at_password_step|].
    intros [|]; [apply returns_ret|].
    apply returns_bind; [apply returns_find_username_error_text|]. intros t.
    apply returns_ret.
  - intros _. apply returns_bind; [apply returns_find_username_error_text|]. intros t.
    cbv zeta. destruct (any_in _ _); [apply returns_ret|].
    apply returns_bind; [apply returns_at_password_step|].
    intros [|]; apply returns_ret.
Qed.

Lemma returns_enter_email_and_submit (email : string) :
  always_returns (Colgate.enter_email_and_submit w email).
Proof.
  unfold Colgate.enter_email_and_submit.
  apply returns_bind; [apply returns_reach_username_step|].
  intros [|]; simpl; [|apply returns_ret].
  apply returns_bind; [apply returns_colgate_fill_and_submit|].
  intros [|]; simpl; [|apply returns_ret].
  apply returns_colgate_classify_response.
Qed.
End ColgateFaultFree.

Section GoogleFaultFree.
Variable w : world.
Hypothesis Hff : fault_free w.

Lemma returns_google_make_driver (headless : bool) :
  always_returns (Google.make_driver w headless).
Proof. unfold Google.make_driver, webdriver_Chrome. unfold_driver. returns. Qed.

Lemma returns_consent_loop (sels : list string) :
  always_returns (Google.consent_loop w sels).
Proof.
  induction sels as [|sel sels IH]; simpl; [apply returns_ret|]. unfold_driver. returns.
Qed.

Lemma returns_account_chooser_bypass : always_returns (Google.account_chooser_bypass w).
Proof. unfold Google.account_chooser_bypass. unfold_driver. returns. Qed.

Lemma returns_detect_invalid : always_returns (Google.detect_invalid_by_message w).
Proof.
  unfold Google.detect_invalid_by_message.
  apply returns_bind; [unfold_driver; apply returns_call; exact Hff|]. intros page.
  destruct (str_in _ page); [apply returns_ret|].
  destruct (_ || _); [apply returns_ret|].
  apply returns_bind; [unfold_driver; returns|]. intros [|]; [apply returns_ret|].
  apply returns_bind; [|intros [|]; apply returns_ret].
  eapply ensures_try_except with (R1 := may_miss).
  - eapply ensures_bind with (R1 := may_miss).
    + apply (ensures_call w 0 _ Hff). intros p _. destruct (find_all p _); simpl; auto.
    + intros error_div _.
      apply ensures_weaken with (R1 := returns (fun _ => True));
        [|intros r (a & -> & _); exact I].
      unfold_driver. returns.
    + intros e He. exact He.
  - intros a _. exists a. auto.
  - intros e -> [=].
  - intros e _ _. apply returns_ret.
Qed.

Lemma returns_is_saml_flow : always_returns (Google.is_saml_flow w).
Proof. unfold Google.is_saml_flow. unfold_driver. returns. Qed.

Lemma returns_google_at_password_step : always_returns (Google.at_password_step w).
Proof. unfold Google.at_password_step. unfold_driver. returns. Qed.

Lemma returns_submit_wrong_password (timeout : Z) :
  always_returns (Google.submit_wrong_password w timeout).
Proof.
  unfold Google.submit_wrong_password.
  apply returns_try_catch; [reflexivity| |apply returns_ret].
  apply times_out_bind; [apply times_out_wait_clickable; exact Hff|]. intros pwd_input.
  apply times_out_of_returns. unfold_driver. returns.
Qed.

Lemma returns_check_password_outcome : always_returns (Google.check_password_outcome w).
Proof.
  unfold Google.check_password_outcome.
  apply returns_bind.
  - apply returns_try_catch; [reflexivity| |apply returns_ret].
    apply times_out_wait_truth.
    apply returns_bind; [unfold_driver; apply returns_call; exact Hff|]. intros page.
    destruct (str_in _ page); [apply returns_ret|apply returns_detect_invalid].
  - intros _. apply returns_bind; [unfold_driver; apply returns_call; exact Hff|].
    intros page. destruct (_ || _); [apply returns_ret|].
    apply returns_bind; [apply returns_detect_invalid|]. intros [|]; apply returns_ret.
Qed.

Lemma returns_submit_wrong_password_and_check (timeout : Z) :
  always_returns (Google.submit_wrong_password_and_check w timeout).
Proof.
  unfold Google.submit_wrong_password_and_check.
  apply returns_bind; [apply returns_submit_wrong_password|].
  intros [|]; simpl; [apply returns_check_password_outcome|apply returns_ret].
Qed.

Lemma returns_find_identifier_loop (wait : Z) (sels : list locator) :
  always_returns (Google.find_identifier_loop w wait sels).
Proof.
  induction sels as [|sel sels IH]; simpl; [apply returns_ret|].
  apply returns_bind.
  - apply returns_try_catch; [reflexivity| |apply returns_ret].
    apply times_out_bind; [apply times_out_wait_clickable; exact Hff|].
    intros el. apply times_out_of_returns, returns_ret.
  - intros [el|]; [apply returns_ret|exact IH].
Qed.

Lemma returns_click_next_if_present : always_returns (Google.click_next_if_present w).
Proof.
  unfold Google.click_next_if_present.
  apply returns_try_catch; [reflexivity| |apply returns_ret].
  apply times_out_bind; [apply times_out_wait_clickable; exact Hff|]. intros btn.
  apply times_out_of_returns. unfold_driver. returns.
Qed.

(** With no [ElementNotInteractableException] to recover from, the
    input located first is the one typed into. *)
Lemma returns_google_fill_and_submit (email : string) (timeout : Z) :
  always_returns (Google.fill_and_submit w email timeout).
Proof.
  unfold Google.fill_and_submit, Google.find_identifier_input.
  apply returns_try_catch; [reflexivity| |apply returns_ret].
  apply times_out_of_returns.
  apply returns_bind; [apply returns_find_identifier_loop|].
  intros [el|]; [|apply returns_ret].
  apply returns_bind; [unfold_driver; apply returns_call; exact Hff|]. intros _.
  apply returns_bind; [apply ensures_try_ret; unfold_driver; apply returns_call; exact Hff|].
  intros _.
  eapply ensures_bind_ret with (P := fun email_input => email_input = Some el).
  { apply ensures_try_ret. eapply ensures_bind_ret.
    - unfold_driver. apply returns_call. exact Hff.
    - intros _ _. apply ensures_ret_val. reflexivity. }
  intros email_input ->.
  eapply ensures_bind_ret with (P := fun typed => typed = Some el).
  { apply ensures_try_ret. simpl. eapply ensures_bind_ret.
    - unfold_driver. apply returns_call. exact Hff.
    - intros _ _. apply ensures_ret_val. reflexivity. }
  intros typed ->.
  apply returns_bind; [unfold_driver; apply returns_call; exact Hff|]. intros _.
  apply returns_bind; [apply returns_sleep; reflexivity|]. intros _.
  apply returns_bind; [apply returns_click_next_if_present|]. intros _.
  apply returns_ret.
Qed.

Lemma returns_google_classify_response : always_returns (Google.classify_response w).
Proof.
  unfold Google.classify_response.
  apply returns_bind; [apply returns_is_saml_flow|]. intros [|]; [apply returns_ret|].
  apply returns_bind; [apply returns_detect_invalid|]. intros [|]; [apply returns_ret|].
  apply returns_bind; [apply returns_google_at_password_step|].
  intros [|]; [apply returns_submit_wrong_password_and_check|].
  apply returns_bind.
  - apply returns_try_catch; [reflexivity| |apply returns_ret].
    apply times_out_wait_truth.
    apply returns_bind; [apply returns_google_at_password_step|].
    intros [|]; [apply returns_ret|].
    apply returns_bind; [apply returns_detect_invalid|].
    intros [|]; [apply returns_ret|apply returns_is_saml_flow].
  - intros _.
    apply returns_bind; [apply returns_is_saml_flow|]. intros [|]; [apply returns_ret|].
    apply returns_bind; [apply returns_detect_invalid|]. intros [|]; [apply returns_ret|].
    apply returns_bind; [apply returns_google_at_password_step|].
    intros [|]; [apply returns_submit_wrong_password_and_check|apply returns_ret].
Qed.

Lemma returns_submit_identifier (email : string) :
  always_returns (Google.submit_identifier w email).
Proof.
  unfold Google.submit_identifier.
  apply returns_bind.
  - apply ensures_try_ret. apply returns_bind; [unfold_driver; apply returns_call; exact Hff|].
    intros _. apply returns_ret.
  - intros [|]; cbn [negb]; [|apply returns_ret].
    apply returns_bind; [apply returns_consent_loop|]. intros _.
    apply returns_bind; [apply returns_account_chooser_bypass|]. intros _.
    apply returns_google_fill_and_submit.
Qed.

Lemma returns_validate_email_google (email : string) :
  always_returns (Google.validate_email_google w email).
Proof.
  unfold Google.validate_email_google.
  apply returns_bind; [apply returns_submit_identifier|].
  intros [|]; cbn [negb]; [|apply returns_ret].
  apply returns_bind; [apply returns_sleep; reflexivity|]. intros _.
  apply returns_google_classify_response.
Qed.

Lemma returns_restart_driver (headless : bool) :
  always_returns (Google.restart_driver w headless).
Proof.
  unfold Google.restart_driver.
  apply returns_bind.
  - apply ensures_try_ret. unfold driver_quit. apply returns_call. exact Hff.
  - intros _. apply returns_bind; [apply returns_sleep; reflexivity|]. intros _.
    apply returns_google_make_driver.
Qed.
End GoogleFaultFree.

(** ** A wait that expires becomes the verdict [None] *)

Lemma calm_fault_free (w : world) (Q : page -> Prop) : calm w 0 Q -> fault_free w.
Proof. intros Hcalm t Ht. split; [apply (Hcalm t Ht)|exact I]. Qed.

Lemma ensures_wait_expires (w : world) (Q : page -> Prop) {A} (timeout : Z)
    (method : M (option A)) :
  calm w 0 Q ->
  ensures 0 method (fun r => r = Ok None \/ r = Raise NoSuchElementException) ->
  ensures 0 (wait_until w timeout method) (fun r => r = Raise TimeoutException).
Proof. intros _ Hm. unfold wait_until. apply ensures_until_miss; [exact Hm|reflexivity]. Qed.

Section ColgateNoInput.
Variable w : world.
Hypothesis Hcalm : calm w 0 (fun p => ms_username_hidden p = true).

Lemma username_input_hidden (p : page) (sel : locator) :
  ms_username_hidden p = true ->
  In sel [ (By_ID, "i0116"); (By_NAME, "loginfmt"); (By_CSS_SELECTOR, "input[type='email']") ] ->
  existsb el_displayed (find_all p sel) = false.
Proof.
  unfold ms_username_hidden. rewrite forallb_forall. intros Hall Hin.
  apply negb_true_iff. exact (Hall sel Hin).
Qed.

Lemma at_username_step_hidden :
  ensures 0 (Colgate.at_username_step w) (returns (eq false)).
Proof.
  unfold Colgate.at_username_step. apply ensures_try_ret.
  assert (Hfind : forall sel,
    In sel [ (By_ID, "i0116"); (By_NAME, "loginfmt"); (By_CSS_SELECTOR, "input[type='email']") ] ->
    ensures 0 (find_elements w sel) (returns (fun els => existsb el_displayed els = false))).
  { intros sel Hin. apply (ensures_find_elements w 0 _ Hcalm).
    intros p Hp. exact (username_input_hidden p sel Hp Hin). }
  assert (Hany : forall els, existsb el_displayed els = false ->
    ensures 0 (any_m (is_displayed w) els) (returns (eq false))).
  { intros els Hels. eapply ensures_weaken.
    { apply any_returns with (g := el_displayed). intros e.
      apply (ensures_is_displayed w 0 _ Hcalm). }
    intros r (b & -> & <-). exists false. split; [congruence|reflexivity]. }
  eapply ensures_bind_ret; [apply Hfind; simpl; auto|]. intros els1 H1.
  eapply ensures_bind_ret; [apply Hany; exact H1|]. intros b1 <-.
  eapply ensures_bind_ret; [apply Hfind; simpl; auto|]. intros els2 H2.
  eapply ensures_bind_ret; [apply Hany; exact H2|]. intros b2 <-.
  eapply ensures_bind_ret; [apply Hfind; simpl; auto|]. intros els3 H3.
  apply Hany. exact H3.
Qed.

Lemma reach_username_step_expires :
  ensures 0 (Colgate.reach_username_step w) (returns (eq false)).
Proof.
  pose proof (calm_fault_free w _ Hcalm) as Hff.
  unfold Colgate.reach_username_step.
  eapply ensures_bind_ret; [apply at_username_step_hidden|]. intros here <-.
  eapply ensures_bind_ret; [apply (returns_go_back_to_username w Hff)|]. intros _ _.
  eapply ensures_try_except with (R1 := fun r => r = Raise TimeoutException).
  - eapply ensures_bind with (R1 := fun r => r = Raise TimeoutException).
    + apply (ensures_wait_expires w _ 8000%Z _ Hcalm).
      apply ensures_truth. eapply ensures_weaken; [apply at_username_step_hidden|].
      intros r (b & -> & <-). left. reflexivity.
    + intros a [=].
    + intros e [= ->]. reflexivity.
  - intros a [=].
  - intros e [= ->] [=].
  - intros e _ _. apply ensures_ret_val. reflexivity.
Qed.

Lemma enter_email_and_submit_unknown (email : string) :
  ensures 0 (Colgate.enter_email_and_submit w email) (returns (eq None)).
Proof.
  unfold Colgate.enter_email_and_submit.
  eapply ensures_bind_ret; [apply reach_username_step_expires|]. intros ok <-.
  apply ensures_ret_val. reflexivity.
Qed.
End ColgateNoInput.

Section GoogleNoInput.
Variable w : world.
Hypothesis Hcalm : calm w 0 (fun p => g_identifier_missing p = true).

Lemma find_identifier_loop_expires (wait : Z) (sels : list locator) :
  (forall sel p, In sel sels -> g_identifier_missing p = true -> clickable p sel = false) ->
  ensures 0 (Google.find_identifier_loop w wait sels) (returns (eq None)).
Proof.
  induction sels as [|sel sels IH]; intros Hsels; simpl.
  - apply ensures_ret_val. reflexivity.
  - eapply ensures_bind_ret with (P := eq None).
    + eapply ensures_try_except with (R1 := fun r => r = Raise TimeoutException).
      * eapply ensures_bind with (R1 := fun r => r = Raise TimeoutException).
        -- apply (ensures_wait_expires w _ wait _ Hcalm).
           apply (ensures_call w 0 _ Hcalm). intros p Hp.
           specialize (Hsels sel p (or_introl eq_refl) Hp). unfold clickable in Hsels.
           destruct (find_all p sel) as [|e l]; [right; reflexivity|].
           rewrite Hsels. left. reflexivity.
        -- intros a [=].
        -- intros e [= ->]. reflexivity.
      * intros a [=].
      * intros e [= ->] [=].
      * intros e _ _. apply ensures_ret_val. reflexivity.
    + intros r <-. apply IH. intros sel' p Hin. apply Hsels. right. exact Hin.
Qed.

Lemma find_identifier_input_expires (wait : Z) :
  ensures 0 (Google.find_identifier_input w wait) (returns (eq None)).
Proof.
  apply find_identifier_loop_expires. intros sel p Hin Hp.
  unfold g_identifier_missing in Hp. rewrite forallb_forall in Hp.
  apply negb_true_iff. exact (Hp sel Hin).
Qed.

Lemma validate_email_google_unknown (email : string) :
  ensures 0 (Google.validate_email_google w email) (returns (eq None)).
Proof.
  pose proof (calm_fault_free w _ Hcalm) as Hff.
  unfold Google.validate_email_google.
  eapply ensures_bind_ret with (P := eq false).
  - unfold Google.submit_identifier.
    eapply ensures_bind_ret with (P := fun _ => True).
    { apply ensures_try_ret. apply returns_bind; [|intros _; apply returns_ret].
      unfold_driver. apply returns_call. exact Hff. }
    intros [|] _; cbn [negb]; [|apply ensures_ret_val; reflexivity].
    eapply ensures_bind_ret; [apply (returns_consent_loop w Hff)|]. intros _ _.
    eapply ensures_bind_ret; [apply (returns_account_chooser_bypass w Hff)|]. intros _ _.
    unfold Google.fill_and_submit. apply ensures_try_ret.
    eapply ensures_bind_ret; [apply find_identifier_input_expires|]. intros found <-.
    apply ensures_ret_val. reflexivity.
  - intros submitted <-. apply ensures_ret_val. reflexivity.
Qed.
End GoogleNoInput.

(** ** A run whose driver calls do not raise runs to its end *)

Lemma bind_ok {S A B} (m : Mon S A) (f : A -> Mon S B) (s s' : S) (a : A) :
  m s = (Ok a, s') -> bind m f s = f a s'.
Proof. intros H. unfold bind. rewrite H. reflexivity. Qed.

Lemma lift_ok {A} (m : M A) (st : mstate) (r : res A) (s' : state) :
  m (browser st) = (r, s') ->
  lift m st = (r, {| browser := s'; output := output st; log := log st |}).
Proof. intros H. unfold lift. rewrite H. reflexivity. Qed.

Lemma total_ret {S A} (a : A) : total (ret a : Mon S A).
Proof. intros s. exists a, s. reflexivity. Qed.

Lemma total_bind {S A B} (m : Mon S A) (f : A -> Mon S B) :
  total m -> (forall a, total (f a)) -> total (bind m f).
Proof.
  intros Hm Hf s. destruct (Hm s) as (a & s1 & H1). destruct (Hf a s1) as (b & s2 & H2).
  exists b, s2. rewrite (bind_ok _ _ _ _ _ H1). exact H2.
Qed.

Lemma total_try_except {S A} (m h : Mon S A) (c : exn_class) :
  total m -> total (try_except m c h).
Proof.
  intros Hm s. destruct (Hm s) as (a & s1 & H1). exists a, s1.
  unfold try_except. rewrite H1. reflexivity.
Qed.

Lemma total_try_finally {S A} (m : Mon S A) (h : Mon S unit) :
  total m -> total h -> total (try_finally m h).
Proof.
  intros Hm Hh s. destruct (Hm s) as (a & s1 & H1). destruct (Hh s1) as ([] & s2 & H2).
  exists a, s2. unfold try_finally. rewrite H1, H2. reflexivity.
Qed.

Lemma total_lift {A} (m : M A) : always_returns m -> total (lift m).
Proof.
  intros Hm st. destruct (Hm (browser st)) as (r & s' & Heq & (a & -> & _) & _); [lia|].
  eexists a, _. apply lift_ok. exact Heq.
Qed.

Lemma total_probe {A} (r : row) (m : M A) : always_returns m -> total (probe r m).
Proof. intros Hm st. unfold probe. apply (total_lift m Hm). Qed.

Lemma total_append_row (fieldnames : list string) (r : row) :
  total (append_row fieldnames r).
Proof. intros st. eexists tt, _. reflexivity. Qed.

Lemma total_open_output (w : world) : load_fault w = None -> total (open_output w).
Proof. intros H st. exists (output st), st. unfold open_output. rewrite H. reflexivity. Qed.

Section RunsToTheEnd.
Variable w : world.
Hypothesis Hff : fault_free w.
Hypothesis Hload : load_fault w = None.

Lemma total_quit_quietly :
  total (try_except (lift (driver_quit w)) CException (ret tt)).
Proof. apply total_try_except, total_lift. unfold driver_quit. apply returns_call. exact Hff. Qed.

Lemma colgate_body_total (a : Colgate.args) (r : row) (v : Colgate.vars) :
  colgate_sleeps a = true -> total (Colgate.body w a r v).
Proof.
  intros Ha. apply andb_true_iff in Ha as [Ha Hcool].
  apply andb_true_iff in Ha as [Hmin Hmax].
  unfold Colgate.body. cbv zeta.
  destruct (negb _); [apply total_ret|]. destruct (_ || _); [apply total_ret|].
  apply total_bind; [apply total_probe, (returns_enter_email_and_submit w Hff)|].
  intros verdict. apply total_bind.
  { destruct verdict as [[|]|]; try apply total_ret.
    apply total_bind; [apply total_append_row|]. intros _. apply total_ret. }
  intros valid.
  apply total_bind; [apply total_lift, returns_sleep_uniform; assumption|]. intros _.
  apply total_bind.
  { destruct (_ && _); [apply total_lift, returns_sleep; assumption|apply total_ret]. }
  intros _. apply total_bind; [apply total_lift, (returns_go_back_to_username w Hff)|].
  intros _. apply total_ret.
Qed.

Lemma colgate_loop_total (a : Colgate.args) (rows : list row) (v : Colgate.vars) :
  colgate_sleeps a = true -> total (Colgate.loop w a rows v).
Proof.
  intros Ha. revert v. induction rows as [|r rows IH]; intros v; simpl; [apply total_ret|].
  apply total_bind; [apply colgate_body_total, Ha|]. intros v'. apply IH.
Qed.

(** The Microsoft run ends normally when the login page was loaded at
    the start, and with [sys.exit(1)] when it was not. *)
Lemma colgate_main_outcome (a : Colgate.args) (input_csv : file) (st : mstate) :
  colgate_sleeps a = true ->
  exists st',
    (Colgate.main w a input_csv st = (Ok tt, st')
     /\ fst (colgate_startup w a (browser st)) = Ok true)
    \/ (Colgate.main w a input_csv st = (Raise (SystemExit 1), st')
        /\ fst (colgate_startup w a (browser st)) = Ok false).
Proof.
  intros Ha.
  destruct (returns_colgate_make_driver w Hff (negb (Colgate.no_headless a)) (browser st))
    as (r1 & s1 & H1 & (u & -> & _) & _); [lia|].
  destruct (returns_load_login_page w Hff s1) as (r2 & s2 & H2 & (loaded & -> & _) & _); [lia|].
  assert (Hstart : fst (colgate_startup w a (browser st)) = Ok loaded).
  { unfold colgate_startup. rewrite (bind_ok _ _ _ _ _ H1), H2. reflexivity. }
  unfold Colgate.main. cbv zeta.
  rewrite (bind_ok _ _ _ _ _ (lift_ok _ _ _ _ H1)).
  rewrite (bind_ok _ _ _ _ _ (lift_ok _ {| browser := s1 |} _ _ H2)).
  destruct loaded; cbn [negb].
  - match goal with
    | |- exists st', (?m ?st1 = _ /\ _) \/ _ =>
        assert (Hrest : total m); [|destruct (Hrest st1) as ([] & st' & Hrun)]
    end.
    { apply total_bind; [apply total_open_output, Hload|]. intros prior.
      apply total_bind; [|intros _; apply total_ret].
      apply total_try_finally; [apply colgate_loop_total, Ha|apply total_quit_quietly]. }
    exists st'. left. split; [exact Hrun|exact Hstart].
  - destruct (returns_call w Hff [Quit] (fun _ => tt) s2)
      as (r3 & s3 & H3 & (u3 & -> & _) & _); [lia|].
    eexists. right. split; [|exact Hstart].
    unfold driver_quit.
    rewrite (bind_ok _ _ _ _ _ (lift_ok _ {| browser := s2 |} _ _ H3)). reflexivity.
Qed.

Lemma google_body_total (a : Google.args) (u : string -> string) (r : row)
    (v : Google.vars) :
  google_sleeps a = true -> total (Google.body w a u r v).
Proof.
  intros Ha. apply andb_true_iff in Ha as [Ha Hmax3].
  apply andb_true_iff in Ha as [Ha Hmin1]. apply andb_true_iff in Ha as [Hmin Hmax].
  unfold Google.body. cbv zeta.
  destruct (_ || _); [apply total_ret|]. destruct (bool_decide _); [apply total_ret|].
  apply total_bind; [apply total_probe, (returns_validate_email_google w Hff)|].
  intros verdict. apply total_bind.
  { destruct verdict as [[|]|]; try apply total_ret.
    - apply total_bind; [apply total_append_row|]. intros _. apply total_ret.
    - apply total_bind; [apply total_lift, returns_sleep_uniform; assumption|]. intros _.
      apply total_ret. }
  intros counted.
  apply total_bind; [apply total_lift, returns_sleep_uniform; assumption|]. intros _.
  apply total_bind; [|intros _; apply total_ret].
  destruct (_ && _); [apply total_lift, (returns_restart_driver w Hff)|apply total_ret].
Qed.

Lemma google_loop_total (a : Google.args) (u : string -> string) (rows : list row)
    (v : Google.vars) :
  google_sleeps a = true -> total (Google.loop w a u rows v).
Proof.
  intros Ha. revert v. induction rows as [|r rows IH]; intros v; simpl; [apply total_ret|].
  apply total_bind; [apply google_body_total, Ha|]. intros v'. apply IH.
Qed.

Lemma google_main_total (a : Google.args) (u : string -> string) (input_csv : file) :
  google_sleeps a = true -> total (Google.main w a u input_csv).
Proof.
  intros Ha. unfold Google.main. cbv zeta.
  apply total_bind; [apply total_lift, (returns_google_make_driver w Hff)|]. intros _.
  apply total_bind; [apply total_open_output, Hload|]. intros prior.
  apply total_bind; [|intros _; apply total_ret].
  apply total_try_finally; [apply google_loop_total, Ha|apply total_quit_quietly].
Qed.
End RunsToTheEnd.

Lemma example_world_fault_free (n : nat) (before after : page) :
  fault_free (example_world n before after).
Proof. intros t _. split; [reflexivity|exact I]. Qed.

Lemma example_world_constant (p : page) (Q : page -> Prop) :
  Q p -> calm (example_world 0 p p) 0 Q.
Proof. intros Hq t _. split; [reflexivity|exact Hq]. Qed.




(** * Further properties of the validators *)

(** ** What a sink writes, a later run reads back *)

Lemma output_after_fresh (fn : list string) (l : list gevent) :
  output_after fn None l = written_file fn (written_rows l).
Proof. unfold output_after, written_file. destruct (written_rows l); reflexivity. Qed.

Lemma writerow_nonblank (fn : list string) (ws : list row) :
  fn <> [] -> List.filter nonblank (map (writerow fn) ws) = map (writerow fn) ws.
Proof.
  intros Hfn. induction ws as [|r ws IH]; simpl; [reflexivity|].
  destruct fn as [|k ks]; [contradiction|]. simpl. f_equal. exact IH.
Qed.

Lemma prior_rows_written (fn : list string) (ws : list row) :
  fn <> [] -> prior_rows (written_file fn ws) = map (read_back fn) ws.
Proof.
  intros Hfn. unfold prior_rows, written_file. destruct ws as [|r ws]; [reflexivity|].
  cbn [contents DictReader]. rewrite writerow_nonblank by exact Hfn.
  rewrite map_map. reflexivity.
Qed.

Lemma colgate_read_back_email (r : row) :
  email_of (read_back Colgate.fieldnames r) = email_of r.
Proof.
  unfold email_of, read_back, Colgate.fieldnames, writerow, row_get. simpl.
  rewrite lookup_insert_eq. reflexivity.
Qed.

Lemma google_read_back_email (r : row) :
  email_of (read_back Google.fieldnames r) = email_of r.
Proof.
  unfold email_of, read_back, Google.fieldnames, writerow, row_get. simpl.
  rewrite lookup_insert_eq. reflexivity.
Qed.

Lemma google_read_back_person (u : string -> string) (r : row) :
  person_of u (read_back Google.fieldnames r) = person_of u r.
Proof.
  unfold person_of, read_back, Google.fieldnames, writerow, row_get. simpl.
  repeat (rewrite lookup_insert_eq || rewrite lookup_insert_ne by discriminate).
  reflexivity.
Qed.


(** The file after a second run is the file of one run that wrote the
    rows of both. *)
Lemma output_after_resumed (fn : list string) (ws1 : list row) (l2 : list gevent) :
  output_after fn (written_file fn ws1) l2 = written_file fn (ws1 ++ written_rows l2).
Proof.
  unfold output_after. destruct (written_rows l2) as [|r2 ws2] eqn:H2.
  - rewrite app_nil_r. reflexivity.
  - destruct ws1 as [|r1 ws1]; [reflexivity|].
    unfold written_file, header_for. simpl. rewrite List.map_app. reflexivity.
Qed.

Lemma sublist_In {A} (l1 l2 : list A) (x : A) :
  l1 `sublist_of` l2 -> In x l1 -> In x l2.
Proof.
  intros Hsub Hin. apply list_elem_of_In. eapply elem_of_sublist; [|exact Hsub].
  apply list_elem_of_In. exact Hin.
Qed.

(** A run of the Microsoft validator that starts without an output
    file, followed by a run that starts from the file the first one
    left: no two rows written by the two runs have the same address
    (trimmed and lower-cased), and the file in the end is the one a
    single run writing all of them would have left. *)
Theorem colgate_resumed_run (w1 w2 : world) (a1 a2 : Colgate.args) (in1 in2 : file)
    (s1 s2 : state) :
  let st1 := snd (Colgate.main w1 a1 in1 {| browser := s1; output := None; log := [] |}) in
  let st2 := snd (Colgate.main w2 a2 in2
                    {| browser := s2; output := output st1; log := [] |}) in
  let written := written_rows (log st1) ++ written_rows (log st2) in
  NoDup (map lowered_email written)
  /\ output st2 = written_file Colgate.fieldnames written.
Proof.
  intros st1 st2 written.
  destruct (colgate_main_inv w1 a1 in1 s1 None) as (seen1 & valid1 & Hlog1 & _ & Htr1 & Hout1).
  fold st1 in Hlog1, Htr1, Hout1. rewrite output_after_fresh in Hout1.
  destruct (colgate_main_inv w2 a2 in2 s2 (output st1))
    as (seen2 & valid2 & Hlog2 & _ & _ & Hout2).
  fold st2 in Hlog2, Hout2.
  split.
  - unfold written. rewrite List.map_app.
    apply NoDup_app. split; [exact (written_nodup _ _ _ _ Hlog1)|].
    split; [|exact (written_nodup _ _ _ _ Hlog2)].
    intros k Hk1 Hk2. apply list_elem_of_In in Hk1, Hk2.
    apply in_map_iff in Hk1 as (r1 & <- & Hr1).
    apply in_map_iff in Hk2 as (r2 & Heq & Hr2).
    destruct Hlog1 as (_ & _ & Hsub1). destruct Hlog2 as (_ & Hall2 & Hsub2).
    pose proof (sublist_In _ _ _ Hsub1 Hr1) as Hp1.
    pose proof (sublist_In _ _ _ Hsub2 Hr2) as Hp2.
    destruct (Hall2 r2 Hp2) as [_ Hnew]. apply Hnew. rewrite Heq.
    replace (lowered_email r1) with (lowered_email (read_back Colgate.fieldnames r1))
      by (unfold lowered_email; rewrite colgate_read_back_email; reflexivity).
    apply load_valid_covers.
    + rewrite Hout1, prior_rows_written by discriminate.
      apply in_map. exact Hr1.
    + unfold lowered_email. rewrite truthy_lower, colgate_read_back_email.
      exact (Htr1 r1 Hp1).
  - rewrite Hout2, Hout1. apply output_after_resumed.
Qed.

(** The same for the Google validator: over the two runs no two rows
    written have the same address (trimmed) or the same person key. *)
Theorem google_resumed_run (w1 w2 : world) (a1 a2 : Google.args) (u : string -> string)
    (in1 in2 : file) (s1 s2 : state) :
  let st1 := snd (Google.main w1 a1 u in1 {| browser := s1; output := None; log := [] |}) in
  let st2 := snd (Google.main w2 a2 u in2
                    {| browser := s2; output := output st1; log := [] |}) in
  let written := written_rows (log st1) ++ written_rows (log st2) in
  NoDup (map email_of written)
  /\ NoDup (map (person_of u) written)
  /\ output st2 = written_file Google.fieldnames written.
Proof.
  intros st1 st2 written.
  destruct (google_main_inv w1 a1 u in1 s1 None)
    as (seen1 & as1 & Hlog1 & _ & _ & _ & _ & _ & Hnd1 & Hout1).
  fold st1 in Hlog1, Hnd1, Hout1. rewrite output_after_fresh in Hout1.
  destruct (google_main_inv w2 a2 u in2 s2 (output st1))
    as (seen2 & as2 & Hlog2 & Hprior2 & _ & _ & Hpers2 & _ & Hnd2 & Hout2).
  fold st2 in Hlog2, Hpers2, Hnd2, Hout2.
  assert (Hback : forall r1, In r1 (written_rows (log st1)) ->
                    In (read_back Google.fieldnames r1) (prior_rows (output st1))).
  { intros r1 Hr1. rewrite Hout1, prior_rows_written by discriminate.
    apply in_map. exact Hr1. }
  pose proof (written_nodup _ _ _ _ Hlog1) as Hwe1.
  pose proof (written_nodup _ _ _ _ Hlog2) as Hwe2.
  destruct Hlog2 as (_ & Hall2 & Hsub2).
  split; [|split].
  - unfold written. rewrite List.map_app. apply NoDup_app.
    split; [exact Hwe1|]. split; [|exact Hwe2].
    intros k Hk1 Hk2. apply list_elem_of_In in Hk1, Hk2.
    apply in_map_iff in Hk1 as (r1 & <- & Hr1).
    apply in_map_iff in Hk2 as (r2 & Heq & Hr2).
    pose proof (sublist_In _ _ _ Hsub2 Hr2) as Hp2.
    destruct (Hall2 r2 Hp2) as [_ Hnew]. apply Hnew. rewrite Heq.
    rewrite <- (google_read_back_email r1). apply Hprior2, Hback, Hr1.
  - unfold written. rewrite List.map_app. apply NoDup_app.
    split; [exact Hnd1|]. split; [|exact Hnd2].
    intros k Hk1 Hk2. apply list_elem_of_In in Hk1, Hk2.
    apply in_map_iff in Hk1 as (r1 & <- & Hr1).
    apply in_map_iff in Hk2 as (r2 & Heq & Hr2).
    pose proof (sublist_In _ _ _ Hsub2 Hr2) as Hp2.
    apply (Hpers2 (read_back Google.fieldnames r1) r2 (Hback r1 Hr1) Hp2).
    rewrite google_read_back_person. exact Heq.
  - rewrite Hout2, Hout1. apply output_after_resumed.
Qed.

(** ** The shape of a run *)

Lemma bind_raise {S A B} (m : Mon S A) (f : A -> Mon S B) (s s' : S) (e : exn) :
  m s = (Raise e, s') -> bind m f s = (Raise e, s').
Proof. intros H. unfold bind. rewrite H. reflexivity. Qed.

Lemma call_state (w : world) {A} (evs : list event) (f : page -> res A) (s : state) :
  snd (call w evs f s) = advance evs s.
Proof. unfold call. destruct (fault_at w (clock s)); reflexivity. Qed.

(** The teardown of a run: the browser is told to quit, whatever it
    answers, and the files are left alone. *)
Lemma quit_quietly_state (w : world) (st : mstate) :
  snd (try_except (lift (driver_quit w)) CException (ret tt) st)
  = {| browser := advance [Quit] (browser st); output := output st; log := log st |}.
Proof.
  unfold try_except, lift, driver_quit.
  pose proof (call_state w [Quit] (fun _ => Ok tt) (browser st)) as Hs.
  destruct (call w [Quit] (fun _ => Ok tt) (browser st)) as [[[]|e] s']; simpl in Hs;
    subst s'; [reflexivity|].
  destruct (isinstance e CException); reflexivity.
Qed.

Lemma try_finally_state {A} (w : world) (m : MM A) (st : mstate) :
  snd (try_finally m (try_except (lift (driver_quit w)) CException (ret tt)) st)
  = {| browser := advance [Quit] (browser (snd (m st)));
       output := output (snd (m st)); log := log (snd (m st)) |}.
Proof.
  unfold try_finally. destruct (m st) as [r stl]. cbn [snd].
  rewrite <- (quit_quietly_state w stl).
  destruct (try_except (lift (driver_quit w)) CException (ret tt) stl) as [[[]|e] s'];
    reflexivity.
Qed.

(** A run of the Microsoft validator, by the way it starts: the
    output of an earlier run is loaded, the loop runs and the browser
    is quit; or the load raises; or the login page is not loaded, the
    browser is quit and the run raises; or the start raises. *)
Lemma colgate_main_cases (w : world) (a : Colgate.args) (input_csv : file) (st : mstate) :
  let run := Colgate.main w a input_csv st in
  match colgate_startup w a (browser st) with
  | (Ok true, s2) =>
      match load_fault w with
      | Some e => run = (Raise e, {| browser := s2; output := output st; log := log st |})
      | None =>
          let stl := snd (Colgate.loop w a (DictReader input_csv)
                            (Colgate.Vars ∅ (Colgate.load_valid_emails (output st)) 0%Z)
                            {| browser := s2; output := output st; log := log st |}) in
          snd run = {| browser := advance [Quit] (browser stl);
                       output := output stl; log := log stl |}
      end
  | (Ok false, s2) =>
      snd run = {| browser := advance [Quit] s2; output := output st; log := log st |}
      /\ exists e, fst run = Raise e
                   /\ (e = SystemExit 1 \/ fault_at w (clock s2) = Some e)
  | (Raise e, s2) =>
      run = (Raise e, {| browser := s2; output := output st; log := log st |})
  end.
Proof.
  intros run. subst run. unfold Colgate.main, colgate_startup. cbv zeta.
  destruct (Colgate.make_driver w (negb (Colgate.no_headless a)) (browser st)) as [[[]|e] s1] eqn:H1.
  2:{ rewrite (bind_raise _ _ _ _ _ H1).
      exact (bind_raise _ _ _ _ _ (lift_ok _ _ _ _ H1)). }
  rewrite (bind_ok _ _ _ _ _ H1), (bind_ok _ _ _ _ _ (lift_ok _ _ _ _ H1)).
  destruct (Colgate.load_login_page w s1) as [[[|]|e] s2] eqn:H2.
  3:{ exact (bind_raise _ _ _ _ _ (lift_ok _ {| browser := s1 |} _ _ H2)). }
  - rewrite (bind_ok _ _ _ _ _ (lift_ok _ {| browser := s1 |} _ _ H2)). cbn [negb].
    destruct (load_fault w) as [el|] eqn:Hl.
    { unfold bind at 1, open_output at 1. rewrite Hl. reflexivity. }
    unfold bind at 1. unfold open_output at 1. rewrite Hl. cbn [output]. unfold bind at 1.
    match goal with
    | |- context [try_finally ?m ?h ?st0] =>
        pose proof (try_finally_state w m st0) as Hs;
        destruct (try_finally m h st0) as [[[]|e] st']
    end; cbn [snd fst ret] in *; exact Hs.
  - rewrite (bind_ok _ _ _ _ _ (lift_ok _ {| browser := s1 |} _ _ H2)). cbn [negb].
    unfold bind, lift, driver_quit, call, raise. cbn [browser output log].
    destruct (fault_at w (clock s2)) as [e|]; cbn [fst snd]; split; eauto.
Qed.

Lemma google_main_cases (w : world) (a : Google.args) (u : string -> string)
    (input_csv : file) (st : mstate) :
  let run := Google.main w a u input_csv st in
  match Google.make_driver w (negb (Google.no_headless a)) (browser st) with
  | (Ok _, s1) =>
      match load_fault w with
      | Some e => run = (Raise e, {| browser := s1; output := output st; log := log st |})
      | None =>
          let prior := Google.load_prior u (output st) in
          let stl := snd (Google.loop w a u (DictReader input_csv)
                            (Google.Vars ∅ (fst prior) (snd prior) 0%Z
                               (Z.of_nat (size (fst prior))))
                            {| browser := s1; output := output st; log := log st |}) in
          snd run = {| browser := advance [Quit] (browser stl);
                       output := output stl; log := log stl |}
      end
  | (Raise e, s1) =>
      run = (Raise e, {| browser := s1; output := output st; log := log st |})
  end.
Proof.
  intros run. subst run. unfold Google.main. cbv zeta.
  destruct (Google.make_driver w (negb (Google.no_headless a)) (browser st)) as [[[]|e] s1] eqn:H1.
  2:{ exact (bind_raise _ _ _ _ _ (lift_ok _ _ _ _ H1)). }
  rewrite (bind_ok _ _ _ _ _ (lift_ok _ _ _ _ H1)).
  destruct (load_fault w) as [el|] eqn:Hl.
  { unfold bind at 1, open_output at 1. rewrite Hl. reflexivity. }
  unfold bind at 1. unfold open_output at 1. rewrite Hl. cbn [output]. unfold bind at 1.
  match goal with
  | |- context [try_finally ?m ?h ?st0] =>
      pose proof (try_finally_state w m st0) as Hs;
      destruct (try_finally m h st0) as [[[]|e] st']
  end; cbn [snd fst ret] in *; exact Hs.
Qed.

Lemma pepperdine_main_cases (w : world) (a : Pepperdine.args) (input_csv : file)
    (st : mstate) :
  let run := Pepperdine.main w a input_csv st in
  match pepperdine_startup w a (browser st) with
  | (Ok true, s2) =>
      let stl := snd (Pepperdine.loop w a (DictReader input_csv)
                        (Pepperdine.Vars ∅ ∅ 0%Z)
                        {| browser := s2; output := output st; log := log st |}) in
      snd run = {| browser := advance [Quit] (browser stl);
                   output := output stl; log := log stl |}
  | (Ok false, s2) =>
      snd run = {| browser := advance [Quit] s2; output := output st; log := log st |}
      /\ exists e, fst run = Raise e
                   /\ (e = SystemExit 1 \/ fault_at w (clock s2) = Some e)
  | (Raise e, s2) =>
      run = (Raise e, {| browser := s2; output := output st; log := log st |})
  end.
Proof.
  intros run. subst run. unfold Pepperdine.main, pepperdine_startup. cbv zeta.
  destruct (Pepperdine.make_driver w (negb (Pepperdine.no_headless a)) (browser st)) as [[[]|e] s1] eqn:H1.
  2:{ rewrite (bind_raise _ _ _ _ _ H1).
      exact (bind_raise _ _ _ _ _ (lift_ok _ _ _ _ H1)). }
  rewrite (bind_ok _ _ _ _ _ H1), (bind_ok _ _ _ _ _ (lift_ok _ _ _ _ H1)).
  destruct (Pepperdine.navigate_to_forgot w 10000 s1) as [[[|]|e] s2] eqn:H2.
  3:{ exact (bind_raise _ _ _ _ _ (lift_ok _ {| browser := s1 |} _ _ H2)). }
  - rewrite (bind_ok _ _ _ _ _ (lift_ok _ {| browser := s1 |} _ _ H2)). cbn [negb].
    unfold bind at 1.
    match goal with
    | |- context [try_finally ?m ?h ?st0] =>
        pose proof (try_finally_state w m st0) as Hs;
        destruct (try_finally m h st0) as [[[]|e] st']
    end; cbn [snd fst ret] in *; exact Hs.
  - rewrite (bind_ok _ _ _ _ _ (lift_ok _ {| browser := s1 |} _ _ H2)). cbn [negb].
    unfold bind, lift, driver_quit, call, raise. cbn [browser output log].
    destruct (fault_at w (clock s2)) as [e|]; cbn [fst snd]; split; eauto.
Qed.

(** ** The probes follow the input *)

Lemma probes_own_row_step (r : row) (rows l : list row) (st st1 st' : mstate) :
  probes_own_row r st st1 ->
  probed_rows (log st') = probed_rows (log st1) ++ l ->
  l `sublist_of` List.filter has_email rows ->
  exists l', probed_rows (log st') = probed_rows (log st) ++ l'
             /\ l' `sublist_of` List.filter has_email (r :: rows).
Proof.
  intros [Hl|[(written & Hl) Hr]] Hp Hsub.
  - exists l. rewrite Hp, Hl. split; [reflexivity|].
    simpl. destruct (has_email r); [apply sublist_cons|]; exact Hsub.
  - exists (r :: l). rewrite Hp, Hl, probed_rows_app, probed_rows_tail, <- List.app_assoc.
    split; [reflexivity|]. simpl. rewrite Hr. apply sublist_skip. exact Hsub.
Qed.

Lemma probes_own_row_last (r : row) (rows : list row) (st st' : mstate) :
  probes_own_row r st st' ->
  exists l', probed_rows (log st') = probed_rows (log st) ++ l'
             /\ l' `sublist_of` List.filter has_email (r :: rows).
Proof.
  intros H. apply (probes_own_row_step r rows [] st st' st' H).
  - rewrite app_nil_r. reflexivity.
  - apply sublist_nil_l.
Qed.

Lemma colgate_body_probes (w : world) (a : Colgate.args) (r : row) (v : Colgate.vars)
    (st st' : mstate) (res : res Colgate.vars) :
  Colgate.body w a r v st = (res, st') -> probes_own_row r st st'.
Proof.
  intros H. apply colgate_body_effect in H as [[_ ->]|(written & [Hl _] & Ht & _)].
  - left. reflexivity.
  - right. split; [exists written; exact Hl|exact Ht].
Qed.

Lemma google_body_probes (w : world) (a : Google.args) (u : string -> string) (r : row)
    (v : Google.vars) (st st' : mstate) (res : res Google.vars) :
  Google.body w a u r v st = (res, st') -> probes_own_row r st st'.
Proof.
  intros H. apply google_body_effect in H as [[_ ->]|(written & [Hl _] & Ht & _)].
  - left. reflexivity.
  - right. split; [exists written; exact Hl|exact Ht].
Qed.

Lemma pepperdine_body_probes (w : world) (a : Pepperdine.args) (r : row)
    (v : Pepperdine.vars) (st st' : mstate) (res : res Pepperdine.vars) :
  Pepperdine.body w a r v st = (res, st') -> probes_own_row r st st'.
Proof.
  intros H. apply pepperdine_body_effect in H as [[_ ->]|(written & [Hl _] & Ht & _)].
  - left. reflexivity.
  - right. split; [exists written; exact Hl|exact Ht].
Qed.

Lemma colgate_loop_probes (w : world) (a : Colgate.args) (rows : list row)
    (v : Colgate.vars) (st : mstate) :
  exists l, probed_rows (log (snd (Colgate.loop w a rows v st))) = probed_rows (log st) ++ l
            /\ l `sublist_of` List.filter has_email rows.
Proof.
  revert v st. induction rows as [|r rows IH]; intros v st.
  - exists []. simpl. rewrite app_nil_r. split; [reflexivity|apply sublist_nil_l].
  - simpl. unfold bind.
    destruct (Colgate.body w a r v st) as [[v1|e] st1] eqn:Hbody;
      apply colgate_body_probes in Hbody.
    + destruct (IH v1 st1) as (l & Hp & Hsub).
      exact (probes_own_row_step r rows l st st1 _ Hbody Hp Hsub).
    + exact (probes_own_row_last r rows st st1 Hbody).
Qed.

Lemma google_loop_probes (w : world) (a : Google.args) (u : string -> string)
    (rows : list row) (v : Google.vars) (st : mstate) :
  exists l, probed_rows (log (snd (Google.loop w a u rows v st))) = probed_rows (log st) ++ l
            /\ l `sublist_of` List.filter has_email rows.
Proof.
  revert v st. induction rows as [|r rows IH]; intros v st.
  - exists []. simpl. rewrite app_nil_r. split; [reflexivity|apply sublist_nil_l].
  - simpl. unfold bind.
    destruct (Google.body w a u r v st) as [[v1|e] st1] eqn:Hbody;
      apply google_body_probes in Hbody.
    + destruct (IH v1 st1) as (l & Hp & Hsub).
      exact (probes_own_row_step r rows l st st1 _ Hbody Hp Hsub).
    + exact (probes_own_row_last r rows st st1 Hbody).
Qed.

Lemma pepperdine_loop_probes (w : world) (a : Pepperdine.args) (rows : list row)
    (v : Pepperdine.vars) (st : mstate) :
  exists l, probed_rows (log (snd (Pepperdine.loop w a rows v st))) = probed_rows (log st) ++ l
            /\ l `sublist_of` List.filter has_email rows.
Proof.
  revert v st. induction rows as [|r rows IH]; intros v st.
  - exists []. simpl. rewrite app_nil_r. split; [reflexivity|apply sublist_nil_l].
  - simpl. destruct (_ && _).
    { exists []. simpl. rewrite app_nil_r. split; [reflexivity|apply sublist_nil_l]. }
    unfold bind.
    destruct (Pepperdine.body w a r v st) as [[v1|e] st1] eqn:Hbody;
      apply pepperdine_body_probes in Hbody.
    + destruct (IH v1 st1) as (l & Hp & Hsub).
      exact (probes_own_row_step r rows l st st1 _ Hbody Hp Hsub).
    + exact (probes_own_row_last r rows st st1 Hbody).
Qed.

Lemma colgate_main_probes (w : world) (a : Colgate.args) (input_csv : file) (s0 : state)
    (out : option file) :
  probed_rows (log (snd (Colgate.main w a input_csv
                           {| browser := s0; output := out; log := [] |})))
  `sublist_of` candidates input_csv.
Proof.
  pose proof (colgate_main_cases w a input_csv {| browser := s0; output := out; log := [] |})
    as H. cbv zeta in H. cbn [browser output log] in H.
  destruct (colgate_startup w a s0) as [[[|]|e] s2].
  - destruct (load_fault w) as [el|]; [rewrite H; apply sublist_nil_l|].
    rewrite H. cbn [log].
    match goal with |- context [Colgate.loop w a ?rows ?v ?st] =>
      destruct (colgate_loop_probes w a rows v st) as (l & -> & Hsub) end.
    exact Hsub.
  - destruct H as [-> _]. apply sublist_nil_l.
  - rewrite H. apply sublist_nil_l.
Qed.

Lemma google_main_probes (w : world) (a : Google.args) (u : string -> string)
    (input_csv : file) (s0 : state) (out : option file) :
  probed_rows (log (snd (Google.main w a u input_csv
                           {| browser := s0; output := out; log := [] |})))
  `sublist_of` candidates input_csv.
Proof.
  pose proof (google_main_cases w a u input_csv
                {| browser := s0; output := out; log := [] |}) as H.
  cbv zeta in H. cbn [browser output log] in H.
  destruct (Google.make_driver w (negb (Google.no_headless a)) s0) as [[[]|e] s2].
  - destruct (load_fault w) as [el|]; [rewrite H; apply sublist_nil_l|].
    rewrite H. cbn [log].
    match goal with |- context [Google.loop w a u ?rows ?v ?st] =>
      destruct (google_loop_probes w a u rows v st) as (l & -> & Hsub) end.
    exact Hsub.
  - rewrite H. apply sublist_nil_l.
Qed.

Lemma pepperdine_main_probes (w : world) (a : Pepperdine.args) (input_csv : file)
    (s0 : state) (out : option file) :
  probed_rows (log (snd (Pepperdine.main w a input_csv
                           {| browser := s0; output := out; log := [] |})))
  `sublist_of` candidates input_csv.
Proof.
  pose proof (pepperdine_main_cases w a input_csv
                {| browser := s0; output := out; log := [] |}) as H.
  cbv zeta in H. cbn [browser output log] in H.
  destruct (pepperdine_startup w a s0) as [[[|]|e] s2].
  - rewrite H. cbn [log].
    match goal with |- context [Pepperdine.loop w a ?rows ?v ?st] =>
      destruct (pepperdine_loop_probes w a rows v st) as (l & -> & Hsub) end.
    exact Hsub.
  - destruct H as [-> _]. apply sublist_nil_l.
  - rewrite H. apply sublist_nil_l.
Qed.

(** In a run of any of the three validators, however it ends, the rows
    probed are rows of the input file, taken in the order of the file
    and each row at most once, and none of them is a row whose email
    field is missing or blank.  So an input file that has no [email]
    column, or no record, is not probed at all. *)
Theorem probes_follow_the_input (w : world) (input_csv : file) (s0 : state)
    (out : option file) :
  (forall a : Colgate.args,
      probed_rows (log (snd (Colgate.main w a input_csv
                               {| browser := s0; output := out; log := [] |})))
      `sublist_of` candidates input_csv)
  /\ (forall (a : Google.args) (u : string -> string),
        probed_rows (log (snd (Google.main w a u input_csv
                                 {| browser := s0; output := out; log := [] |})))
        `sublist_of` candidates input_csv)
  /\ (forall a : Pepperdine.args,
        probed_rows (log (snd (Pepperdine.main w a input_csv
                                 {| browser := s0; output := out; log := [] |})))
        `sublist_of` candidates input_csv).
Proof.
  split; [|split]; intros.
  - apply colgate_main_probes.
  - apply google_main_probes.
  - apply pepperdine_main_probes.
Qed.

(** ** One person, one address; a bound on the probes *)

Lemma nodup_constant {A K} (f : A -> K) (k : K) (l : list A) :
  NoDup (map f l) -> (forall x, In x l -> f x = k) -> length l <= 1.
Proof.
  destruct l as [|x [|y l]]; simpl; intros Hnd Hk; [lia|lia|].
  exfalso. apply NoDup_cons in Hnd as [Hx _]. apply Hx.
  rewrite (Hk x), <- (Hk y) by auto. left.
Qed.

(** When all the candidates of the input have the same person key (as
    they do when the input file has neither a [full_name] nor a
    [username] column), a run of the Google validator writes at most
    one row, whatever the verdicts of the later candidates would have
    been; and when the output file the run starts from has a row with
    that key already, no candidate is probed. *)
Theorem google_one_person_one_write (w : world) (a : Google.args) (u : string -> string)
    (input_csv : file) (s0 : state) (out : option file) (k : string * string) :
  (forall r, In r (candidates input_csv) -> person_of u r = k) ->
  let st' := snd (Google.main w a u input_csv
                    {| browser := s0; output := out; log := [] |}) in
  length (written_rows (log st')) <= 1
  /\ ((exists r0, In r0 (prior_rows out) /\ person_of u r0 = k) ->
      probed_rows (log st') = []).
Proof.
  intros Hk st'.
  destruct (google_main_inv w a u input_csv s0 out)
    as (seen & assigned & (_ & _ & Hsub) & _ & _ & _ & Hprior & _ & Hnd & _).
  fold st' in Hsub, Hprior, Hnd.
  pose proof (google_main_probes w a u input_csv s0 out) as Hin.
  fold st' in Hin.
  split.
  - apply (nodup_constant (person_of u) k); [exact Hnd|].
    intros r Hr. apply Hk. eapply sublist_In; [exact Hin|].
    eapply sublist_In; [exact Hsub|exact Hr].
  - intros (r0 & Hr0 & Hk0).
    destruct (probed_rows (log st')) as [|r l] eqn:Hp; [reflexivity|].
    exfalso. apply (Hprior r0 r Hr0); [left; reflexivity|].
    rewrite Hk0. apply Hk. eapply sublist_In; [exact Hin|left; reflexivity].
Qed.

Lemma google_one_person_one_write_witness :
  let w := example_world 26 g_identifier_page g_password_page in
  let st' := snd (Google.main w google_args id emails_only_csv fresh_run) in
  (forall r, In r (candidates emails_only_csv) -> person_of id r = ("", ""))
  /\ length (written_rows (log st')) <= 1
  /\ ((exists r0, In r0 (prior_rows None) /\ person_of id r0 = ("", "")) ->
      probed_rows (log st') = []).
Proof.
  intros w st'.
  assert (H : forall r, In r (candidates emails_only_csv) -> person_of id r = ("", "")).
  { intros r [<-|[<-|[]]]; vm_compute; reflexivity. }
  split; [exact H|].
  exact (google_one_person_one_write w google_args id emails_only_csv start None ("", "") H).
Defined.

Lemma pepperdine_body_processed (w : world) (a : Pepperdine.args) (r : row)
    (v v' : Pepperdine.vars) (st st' : mstate) :
  Pepperdine.body w a r v st = (Ok v', st') ->
  (v' = v /\ st' = st)
  \/ Pepperdine.processed v' = (Pepperdine.processed v + 1)%Z.
Proof.
  unfold Pepperdine.body. cbv zeta.
  destruct (_ || _); [intros [= <- <-]; auto|].
  intros H. right.
  apply bind_inv in H as (verdict & st1 & _ & H).
  apply bind_inv in H as (valid & st2 & _ & H).
  apply bind_inv in H as (x3 & st3 & _ & H).
  apply bind_inv in H as (x4 & st4 & _ & H).
  injection H as <- _. reflexivity.
Qed.

(** An iteration of the portal loop that probes counts it. *)
Lemma pepperdine_body_counts (w : world) (a : Pepperdine.args) (r : row)
    (v : Pepperdine.vars) (st st' : mstate) (res : res Pepperdine.vars) :
  Pepperdine.body w a r v st = (res, st') ->
  (res = Ok v /\ st' = st)
  \/ (probes (log st') = S (probes (log st))
      /\ forall v', res = Ok v' ->
           Pepperdine.processed v' = (Pepperdine.processed v + 1)%Z).
Proof.
  intros H. pose proof H as Heff.
  apply pepperdine_body_effect in Heff as [[-> ->]|(written & [Hl _] & _)]; [auto|].
  right. assert (Hp : probes (log st') = S (probes (log st))).
  { rewrite Hl, probes_app. destruct written; cbn; lia. }
  split; [exact Hp|]. intros v' ->.
  apply pepperdine_body_processed in H as [[_ ->]|H]; [lia|exact H].
Qed.

Lemma pepperdine_loop_limit (w : world) (a : Pepperdine.args) (rows : list row)
    (v : Pepperdine.vars) (st : mstate) :
  (0 < Pepperdine.limit a)%Z ->
  Pepperdine.processed v = Z.of_nat (probes (log st)) ->
  (Pepperdine.processed v <= Pepperdine.limit a)%Z ->
  (Z.of_nat (probes (log (snd (Pepperdine.loop w a rows v st)))) <= Pepperdine.limit a)%Z.
Proof.
  intros Hlim. revert v st. induction rows as [|r rows IH]; intros v st Hp Hle; simpl.
  - lia.
  - destruct (Z.eqb_spec (Pepperdine.limit a) 0) as [H0|_]; [lia|]. cbn [negb andb].
    destruct (Z.leb_spec (Pepperdine.limit a) (Pepperdine.processed v)) as [Hfull|Hroom];
      [simpl; lia|].
    unfold bind.
    destruct (Pepperdine.body w a r v st) as [[v1|e] st1] eqn:Hbody;
      apply pepperdine_body_counts in Hbody as [[Hres ->]|[Hp1 Hv1]].
    + injection Hres as ->. apply IH; assumption.
    + specialize (Hv1 v1 eq_refl). apply IH; lia.
    + discriminate.
    + simpl. lia.
Qed.

Lemma pepperdine_loop_negative_limit (w : world) (a : Pepperdine.args) (rows : list row)
    (v : Pepperdine.vars) (st : mstate) :
  (Pepperdine.limit a <= Pepperdine.processed v)%Z ->
  Pepperdine.limit a <> 0%Z ->
  Pepperdine.loop w a rows v st = (Ok v, st).
Proof.
  intros Hle Hne. destruct rows as [|r rows]; [reflexivity|]. simpl.
  destruct (Z.eqb_spec (Pepperdine.limit a) 0) as [H0|_]; [contradiction|].
  destruct (Z.leb_spec (Pepperdine.limit a) (Pepperdine.processed v)); [reflexivity|lia].
Qed.

(** The option [--limit N] of the portal validator: with [N > 0] a run
    makes at most [N] probes, however it ends; with [N < 0] it makes
    none at all, and leaves the output file as it was. *)
Theorem pepperdine_limit_bounds_probes (w : world) (a : Pepperdine.args) (input_csv : file)
    (s0 : state) (out : option file) :
  let st' := snd (Pepperdine.main w a input_csv
                    {| browser := s0; output := out; log := [] |}) in
  ((0 < Pepperdine.limit a)%Z ->
   (Z.of_nat (probes (log st')) <= Pepperdine.limit a)%Z)
  /\ ((Pepperdine.limit a < 0)%Z -> log st' = [] /\ output st' = out).
Proof.
  intros st'. subst st'.
  pose proof (pepperdine_main_cases w a input_csv
                {| browser := s0; output := out; log := [] |}) as H.
  cbv zeta in H. cbn [browser output log] in H.
  destruct (pepperdine_startup w a s0) as [[[|]|e] s2].
  - rewrite H. cbn [log output]. split.
    + intros Hlim. apply pepperdine_loop_limit; [exact Hlim|reflexivity|simpl; lia].
    + intros Hneg. rewrite pepperdine_loop_negative_limit by (simpl; lia).
      split; reflexivity.
  - destruct H as [-> _]. cbn [log output]. split; [intros; unfold probes; simpl; lia|auto].
  - rewrite H. cbn [snd log output]. split; [intros; unfold probes; simpl; lia|auto].
Qed.

Lemma pepperdine_limit_bounds_probes_witness :
  let w := example_world 0 pepp_sent_page pepp_sent_page in
  (let st' := snd (Pepperdine.main w pepperdine_args_limit_1 jane_and_john_csv fresh_run) in
   (0 < Pepperdine.limit pepperdine_args_limit_1)%Z
   /\ (Z.of_nat (probes (log st')) <= Pepperdine.limit pepperdine_args_limit_1)%Z)
  /\ (let st' := snd (Pepperdine.main w pepperdine_args_limit_neg jane_and_john_csv
                        fresh_run) in
      (Pepperdine.limit pepperdine_args_limit_neg < 0)%Z
      /\ log st' = [] /\ output st' = None).
Proof.
  intros w. split.
  - assert (H : (0 < Pepperdine.limit pepperdine_args_limit_1)%Z) by (simpl; lia).
    split; [exact H|].
    exact (proj1 (pepperdine_limit_bounds_probes w pepperdine_args_limit_1
                    jane_and_john_csv start None) H).
  - assert (H : (Pepperdine.limit pepperdine_args_limit_neg < 0)%Z) by (simpl; lia).
    split; [exact H|].
    exact (proj2 (pepperdine_limit_bounds_probes w pepperdine_args_limit_neg
                    jane_and_john_csv start None) H).
Defined.

(** ** Guards that swallow every exception *)

Section Ordinary.
Variable w : world.
Hypothesis Hord : ordinary w.

Lemma fault_contained (t : nat) (e : exn) :
  fault_at w t = Some e -> isinstance e CException = true.
Proof. intros H. destruct e; try reflexivity. exfalso. exact (Hord t code H). Qed.

Lemma contained_call {A} (evs : list event) (f : page -> res A) :
  (forall p, contained (f p)) -> raises_exceptions_only (call w evs f).
Proof.
  intros Hf s _. unfold call. destruct (fault_at w (clock s)) as [e|] eqn:He.
  - eexists _, _. split; [reflexivity|]. split; [exact (fault_contained _ _ He)|].
    simpl. lia.
  - eexists _, _. split; [reflexivity|]. split; [apply Hf|]. simpl. lia.
Qed.

Lemma contained_read {A} (evs : list event) (f : page -> A) :
  raises_exceptions_only (call w evs (fun p => Ok (f p))).
Proof. apply contained_call. intros p. exact I. Qed.

Lemma contained_poll {A} (l : locator) (f : element -> A) :
  raises_exceptions_only
    (call w [] (fun p => match find_all p l with
                         | e :: _ => Ok (f e)
                         | [] => Raise NoSuchElementException
                         end)).
Proof. apply contained_call. intros p. destruct (find_all p l); [reflexivity|exact I]. Qed.

Lemma contained_ret {A} (a : A) : raises_exceptions_only (ret a : M A).
Proof. apply ensures_ret. exact I. Qed.

Lemma contained_sleep (ms : Z) : raises_exceptions_only (sleep ms).
Proof. apply ensures_sleep_contained. Qed.

Lemma contained_sleep_uniform (lo hi : Z) : raises_exceptions_only (sleep_uniform w lo hi).
Proof. apply ensures_sleep_uniform_contained. Qed.

Lemma contained_bind {A B} (m : M A) (f : A -> M B) :
  raises_exceptions_only m -> (forall a, raises_exceptions_only (f a)) ->
  raises_exceptions_only (bind m f).
Proof. intros Hm Hf. eapply ensures_bind; [exact Hm| |]; auto. Qed.

Lemma contained_of_returns {A} (m : M A) : always_returns m -> raises_exceptions_only m.
Proof. intros Hm. eapply ensures_weaken; [exact Hm|]. intros r (a & -> & _). exact I. Qed.

Lemma contained_try {A} (m h : M A) (c : exn_class) :
  raises_exceptions_only m -> raises_exceptions_only h ->
  raises_exceptions_only (try_except m c h).
Proof.
  intros Hm Hh. eapply ensures_try_except; [exact Hm| | |]; auto.
Qed.

(** [try: ... except Exception: ...] with a handler that returns. *)
Lemma returns_try_catch_all {A} (m h : M A) :
  raises_exceptions_only m -> always_returns h ->
  always_returns (try_except m CException h).
Proof.
  intros Hm Hh. eapply ensures_try_except; [exact Hm| | |].
  - intros a _. exists a. auto.
  - intros e He Hi. simpl in He. congruence.
  - intros e _ _. exact Hh.
Qed.

Lemma contained_until {A} (n : nat) (method : M (option A)) :
  raises_exceptions_only method -> raises_exceptions_only (until_loop n method).
Proof.
  intros Hm. eapply ensures_until; [exact Hm| | |].
  - intros v _. exact I.
  - reflexivity.
  - intros e He _. exact He.
Qed.

Lemma contained_wait {A} (timeout : Z) (method : M (option A)) :
  raises_exceptions_only method -> raises_exceptions_only (wait_until w timeout method).
Proof. apply contained_until. Qed.

Lemma contained_truth (m : M bool) :
  raises_exceptions_only m -> raises_exceptions_only (truth m).
Proof. intros Hm. unfold truth. apply contained_bind; [exact Hm|]. intros b. apply contained_ret. Qed.

Lemma contained_any_m {A} (f : A -> M bool) (l : list A) :
  (forall x, raises_exceptions_only (f x)) -> raises_exceptions_only (any_m f l).
Proof.
  intros Hf. induction l as [|x l IH]; simpl; [apply contained_ret|].
  apply contained_bind; [apply Hf|]. intros [|]; [apply contained_ret|exact IH].
Qed.

Lemma contained_filter_m {A} (f : A -> M bool) (l : list A) :
  (forall x, raises_exceptions_only (f x)) -> raises_exceptions_only (filter_m f l).
Proof.
  intros Hf. induction l as [|x l IH]; simpl; [apply contained_ret|].
  apply contained_bind; [apply Hf|]. intros b.
  apply contained_bind; [exact IH|]. intros r. apply contained_ret.
Qed.
End Ordinary.

Ltac contains :=
  repeat first
    [ assumption
    | progress cbv zeta
    | apply contained_ret
    | apply contained_sleep | apply contained_sleep_uniform
    | apply contained_poll; assumption
    | apply contained_read; assumption
    | apply contained_wait
    | apply contained_truth
    | apply contained_any_m; intros
    | apply contained_filter_m; intros
    | apply contained_try
    | apply contained_bind; [|intros]
    | match goal with
      | |- ensures _ (if ?b then _ else _) _ => destruct b
      | |- ensures _ (match ?x with _ => _ end) _ => destruct x
      end ].

Section ColgateGuards.
Variable w : world.
Hypothesis Hord : ordinary w.

Lemma load_login_page_returns : always_returns (Colgate.load_login_page w).
Proof.
  unfold Colgate.load_login_page. apply returns_try_catch_all; [|apply returns_ret].
  unfold_driver. contains.
Qed.

Lemma at_username_step_returns : always_returns (Colgate.at_username_step w).
Proof.
  unfold Colgate.at_username_step. apply returns_try_catch_all; [|apply returns_ret].
  unfold_driver. contains.
Qed.

Lemma at_password_step_returns : always_returns (Colgate.at_password_step w).
Proof.
  unfold Colgate.at_password_step. apply returns_try_catch_all; [|apply returns_ret].
  unfold_driver. contains.
Qed.

Lemma go_back_loop_returns (sels : list locator) :
  always_returns (Colgate.go_back_loop w sels).
Proof.
  induction sels as [|sel sels IH]; simpl; [apply returns_ret|].
  apply returns_bind.
  - apply returns_try_catch_all; [|apply returns_ret]. unfold_driver. contains.
  - intros [|]; [apply returns_ret|exact IH].
Qed.

Lemma go_back_to_username_returns : always_returns (Colgate.go_back_to_username w).
Proof.
  unfold Colgate.go_back_to_username.
  apply returns_bind; [apply go_back_loop_returns|].
  intros [|]; [apply returns_ret|].
  apply returns_bind; [apply load_login_page_returns|]. intros _. apply returns_ret.
Qed.

Lemma first_error_text_contained (els : list element) :
  raises_exceptions_only (Colgate.first_error_text w els).
Proof.
  induction els as [|e els IH]; simpl; [apply contained_ret|]. unfold_driver. contains.
Qed.

Lemma find_error_loop_returns (sels : list locator) :
  always_returns (Colgate.find_error_loop w sels).
Proof.
  induction sels as [|sel sels IH]; simpl; [apply returns_ret|].
  apply returns_bind.
  - apply returns_try_catch_all; [|apply returns_ret].
    apply contained_bind; [unfold_driver; contains|].
    intros els. apply first_error_text_contained.
  - intros [txt|]; [apply returns_ret|exact IH].
Qed.
End ColgateGuards.

(** The guards of the Microsoft validator swallow whatever the browser
    raises: loading the login page, the two tests of the step the page
    is at, the search for an error text and the way back to the
    username step return a value from every state. *)
Theorem colgate_guards_never_raise (w : world) (s : state) :
  ordinary w ->
  (exists b s', Colgate.load_login_page w s = (Ok b, s'))
  /\ (exists b s', Colgate.at_username_step w s = (Ok b, s'))
  /\ (exists b s', Colgate.at_password_step w s = (Ok b, s'))
  /\ (exists t s', Colgate.find_username_error_text w s = (Ok t, s'))
  /\ (exists s', Colgate.go_back_to_username w s = (Ok tt, s')).
Proof.
  intros Hord.
  assert (Hrun : forall A (m : M A), always_returns m -> exists a s', m s = (Ok a, s')).
  { intros A m Hm. destruct (Hm s) as (r & s' & Heq & (a & -> & _) & _); [lia|eauto]. }
  split; [apply Hrun, load_login_page_returns, Hord|].
  split; [apply Hrun, at_username_step_returns, Hord|].
  split; [apply Hrun, at_password_step_returns, Hord|].
  split; [apply Hrun, find_error_loop_returns, Hord|].
  destruct (Hrun _ _ (go_back_to_username_returns w Hord)) as ([] & s' & H). eauto.
Qed.

Section ColgateProbeSteps.
Variable w : world.
Hypothesis Hord : ordinary w.

Lemma reach_username_step_returns : always_returns (Colgate.reach_username_step w).
Proof.
  unfold Colgate.reach_username_step.
  apply returns_bind; [apply at_username_step_returns, Hord|].
  intros [|]; [apply returns_ret|].
  apply returns_bind; [apply go_back_to_username_returns, Hord|]. intros _.
  apply returns_try_catch; [reflexivity| |apply returns_ret].
  apply times_out_bind; [|intros; apply times_out_of_returns, returns_ret].
  apply times_out_wait_truth. apply at_username_step_returns, Hord.
Qed.

Lemma classify_response_returns : always_returns (Colgate.classify_response w).
Proof.
  unfold Colgate.classify_response.
  assert (Herr : always_returns (Colgate.find_username_error_text w))
    by apply find_error_loop_returns, Hord.
  assert (Hpw : always_returns (Colgate.at_password_step w))
    by apply at_password_step_returns, Hord.
  apply returns_bind.
  - apply returns_try_catch; [reflexivity| |apply returns_ret].
    apply times_out_wait_truth.
    apply returns_bind; [exact Hpw|]. intros [|]; [apply returns_ret|].
    apply returns_bind; [exact Herr|]. intros t. apply returns_ret.
  - intros _. apply returns_bind; [exact Herr|]. intros t. cbv zeta.
    destruct (any_in _ _); [apply returns_ret|].
    apply returns_bind; [exact Hpw|]. intros [|]; apply returns_ret.
Qed.
End ColgateProbeSteps.

(** In a probe of the Microsoft validator an exception can only come
    from the step that locates the input and fills it in: reaching the
    username step and classifying the answer swallow whatever the
    browser raises.  So a probe that raises had reached the username
    step, and raises what that step raised, which is not a
    [TimeoutException]. *)
Theorem colgate_probe_raises_only_while_filling (w : world) (email : string)
    (s s' : state) (e : exn) :
  ordinary w ->
  Colgate.enter_email_and_submit w email s = (Raise e, s') ->
  isinstance e CTimeoutException = false
  /\ exists s1, Colgate.reach_username_step w s = (Ok true, s1)
                /\ Colgate.fill_and_submit w email 12000 s1 = (Raise e, s').
Proof.
  intros Hord. unfold Colgate.enter_email_and_submit. unfold bind at 1.
  destruct (reach_username_step_returns w Hord s) as (r & s1 & H1 & (ok & -> & _) & _);
    [lia|].
  rewrite H1. destruct ok; cbn [negb]; [|discriminate].
  unfold bind at 1.
  destruct (Colgate.fill_and_submit w email 12000 s1) as [[submitted|e1] s2] eqn:H2.
  - destruct submitted; cbn [negb]; [|discriminate].
    destruct (classify_response_returns w Hord s2) as (r & s3 & H3 & (v & -> & _) & _);
      [lia|].
    rewrite H3. discriminate.
  - intros [= -> ->]. split; [|eauto].
    unfold Colgate.fill_and_submit, try_except in H2.
    destruct (bind _ _ s1) as [[x|e1] s2]; [discriminate|].
    destruct (isinstance e1 CTimeoutException) eqn:Hi; [discriminate|].
    injection H2 as <- _. exact Hi.
Qed.

Lemma faulty_world_ordinary (n : nat) (before after : page) (k : nat) (e : exn) :
  (forall c, e <> SystemExit c) -> ordinary (faulty_world n before after k e).
Proof.
  intros He t c. simpl. destruct (t =? k); [|discriminate]. intros [= ->]. exact (He c eq_refl).
Qed.

Lemma colgate_guards_never_raise_witness :
  let w := faulty_world 40 ms_username_page ms_password_page 1 WebDriverException in
  ordinary w
  /\ (exists b s', Colgate.load_login_page w (advance [Launch] start) = (Ok b, s'))
  /\ (exists b s', Colgate.at_username_step w (advance [Launch] start) = (Ok b, s'))
  /\ (exists b s', Colgate.at_password_step w (advance [Launch] start) = (Ok b, s'))
  /\ (exists t s', Colgate.find_username_error_text w (advance [Launch] start) = (Ok t, s'))
  /\ (exists s', Colgate.go_back_to_username w (advance [Launch] start) = (Ok tt, s')).
Proof.
  intros w.
  assert (H : ordinary w) by (apply faulty_world_ordinary; discriminate).
  split; [exact H|].
  exact (colgate_guards_never_raise w (advance [Launch] start) H).
Defined.

Lemma colgate_probe_raises_only_while_filling_witness :
  let w := faulty_world 40 ms_username_page ms_password_page 7
             StaleElementReferenceException in
  let s := snd (colgate_startup w colgate_args start) in
  let s' := snd (Colgate.enter_email_and_submit w "jane.doe@x.edu" s) in
  ordinary w
  /\ Colgate.enter_email_and_submit w "jane.doe@x.edu" s
     = (Raise StaleElementReferenceException, s')
  /\ isinstance StaleElementReferenceException CTimeoutException = false
  /\ exists s1, Colgate.reach_username_step w s = (Ok true, s1)
                /\ Colgate.fill_and_submit w "jane.doe@x.edu" 12000 s1
                   = (Raise StaleElementReferenceException, s').
Proof.
  intros w s s'.
  assert (H : ordinary w) by (apply faulty_world_ordinary; discriminate).
  assert (Hrun : Colgate.enter_email_and_submit w "jane.doe@x.edu" s
                 = (Raise StaleElementReferenceException, s'))
    by (vm_compute; reflexivity).
  split; [exact H|]. split; [exact Hrun|].
  exact (colgate_probe_raises_only_while_filling w "jane.doe@x.edu" s s'
           StaleElementReferenceException H Hrun).
Defined.

Section GoogleGuards.
Variable w : world.
Hypothesis Hord : ordinary w.

Lemma consent_loop_returns (sels : list string) :
  always_returns (Google.consent_loop w sels).
Proof.
  induction sels as [|sel sels IH]; simpl; [apply returns_ret|].
  apply returns_bind.
  - apply returns_try_catch_all; [|apply returns_ret]. unfold_driver. contains.
  - intros [|]; [apply returns_ret|exact IH].
Qed.

Lemma account_chooser_bypass_returns : always_returns (Google.account_chooser_bypass w).
Proof.
  unfold Google.account_chooser_bypass. apply returns_try_catch_all; [|apply returns_ret].
  unfold_driver. contains.
Qed.

Lemma click_next_if_present_returns : always_returns (Google.click_next_if_present w).
Proof.
  unfold Google.click_next_if_present. apply returns_try_catch_all; [|apply returns_ret].
  unfold_driver. contains.
Qed.
End GoogleGuards.

Section PepperdineGuards.
Variable w : world.
Hypothesis Hord : ordinary w.

Lemma try_switch_iframe_returns : always_returns (Pepperdine.try_switch_iframe w).
Proof.
  unfold Pepperdine.try_switch_iframe. apply returns_try_catch_all; [|apply returns_ret].
  unfold_driver. contains.
Qed.

Lemma click_close_buttons_returns (timeout : Z) (sels : list locator) :
  always_returns (Pepperdine.click_close_buttons w timeout sels).
Proof.
  induction sels as [|sel sels IH]; simpl; [apply returns_ret|].
  apply returns_bind.
  - apply returns_try_catch_all; [|apply returns_ret]. unfold_driver. contains.
  - intros [|]; [apply returns_ret|exact IH].
Qed.

Lemma click_close_scopes_returns (timeout : Z) (scopes : list Pepperdine.scope) :
  always_returns (Pepperdine.click_close_scopes w timeout scopes).
Proof.
  induction scopes as [|sc scopes IH]; cbn [Pepperdine.click_close_scopes];
    [apply returns_ret|].
  apply returns_bind.
  - apply returns_try_catch_all; [|apply returns_ret].
    destruct sc; [apply contained_ret|unfold_driver; contains|].
    apply contained_of_returns, try_switch_iframe_returns.
  - intros _. apply returns_bind; [apply click_close_buttons_returns|].
    intros [|]; [apply returns_ret|exact IH].
Qed.

Lemma locate_submit_loop_contained (sels : list locator) :
  raises_exceptions_only (Pepperdine.locate_submit_loop w sels).
Proof.
  induction sels as [|sel sels IH]; simpl; [apply contained_ret|]. unfold_driver. contains.
Qed.

Lemma locate_submit_returns : always_returns (Pepperdine.locate_submit w).
Proof.
  unfold Pepperdine.locate_submit. apply returns_try_catch_all; [|apply returns_ret].
  apply locate_submit_loop_contained.
Qed.

Lemma click_forgot_link_returns (sels : list locator) :
  always_returns (Pepperdine.click_forgot_link w sels).
Proof.
  induction sels as [|sel sels IH]; simpl; [apply returns_ret|].
  apply returns_bind.
  - apply returns_try_catch_all; [|apply returns_ret]. unfold_driver. contains.
  - intros [|]; [apply returns_ret|exact IH].
Qed.

Lemma open_forgot_url_returns (urls : list string) :
  always_returns (Pepperdine.open_forgot_url w urls).
Proof.
  induction urls as [|url urls IH]; simpl; [apply returns_ret|].
  apply returns_bind.
  - apply returns_try_catch_all; [|apply returns_ret]. unfold_driver. contains.
  - intros [|]; [apply returns_ret|exact IH].
Qed.
End PepperdineGuards.

(** The guards of the Google validator swallow whatever the browser
    raises: dismissing the consent dialog, leaving the account chooser
    and clicking Next return from every state. *)
Theorem google_guards_never_raise (w : world) (s : state) :
  ordinary w ->
  (exists s', Google.consent_click_if_present w s = (Ok tt, s'))
  /\ (exists s', Google.account_chooser_bypass w s = (Ok tt, s'))
  /\ (exists s', Google.click_next_if_present w s = (Ok tt, s')).
Proof.
  intros Hord.
  assert (Hrun : forall (m : M unit), always_returns m -> exists s', m s = (Ok tt, s')).
  { intros m Hm. destruct (Hm s) as (r & s' & Heq & ([] & -> & _) & _); [lia|eauto]. }
  split; [apply Hrun, consent_loop_returns, Hord|].
  split; [apply Hrun, account_chooser_bypass_returns, Hord|].
  apply Hrun, click_next_if_present_returns, Hord.
Qed.

Lemma google_guards_never_raise_witness :
  let w := faulty_world 26 g_identifier_page g_blank_page 0 WebDriverException in
  ordinary w
  /\ (exists s', Google.consent_click_if_present w start = (Ok tt, s'))
  /\ (exists s', Google.account_chooser_bypass w start = (Ok tt, s'))
  /\ (exists s', Google.click_next_if_present w start = (Ok tt, s')).
Proof.
  intros w.
  assert (H : ordinary w) by (apply faulty_world_ordinary; discriminate).
  split; [exact H|]. exact (google_guards_never_raise w start H).
Defined.

(** The guards of the portal validator swallow whatever the browser
    raises: switching to the only iframe, closing a dialog and looking
    for the submit button return from every state. *)
Theorem pepperdine_guards_never_raise (w : world) (s : state) :
  ordinary w ->
  (exists s', Pepperdine.try_switch_iframe w s = (Ok tt, s'))
  /\ (exists b s', Pepperdine.click_close_if_present w s = (Ok b, s'))
  /\ (exists btn s', Pepperdine.locate_submit w s = (Ok btn, s')).
Proof.
  intros Hord.
  assert (Hrun : forall A (m : M A), always_returns m -> exists a s', m s = (Ok a, s')).
  { intros A m Hm. destruct (Hm s) as (r & s' & Heq & (a & -> & _) & _); [lia|eauto]. }
  split.
  { destruct (Hrun _ _ (try_switch_iframe_returns w Hord)) as ([] & s' & H). eauto. }
  split; [apply Hrun, click_close_scopes_returns, Hord|].
  apply Hrun, locate_submit_returns, Hord.
Qed.

Lemma pepperdine_guards_never_raise_witness :
  let w := faulty_world 0 pepp_sent_page pepp_sent_page 0 WebDriverException in
  ordinary w
  /\ (exists s', Pepperdine.try_switch_iframe w start = (Ok tt, s'))
  /\ (exists b s', Pepperdine.click_close_if_present w start = (Ok b, s'))
  /\ (exists btn s', Pepperdine.locate_submit w start = (Ok btn, s')).
Proof.
  intros w.
  assert (H : ordinary w) by (apply faulty_world_ordinary; discriminate).
  split; [exact H|]. exact (pepperdine_guards_never_raise w start H).
Defined.

(** ** How a run starts and how it ends *)

Lemma exit_code_contained {A} (e : exn) :
  isinstance e CException = true -> exit_code (@Raise A e) = 1%Z.
Proof. destruct e; try reflexivity. discriminate. Qed.

Section Startup.
Variable w : world.
Hypothesis Hord : ordinary w.

Lemma colgate_make_driver_contained (headless : bool) :
  raises_exceptions_only (Colgate.make_driver w headless).
Proof. unfold Colgate.make_driver, webdriver_Chrome. contains. Qed.

Lemma colgate_startup_contained (a : Colgate.args) :
  raises_exceptions_only (colgate_startup w a).
Proof.
  unfold colgate_startup. apply contained_bind; [apply colgate_make_driver_contained|].
  intros _. apply contained_of_returns, load_login_page_returns, Hord.
Qed.

Lemma google_make_driver_contained (headless : bool) :
  raises_exceptions_only (Google.make_driver w headless).
Proof.
  unfold Google.make_driver, webdriver_Chrome. unfold_driver. contains.
Qed.

Lemma save_snapshot_returns (label : string) :
  always_returns (Pepperdine.save_snapshot w label).
Proof.
  unfold Pepperdine.save_snapshot. apply returns_try_catch_all; [|apply returns_ret].
  unfold_driver. contains.
Qed.

Lemma navigate_to_forgot_contained (timeout : Z) :
  raises_exceptions_only (Pepperdine.navigate_to_forgot w timeout).
Proof.
  unfold Pepperdine.navigate_to_forgot.
  apply contained_bind; [unfold_driver; contains|]. intros _.
  apply contained_bind; [unfold_driver; contains|]. intros _.
  apply contained_bind; [unfold_driver; contains|]. intros loaded.
  destruct loaded; cbn [negb]; [|apply contained_ret].
  apply contained_bind; [apply contained_of_returns, try_switch_iframe_returns, Hord|].
  intros _.
  apply contained_bind; [apply contained_of_returns, click_forgot_link_returns, Hord|].
  intros [|]; [apply contained_ret|].
  apply contained_bind; [apply contained_of_returns, open_forgot_url_returns, Hord|].
  intros [|]; [apply contained_ret|].
  apply contained_bind; [apply contained_of_returns, save_snapshot_returns|].
  intros _. apply contained_ret.
Qed.

Lemma pepperdine_startup_contained (a : Pepperdine.args) :
  raises_exceptions_only (pepperdine_startup w a).
Proof.
  unfold pepperdine_startup. apply contained_bind; [|intros; apply navigate_to_forgot_contained].
  unfold Pepperdine.make_driver, webdriver_Chrome. contains.
Qed.
End Startup.

Lemma contained_run {A} (m : M A) (s s' : state) (e : exn) :
  raises_exceptions_only m -> m s = (Raise e, s') -> isinstance e CException = true.
Proof.
  intros Hm Heq. destruct (Hm s) as (r & s1 & Heq1 & Hr & _); [lia|].
  rewrite Heq in Heq1. injection Heq1 as <- _. exact Hr.
Qed.

(** A run that does not get past its start (the browser cannot be
    launched, or the page the run starts from cannot be reached) ends
    with exit status 1, probes nothing and leaves the output file as
    it was. *)
Theorem failed_start_probes_nothing (w : world) (input_csv : file) (st : mstate) :
  ordinary w ->
  (forall a : Colgate.args,
      fst (colgate_startup w a (browser st)) <> Ok true ->
      let run := Colgate.main w a input_csv st in
      exit_code (fst run) = 1%Z /\ log (snd run) = log st /\ output (snd run) = output st)
  /\ (forall (a : Google.args) (u : string -> string),
        fst (Google.make_driver w (negb (Google.no_headless a)) (browser st)) <> Ok tt ->
        let run := Google.main w a u input_csv st in
        exit_code (fst run) = 1%Z /\ log (snd run) = log st
        /\ output (snd run) = output st)
  /\ (forall a : Pepperdine.args,
        fst (pepperdine_startup w a (browser st)) <> Ok true ->
        let run := Pepperdine.main w a input_csv st in
        exit_code (fst run) = 1%Z /\ log (snd run) = log st
        /\ output (snd run) = output st).
Proof.
  intros Hord. split; [|split].
  - intros a Hstart run. subst run.
    pose proof (colgate_main_cases w a input_csv st) as H. cbv zeta in H.
    destruct (colgate_startup w a (browser st)) as [[[|]|e] s2] eqn:Hs.
    + contradiction Hstart. reflexivity.
    + destruct H as (-> & e & -> & [->|He]).
      * auto.
      * split; [|auto]. apply exit_code_contained, (fault_contained w Hord _ _ He).
    + rewrite H. split; [|auto].
      apply exit_code_contained, (contained_run _ _ _ _ (colgate_startup_contained w Hord a) Hs).
  - intros a u Hstart run. subst run.
    pose proof (google_main_cases w a u input_csv st) as H. cbv zeta in H.
    destruct (Google.make_driver w (negb (Google.no_headless a)) (browser st))
      as [[[]|e] s2] eqn:Hs.
    + contradiction Hstart. reflexivity.
    + rewrite H. split; [|auto].
      apply exit_code_contained,
        (contained_run _ _ _ _ (google_make_driver_contained w Hord _) Hs).
  - intros a Hstart run. subst run.
    pose proof (pepperdine_main_cases w a input_csv st) as H. cbv zeta in H.
    destruct (pepperdine_startup w a (browser st)) as [[[|]|e] s2] eqn:Hs.
    + contradiction Hstart. reflexivity.
    + destruct H as (-> & e & -> & [->|He]).
      * auto.
      * split; [|auto]. apply exit_code_contained, (fault_contained w Hord _ _ He).
    + rewrite H. split; [|auto].
      apply exit_code_contained,
        (contained_run _ _ _ _ (pepperdine_startup_contained w Hord a) Hs).
Qed.

Lemma failed_start_probes_nothing_witness :
  (let w := example_world 0 no_page no_page in
   let run := Colgate.main w colgate_args jane_and_john_csv fresh_run in
   ordinary w
   /\ fst (colgate_startup w colgate_args (browser fresh_run)) <> Ok true
   /\ exit_code (fst run) = 1%Z /\ log (snd run) = log fresh_run
   /\ output (snd run) = output fresh_run)
  /\ (let w := faulty_world 0 no_page no_page 0 WebDriverException in
      let run := Google.main w google_args id jane_and_john_users_csv fresh_run in
      ordinary w
      /\ fst (Google.make_driver w (negb (Google.no_headless google_args))
                (browser fresh_run)) <> Ok tt
      /\ exit_code (fst run) = 1%Z /\ log (snd run) = log fresh_run
      /\ output (snd run) = output fresh_run)
  /\ (let w := example_world 0 no_page no_page in
      let run := Pepperdine.main w pepperdine_args jane_and_john_csv fresh_run in
      ordinary w
      /\ fst (pepperdine_startup w pepperdine_args (browser fresh_run)) <> Ok true
      /\ exit_code (fst run) = 1%Z /\ log (snd run) = log fresh_run
      /\ output (snd run) = output fresh_run).
Proof.
  split; [|split]; intros w run.
  - assert (H : ordinary w) by (intros t c; discriminate).
    assert (H1 : fst (colgate_startup w colgate_args (browser fresh_run)) <> Ok true)
      by (vm_compute; discriminate).
    split; [exact H|]. split; [exact H1|].
    exact (proj1 (failed_start_probes_nothing w jane_and_john_csv fresh_run H)
             colgate_args H1).
  - assert (H : ordinary w) by (apply faulty_world_ordinary; discriminate).
    assert (H1 : fst (Google.make_driver w (negb (Google.no_headless google_args))
                        (browser fresh_run)) <> Ok tt)
      by (vm_compute; discriminate).
    split; [exact H|]. split; [exact H1|].
    exact (proj1 (proj2 (failed_start_probes_nothing w jane_and_john_users_csv fresh_run H))
             google_args id H1).
  - assert (H : ordinary w) by (intros t c; discriminate).
    assert (H1 : fst (pepperdine_startup w pepperdine_args (browser fresh_run)) <> Ok true)
      by (vm_compute; discriminate).
    split; [exact H|]. split; [exact H1|].
    exact (proj2 (proj2 (failed_start_probes_nothing w jane_and_john_csv fresh_run H))
             pepperdine_args H1).
Defined.

Lemma trace_quit_last (s : state) : last (trace (advance [Quit] s)) = Some Quit.
Proof. unfold advance. cbn [trace]. apply last_snoc. Qed.

(** Once its start is over, a run ends by telling the browser to quit,
    whether the loop ran to its end, an exception left it, or the start
    page was not reached: the last thing the browser was asked to do
    is [quit].  For the portal validator the start is over when the
    first navigation returns.  For the Microsoft and the Google
    validator it is over when the browser is launched, provided the
    output file of an earlier run can be read: they read it before the
    [try], and when that raises (anything but [FileNotFoundError]) the
    run ends with the exception and the browser as the start left it,
    not quit. *)
Theorem runs_end_by_quitting (w : world) (input_csv : file) (st : mstate) :
  (forall a : Colgate.args,
      ordinary w ->
      fst (Colgate.make_driver w (negb (Colgate.no_headless a)) (browser st)) = Ok tt ->
      load_fault w = None ->
      last (trace (browser (snd (Colgate.main w a input_csv st)))) = Some Quit)
  /\ (forall (a : Google.args) (u : string -> string),
        fst (Google.make_driver w (negb (Google.no_headless a)) (browser st)) = Ok tt ->
        load_fault w = None ->
        last (trace (browser (snd (Google.main w a u input_csv st)))) = Some Quit)
  /\ (forall (a : Pepperdine.args) (reached : bool),
        fst (pepperdine_startup w a (browser st)) = Ok reached ->
        last (trace (browser (snd (Pepperdine.main w a input_csv st)))) = Some Quit)
  /\ (forall (a : Colgate.args) (e : exn) (s2 : state),
        colgate_startup w a (browser st) = (Ok true, s2) ->
        load_fault w = Some e ->
        Colgate.main w a input_csv st
        = (Raise e, {| browser := s2; output := output st; log := log st |}))
  /\ (forall (a : Google.args) (u : string -> string) (e : exn) (s1 : state),
        Google.make_driver w (negb (Google.no_headless a)) (browser st) = (Ok tt, s1) ->
        load_fault w = Some e ->
        Google.main w a u input_csv st
        = (Raise e, {| browser := s1; output := output st; log := log st |})).
Proof.
  split; [|split; [|split; [|split]]].
  - intros a Hord Hlaunch Hload.
    pose proof (colgate_main_cases w a input_csv st) as H. cbv zeta in H.
    unfold colgate_startup in H.
    destruct (Colgate.make_driver w (negb (Colgate.no_headless a)) (browser st))
      as [[[]|e] s1] eqn:H1; [|discriminate].
    rewrite (bind_ok _ _ _ _ _ H1) in H.
    destruct (load_login_page_returns w Hord s1) as (r & s2 & H2 & (b & -> & _) & _); [lia|].
    rewrite H2, ?Hload in H. destruct b; [|destruct H as [H _]];
      rewrite H; cbn [browser]; apply trace_quit_last.
  - intros a u Hlaunch Hload.
    pose proof (google_main_cases w a u input_csv st) as H. cbv zeta in H.
    destruct (Google.make_driver w (negb (Google.no_headless a)) (browser st))
      as [[[]|e] s1]; [|discriminate].
    rewrite Hload in H. rewrite H. cbn [browser]. apply trace_quit_last.
  - intros a reached Hstart.
    pose proof (pepperdine_main_cases w a input_csv st) as H. cbv zeta in H.
    destruct (pepperdine_startup w a (browser st)) as [[[|]|e] s2]; [| |discriminate].
    + rewrite H. cbn [browser]. apply trace_quit_last.
    + destruct H as [-> _]. cbn [browser]. apply trace_quit_last.
  - intros a e s2 Hstart Hload.
    pose proof (colgate_main_cases w a input_csv st) as H. cbv zeta in H.
    rewrite Hstart, Hload in H. exact H.
  - intros a u e s1 Hlaunch Hload.
    pose proof (google_main_cases w a u input_csv st) as H. cbv zeta in H.
    rewrite Hlaunch, Hload in H. exact H.
Qed.

Lemma runs_end_by_quitting_witness :
  (let w := faulty_world 40 ms_username_page ms_password_page 7
              StaleElementReferenceException in
   ordinary w
   /\ fst (Colgate.make_driver w (negb (Colgate.no_headless colgate_args))
             (browser fresh_run)) = Ok tt
   /\ load_fault w = None
   /\ last (trace (browser (snd (Colgate.main w colgate_args jane_and_john_csv fresh_run))))
      = Some Quit)
  /\ (let w := faulty_world 26 g_identifier_page g_blank_page 19
                 StaleElementReferenceException in
      fst (Google.make_driver w (negb (Google.no_headless google_args))
             (browser fresh_run)) = Ok tt
      /\ load_fault w = None
      /\ last (trace (browser (snd (Google.main w google_args id jane_and_john_users_csv
                                      fresh_run))))
         = Some Quit)
  /\ (let w := example_world 0 no_page no_page in
      fst (pepperdine_startup w pepperdine_args (browser fresh_run)) = Ok false
      /\ last (trace (browser (snd (Pepperdine.main w pepperdine_args jane_and_john_csv
                                      fresh_run))))
         = Some Quit)
  /\ (let w := unreadable_world 40 ms_username_page ms_password_page UnicodeDecodeError in
      let s2 := snd (colgate_startup w colgate_args (browser fresh_run)) in
      colgate_startup w colgate_args (browser fresh_run) = (Ok true, s2)
      /\ load_fault w = Some UnicodeDecodeError
      /\ Colgate.main w colgate_args jane_and_john_csv fresh_run
         = (Raise UnicodeDecodeError, {| browser := s2; output := None; log := [] |})
      /\ ~ In Quit (trace s2))
  /\ (let w := unreadable_world 26 g_identifier_page g_blank_page OSError in
      let s1 := snd (Google.make_driver w (negb (Google.no_headless google_args))
                       (browser fresh_run)) in
      Google.make_driver w (negb (Google.no_headless google_args)) (browser fresh_run)
      = (Ok tt, s1)
      /\ load_fault w = Some OSError
      /\ Google.main w google_args id jane_and_john_users_csv fresh_run
         = (Raise OSError, {| browser := s1; output := None; log := [] |})
      /\ ~ In Quit (trace s1)).
Proof.
  split; [|split; [|split; [|split]]]; intros w.
  - assert (H : ordinary w) by (apply faulty_world_ordinary; discriminate).
    assert (H1 : fst (Colgate.make_driver w (negb (Colgate.no_headless colgate_args))
                        (browser fresh_run)) = Ok tt) by (vm_compute; reflexivity).
    split; [exact H|]. split; [exact H1|]. split; [reflexivity|].
    exact (proj1 (runs_end_by_quitting w jane_and_john_csv fresh_run) colgate_args H H1
             eq_refl).
  - assert (H1 : fst (Google.make_driver w (negb (Google.no_headless google_args))
                        (browser fresh_run)) = Ok tt) by (vm_compute; reflexivity).
    split; [exact H1|]. split; [reflexivity|].
    exact (proj1 (proj2 (runs_end_by_quitting w jane_and_john_users_csv fresh_run))
             google_args id H1 eq_refl).
  - assert (H1 : fst (pepperdine_startup w pepperdine_args (browser fresh_run)) = Ok false)
      by (vm_compute; reflexivity).
    split; [exact H1|].
    exact (proj1 (proj2 (proj2 (runs_end_by_quitting w jane_and_john_csv fresh_run)))
             pepperdine_args false H1).
  - intros s2.
    assert (H1 : colgate_startup w colgate_args (browser fresh_run) = (Ok true, s2))
      by (vm_compute; reflexivity).
    split; [exact H1|]. split; [reflexivity|]. split.
    + exact (proj1 (proj2 (proj2 (proj2 (runs_end_by_quitting w jane_and_john_csv fresh_run))))
               colgate_args UnicodeDecodeError s2 H1 eq_refl).
    + vm_compute. intuition discriminate.
  - intros s1.
    assert (H1 : Google.make_driver w (negb (Google.no_headless google_args))
                   (browser fresh_run) = (Ok tt, s1)) by (vm_compute; reflexivity).
    split; [exact H1|]. split; [reflexivity|]. split.
    + exact (proj2 (proj2 (proj2 (proj2 (runs_end_by_quitting w jane_and_john_users_csv
                                           fresh_run))))
               google_args id OSError s1 H1 eq_refl).
    + vm_compute. intuition discriminate.
Defined.

(** ** The portal probe on an oracle that does not raise *)

Lemma fault_free_ordinary (w : world) : fault_free w -> ordinary w.
Proof. intros Hff t c H. destruct (Hff t (Nat.le_0_l t)) as [Hf _]. congruence. Qed.

Section PepperdineFaultFree.
Variable w : world.
Hypothesis Hff : fault_free w.

Let Hord : ordinary w := fault_free_ordinary w Hff.

Lemma returns_pepperdine_make_driver (headless : bool) :
  always_returns (Pepperdine.make_driver w headless).
Proof. unfold Pepperdine.make_driver, webdriver_Chrome. returns. Qed.

Lemma returns_navigate_to_forgot (timeout : Z) :
  always_returns (Pepperdine.navigate_to_forgot w timeout).
Proof.
  unfold Pepperdine.navigate_to_forgot.
  apply returns_bind; [unfold_driver; apply returns_call; exact Hff|]. intros _.
  apply returns_bind; [unfold_driver; apply returns_call; exact Hff|]. intros _.
  apply returns_bind.
  { apply returns_try_catch; [reflexivity| |apply returns_ret].
    apply times_out_bind; [apply times_out_wait_presence; exact Hff|].
    intros el. apply times_out_of_returns, returns_ret. }
  intros [|]; cbn [negb]; [|apply returns_ret].
  apply returns_bind; [apply try_switch_iframe_returns, Hord|]. intros _.
  apply returns_bind; [apply click_forgot_link_returns, Hord|].
  intros [|]; [apply returns_ret|].
  apply returns_bind; [apply open_forgot_url_returns, Hord|].
  intros [|]; [apply returns_ret|].
  apply returns_bind; [apply save_snapshot_returns, Hord|]. intros _. apply returns_ret.
Qed.

Lemma returns_locate_reset_step (timeout : Z) (sel : locator) :
  always_returns
    (try_except
       (el <- wait_until w timeout (presence_of_element_located w sel) ;; ret (Some el))
       CTimeoutException (ret None)).
Proof.
  apply returns_try_catch; [reflexivity| |apply returns_ret].
  apply times_out_bind; [apply times_out_wait_presence; exact Hff|].
  intros el. apply times_out_of_returns, returns_ret.
Qed.

Lemma returns_locate_reset_loop (timeout : Z) (sels : list locator) :
  always_returns (Pepperdine.locate_reset_loop w timeout sels).
Proof.
  induction sels as [|sel sels IH]; simpl; [apply returns_ret|].
  apply returns_bind; [apply returns_locate_reset_step|].
  intros [el|]; [apply returns_ret|exact IH].
Qed.

Lemma returns_locate_reset_input (timeout : Z) :
  always_returns (Pepperdine.locate_reset_input w timeout).
Proof.
  unfold Pepperdine.locate_reset_input.
  apply returns_bind; [apply try_switch_iframe_returns, Hord|]. intros _.
  apply returns_locate_reset_loop.
Qed.

Lemma returns_ensure_on_reset_page : always_returns (Pepperdine.ensure_on_reset_page w).
Proof.
  unfold Pepperdine.ensure_on_reset_page.
  apply returns_bind; [apply returns_locate_reset_input|].
  intros [el|]; [apply returns_ret|].
  apply returns_bind; [apply returns_navigate_to_forgot|].
  intros [|]; [|apply returns_ret].
  apply returns_bind; [apply returns_locate_reset_input|]. intros again. apply returns_ret.
Qed.

Lemma returns_set_input_value_fast (el : element) (value : string) :
  always_returns (Pepperdine.set_input_value_fast w el value).
Proof.
  unfold Pepperdine.set_input_value_fast.
  apply ensures_try_ret. unfold_driver. apply returns_call. exact Hff.
Qed.

Lemma returns_click_close_if_present : always_returns (Pepperdine.click_close_if_present w).
Proof. apply click_close_scopes_returns, Hord. Qed.

Lemma returns_scan_alerts (alerts : list element) :
  always_returns (Pepperdine.scan_alerts w alerts).
Proof.
  induction alerts as [|al alerts IH]; simpl; [apply returns_ret|].
  apply returns_bind; [unfold_driver; apply returns_call; exact Hff|]. intros t.
  match goal with |- ensures _ (if ?b then _ else _) _ => destruct b end; [exact IH|].
  match goal with |- ensures _ (if ?b then _ else _) _ => destruct b end.
  { apply returns_bind; [apply returns_click_close_if_present|]. intros _. apply returns_ret. }
  match goal with |- ensures _ (if ?b then _ else _) _ => destruct b end; [|exact IH].
  apply returns_bind; [apply returns_click_close_if_present|]. intros _. apply returns_ret.
Qed.

Lemma returns_submit_username_for_reset (email : string) :
  always_returns (Pepperdine.submit_username_for_reset w email).
Proof.
  unfold Pepperdine.submit_username_for_reset.
  apply returns_bind; [apply returns_ensure_on_reset_page|].
  intros [|]; cbn [negb].
  2:{ apply returns_bind; [apply save_snapshot_returns, Hord|]. intros _. apply returns_ret. }
  apply returns_bind; [apply returns_locate_reset_input|].
  intros [el|].
  2:{ apply returns_bind; [apply save_snapshot_returns, Hord|]. intros _. apply returns_ret. }
  apply returns_bind; [apply returns_set_input_value_fast|]. intros _.
  apply returns_bind.
  { apply ensures_try_ret. unfold_driver. apply returns_call. exact Hff. }
  intros _.
  apply returns_bind; [apply locate_submit_returns, Hord|]. intros btn.
  apply returns_bind.
  { destruct btn; [|apply returns_ret].
    apply ensures_try_ret. unfold_driver. apply returns_call. exact Hff. }
  intros _.
  apply returns_bind; [apply returns_sleep; reflexivity|]. intros _.
  apply returns_bind; [unfold_driver; apply returns_call; exact Hff|]. intros src.
  cbv zeta.
  match goal with |- ensures _ (if ?b then _ else _) _ => destruct b end.
  { apply returns_bind; [apply returns_click_close_if_present|]. intros _. apply returns_ret. }
  match goal with |- ensures _ (if ?b then _ else _) _ => destruct b end.
  { apply returns_bind; [apply returns_click_close_if_present|]. intros _. apply returns_ret. }
  apply returns_bind.
  { apply ensures_try_ret.
    apply returns_bind; [unfold_driver; apply returns_call; exact Hff|].
    intros alerts. apply returns_scan_alerts. }
  intros [v|]; [apply returns_ret|].
  apply returns_bind; [apply save_snapshot_returns, Hord|]. intros _.
  apply returns_bind; [apply returns_click_close_if_present|]. intros _. apply returns_ret.
Qed.

Lemma pepperdine_body_total (a : Pepperdine.args) (r : row) (v : Pepperdine.vars) :
  pepperdine_sleeps a = true -> total (Pepperdine.body w a r v).
Proof.
  intros Ha. apply andb_true_iff in Ha as [Hmin Hmax].
  unfold Pepperdine.body. cbv zeta.
  destruct (_ || _); [apply total_ret|].
  apply total_bind; [apply total_probe, returns_submit_username_for_reset|].
  intros verdict. apply total_bind.
  { destruct verdict as [[|]|]; try apply total_ret.
    apply total_bind; [apply total_append_row|]. intros _. apply total_ret. }
  intros valid. apply total_bind; [apply total_lift, returns_ensure_on_reset_page|].
  intros _. apply total_bind; [apply total_lift, returns_sleep_uniform; assumption|].
  intros _. apply total_ret.
Qed.

Lemma pepperdine_loop_total (a : Pepperdine.args) (rows : list row) (v : Pepperdine.vars) :
  pepperdine_sleeps a = true -> total (Pepperdine.loop w a rows v).
Proof.
  intros Ha. revert v. induction rows as [|r rows IH]; intros v; simpl; [apply total_ret|].
  destruct (_ && _); [apply total_ret|].
  apply total_bind; [apply pepperdine_body_total, Ha|]. intros v'. apply IH.
Qed.

Lemma pepperdine_main_outcome (a : Pepperdine.args) (input_csv : file) (st : mstate) :
  pepperdine_sleeps a = true ->
  exists st',
    (Pepperdine.main w a input_csv st = (Ok tt, st')
     /\ fst (pepperdine_startup w a (browser st)) = Ok true)
    \/ (Pepperdine.main w a input_csv st = (Raise (SystemExit 1), st')
        /\ fst (pepperdine_startup w a (browser st)) = Ok false).
Proof.
  intros Ha.
  destruct (returns_pepperdine_make_driver (negb (Pepperdine.no_headless a)) (browser st))
    as (r1 & s1 & H1 & (u & -> & _) & _); [lia|].
  destruct (returns_navigate_to_forgot 10000 s1)
    as (r2 & s2 & H2 & (reached & -> & _) & _); [lia|].
  assert (Hstart : fst (pepperdine_startup w a (browser st)) = Ok reached).
  { unfold pepperdine_startup. rewrite (bind_ok _ _ _ _ _ H1), H2. reflexivity. }
  unfold Pepperdine.main. cbv zeta.
  rewrite (bind_ok _ _ _ _ _ (lift_ok _ _ _ _ H1)).
  rewrite (bind_ok _ _ _ _ _ (lift_ok _ {| browser := s1 |} _ _ H2)).
  destruct reached; cbn [negb].
  - match goal with
    | |- exists st', (?m ?st1 = _ /\ _) \/ _ =>
        assert (Hrest : total m); [|destruct (Hrest st1) as ([] & st' & Hrun)]
    end.
    { apply total_bind; [|intros _; apply total_ret].
      apply total_try_finally; [apply pepperdine_loop_total, Ha|].
      apply total_quit_quietly, Hff. }
    exists st'. left. split; [exact Hrun|exact Hstart].
  - destruct (returns_call w Hff [Quit] (fun _ => tt) s2)
      as (r3 & s3 & H3 & (u3 & -> & _) & _); [lia|].
    eexists. right. split; [|exact Hstart].
    unfold driver_quit.
    rewrite (bind_ok _ _ _ _ _ (lift_ok _ {| browser := s2 |} _ _ H3)). reflexivity.
Qed.
End PepperdineFaultFree.

(** ** The verdict of the portal probe *)

Section PepperdineVerdict.
Variable w : world.
Variable sel : locator.
Variable src : string.
Variable alerts : list element.
Hypothesis Hsel : In sel pepp_reset_selectors.
Hypothesis Hcalm : calm w 0 (pepp_answer sel src alerts).

Let Hff : fault_free w := calm_fault_free w _ Hcalm.
Let Hord : ordinary w := fault_free_ordinary w Hff.

Lemma locate_reset_loop_finds (timeout : Z) (sels : list locator) :
  In sel sels ->
  ensures 0 (Pepperdine.locate_reset_loop w timeout sels) (returns (fun r => r <> None)).
Proof.
  induction sels as [|sel0 sels IH]; intros Hin; [destruct Hin|]. simpl.
  destruct (locator_eq_dec sel0 sel) as [->|Hne].
  - eapply ensures_bind_ret with (P := fun r => r <> None).
    + apply ensures_try_ret. eapply ensures_bind_ret with (P := fun _ => True).
      * unfold wait_until. apply ensures_until_hit.
        apply (ensures_call w 0 _ Hcalm). intros p (Hp & _).
        destruct (find_all p sel) as [|e l]; [contradiction|].
        exists e. split; [reflexivity|]. exists e. auto.
      * intros el _. apply ensures_ret_val. discriminate.
    + intros [el|] Hr; [|contradiction]. apply ensures_ret_val. discriminate.
  - destruct Hin as [Heq|Hin]; [contradiction|].
    eapply ensures_bind_ret; [apply (returns_locate_reset_step w Hff)|].
    intros [el|] _; [apply ensures_ret_val; discriminate|exact (IH Hin)].
Qed.

Lemma locate_reset_input_finds (timeout : Z) :
  ensures 0 (Pepperdine.locate_reset_input w timeout) (returns (fun r => r <> None)).
Proof.
  unfold Pepperdine.locate_reset_input.
  eapply ensures_bind_ret; [apply try_switch_iframe_returns, Hord|]. intros _ _.
  apply locate_reset_loop_finds. exact Hsel.
Qed.

Lemma scan_alerts_verdict (als : list element) :
  ensures 0 (Pepperdine.scan_alerts w als) (returns (eq (pepp_alert_verdict als))).
Proof.
  induction als as [|al als IH]; simpl; [apply ensures_ret_val; reflexivity|].
  eapply ensures_bind_ret; [apply (ensures_text w 0 _ Hcalm)|]. intros t <-.
  match goal with |- ensures _ (if ?b then _ else _) _ => destruct b end; [exact IH|].
  match goal with |- ensures _ (if ?b then _ else _) _ => destruct b end.
  { eapply ensures_bind_ret; [apply returns_click_close_if_present, Hff|].
    intros _ _. apply ensures_ret_val. reflexivity. }
  match goal with |- ensures _ (if ?b then _ else _) _ => destruct b end; [|exact IH].
  eapply ensures_bind_ret; [apply returns_click_close_if_present, Hff|].
  intros _ _. apply ensures_ret_val. reflexivity.
Qed.

Lemma submit_username_for_reset_verdict (email : string) :
  ensures 0 (Pepperdine.submit_username_for_reset w email)
    (returns (eq (pepp_verdict_of src alerts))).
Proof.
  unfold Pepperdine.submit_username_for_reset.
  eapply ensures_bind_ret with (P := eq true).
  { unfold Pepperdine.ensure_on_reset_page.
    eapply ensures_bind_ret; [apply locate_reset_input_finds|].
    intros [el|] Hr; [|contradiction]. apply ensures_ret_val. reflexivity. }
  intros on_page <-. cbn [negb].
  eapply ensures_bind_ret; [apply locate_reset_input_finds|].
  intros [el|] Hr; [|contradiction].
  eapply ensures_bind_ret; [apply returns_set_input_value_fast, Hff|]. intros _ _.
  eapply ensures_bind_ret.
  { apply ensures_try_ret. unfold_driver. apply returns_call. exact Hff. }
  intros _ _.
  eapply ensures_bind_ret; [apply locate_submit_returns, Hord|]. intros btn _.
  eapply ensures_bind_ret with (P := fun _ => True).
  { destruct btn; [|apply returns_ret].
    apply ensures_try_ret. unfold_driver. apply returns_call. exact Hff. }
  intros _ _.
  eapply ensures_bind_ret; [apply returns_sleep; reflexivity|]. intros _ _.
  eapply ensures_bind_ret with (P := eq src).
  { apply (ensures_read w 0 _ Hcalm). intros p (_ & Hp & _). symmetry. exact Hp. }
  intros s0 <-. cbv zeta. unfold pepp_verdict_of. cbv zeta.
  destruct (any_in Pepperdine.success_hints (str_lower src)).
  { eapply ensures_bind_ret; [apply returns_click_close_if_present, Hff|].
    intros _ _. apply ensures_ret_val. reflexivity. }
  destruct (any_in Pepperdine.error_hints (str_lower src)).
  { eapply ensures_bind_ret; [apply returns_click_close_if_present, Hff|].
    intros _ _. apply ensures_ret_val. reflexivity. }
  eapply ensures_bind_ret with (P := eq (pepp_alert_verdict alerts)).
  { apply ensures_try_ret.
    eapply ensures_bind_ret with (P := eq alerts).
    - apply (ensures_find_elements w 0 _ Hcalm). intros p (_ & _ & Hp). symmetry. exact Hp.
    - intros als <-. apply scan_alerts_verdict. }
  intros found <-. destruct (pepp_alert_verdict alerts) as [v|].
  - apply ensures_ret_val. reflexivity.
  - eapply ensures_bind_ret; [apply save_snapshot_returns, Hord|]. intros _ _.
    eapply ensures_bind_ret; [apply returns_click_close_if_present, Hff|].
    intros _ _. apply ensures_ret_val. reflexivity.
Qed.
End PepperdineVerdict.

Section PepperdineNoInput.
Variable w : world.
Hypothesis Hcalm : calm w 0 pepp_no_input.

Let Hff : fault_free w := calm_fault_free w _ Hcalm.
Let Hord : ordinary w := fault_free_ordinary w Hff.

Lemma locate_reset_loop_misses (timeout : Z) (sels : list locator) :
  (forall sel, In sel sels -> In sel pepp_reset_selectors) ->
  ensures 0 (Pepperdine.locate_reset_loop w timeout sels) (returns (eq None)).
Proof.
  induction sels as [|sel sels IH]; intros Hsub; simpl.
  - apply ensures_ret_val. reflexivity.
  - eapply ensures_bind_ret with (P := eq None).
    + eapply ensures_try_except with (R1 := fun r => r = Raise TimeoutException).
      * eapply ensures_bind with (R1 := fun r => r = Raise TimeoutException).
        -- apply (ensures_wait_expires w _ timeout _ Hcalm).
           apply (ensures_call w 0 _ Hcalm). intros p Hp.
           rewrite (Hp sel (Hsub sel (or_introl eq_refl))). right. reflexivity.
        -- intros a [=].
        -- intros e [= ->]. reflexivity.
      * intros a [=].
      * intros e [= ->] [=].
      * intros e _ _. apply ensures_ret_val. reflexivity.
    + intros r <-. apply IH. intros sel' Hin. apply Hsub. right. exact Hin.
Qed.

Lemma locate_reset_input_misses (timeout : Z) :
  ensures 0 (Pepperdine.locate_reset_input w timeout) (returns (eq None)).
Proof.
  unfold Pepperdine.locate_reset_input.
  eapply ensures_bind_ret; [apply try_switch_iframe_returns, Hord|]. intros _ _.
  apply locate_reset_loop_misses. auto.
Qed.

Lemma submit_username_for_reset_unknown (email : string) :
  ensures 0 (Pepperdine.submit_username_for_reset w email) (returns (eq None)).
Proof.
  unfold Pepperdine.submit_username_for_reset.
  eapply ensures_bind_ret with (P := eq false).
  { unfold Pepperdine.ensure_on_reset_page.
    eapply ensures_bind_ret; [apply locate_reset_input_misses|]. intros inp <-.
    eapply ensures_bind_ret; [apply returns_navigate_to_forgot, Hff|].
    intros [|] _; [|apply ensures_ret_val; reflexivity].
    eapply ensures_bind_ret; [apply locate_reset_input_misses|]. intros again <-.
    apply ensures_ret_val. reflexivity. }
  intros on_page <-. cbn [negb].
  eapply ensures_bind_ret; [apply save_snapshot_returns, Hord|]. intros _ _.
  apply ensures_ret_val. reflexivity.
Qed.
End PepperdineNoInput.

(** The verdict of the portal probe.  On a portal that never raises and
    whose pages have the reset input, the source [src] and the alerts
    [alerts], both in ASCII, a probe answers with the verdict read off
    them: [True] when the source has a success hint, whatever else the
    page says; else [False] when the source has an error hint; else
    what the first telling alert says; else [None].  On a portal whose
    pages have no reset input a probe answers [None]. *)
Theorem pepperdine_verdict_of_answer (w : world) (email : string) (s : state) :
  (forall (sel : locator) (src : string) (alerts : list element),
      In sel pepp_reset_selectors ->
      is_ascii src = true ->
      Forall (fun al => is_ascii (el_text al) = true) alerts ->
      calm w 0 (pepp_answer sel src alerts) ->
      exists s', Pepperdine.submit_username_for_reset w email s
                 = (Ok (pepp_verdict_of src alerts), s'))
  /\ (calm w 0 pepp_no_input ->
      exists s', Pepperdine.submit_username_for_reset w email s = (Ok None, s')).
Proof.
  split.
  - intros sel src alerts Hsel _ _ Hcalm.
    destruct (submit_username_for_reset_verdict w sel src alerts Hsel Hcalm email s)
      as (r & s' & Heq & (v & -> & <-) & _); [lia|eauto].
  - intros Hcalm.
    destruct (submit_username_for_reset_unknown w Hcalm email s)
      as (r & s' & Heq & (v & -> & <-) & _); [lia|eauto].
Qed.

Lemma pepperdine_verdict_of_answer_witness :
  (let w := example_world 0 pepp_reset_error_page pepp_reset_error_page in
   let sel := (By_CSS_SELECTOR, "input[type='email']") in
   let src := page_source pepp_reset_error_page in
   In sel pepp_reset_selectors
   /\ is_ascii src = true
   /\ calm w 0 (pepp_answer sel src [])
   /\ any_in Pepperdine.error_hints (str_lower src) = true
   /\ pepp_verdict_of src [] = Some true
   /\ exists s', Pepperdine.submit_username_for_reset w "jane.doe@x.edu" start
                 = (Ok (pepp_verdict_of src []), s'))
  /\ (let w := example_world 0 no_page no_page in
      calm w 0 pepp_no_input
      /\ exists s', Pepperdine.submit_username_for_reset w "jane.doe@x.edu" start
                    = (Ok None, s')).
Proof.
  split.
  - intros w sel src.
    assert (H1 : In sel pepp_reset_selectors) by (left; reflexivity).
    assert (H2 : calm w 0 (pepp_answer sel src [])).
    { apply example_world_constant. split; [vm_compute; discriminate|].
      split; [reflexivity|vm_compute; reflexivity]. }
    assert (H3 : is_ascii src = true) by (vm_compute; reflexivity).
    split; [exact H1|]. split; [exact H3|]. split; [exact H2|].
    split; [vm_compute; reflexivity|]. split; [vm_compute; reflexivity|].
    exact (proj1 (pepperdine_verdict_of_answer w "jane.doe@x.edu" start) sel src [] H1 H3
             (List.Forall_nil _) H2).
  - intros w.
    assert (H : calm w 0 pepp_no_input).
    { apply example_world_constant. intros sel _. reflexivity. }
    split; [exact H|].
    exact (proj2 (pepperdine_verdict_of_answer w "jane.doe@x.edu" start) H).
Defined.



(** ** What a probe of the Microsoft validator types *)

Lemma silent_trace {A} (m : M A) (s : state) : silent m -> trace (snd (m s)) = trace s.
Proof.
  intros Hm. destruct (Hm s) as (evs & Ht & Hev & _). rewrite Ht.
  destruct evs as [|ev evs]; [apply app_nil_r|discriminate].
Qed.

Lemma silent_run {A} (m : M A) (s s' : state) (r : res A) :
  silent m -> m s = (r, s') -> trace s' = trace s.
Proof. intros Hm Heq. rewrite <- (silent_trace m s Hm), Heq. reflexivity. Qed.

Lemma append_empty (s : string) : (s ++ "")%string = s.
Proof.
  induction s as [|c s IH]; [reflexivity|].
  change (String c (s ++ "")%string = String c s). rewrite IH. reflexivity.
Qed.

Lemma keys_sent_typing (text : string) (rest : list event) :
  keys_sent (typing text ++ rest) = (text ++ keys_sent rest)%string.
Proof. induction text as [|ch text IH]; simpl; [reflexivity|]. rewrite IH. reflexivity. Qed.

Section ColgateTrace.
Variable w : world.

Lemma silent_at_username_step : silent (Colgate.at_username_step w).
Proof. unfold Colgate.at_username_step. unfold_driver. emits. Qed.

Lemma silent_at_password_step : silent (Colgate.at_password_step w).
Proof. unfold Colgate.at_password_step. unfold_driver. emits. Qed.

Lemma silent_first_error_text (els : list element) : silent (Colgate.first_error_text w els).
Proof. induction els as [|e els IH]; simpl; unfold_driver; emits. Qed.

Lemma silent_find_error_loop (sels : list locator) : silent (Colgate.find_error_loop w sels).
Proof.
  induction sels as [|sel sels IH]; simpl; [apply emits_ret|].
  apply emits_bind.
  - apply emits_try_except; [|apply emits_ret].
    apply emits_bind; [unfold_driver; emits|]. intros els. apply silent_first_error_text.
  - intros [txt|]; [apply emits_ret|exact IH].
Qed.

Lemma silent_locate_email_input (wait : Z) (sels : list locator) (found : option element) :
  silent (Colgate.locate_email_input w wait sels found).
Proof.
  revert found. induction sels as [|sel sels IH]; intros found; simpl; [apply emits_ret|].
  apply emits_bind; [unfold_driver; emits|].
  intros [el|]; [|apply IH].
  apply emits_bind; [unfold_driver; emits|]. intros [|]; [apply emits_ret|apply IH].
Qed.

Lemma silent_classify_response : silent (Colgate.classify_response w).
Proof.
  unfold Colgate.classify_response.
  pose proof silent_at_password_step as Hpw.
  pose proof (silent_find_error_loop Colgate.error_selectors) as Herr.
  fold (Colgate.find_username_error_text w) in Herr.
  emits.
Qed.

Lemma navigates_load_login_page : emits navigation_event (Colgate.load_login_page w).
Proof. unfold Colgate.load_login_page. unfold_driver. emits. Qed.

Lemma navigates_go_back_loop (sels : list locator) :
  emits navigation_event (Colgate.go_back_loop w sels).
Proof. induction sels as [|sel sels IH]; simpl; unfold_driver; emits. Qed.

Lemma emits_weaken (P Q : event -> bool) {A} (m : M A) :
  (forall ev, P ev = true -> Q ev = true) -> emits P m -> emits Q m.
Proof.
  intros HPQ Hm s. destruct (Hm s) as (evs & Ht & Hev & Hc). exists evs.
  split; [exact Ht|]. split; [|exact Hc].
  apply forallb_forall. intros ev Hin. apply HPQ.
  rewrite forallb_forall in Hev. exact (Hev ev Hin).
Qed.

Lemma navigates_reach_username_step : emits navigation_event (Colgate.reach_username_step w).
Proof.
  unfold Colgate.reach_username_step, Colgate.go_back_to_username.
  assert (Hat : emits navigation_event (Colgate.at_username_step w)).
  { apply (emits_weaken no_event); [discriminate|apply silent_at_username_step]. }
  pose proof navigates_load_login_page as Hload.
  pose proof navigates_go_back_loop as Hback.
  emits.
Qed.

Lemma type_like_human_trace (el : element) (text : string) (s s' : state) :
  Colgate.type_like_human w el text s = (Ok tt, s') ->
  trace s' = trace s ++ typing text.
Proof.
  revert s. induction text as [|ch text IH]; intros s; simpl.
  - intros [= <-]. rewrite app_nil_r. reflexivity.
  - intros H. apply bind_inv in H as ([] & s1 & Hkey & H).
    apply call_inv in Hkey as (_ & _ & ->).
    apply bind_inv in H as ([] & s2 & Hpause & H).
    apply sleep_uniform_inv in Hpause as ->.
    rewrite (IH _ H). simpl. rewrite <- !List.app_assoc. reflexivity.
Qed.

Lemma fill_and_submit_trace (email : string) (timeout : Z) (s s' : state) :
  Colgate.fill_and_submit w email timeout s = (Ok true, s') ->
  trace s' = trace s ++ Clear :: typing email ++ [SendReturn].
Proof.
  unfold Colgate.fill_and_submit. intros H.
  apply try_except_inv in H as [H|(e & sx & _ & [=])].
  apply bind_inv in H as (found & s1 & Hloc & H).
  apply (silent_run _ _ _ _ (silent_locate_email_input _ _ _)) in Hloc.
  destruct found as [el|]; [|discriminate].
  apply bind_inv in H as ([] & s2 & Hclear & H).
  apply call_inv in Hclear as (_ & _ & ->).
  apply bind_inv in H as ([] & s3 & Htype & H).
  apply type_like_human_trace in Htype.
  apply bind_inv in H as ([] & s4 & Hret & H).
  apply call_inv in Hret as (_ & _ & ->).
  injection H as <-. simpl. rewrite Htype. simpl. rewrite Hloc.
  rewrite <- !List.app_assoc. reflexivity.
Qed.
End ColgateTrace.

(** A probe of the Microsoft validator that gives a verdict [True] or
    [False] has, after moving to the username step (clicks, page loads
    and pauses only), cleared the input, typed the email one character
    at a time with a pause after each, and pressed Return; it has done
    nothing to the browser after that but read it.  The keys it sent
    spell the email. *)
Theorem colgate_probe_types_the_email (w : world) (email : string) (s s' : state)
    (v : bool) :
  Colgate.enter_email_and_submit w email s = (Ok (Some v), s') ->
  exists nav,
    forallb navigation_event nav = true
    /\ trace s' = trace s ++ nav ++ Clear :: typing email ++ [SendReturn]
    /\ keys_sent (nav ++ Clear :: typing email ++ [SendReturn]) = email.
Proof.
  unfold Colgate.enter_email_and_submit. intros H.
  apply bind_inv in H as (ok & s1 & Hreach & H).
  destruct ok; cbn [negb] in H; [|discriminate].
  apply bind_inv in H as (submitted & s2 & Hfill & H).
  destruct submitted; cbn [negb] in H; [|discriminate].
  apply fill_and_submit_trace in Hfill.
  apply (silent_run _ _ _ _ (silent_classify_response w)) in H.
  destruct (navigates_reach_username_step w s) as (nav & Hnav & Hev & _).
  rewrite Hreach in Hnav. cbn [snd] in Hnav.
  exists nav. split; [exact Hev|]. split.
  - rewrite H, Hfill, Hnav, <- List.app_assoc. reflexivity.
  - clear - Hev. induction nav as [|ev nav IH]; simpl.
    + rewrite keys_sent_typing. simpl. apply append_empty.
    + simpl in Hev. apply andb_true_iff in Hev as [Hn Hev].
      destruct ev; try discriminate; exact (IH Hev).
Qed.

Lemma colgate_probe_types_the_email_witness :
  let w := example_world 34 ms_username_page ms_password_page in
  let s' := snd (Colgate.enter_email_and_submit w "jane.doe@x.edu" start) in
  Colgate.enter_email_and_submit w "jane.doe@x.edu" start = (Ok (Some true), s')
  /\ exists nav,
       forallb navigation_event nav = true
       /\ trace s' = trace start ++ nav ++ Clear :: typing "jane.doe@x.edu" ++ [SendReturn]
       /\ keys_sent (nav ++ Clear :: typing "jane.doe@x.edu" ++ [SendReturn])
          = "jane.doe@x.edu".
Proof.
  intros w s'.
  assert (H : Colgate.enter_email_and_submit w "jane.doe@x.edu" start = (Ok (Some true), s'))
    by (vm_compute; reflexivity).
  split; [exact H|].
  exact (colgate_probe_types_the_email w "jane.doe@x.edu" start s' true H).
Defined.

(** ** Candidates the Google validator leaves alone *)

(** Two ways to the verdict [None] in which the Google validator types
    nothing more: when the sign-in page cannot be loaded, the probe has
    only asked for that page; when the answer to the identifier is a
    page of a SAML or SSO redirect, the probe pauses, reads the address
    of the page and stops, so no password is typed into the page of a
    third party, whatever that page shows. *)
Theorem google_unknown_without_typing (w : world) (email : string) :
  (forall (s : state) (e : exn),
      fault_at w (clock s) = Some e ->
      isinstance e CWebDriverException = true ->
      Google.validate_email_google w email s
      = (Ok None, advance [Get Google.GOOGLE_SIGNIN_URL] s))
  /\ (forall (s0 s1 : state),
        Google.submit_identifier w email s0 = (Ok true, s1) ->
        calm w (clock s1) (fun p => g_saml p = true) ->
        exists s2, Google.validate_email_google w email s0 = (Ok None, s2)
                   /\ trace s2 = trace s1 ++ [Sleep 1200]).
Proof.
  split.
  - intros s e Hfault Hclass.
    unfold Google.validate_email_google, Google.submit_identifier, bind, try_except,
      driver_get, call.
    rewrite Hfault, Hclass. reflexivity.
  - intros s0 s1 Hsub Hcalm.
    unfold Google.validate_email_google. rewrite (bind_ok _ _ _ _ _ Hsub). cbn [negb].
    unfold bind at 1. rewrite (sleep_ok 1200 s1 eq_refl).
    unfold Google.classify_response. unfold bind at 1.
    unfold Google.is_saml_flow, bind, driver_current_url, call, ret.
    destruct (Hcalm (clock (advance [Sleep 1200] s1))) as [Hf Hp]; [simpl; lia|].
    rewrite Hf. unfold g_saml in Hp. cbv zeta in Hp. rewrite Hp.
    eexists. split; [reflexivity|]. simpl. rewrite app_nil_r. reflexivity.
Qed.

Lemma google_unknown_without_typing_witness :
  (let w := faulty_world 26 g_identifier_page g_blank_page 0 WebDriverException in
   fault_at w (clock start) = Some WebDriverException
   /\ isinstance WebDriverException CWebDriverException = true
   /\ Google.validate_email_google w "jane.doe@x.edu" start
      = (Ok None, advance [Get Google.GOOGLE_SIGNIN_URL] start))
  /\ (let w := example_world 24 g_identifier_page g_sso_error_password_page in
      let s1 := snd (Google.submit_identifier w "jane.doe@x.edu" start) in
      Google.submit_identifier w "jane.doe@x.edu" start = (Ok true, s1)
      /\ calm w (clock s1) (fun p => g_saml p = true)
      /\ exists s2, Google.validate_email_google w "jane.doe@x.edu" start = (Ok None, s2)
                    /\ trace s2 = trace s1 ++ [Sleep 1200]).
Proof.
  split.
  - intros w.
    assert (H1 : fault_at w (clock start) = Some WebDriverException) by reflexivity.
    assert (H2 : isinstance WebDriverException CWebDriverException = true) by reflexivity.
    split; [exact H1|]. split; [exact H2|].
    exact (proj1 (google_unknown_without_typing w "jane.doe@x.edu") start
             WebDriverException H1 H2).
  - intros w s1.
    assert (H1 : Google.submit_identifier w "jane.doe@x.edu" start = (Ok true, s1))
      by (vm_compute; reflexivity).
    assert (H2 : calm w (clock s1) (fun p => g_saml p = true)).
    { assert (Hc : clock s1 = 24) by (vm_compute; reflexivity).
      rewrite Hc. intros t Ht. split; [reflexivity|]. unfold w.
      rewrite example_world_after by exact Ht. vm_compute. reflexivity. }
    split; [exact H1|]. split; [exact H2|].
    exact (proj2 (google_unknown_without_typing w "jane.doe@x.edu") start s1 H1 H2).
Defined.

(** * The permutation generators *)

(** ** The local part after the cleaning *)

Section Classes.
Variable cls : ascii -> bool.

Lemma str_filter_forall (s : string) : str_forall cls (str_filter cls s) = true.
Proof.
  induction s as [|c s IH]; simpl; [reflexivity|].
  destruct (cls c) eqn:Hc; simpl; [rewrite Hc|]; exact IH.
Qed.

Lemma str_filter_id (s : string) : str_forall cls s = true -> str_filter cls s = s.
Proof.
  induction s as [|c s IH]; simpl; [reflexivity|]. intros H.
  apply andb_true_iff in H as [-> H]. rewrite (IH H). reflexivity.
Qed.

Lemma collapse_runs_forall (P : ascii -> bool) (b : bool) (s : string) :
  str_forall P s = true -> str_forall P (collapse_runs cls b s) = true.
Proof.
  revert b. induction s as [|c s IH]; intros b; simpl; [reflexivity|]. intros H.
  apply andb_true_iff in H as [Hc H].
  destruct (cls c); [destruct b|]; simpl; rewrite ?Hc; simpl; apply IH; exact H.
Qed.

Lemma collapse_runs_head (s : string) : head_in cls (collapse_runs cls true s) = false.
Proof.
  induction s as [|c s IH]; simpl; [reflexivity|].
  destruct (cls c) eqn:Hc; [exact IH|]. simpl. exact Hc.
Qed.

Lemma collapse_runs_no_double (b : bool) (s : string) :
  no_double cls (collapse_runs cls b s) = true.
Proof.
  revert b. induction s as [|c s IH]; intros b; simpl; [reflexivity|].
  destruct (cls c) eqn:Hc; [destruct b|]; simpl; rewrite ?IH, ?Hc, ?collapse_runs_head;
    auto.
Qed.

Lemma collapse_runs_id (b : bool) (s : string) :
  no_double cls s = true -> (b = true -> head_in cls s = false) ->
  collapse_runs cls b s = s.
Proof.
  revert b. induction s as [|c s IH]; intros b; simpl; [reflexivity|]. intros H Hb.
  apply andb_true_iff in H as [Hc H]. destruct (cls c) eqn:Hcls.
  - destruct b; [specialize (Hb eq_refl); discriminate|].
    rewrite IH; [reflexivity|exact H|]. intros _. simpl in Hc.
    destruct (head_in cls s); [discriminate|reflexivity].
  - rewrite IH; [reflexivity|exact H|discriminate].
Qed.

Lemma lstrip_chars_forall (P : ascii -> bool) (s : string) :
  str_forall P s = true -> str_forall P (lstrip_chars cls s) = true.
Proof.
  induction s as [|c s IH]; simpl; [reflexivity|]. intros H.
  destruct (cls c); [|exact H]. apply andb_true_iff in H as [_ H]. exact (IH H).
Qed.

Lemma lstrip_chars_no_double (s : string) :
  no_double cls s = true -> no_double cls (lstrip_chars cls s) = true.
Proof.
  induction s as [|c s IH]; simpl; [reflexivity|]. intros H.
  destruct (cls c) eqn:Hc; [|simpl; rewrite Hc; exact H].
  apply andb_true_iff in H as [_ H]. exact (IH H).
Qed.

Lemma lstrip_chars_head (s : string) : head_in cls (lstrip_chars cls s) = false.
Proof.
  induction s as [|c s IH]; simpl; [reflexivity|].
  destruct (cls c) eqn:Hc; [exact IH|]. simpl. exact Hc.
Qed.

Lemma lstrip_chars_id (s : string) : head_in cls s = false -> lstrip_chars cls s = s.
Proof. destruct s as [|c s]; simpl; [reflexivity|]. intros ->. reflexivity. Qed.

Lemma rstrip_chars_forall (P : ascii -> bool) (s : string) :
  str_forall P s = true -> str_forall P (rstrip_chars cls s) = true.
Proof.
  induction s as [|c s IH]; simpl; [reflexivity|]. intros H.
  apply andb_true_iff in H as [Hc H]. specialize (IH H).
  destruct (rstrip_chars cls s) as [|c' r].
  - destruct (cls c); simpl; rewrite ?Hc; reflexivity.
  - simpl in *. rewrite Hc. exact IH.
Qed.

Lemma rstrip_chars_head (s : string) :
  head_in cls s = false -> head_in cls (rstrip_chars cls s) = false.
Proof.
  destruct s as [|c s]; simpl; [reflexivity|]. intros Hc.
  destruct (rstrip_chars cls s); [rewrite Hc|]; simpl; auto.
Qed.

Lemma rstrip_chars_head_of (s : string) :
  head_in cls (rstrip_chars cls s) = true -> head_in cls s = true.
Proof.
  intros H. destruct (head_in cls s) eqn:Hs; [reflexivity|].
  rewrite (rstrip_chars_head s Hs) in H. discriminate.
Qed.

Lemma rstrip_chars_no_double (s : string) :
  no_double cls s = true -> no_double cls (rstrip_chars cls s) = true.
Proof.
  induction s as [|c s IH]; simpl; [reflexivity|]. intros H.
  apply andb_true_iff in H as [Hc H]. specialize (IH H).
  destruct (rstrip_chars cls s) as [|c' r] eqn:Hr.
  - destruct (cls c); simpl; rewrite ?andb_false_r; reflexivity.
  - change (negb (cls c && head_in cls (String c' r)) && no_double cls (String c' r) = true).
    rewrite IH, andb_true_r. destruct (cls c) eqn:Hcc; [|reflexivity].
    destruct (head_in cls (String c' r)) eqn:Hh; [|reflexivity].
    rewrite <- Hr in Hh. apply rstrip_chars_head_of in Hh. rewrite Hh in Hc. discriminate.
Qed.

Lemma rstrip_chars_last (s : string) : last_in cls (rstrip_chars cls s) = false.
Proof.
  induction s as [|c s IH]; simpl; [reflexivity|].
  destruct (rstrip_chars cls s) as [|c' r] eqn:Hr.
  - destruct (cls c) eqn:Hc; simpl; [reflexivity|exact Hc].
  - change (last_in cls (String c' r) = false). exact IH.
Qed.

Lemma rstrip_chars_id (s : string) : last_in cls s = false -> rstrip_chars cls s = s.
Proof.
  induction s as [|c s IH]; simpl; [reflexivity|]. intros H.
  destruct s as [|c' s].
  - simpl. rewrite H. reflexivity.
  - rewrite (IH H). reflexivity.
Qed.
End Classes.

(** What the cleaning leaves is empty or well formed. *)
Lemma clean_local_part_well_formed (local_part : string) :
  truthy (clean_local_part local_part) = true ->
  well_formed_local (clean_local_part local_part) = true.
Proof.
  intros Ht. unfold well_formed_local. rewrite Ht. unfold clean_local_part, strip_chars.
  cbv zeta. rewrite rstrip_chars_last.
  rewrite rstrip_chars_head by apply lstrip_chars_head.
  rewrite rstrip_chars_no_double
    by (apply lstrip_chars_no_double, collapse_runs_no_double).
  rewrite rstrip_chars_forall
    by (apply lstrip_chars_forall, collapse_runs_forall, str_filter_forall).
  reflexivity.
Qed.

(** The cleaning leaves a well-formed local part as it is. *)
Lemma clean_local_part_id (lp : string) :
  well_formed_local lp = true -> clean_local_part lp = lp.
Proof.
  unfold well_formed_local. intros H.
  apply andb_true_iff in H as [H Hlast]. apply andb_true_iff in H as [H Hhead].
  apply andb_true_iff in H as [H Hnd]. apply andb_true_iff in H as [_ Hall].
  apply negb_true_iff in Hlast, Hhead.
  unfold clean_local_part, strip_chars. cbv zeta.
  rewrite (str_filter_id _ _ Hall).
  rewrite (collapse_runs_id _ false lp Hnd) by discriminate.
  rewrite (lstrip_chars_id _ _ Hhead). apply rstrip_chars_id. exact Hlast.
Qed.

Lemma add_variants_elem (domain : string) (variants : list string) (e : string) :
  e ∈ add_variants domain variants <->
  exists v, In v variants /\ truthy (clean_local_part v) = true
            /\ e = clean_local_part v +:+ "@" +:+ domain.
Proof.
  unfold add_variants.
  assert (Hgen : forall acc : gset string,
    e ∈ foldl (fun candidates local_part =>
                 let lp := clean_local_part local_part in
                 if truthy lp then candidates ∪ {[ lp +:+ "@" +:+ domain ]} else candidates)
              acc variants
    <-> e ∈ acc \/ exists v, In v variants /\ truthy (clean_local_part v) = true
                            /\ e = clean_local_part v +:+ "@" +:+ domain).
  { induction variants as [|v vs IH]; intros acc; simpl.
    - split; [auto|]. intros [H|(v & [] & _)]. exact H.
    - rewrite IH. cbv zeta. destruct (truthy (clean_local_part v)) eqn:Ht.
      + rewrite elem_of_union, elem_of_singleton. split.
        * intros [[H| ->]|(v' & Hin & Ht' & He)]; eauto 7.
        * intros [H|(v' & [<-|Hin] & Ht' & He)]; eauto 7.
      + split.
        * intros [H|(v' & Hin & Ht' & He)]; eauto 7.
        * intros [H|(v' & [<-|Hin] & Ht' & He)]; [auto|congruence|eauto 7]. }
  rewrite Hgen. split; [intros [H|H]; [set_solver|exact H]|auto].
Qed.

Lemma add_variants_address (domain : string) (variants : list string) (e : string) :
  e ∈ add_variants domain variants -> address_at domain e.
Proof.
  rewrite add_variants_elem. intros (v & _ & Ht & ->).
  exists (clean_local_part v). split; [reflexivity|].
  apply clean_local_part_well_formed, Ht.
Qed.

Lemma generic_address (first last : option string) (domain e : string) :
  e ∈ PermuteGeneric.generate_permutations first last domain -> address_at domain e.
Proof.
  unfold PermuteGeneric.generate_permutations.
  destruct (_ && _); [set_solver|]. cbv zeta. apply add_variants_address.
Qed.

Lemma pepperdine_address (first last : option string) (mode e : string) :
  e ∈ PermutePepperdine.generate_permutations first last mode ->
  address_at PermutePepperdine.PEPPERDINE_DOMAIN e.
Proof.
  unfold PermutePepperdine.generate_permutations.
  destruct (_ && _); [set_solver|]. cbv zeta. apply add_variants_address.
Qed.

(** Every address the two generators propose is a well-formed local
    part, [@], and the domain: lower-case letters, digits and single
    separators, with a letter or a digit at both ends, whatever the
    names given. *)
Theorem generated_addresses_are_well_formed (first last : option string) (e : string) :
  (forall domain : string,
      e ∈ PermuteGeneric.generate_permutations first last domain ->
      exists lp, e = lp +:+ "@" +:+ domain /\ well_formed_local lp = true)
  /\ (forall mode : string,
        e ∈ PermutePepperdine.generate_permutations first last mode ->
        exists lp, e = lp +:+ "@" +:+ PermutePepperdine.PEPPERDINE_DOMAIN
                   /\ well_formed_local lp = true).
Proof.
  split.
  - intros domain H. exact (generic_address first last domain e H).
  - intros mode H. exact (pepperdine_address first last mode e H).
Qed.

Lemma generated_addresses_are_well_formed_witness :
  let e := "j.a.eil@x.edu" in
  (e ∈ PermuteGeneric.generate_permutations (Some "j.-a") (Some "O'Neil") "x.edu"
   /\ exists lp, e = lp +:+ "@" +:+ "x.edu" /\ well_formed_local lp = true)
  /\ (let e := "doe_jane@pepperdine.edu" in
      e ∈ PermutePepperdine.generate_permutations (Some "_doe__") (Some "jane-") "broad"
      /\ exists lp, e = lp +:+ "@" +:+ PermutePepperdine.PEPPERDINE_DOMAIN
                    /\ well_formed_local lp = true).
Proof.
  intros e. split.
  - assert (H : e ∈ PermuteGeneric.generate_permutations (Some "j.-a") (Some "O'Neil")
                      "x.edu")
      by (apply (bool_decide_unpack _); vm_compute; exact I).
    split; [exact H|].
    exact (proj1 (generated_addresses_are_well_formed (Some "j.-a") (Some "O'Neil") e)
             "x.edu" H).
  - intros e'.
    assert (H : e' ∈ PermutePepperdine.generate_permutations (Some "_doe__") (Some "jane-")
                       "broad")
      by (apply (bool_decide_unpack _); vm_compute; exact I).
    split; [exact H|].
    exact (proj2 (generated_addresses_are_well_formed (Some "_doe__") (Some "jane-") e')
             "broad" H).
Defined.

(** ** The patterns of a name *)

Lemma letter_not_separator (c : ascii) : is_lower_letter c = true -> is_separator c = false.
Proof.
  destruct c as [[] [] [] [] [] [] [] []]; vm_compute; intros H; try reflexivity;
    discriminate.
Qed.

Lemma str_forall_app (P : ascii -> bool) (a b : string) :
  str_forall P (a +:+ b) = str_forall P a && str_forall P b.
Proof.
  induction a as [|c a IH]; [reflexivity|].
  change (P c && str_forall P (a +:+ b) = P c && str_forall P a && str_forall P b).
  rewrite IH, andb_assoc. reflexivity.
Qed.

Lemma str_forall_weaken (P Q : ascii -> bool) (s : string) :
  (forall c, P c = true -> Q c = true) -> str_forall P s = true -> str_forall Q s = true.
Proof.
  intros HPQ. induction s as [|c s IH]; simpl; [reflexivity|]. intros H.
  apply andb_true_iff in H as [Hc H]. rewrite (HPQ c Hc), (IH H). reflexivity.
Qed.

Lemma str_forall_first (P : ascii -> bool) (s : string) :
  str_forall P s = true -> str_forall P (str_first s) = true.
Proof.
  destruct s as [|c s]; simpl; [reflexivity|]. intros H.
  apply andb_true_iff in H as [-> _]. reflexivity.
Qed.

Lemma last_in_app (cls : ascii -> bool) (a b : string) :
  truthy b = true -> last_in cls (a +:+ b) = last_in cls b.
Proof.
  intros Hb. induction a as [|c a IH]; [reflexivity|].
  change (last_in cls (String c (a +:+ b)) = last_in cls b). simpl.
  destruct (a +:+ b) as [|c' r] eqn:Hab; [|exact IH].
  destruct a; [|discriminate]. change (b = "") in Hab. rewrite Hab in Hb. discriminate.
Qed.

Section Letters.
Variable s : string.
Hypothesis Hs : str_forall is_lower_letter s = true.

Lemma letters_local : str_forall is_local_char s = true.
Proof.
  apply (str_forall_weaken is_lower_letter); [|exact Hs].
  intros c Hc. unfold is_local_char. rewrite Hc. reflexivity.
Qed.

Lemma letters_head : head_in is_separator s = false.
Proof.
  destruct s as [|c r]; [reflexivity|]. simpl in *.
  apply andb_true_iff in Hs as [Hc _]. apply letter_not_separator, Hc.
Qed.
End Letters.

Lemma letters_last (s : string) :
  str_forall is_lower_letter s = true -> last_in is_separator s = false.
Proof.
  induction s as [|c s IH]; simpl; [reflexivity|]. intros H.
  apply andb_true_iff in H as [Hc H]. destruct s; [apply letter_not_separator, Hc|auto].
Qed.

Lemma letters_no_double (s rest : string) :
  str_forall is_lower_letter s = true ->
  no_double is_separator (s +:+ rest) = no_double is_separator rest.
Proof.
  induction s as [|c s IH]; [reflexivity|]. simpl. intros H.
  apply andb_true_iff in H as [Hc H].
  change (negb (is_separator c && head_in is_separator (s +:+ rest))
          && no_double is_separator (s +:+ rest) = no_double is_separator rest).
  rewrite (letter_not_separator c Hc), (IH H). reflexivity.
Qed.

(** A word of lower-case letters is a well-formed local part, and so
    are two of them with a dot in between. *)
Lemma letters_well_formed (s : string) :
  truthy s = true -> str_forall is_lower_letter s = true -> well_formed_local s = true.
Proof.
  intros Ht Hs. unfold well_formed_local.
  rewrite Ht, (letters_local s Hs), (letters_head s Hs), (letters_last s Hs).
  rewrite <- (append_empty s) at 1. rewrite (letters_no_double s "" Hs). reflexivity.
Qed.

Lemma dotted_well_formed (a b : string) :
  truthy a = true -> truthy b = true ->
  str_forall is_lower_letter a = true -> str_forall is_lower_letter b = true ->
  well_formed_local (a +:+ "." +:+ b) = true.
Proof.
  intros Hta Htb Ha Hb. unfold well_formed_local.
  assert (Ht : truthy (a +:+ "." +:+ b) = true) by (destruct a; [discriminate|reflexivity]).
  assert (Hall : str_forall is_local_char (a +:+ "." +:+ b) = true).
  { rewrite !str_forall_app, (letters_local a Ha), (letters_local b Hb). reflexivity. }
  assert (Hnd : no_double is_separator (a +:+ "." +:+ b) = true).
  { rewrite (letters_no_double a _ Ha).
    change (negb (true && head_in is_separator b) && no_double is_separator b = true).
    rewrite (letters_head b Hb). rewrite <- (append_empty b).
    rewrite (letters_no_double b "" Hb). reflexivity. }
  assert (Hh : head_in is_separator (a +:+ "." +:+ b) = false).
  { destruct a as [|c a]; [discriminate|]. apply (letters_head (String c a) Ha). }
  assert (Hl : last_in is_separator (a +:+ "." +:+ b) = false).
  { rewrite last_in_app by reflexivity.
    change (last_in is_separator (String "." b) = false).
    destruct b as [|c b]; [discriminate|]. apply (letters_last (String c b) Hb). }
  rewrite Ht, Hall, Hnd, Hh, Hl. reflexivity.
Qed.

Lemma add_variants_clean (domain v1 v2 v3 v4 : string) :
  well_formed_local v1 = true -> well_formed_local v2 = true ->
  well_formed_local v3 = true -> well_formed_local v4 = true ->
  add_variants domain [v1; v2; v3; v4]
  = {[ v1 +:+ "@" +:+ domain; v2 +:+ "@" +:+ domain; v3 +:+ "@" +:+ domain;
       v4 +:+ "@" +:+ domain ]}.
Proof.
  intros H1 H2 H3 H4. unfold add_variants. simpl.
  rewrite !clean_local_part_id by assumption.
  assert (Ht : forall v, well_formed_local v = true -> truthy v = true).
  { intros v H. unfold well_formed_local in H. destruct (truthy v); [reflexivity|].
    discriminate. }
  rewrite (Ht v1 H1), (Ht v2 H2), (Ht v3 H3), (Ht v4 H4). set_solver.
Qed.

Lemma generate_four_patterns (f l domain : string) :
  truthy f = true -> truthy l = true ->
  str_forall is_lower_letter f = true -> str_forall is_lower_letter l = true ->
  PermuteGeneric.generate_permutations (Some f) (Some l) domain = four_patterns f l domain.
Proof.
  intros Htf Htl Hf Hl. unfold PermuteGeneric.generate_permutations, four_patterns.
  cbn [or_empty]. rewrite Htf, Htl. cbn [negb andb].
  apply add_variants_clean.
  - apply dotted_well_formed; assumption.
  - apply letters_well_formed; [destruct f; [discriminate|reflexivity]|].
    rewrite str_forall_app, (str_forall_first _ _ Hf), Hl. reflexivity.
  - apply letters_well_formed; [destruct f; [discriminate|reflexivity]|].
    rewrite str_forall_app, (str_forall_first _ _ Hl), Hf. reflexivity.
  - apply letters_well_formed; [destruct f; [discriminate|reflexivity]|].
    rewrite str_forall_app, Hf, Hl. reflexivity.
Qed.

Lemma normalize_token_letters (u : string -> string) (token : string) :
  str_forall is_lower_letter (PermuteGeneric.normalize_token u token) = true.
Proof. apply str_filter_forall. Qed.

Lemma split_name_letters (u : string -> string) (full_name_raw : string) (f l : string) :
  PermuteGeneric.split_name u full_name_raw = (Some f, Some l) ->
  (truthy f = true /\ str_forall is_lower_letter f = true)
  /\ (truthy l = true /\ str_forall is_lower_letter l = true).
Proof.
  unfold PermuteGeneric.split_name. destruct (negb _); [discriminate|]. cbv zeta.
  destruct (str_split _) as [|p0 [|p1 ps]]; [discriminate| |].
  - destruct (truthy _); discriminate.
  - destruct (truthy (PermuteGeneric.normalize_token u p0)) eqn:H0; [|discriminate].
    destruct (truthy (PermuteGeneric.normalize_token u (List.last (p0 :: p1 :: ps) "")))
      eqn:H1; [|discriminate].
    intros [= <- <-]. split; (split; [assumption|apply normalize_token_letters]).
Qed.

(** The generic generator on the name [split_name] makes of a full
    name: when the name has a first and a last part, the addresses
    proposed are exactly the four patterns first.last, flast, firstl
    and firstlast at the domain, whatever the transliteration. *)
Theorem generic_permutations_of_a_name (unidecode : string -> string)
    (full_name_raw domain f l : string) :
  PermuteGeneric.split_name unidecode full_name_raw = (Some f, Some l) ->
  PermuteGeneric.generate_permutations (Some f) (Some l) domain = four_patterns f l domain.
Proof.
  intros H. apply split_name_letters in H as [[Htf Hf] [Htl Hl]].
  apply generate_four_patterns; assumption.
Qed.

Lemma generic_permutations_of_a_name_witness :
  PermuteGeneric.split_name id "Jane  van_der Doe-Smith, Jr." = (Some "jane", Some "jr")
  /\ PermuteGeneric.generate_permutations (Some "jane") (Some "jr") "colgate.edu"
     = four_patterns "jane" "jr" "colgate.edu".
Proof.
  assert (H : PermuteGeneric.split_name id "Jane  van_der Doe-Smith, Jr."
              = (Some "jane", Some "jr")) by (vm_compute; reflexivity).
  split; [exact H|].
  exact (generic_permutations_of_a_name id "Jane  van_der Doe-Smith, Jr." "colgate.edu"
           "jane" "jr" H).
Defined.

(** ** How many addresses a person gets *)

Lemma add_variants_size (domain : string) (variants : list string) :
  size (add_variants domain variants) <= length variants.
Proof.
  unfold add_variants.
  assert (Hgen : forall acc : gset string,
    size (foldl (fun candidates local_part =>
                   let lp := clean_local_part local_part in
                   if truthy lp then candidates ∪ {[ lp +:+ "@" +:+ domain ]} else candidates)
                acc variants) <= size acc + length variants).
  { induction variants as [|v vs IH]; intros acc; simpl; [lia|].
    etransitivity; [apply IH|]. destruct (truthy _); [|lia].
    rewrite size_union_alt.
    assert (H1 : size (({[clean_local_part v +:+ "@" +:+ domain]} : gset string) ∖ acc) <= 1).
    { rewrite <- (size_singleton (C := gset string)
                    (clean_local_part v +:+ "@" +:+ domain)).
      apply subseteq_size. set_solver. }
    lia. }
  specialize (Hgen ∅). rewrite size_empty in Hgen. exact Hgen.
Qed.

Lemma generic_size (first last : option string) (domain : string) :
  size (PermuteGeneric.generate_permutations first last domain) <= 4.
Proof.
  unfold PermuteGeneric.generate_permutations.
  destruct (_ && _); [rewrite size_empty; lia|]. cbv zeta.
  etransitivity; [apply add_variants_size|].
  destruct (truthy (or_empty first)), (truthy (or_empty last)); simpl; lia.
Qed.

Lemma pepperdine_size (first last : option string) (mode : string) :
  size (PermutePepperdine.generate_permutations first last mode) <= per_person mode.
Proof.
  unfold PermutePepperdine.generate_permutations, per_person.
  destruct (_ && _); [rewrite size_empty; destruct (String.eqb mode "broad"); lia|].
  cbv zeta. etransitivity; [apply add_variants_size|].
  destruct (truthy (or_empty first)), (truthy (or_empty last)),
    (String.eqb mode "broad"); simpl; lia.
Qed.

Lemma add_variants_mono (domain : string) (vs ws : list string) :
  (forall v, In v vs -> In v ws) -> add_variants domain vs ⊆ add_variants domain ws.
Proof.
  intros H e. rewrite !add_variants_elem. intros (v & Hv & Ht & ->).
  exists v. auto.
Qed.

(** The generic generator proposes at most four addresses for a
    person; the Pepperdine one at most four, and nine in the mode
    [broad], which proposes every address of any other mode; in the
    mode [strict] it is the generic generator at the Pepperdine
    domain. *)
Theorem generators_are_bounded (first last : option string) (domain mode : string) :
  size (PermuteGeneric.generate_permutations first last domain) <= 4
  /\ size (PermutePepperdine.generate_permutations first last mode) <= per_person mode
  /\ PermutePepperdine.generate_permutations first last mode
     ⊆ PermutePepperdine.generate_permutations first last "broad"
  /\ PermutePepperdine.generate_permutations first last "strict"
     = PermuteGeneric.generate_permutations first last PermutePepperdine.PEPPERDINE_DOMAIN.
Proof.
  split; [apply generic_size|]. split; [apply pepperdine_size|]. split.
  - unfold PermutePepperdine.generate_permutations.
    destruct (_ && _); [set_solver|]. cbv zeta. apply add_variants_mono.
    intros v. change (String.eqb "broad" "broad") with true.
    destruct (truthy (or_empty first) && truthy (or_empty last)).
    + rewrite !in_app_iff. intros [H|H]; [left; exact H|].
      destruct (String.eqb mode "broad"); [right; exact H|destruct H].
    + rewrite !in_app_iff. intros [H|H]; [left; exact H|].
      destruct (truthy (or_empty last)); simpl in *; [|destruct H].
      destruct (String.eqb mode "broad"); simpl in *; [right; exact H|destruct H].
  - unfold PermutePepperdine.generate_permutations, PermuteGeneric.generate_permutations.
    change (String.eqb "strict" "broad") with false.
    destruct (_ && _); [reflexivity|]. cbv zeta.
    destruct (truthy (or_empty first) && truthy (or_empty last)).
    + rewrite app_nil_r. reflexivity.
    + rewrite andb_false_r, app_nil_r. reflexivity.
Qed.

(** ** The loop of [main] *)

Section PeopleLoopLemmas.
Variable name_of : string -> string -> option string * option string.
Variable generate : option string -> option string -> gset string.
Variable set_order : nat -> gset string -> list string.
Variable limit : Z.
Variable k : nat.
Hypothesis set_order_elements : forall n X, set_order n X ≡ₚ elements X.
Hypothesis generate_size : forall first last, size (generate first last) <= k.

Lemma add_emails_cons (full_name username email : string) (emails : list string)
    (p : people) (b : bool) :
  add_emails full_name username (email :: emails) (p, b)
  = add_emails full_name username emails
      (if bool_decide (email ∈ unique_emails p) then (p, b)
       else ({| unique_emails := unique_emails p ∪ {[ email ]};
                output_rows := output_rows p ++ [(full_name, username, email)];
                processed_people := processed_people p |}, true)).
Proof. reflexivity. Qed.

(** The addresses of one person: the new ones are added, in order. *)
Lemma add_emails_spec (full_name username : string) (emails : list string) :
  forall (p : people) (b : bool),
  exists new,
    let '(p', b') := add_emails full_name username emails (p, b) in
    output_rows p' = output_rows p ++ map (fun e => (full_name, username, e)) new
    /\ unique_emails p' = unique_emails p ∪ list_to_set new
    /\ processed_people p' = processed_people p
    /\ new `sublist_of` emails
    /\ NoDup new
    /\ (forall e, In e new -> e ∉ unique_emails p)
    /\ (b' = false -> new = [])
    /\ (b = true -> b' = true).
Proof.
  induction emails as [|email emails IH]; intros p b.
  - exists []. simpl. rewrite app_nil_r.
    repeat split; auto; try set_solver. apply NoDup_nil_2.
  - rewrite add_emails_cons. case_bool_decide as Hin.
    + destruct (IH p b) as (new & H). exists new.
      destruct (add_emails full_name username emails (p, b)) as [p' b'].
      destruct H as (H1 & H2 & H3 & H4 & H5 & H6 & H7 & H8).
      repeat split; auto. apply sublist_cons, H4.
    + destruct (IH {| unique_emails := unique_emails p ∪ {[ email ]};
                      output_rows := output_rows p ++ [(full_name, username, email)];
                      processed_people := processed_people p |} true) as (new & H).
      exists (email :: new).
      destruct (add_emails full_name username emails _) as [p' b'].
      cbn [unique_emails output_rows processed_people] in H.
      destruct H as (H1 & H2 & H3 & H4 & H5 & H6 & H7 & H8).
      split; [rewrite H1, <- app_assoc; reflexivity|].
      split; [rewrite H2; set_solver|].
      split; [exact H3|].
      split; [apply sublist_skip, H4|].
      split.
      { apply NoDup_cons_2; [|exact H5]. intros He.
        apply (H6 email); [apply list_elem_of_In, He|set_solver]. }
      split.
      { intros e [<-|He]; [exact Hin|]. specialize (H6 e He). set_solver. }
      split; [intros Hb; rewrite (H8 eq_refl) in Hb; discriminate|].
      intros _. apply H8. reflexivity.
Qed.

Lemma people_inv_step (items : list item) (n : nat) (full_name username : string)
    (p : people) :
  In (Yield full_name username) items ->
  people_inv name_of generate limit k items p ->
  negb (limit =? 0)%Z && (limit <=? processed_people p)%Z = false ->
  forall p' b',
  add_emails full_name username
    (set_order n (generate (fst (name_of full_name username))
                    (snd (name_of full_name username)))) (p, false) = (p', b') ->
  people_inv name_of generate limit k items
    (if b'
     then {| unique_emails := unique_emails p'; output_rows := output_rows p';
             processed_people := (processed_people p' + 1)%Z |}
     else p').
Proof.
  intros Hy (Hnd & Hset & Hrows & Hpos & Hlen & Hlim & Hneg) Hgo p' b' Hadd.
  set (es := set_order n _) in Hadd.
  destruct (add_emails_spec full_name username es p false) as (new & H).
  rewrite Hadd in H. destruct H as (H1 & H2 & H3 & H4 & H5 & H6 & H7 & _).
  assert (Hes : length es <= k).
  { unfold es. rewrite set_order_elements. apply generate_size. }
  assert (Hnew : length new <= k) by (etransitivity; [apply sublist_length, H4|exact Hes]).
  assert (Hin : forall e, In e new ->
            e ∈ generate (fst (name_of full_name username))
                  (snd (name_of full_name username))).
  { intros e He. apply elem_of_elements. rewrite <- set_order_elements.
    apply (elem_of_sublist _ _ _ (proj2 (list_elem_of_In _ _) He) H4). }
  assert (Hmap : map snd (map (fun e : string => (full_name, username, e)) new) = new).
  { rewrite List.map_map. simpl. apply List.map_id. }
  assert (Hinv : NoDup (map snd (output_rows p'))
                 /\ (forall e, In e (map snd (output_rows p')) <-> e ∈ unique_emails p')
                 /\ (forall fn un e, In (fn, un, e) (output_rows p') ->
                       In (Yield fn un) items
                       /\ e ∈ generate (fst (name_of fn un)) (snd (name_of fn un)))).
  { rewrite H1, H2, List.map_app, Hmap. split; [|split].
    - apply NoDup_app. split; [exact Hnd|]. split; [|exact H5].
      intros e He1 He2. apply (H6 e); [apply list_elem_of_In, He2|].
      apply Hset, list_elem_of_In, He1.
    - intros e. rewrite in_app_iff, Hset, elem_of_union, elem_of_list_to_set.
      rewrite list_elem_of_In. reflexivity.
    - intros fn un e. rewrite in_app_iff, in_map_iff.
      intros [H|(e' & [= <- <- <-] & He')]; [apply Hrows, H|]. split; [exact Hy|].
      apply Hin, He'. }
  destruct Hinv as (I1 & I2 & I3).
  assert (Hlim' : (limit = 0 \/ processed_people p < limit)%Z) by lia.
  destruct b'.
  - unfold people_inv. cbn [unique_emails output_rows processed_people].
    split; [exact I1|]. split; [exact I2|]. split; [exact I3|].
    rewrite H3. split; [lia|]. split.
    { rewrite H1, length_app, length_map. lia. }
    split; [lia|]. intros Hl. specialize (Hneg Hl). lia.
  - rewrite (H7 eq_refl) in *. simpl in H1. rewrite app_nil_r in H1.
    unfold people_inv. split; [exact I1|]. split; [exact I2|]. split; [exact I3|].
    rewrite H3, H1. auto.
Qed.

Lemma people_loop_inv (items0 : list item) :
  forall (items : list item) (n : nat) (p p' : people),
  (forall i, In i items -> In i items0) ->
  people_inv name_of generate limit k items0 p ->
  people_loop name_of generate set_order limit n items p = inr p' ->
  people_inv name_of generate limit k items0 p'.
Proof.
  induction items as [|[full_name username|e] rest IH]; intros n p p' Hsub Hinv; simpl.
  - intros [= <-]. exact Hinv.
  - destruct (negb (limit =? 0)%Z && (limit <=? processed_people p)%Z) eqn:Hgo.
    { intros [= <-]. exact Hinv. }
    assert (Hrest : forall i, In i rest -> In i items0) by (intros i Hi; apply Hsub; right; exact Hi).
    destruct (negb (truthy full_name) && negb (truthy username)).
    { apply IH; assumption. }
    destruct (name_of full_name username) as [first last] eqn:Hname.
    destruct (negb (truthy (or_empty first)) && negb (truthy (or_empty last))).
    { apply IH; assumption. }
    destruct (add_emails full_name username (set_order n (generate first last)) (p, false))
      as [p1 b1] eqn:Hadd.
    apply IH; [exact Hrest|].
    apply (people_inv_step items0 n full_name username p); auto.
    + apply Hsub. left. reflexivity.
    + rewrite Hname. exact Hadd.
  - discriminate.
Qed.

Lemma people_inv_start (items : list item) :
  people_inv name_of generate limit k items
    {| unique_emails := ∅; output_rows := []; processed_people := 0 |}.
Proof.
  unfold people_inv. simpl. split; [apply NoDup_nil_2|]. split; [set_solver|].
  split; [intros ? ? ? []|]. repeat split; intros; lia || reflexivity.
Qed.

(** What [main] writes, for any input. *)
Lemma permute_main_output (input_csv out : file) :
  permute_main name_of generate set_order limit input_csv = inr out ->
  exists rows,
    out = permuted_records rows
    /\ NoDup (map snd rows)
    /\ (forall full_name username e,
          In (full_name, username, e) rows ->
          In (Yield full_name username) (read_rows input_csv)
          /\ e ∈ generate (fst (name_of full_name username))
                 (snd (name_of full_name username)))
    /\ ((0 < limit)%Z -> (Z.of_nat (length rows) <= Z.of_nat k * limit)%Z)
    /\ ((limit < 0)%Z -> rows = []).
Proof.
  unfold permute_main.
  destruct (people_loop _ _ _ _ _ _ _) as [e|p] eqn:Hloop; [discriminate|].
  intros [= <-]. exists (output_rows p).
  apply (people_loop_inv (read_rows input_csv)) in Hloop;
    [|auto|apply people_inv_start].
  destruct Hloop as (Hnd & _ & Hrows & Hpos & Hlen & Hlim & Hneg).
  split; [reflexivity|]. split; [exact Hnd|]. split; [exact Hrows|].
  split; [|exact Hneg]. intros Hl. specialize (Hlim Hl). nia.
Qed.
End PeopleLoopLemmas.

(** ** What [read_rows] yields *)

Lemma find_key_fold (names header : list string) :
  forall acc : option string,
  foldl (fun key k => if existsb (String.eqb (str_lower k)) names then Some k else key)
        acc header
  = match find_key names header with
    | Some k => Some k
    | None => acc
    end.
Proof.
  unfold find_key. induction header as [|k header IH]; intros acc; simpl; [reflexivity|].
  rewrite IH. rewrite (IH (if existsb _ names then Some k else None)).
  destruct (foldl _ None header); [reflexivity|]. destruct (existsb _ names); reflexivity.
Qed.

Lemma find_key_cons (names : list string) (k : string) (header : list string) :
  find_key names (k :: header)
  = match find_key names header with
    | Some k' => Some k'
    | None => if existsb (String.eqb (str_lower k)) names then Some k else None
    end.
Proof. unfold find_key at 1. simpl. apply find_key_fold. Qed.

Lemma find_key_none (names header : list string) :
  is_none (find_key names header) = negb (has_column names header).
Proof.
  induction header as [|k header IH]; [reflexivity|].
  rewrite find_key_cons. simpl. destruct (find_key names header).
  - simpl in IH. apply (f_equal negb) in IH. rewrite negb_involutive in IH. simpl in IH.
    rewrite <- IH, orb_true_r. reflexivity.
  - simpl in IH. apply (f_equal negb) in IH. rewrite negb_involutive in IH. simpl in IH.
    rewrite <- IH, orb_false_r. destruct (existsb _ names); reflexivity.
Qed.

Lemma find_key_matches (names header : list string) (k : string) :
  find_key names header = Some k -> existsb (String.eqb (str_lower k)) names = true.
Proof.
  induction header as [|k' header IH]; [discriminate|].
  rewrite find_key_cons. destruct (find_key names header); [exact IH|].
  destruct (existsb (String.eqb (str_lower k')) names) eqn:Hk; [|discriminate].
  intros [= <-]. exact Hk.
Qed.

Lemma find_key_truthy (names header : list string) :
  existsb (String.eqb "") names = false ->
  truthy (or_empty (find_key names header)) = has_column names header.
Proof.
  intros Hnames. pose proof (find_key_none names header) as Hn.
  destruct (find_key names header) as [k|] eqn:Hk; simpl in *.
  - apply find_key_matches in Hk. destruct k; [simpl in Hk; congruence|].
    simpl. destruct (has_column names header); [reflexivity|simpl in Hn; discriminate].
  - destruct (has_column names header); [simpl in Hn; discriminate|reflexivity].
Qed.

Lemma has_column_exact (names header : list string) (k : string) :
  existsb (String.eqb (str_lower k)) names = true ->
  existsb (String.eqb k) header = true -> has_column names header = true.
Proof.
  intros Hk H. apply existsb_exists in H as (k' & Hin & Heq).
  apply String.eqb_eq in Heq. subst k'. apply existsb_exists. exists k. auto.
Qed.

Lemma yield_rows_throw (g : record -> script_error + (string * string))
    (recs : list record) (e : script_error) :
  In (Throw e) (yield_rows g recs) -> exists rec, In rec recs /\ g rec = inl e.
Proof.
  induction recs as [|rec recs IH]; simpl; [intros []|].
  destruct (g rec) as [e'|[full_name username]] eqn:Hg.
  - intros [[= <-]|[]]. exists rec. auto.
  - intros [[=]|H]. destruct (IH H) as (rec' & Hin & Hg'). exists rec'. auto.
Qed.

Lemma yield_rows_throws (g : record -> script_error + (string * string))
    (recs : list record) (rec : record) (e : script_error) :
  In rec recs -> g rec = inl e -> exists e', In (Throw e') (yield_rows g recs).
Proof.
  induction recs as [|rec' recs IH]; simpl; [intros []|].
  intros Hin Hg. destruct (g rec') as [e'|[full_name username]] eqn:Hg'.
  - exists e'. left. reflexivity.
  - destruct Hin as [->|Hin]; [congruence|].
    destruct (IH Hin Hg) as (e' & He'). exists e'. right. exact He'.
Qed.

(** The cases of [read_rows]: by first and last name, no names, by
    full name. *)
Lemma read_rows_cases (input_csv : file) :
  let header := hd [] input_csv in
  let recs := List.filter nonblank (tail input_csv) in
  let full := has_column ["fullname"; "full_name"; "name"] header in
  let user := has_column ["username"; "user_name"; "handle"] header in
  (name_columns header = false /\ read_rows input_csv = [Throw EValueError])
  \/ (name_columns header = true /\ full = false
      /\ exists g, read_rows input_csv = yield_rows g recs
                   /\ forall rec, exists pair, g rec = inr pair)
  \/ (name_columns header = true /\ full = true
      /\ exists g, read_rows input_csv = yield_rows g recs
                   /\ forall rec,
                        if negb user && (length header <? length rec)%nat
                        then g rec = inl EAttributeError
                        else exists pair, g rec = inr pair).
Proof.
  intros header recs full user. unfold read_rows.
  change (match input_csv with [] => [] | fieldnames :: _ => fieldnames end) with header.
  fold recs.
  pose proof (find_key_none ["fullname"; "full_name"; "name"] header) as Hfull.
  pose proof (find_key_none ["username"; "user_name"; "handle"] header) as Huser.
  pose proof (find_key_none ["first_name"; "firstname"; "first"] header) as Hfirst.
  pose proof (find_key_none ["last_name"; "lastname"; "last"] header) as Hlast.
  rewrite !find_key_truthy by reflexivity.
  fold full in Hfull. fold user in Huser. fold full.
  unfold name_columns. fold full.
  set (first := has_column ["first_name"; "firstname"; "first"] header) in *.
  set (last := has_column ["last_name"; "lastname"; "last"] header) in *.
  rewrite Hfull, Hfirst, Hlast.
  destruct full eqn:Efull; cbn [negb andb orb].
  - right. right. split; [reflexivity|]. split; [reflexivity|].
    destruct (find_key ["fullname"; "full_name"; "name"] header) as [kf|] eqn:Hkf;
      [|discriminate].
    eexists. split; [reflexivity|]. intros rec. cbn [is_none andb orb negb].
    destruct (find_key ["username"; "user_name"; "handle"] header) as [ku|] eqn:Hku;
      cbn [is_none andb orb negb get_stripped].
    + assert (Hu : user = true)
        by (destruct user; [reflexivity|simpl in Huser; discriminate]).
      rewrite Hu. cbn [negb andb]. eexists. reflexivity.
    + assert (Hu : user = false)
        by (destruct user; [simpl in Huser; discriminate|reflexivity]).
      assert (Hno : existsb (String.eqb "username") header = false).
      { destruct (existsb (String.eqb "username") header) eqn:Hex; [|reflexivity].
        pose proof (has_column_exact ["username"; "user_name"; "handle"] header "username"
                      eq_refl Hex) as Hc.
        fold user in Hc. congruence. }
      rewrite Hno, Hu. cbn [negb andb get_stripped].
      destruct (length header <? length rec)%nat; [reflexivity|eexists; reflexivity].
  - destruct first eqn:Efirst, last eqn:Elast; cbn [negb andb orb].
    + right. left. split; [reflexivity|]. split; [reflexivity|].
      destruct (find_key ["first_name"; "firstname"; "first"] header) as [k1|];
        [|discriminate].
      destruct (find_key ["last_name"; "lastname"; "last"] header) as [k2|];
        [|discriminate].
      eexists. split; [reflexivity|]. intros rec. simpl.
      destruct (_ || _); eexists; reflexivity.
    + left. split; [reflexivity|].
      assert (Hno : existsb (String.eqb "fullName") header = false).
      { destruct (existsb (String.eqb "fullName") header) eqn:Hex; [|reflexivity].
        pose proof (has_column_exact ["fullname"; "full_name"; "name"] header "fullName"
                      eq_refl Hex) as Hc. fold full in Hc. congruence. }
      rewrite Hno. cbn [andb]. rewrite ?Hfull, ?Hfirst, ?Hlast. reflexivity.
    + left. split; [reflexivity|].
      assert (Hno : existsb (String.eqb "fullName") header = false).
      { destruct (existsb (String.eqb "fullName") header) eqn:Hex; [|reflexivity].
        pose proof (has_column_exact ["fullname"; "full_name"; "name"] header "fullName"
                      eq_refl Hex) as Hc. fold full in Hc. congruence. }
      rewrite Hno. cbn [andb]. rewrite ?Hfull, ?Hfirst, ?Hlast. reflexivity.
    + left. split; [reflexivity|].
      assert (Hno : existsb (String.eqb "fullName") header = false).
      { destruct (existsb (String.eqb "fullName") header) eqn:Hex; [|reflexivity].
        pose proof (has_column_exact ["fullname"; "full_name"; "name"] header "fullName"
                      eq_refl Hex) as Hc. fold full in Hc. congruence. }
      rewrite Hno. cbn [andb]. rewrite ?Hfull, ?Hfirst, ?Hlast. reflexivity.
Qed.

Section PeopleLoopErrors.
Variable name_of : string -> string -> option string * option string.
Variable generate : option string -> option string -> gset string.
Variable set_order : nat -> gset string -> list string.
Variable limit : Z.

Lemma people_loop_throw (items : list item) :
  forall (n : nat) (p : people) (e : script_error),
  people_loop name_of generate set_order limit n items p = inl e -> In (Throw e) items.
Proof.
  induction items as [|[full_name username|e'] rest IH]; intros n p e; simpl.
  - discriminate.
  - destruct (negb (limit =? 0)%Z && (limit <=? processed_people p)%Z); [discriminate|].
    destruct (negb (truthy full_name) && negb (truthy username)).
    { intros H. right. apply (IH _ _ _ H). }
    destruct (name_of full_name username) as [first last].
    destruct (negb (truthy (or_empty first)) && negb (truthy (or_empty last))).
    { intros H. right. apply (IH _ _ _ H). }
    destruct (add_emails _ _ _ _) as [p1 b1]. intros H. right. apply (IH _ _ _ H).
  - intros [= <-]. left. reflexivity.
Qed.

Lemma people_loop_reaches_throw (items : list item) (e : script_error) :
  limit = 0%Z -> In (Throw e) items ->
  forall (n : nat) (p : people),
  exists e', people_loop name_of generate set_order limit n items p = inl e'.
Proof.
  intros Hl.
  assert (Hgo : negb (limit =? 0)%Z = false) by (rewrite Hl; reflexivity).
  induction items as [|[full_name username|e'] rest IH]; intros Hin n p; simpl.
  - destruct Hin.
  - destruct Hin as [[=]|Hin]. rewrite Hgo. cbn [andb].
    destruct (negb (truthy full_name) && negb (truthy username)); [apply IH, Hin|].
    destruct (name_of full_name username) as [first last].
    destruct (negb (truthy (or_empty first)) && negb (truthy (or_empty last)));
      [apply IH, Hin|].
    destruct (add_emails _ _ _ _) as [p1 b1]. apply IH, Hin.
  - exists e'. reflexivity.
Qed.

Lemma permute_main_error (input_csv : file) (e : script_error) :
  permute_main name_of generate set_order limit input_csv = inl e <->
  people_loop name_of generate set_order limit 0 (read_rows input_csv)
    {| unique_emails := ∅; output_rows := []; processed_people := 0 |} = inl e.
Proof.
  unfold permute_main. destruct (people_loop _ _ _ _ _ _ _) as [e'|p].
  - split; intros [= ->]; reflexivity.
  - split; discriminate.
Qed.

Lemma permute_main_value_error (input_csv : file) :
  permute_main name_of generate set_order limit input_csv = inl EValueError <->
  name_columns (hd [] input_csv) = false.
Proof.
  rewrite permute_main_error.
  destruct (read_rows_cases input_csv)
    as [(Hn & Hr)|[(Hn & _ & g & Hr & Hg)|(Hn & _ & g & Hr & Hg)]]; rewrite Hn, Hr.
  - split; reflexivity.
  - split; [|discriminate]. intros H. apply people_loop_throw, yield_rows_throw in H.
    destruct H as (rec & _ & H). destruct (Hg rec) as (pair & Hp). congruence.
  - split; [|discriminate]. intros H. apply people_loop_throw, yield_rows_throw in H.
    destruct H as (rec & _ & H). specialize (Hg rec).
    destruct (negb _ && _); [congruence|]. destruct Hg as (pair & Hp). congruence.
Qed.

Lemma permute_main_attribute_error (input_csv : file) :
  (permute_main name_of generate set_order limit input_csv = inl EAttributeError ->
   overlong_record input_csv)
  /\ (limit = 0%Z -> overlong_record input_csv ->
      permute_main name_of generate set_order limit input_csv = inl EAttributeError).
Proof.
  rewrite permute_main_error. unfold overlong_record. cbv zeta.
  destruct (read_rows_cases input_csv)
    as [(Hn & Hr)|[(Hn & Hf & g & Hr & Hg)|(Hn & Hf & g & Hr & Hg)]]; rewrite Hr.
  - split.
    + simpl. discriminate.
    + intros _ (Hfull & _). unfold name_columns in Hn. rewrite Hfull in Hn. discriminate.
  - split.
    + intros H. apply people_loop_throw, yield_rows_throw in H.
      destruct H as (rec & _ & H). destruct (Hg rec) as (pair & Hp). congruence.
    + intros _ (Hfull & _). congruence.
  - split.
    + intros H. apply people_loop_throw, yield_rows_throw in H.
      destruct H as (rec & Hin & H). specialize (Hg rec).
      destruct (negb _ && _) eqn:Hc; [|destruct Hg as (pair & Hp); congruence].
      apply andb_true_iff in Hc as [Hu Hlen]. apply negb_true_iff in Hu.
      apply Nat.ltb_lt in Hlen. apply filter_In in Hin as [Hin _].
      split; [exact Hf|]. split; [exact Hu|]. exists rec. auto.
    + intros Hl (_ & Hu & rec & Hin & Hlen).
      assert (Hrec : In rec (List.filter nonblank (tail input_csv))).
      { apply filter_In. split; [exact Hin|]. destruct rec; [simpl in Hlen; lia|reflexivity]. }
      assert (Hgrec : g rec = inl EAttributeError).
      { specialize (Hg rec). rewrite Hu in Hg. apply Nat.ltb_lt in Hlen.
        rewrite Hlen in Hg. exact Hg. }
      destruct (yield_rows_throws g _ rec _ Hrec Hgrec) as (e1 & He1).
      destruct (people_loop_reaches_throw _ e1 Hl He1 0
                  {| unique_emails := ∅; output_rows := []; processed_people := 0 |})
        as (e2 & He2).
      rewrite He2. f_equal.
      apply people_loop_throw, yield_rows_throw in He2.
      destruct He2 as (rec' & _ & H'). specialize (Hg rec').
      destruct (negb _ && _); [congruence|]. destruct Hg as (pair & Hp). congruence.
Qed.
End PeopleLoopErrors.

(** ** The two scripts *)

(** [permute_emails_generic.py], [main]: the rows written are one
    address each; no address is written twice; every address was
    generated from the name of the row it stands in, read from the
    input, and is a well-formed local part at the domain asked for; a
    positive [--limit N] bounds the rows by four a person, a negative
    one leaves only the header. *)
Theorem generic_main_output (unidecode : string -> string)
    (set_order : nat -> gset string -> list string) (a : PermuteGeneric.args)
    (input_csv out : file) :
  (forall n X, set_order n X ≡ₚ elements X) ->
  PermuteGeneric.main unidecode set_order a input_csv = inr out ->
  exists rows,
    out = permuted_records rows
    /\ NoDup (map snd rows)
    /\ (forall full_name username e,
          In (full_name, username, e) rows ->
          In (Yield full_name username) (read_rows input_csv)
          /\ e ∈ PermuteGeneric.generate_permutations
                 (fst (PermuteGeneric.split_name unidecode full_name))
                 (snd (PermuteGeneric.split_name unidecode full_name))
                 (PermuteGeneric.domain a)
          /\ address_at (PermuteGeneric.domain a) e)
    /\ ((0 < PermuteGeneric.limit a)%Z ->
        (Z.of_nat (length rows) <= 4 * PermuteGeneric.limit a)%Z)
    /\ ((PermuteGeneric.limit a < 0)%Z -> rows = []).
Proof.
  intros Hord Hmain. unfold PermuteGeneric.main in Hmain.
  apply (permute_main_output _ _ _ _ 4) in Hmain;
    [|exact Hord|intros; apply generic_size].
  destruct Hmain as (rows & Hout & Hnd & Hrows & Hlim & Hneg).
  exists rows. split; [exact Hout|]. split; [exact Hnd|].
  split; [|split; [exact Hlim|exact Hneg]].
  intros full_name username e Hin. destruct (Hrows _ _ _ Hin) as [Hy He].
  split; [exact Hy|]. split; [exact He|]. exact (generic_address _ _ _ _ He).
Qed.

(** [pepperdine/permute_emails.py], [main]: the same, with the name
    taken from the full name or else from the user name, at most four
    addresses a person and nine in the mode [broad].  The input is
    ASCII text: the user name is cut at the digits of [\d], which on
    other text are more than [0] to [9]. *)
Theorem pepperdine_main_output (unidecode : string -> string)
    (set_order : nat -> gset string -> list string) (a : PermutePepperdine.args)
    (input_csv out : file) :
  ascii_file input_csv = true ->
  (forall n X, set_order n X ≡ₚ elements X) ->
  PermutePepperdine.main unidecode set_order a input_csv = inr out ->
  exists rows,
    out = permuted_records rows
    /\ NoDup (map snd rows)
    /\ (forall full_name username e,
          In (full_name, username, e) rows ->
          In (Yield full_name username) (read_rows input_csv)
          /\ e ∈ PermutePepperdine.generate_permutations
                 (fst (PermutePepperdine.derive_name_from_row unidecode full_name username))
                 (snd (PermutePepperdine.derive_name_from_row unidecode full_name username))
                 (PermutePepperdine.mode a)
          /\ address_at PermutePepperdine.PEPPERDINE_DOMAIN e)
    /\ ((0 < PermutePepperdine.limit a)%Z ->
        (Z.of_nat (length rows)
         <= Z.of_nat (per_person (PermutePepperdine.mode a)) * PermutePepperdine.limit a)%Z)
    /\ ((PermutePepperdine.limit a < 0)%Z -> rows = []).
Proof.
  intros _ Hord Hmain. unfold PermutePepperdine.main in Hmain.
  apply (permute_main_output _ _ _ _ (per_person (PermutePepperdine.mode a))) in Hmain;
    [|exact Hord|intros; apply pepperdine_size].
  destruct Hmain as (rows & Hout & Hnd & Hrows & Hlim & Hneg).
  exists rows. split; [exact Hout|]. split; [exact Hnd|].
  split; [|split; [exact Hlim|exact Hneg]].
  intros full_name username e Hin. destruct (Hrows _ _ _ Hin) as [Hy He].
  split; [exact Hy|]. split; [exact He|]. exact (pepperdine_address _ _ _ _ He).
Qed.

(** Both scripts raise [ValueError], and write nothing, exactly when
    the header of the input names the people neither by a full-name
    field nor by a first-name and a last-name field; an empty input is
    such a one. *)
Theorem permute_needs_name_columns (unidecode : string -> string)
    (set_order : nat -> gset string -> list string) (input_csv : file) :
  (forall a : PermuteGeneric.args,
      PermuteGeneric.main unidecode set_order a input_csv = inl EValueError <->
      name_columns (hd [] input_csv) = false)
  /\ (forall a : PermutePepperdine.args,
        PermutePepperdine.main unidecode set_order a input_csv = inl EValueError <->
        name_columns (hd [] input_csv) = false).
Proof.
  split; intros a; apply permute_main_value_error.
Qed.

(** With a full-name field and no user-name field in the header, a
    record longer than the header makes both scripts raise
    [AttributeError] and write nothing when no [--limit] is given; and
    they raise it in no other case. *)
Theorem permute_overlong_record_raises (unidecode : string -> string)
    (set_order : nat -> gset string -> list string) (input_csv : file) :
  (forall a : PermuteGeneric.args,
      (PermuteGeneric.main unidecode set_order a input_csv = inl EAttributeError ->
       overlong_record input_csv)
      /\ (PermuteGeneric.limit a = 0%Z -> overlong_record input_csv ->
          PermuteGeneric.main unidecode set_order a input_csv = inl EAttributeError))
  /\ (forall a : PermutePepperdine.args,
        (PermutePepperdine.main unidecode set_order a input_csv = inl EAttributeError ->
         overlong_record input_csv)
        /\ (PermutePepperdine.limit a = 0%Z -> overlong_record input_csv ->
            PermutePepperdine.main unidecode set_order a input_csv = inl EAttributeError)).
Proof.
  split; intros a; apply permute_main_attribute_error.
Qed.

Lemma generic_main_output_witness :
  let a := {| PermuteGeneric.domain := "colgate.edu"; PermuteGeneric.limit := 1 |} in
  let out := [["full_name"; "username"; "email"];
              ["Jane Doe"; "jdoe"; "jane.doe@colgate.edu"];
              ["Jane Doe"; "jdoe"; "janedoe@colgate.edu"];
              ["Jane Doe"; "jdoe"; "janed@colgate.edu"];
              ["Jane Doe"; "jdoe"; "jdoe@colgate.edu"]] in
  PermuteGeneric.main id (fun _ => elements) a people_csv = inr out
  /\ exists rows,
       out = permuted_records rows
       /\ NoDup (map snd rows)
       /\ (forall full_name username e,
             In (full_name, username, e) rows ->
             In (Yield full_name username) (read_rows people_csv)
             /\ e ∈ PermuteGeneric.generate_permutations
                    (fst (PermuteGeneric.split_name id full_name))
                    (snd (PermuteGeneric.split_name id full_name))
                    (PermuteGeneric.domain a)
             /\ address_at (PermuteGeneric.domain a) e)
       /\ ((0 < PermuteGeneric.limit a)%Z ->
           (Z.of_nat (length rows) <= 4 * PermuteGeneric.limit a)%Z)
       /\ ((PermuteGeneric.limit a < 0)%Z -> rows = []).
Proof.
  intros a out.
  assert (Hord : forall (n : nat) (X : gset string),
             (fun _ : nat => elements) n X ≡ₚ elements X) by (intros; reflexivity).
  assert (Hmain : PermuteGeneric.main id (fun _ => elements) a people_csv = inr out)
    by (vm_compute; reflexivity).
  split; [exact Hmain|].
  exact (generic_main_output id (fun _ => elements) a people_csv out Hord Hmain).
Defined.

Lemma pepperdine_main_output_witness :
  let a := {| PermutePepperdine.mode := "strict"; PermutePepperdine.limit := 2 |} in
  let out := [["full_name"; "username"; "email"];
              ["Jane Doe"; "jdoe"; "jane.doe@pepperdine.edu"];
              ["Jane Doe"; "jdoe"; "janedoe@pepperdine.edu"];
              ["Jane Doe"; "jdoe"; "janed@pepperdine.edu"];
              ["Jane Doe"; "jdoe"; "jdoe@pepperdine.edu"];
              ["Ann-Marie O'Neil"; ""; "aneil@pepperdine.edu"];
              ["Ann-Marie O'Neil"; ""; "annneil@pepperdine.edu"];
              ["Ann-Marie O'Neil"; ""; "annn@pepperdine.edu"];
              ["Ann-Marie O'Neil"; ""; "ann.neil@pepperdine.edu"]] in
  ascii_file people_csv = true
  /\ PermutePepperdine.main id (fun _ => elements) a people_csv = inr out
  /\ exists rows,
       out = permuted_records rows
       /\ NoDup (map snd rows)
       /\ (forall full_name username e,
             In (full_name, username, e) rows ->
             In (Yield full_name username) (read_rows people_csv)
             /\ e ∈ PermutePepperdine.generate_permutations
                    (fst (PermutePepperdine.derive_name_from_row id full_name username))
                    (snd (PermutePepperdine.derive_name_from_row id full_name username))
                    (PermutePepperdine.mode a)
             /\ address_at PermutePepperdine.PEPPERDINE_DOMAIN e)
       /\ ((0 < PermutePepperdine.limit a)%Z ->
           (Z.of_nat (length rows)
            <= Z.of_nat (per_person (PermutePepperdine.mode a)) * PermutePepperdine.limit a)%Z)
       /\ ((PermutePepperdine.limit a < 0)%Z -> rows = []).
Proof.
  intros a out.
  assert (Hord : forall (n : nat) (X : gset string),
             (fun _ : nat => elements) n X ≡ₚ elements X) by (intros; reflexivity).
  assert (Hmain : PermutePepperdine.main id (fun _ => elements) a people_csv = inr out)
    by (vm_compute; reflexivity).
  split; [reflexivity|]. split; [exact Hmain|].
  exact (pepperdine_main_output id (fun _ => elements) a people_csv out eq_refl Hord Hmain).
Defined.

Lemma permute_overlong_record_raises_witness :
  overlong_record overlong_csv
  /\ PermuteGeneric.main id (fun _ => elements)
       {| PermuteGeneric.domain := "colgate.edu"; PermuteGeneric.limit := 0 |} overlong_csv
     = inl EAttributeError
  /\ PermutePepperdine.main id (fun _ => elements)
       {| PermutePepperdine.mode := "broad"; PermutePepperdine.limit := 0 |} overlong_csv
     = inl EAttributeError.
Proof.
  assert (H : overlong_record overlong_csv).
  { split; [reflexivity|]. split; [reflexivity|].
    exists ["John Roe"; "x"]. split; [right; left; reflexivity|simpl; lia]. }
  split; [exact H|]. split.
  - exact (proj2 (proj1 (permute_overlong_record_raises id (fun _ => elements) overlong_csv)
                    {| PermuteGeneric.domain := "colgate.edu"; PermuteGeneric.limit := 0 |})
             eq_refl H).
  - exact (proj2 (proj2 (permute_overlong_record_raises id (fun _ => elements) overlong_csv)
                    {| PermutePepperdine.mode := "broad"; PermutePepperdine.limit := 0 |})
             eq_refl H).
Defined.

(** * The merge of the verified addresses *)

Lemma tuple_lt_true (a b : Z * Z) :
  Merge.tuple_lt a b = true <->
  (fst a < fst b \/ (fst a = fst b /\ snd a < snd b))%Z.
Proof.
  unfold Merge.tuple_lt.
  rewrite orb_true_iff, andb_true_iff, !Z.ltb_lt, Z.eqb_eq. reflexivity.
Qed.

Lemma tuple_lt_false (a b : Z * Z) :
  Merge.tuple_lt a b = false <->
  (fst b < fst a \/ (fst a = fst b /\ snd b <= snd a))%Z.
Proof.
  destruct (Merge.tuple_lt a b) eqn:H.
  - apply tuple_lt_true in H. split; [discriminate|]. lia.
  - split; [intros _|reflexivity].
    assert (Hn : ~ (fst a < fst b \/ (fst a = fst b /\ snd a < snd b))%Z).
    { intros Hc. apply tuple_lt_true in Hc. congruence. }
    lia.
Qed.

Lemma choose_best_score (existing_email candidate_email full_name : string) :
  Merge.choose_best existing_email candidate_email full_name
  = if Merge.tuple_lt (score_of full_name existing_email) (score_of full_name candidate_email)
    then candidate_email else existing_email.
Proof.
  unfold Merge.choose_best, score_of. destruct (Merge.split_name full_name); reflexivity.
Qed.

(** *** The dictionary *)

Lemma dict_get_set (d : Merge.dict) (k v k' : string) :
  Merge.dict_get (Merge.dict_set d k v) k'
  = if String.eqb k' k then Some v else Merge.dict_get d k'.
Proof.
  induction d as [|[k0 v0] d IH]; simpl.
  - destruct (String.eqb k' k); reflexivity.
  - destruct (String.eqb k k0) eqn:Hk; simpl.
    + apply String.eqb_eq in Hk. subst k0. destruct (String.eqb k' k); reflexivity.
    + destruct (String.eqb k' k0) eqn:Hk'; [|exact IH].
      apply String.eqb_eq in Hk'. subst k0.
      rewrite String.eqb_sym, Hk. reflexivity.
Qed.

Lemma dict_set_keys (d : Merge.dict) (k v : string) :
  map fst (Merge.dict_set d k v)
  = match Merge.dict_get d k with
    | Some _ => map fst d
    | None => map fst d ++ [k]
    end.
Proof.
  induction d as [|[k0 v0] d IH]; simpl; [reflexivity|].
  destruct (String.eqb k k0) eqn:Hk; simpl.
  - apply String.eqb_eq in Hk. subst k0. reflexivity.
  - rewrite IH. destruct (Merge.dict_get d k); reflexivity.
Qed.

Lemma dict_get_none (d : Merge.dict) (k : string) :
  Merge.dict_get d k = None <-> ~ In k (map fst d).
Proof.
  induction d as [|[k0 v0] d IH]; simpl; [tauto|].
  destruct (String.eqb k k0) eqn:Hk.
  - apply String.eqb_eq in Hk. subst k0. split; [discriminate|]. intros H. tauto.
  - apply String.eqb_neq in Hk. rewrite IH. split; [|tauto].
    intros H [H'|H']; [congruence|tauto].
Qed.

Lemma dict_get_in (d : Merge.dict) (k v : string) :
  NoDup (map fst d) -> (In (k, v) d <-> Merge.dict_get d k = Some v).
Proof.
  induction d as [|[k0 v0] d IH]; simpl; intros Hnd.
  - split; [intros []|discriminate].
  - apply NoDup_cons in Hnd as [Hk0 Hnd]. destruct (String.eqb k k0) eqn:Hk.
    + apply String.eqb_eq in Hk. subst k0. split.
      * intros [[= ->]|H]; [reflexivity|]. exfalso. apply Hk0.
        apply list_elem_of_In, in_map_iff. exists (k, v). auto.
      * intros [= ->]. left. reflexivity.
    + apply String.eqb_neq in Hk. rewrite <- (IH Hnd). split; [|tauto].
      intros [[= -> ->]|H]; [congruence|exact H].
Qed.

Lemma dict_set_nodup (d : Merge.dict) (k v : string) :
  NoDup (map fst d) -> NoDup (map fst (Merge.dict_set d k v)).
Proof.
  intros Hnd. rewrite dict_set_keys. destruct (Merge.dict_get d k) eqn:Hk; [exact Hnd|].
  apply NoDup_app. split; [exact Hnd|]. split; [|apply NoDup_singleton].
  intros x Hx Hx'. apply list_elem_of_In in Hx'. destruct Hx' as [<-|[]].
  apply dict_get_none in Hk. apply Hk, list_elem_of_In, Hx.
Qed.

(** *** The loop *)

Lemma merge_row_inv (d : Merge.dict) (ps : list (string * string)) (r : row) :
  merge_inv d ps ->
  merge_inv (Merge.merge_row d r)
    (ps ++ List.filter (fun '(full, email) => truthy full && truthy email)
             [verified_pair r]).
Proof.
  intros (Hnd & Hget & Hall). unfold Merge.merge_row, verified_pair.
  set (full := str_strip _). set (email := str_lower _). cbn [List.filter].
  destruct (truthy full && truthy email) eqn:Ht.
  - assert (Hgo : negb (truthy full) || negb (truthy email) = false).
    { apply andb_true_iff in Ht as [-> ->]. reflexivity. }
    rewrite Hgo.
    set (new := match Merge.dict_get d full with
                | Some existing => Merge.choose_best existing email full
                | None => email
                end).
    assert (Hd : match Merge.dict_get d full with
                 | Some existing => Merge.dict_set d full (Merge.choose_best existing email full)
                 | None => Merge.dict_set d full email
                 end = Merge.dict_set d full new).
    { unfold new. destruct (Merge.dict_get d full); reflexivity. }
    rewrite Hd. clear Hd. split; [apply dict_set_nodup, Hnd|]. split.
    + intros k v. rewrite dict_get_set. destruct (String.eqb k full) eqn:Hk.
      * apply String.eqb_eq in Hk. subst k. intros [= <-]. unfold new.
        destruct (Merge.dict_get d full) as [existing|] eqn:Hex.
        -- destruct (Hget _ _ Hex) as [Hin Hmax]. rewrite choose_best_score.
           destruct (Merge.tuple_lt _ _) eqn:Hlt.
           ++ split; [apply in_app_iff; right; left; reflexivity|].
              intros email'. rewrite in_app_iff. intros [H|[[= <-]|[]]].
              ** specialize (Hmax _ H). apply tuple_lt_true in Hlt.
                 apply tuple_lt_false in Hmax. apply tuple_lt_false. lia.
              ** apply tuple_lt_false. lia.
           ++ split; [apply in_app_iff; left; exact Hin|].
              intros email'. rewrite in_app_iff. intros [H|[[= <-]|[]]];
                [apply Hmax, H|exact Hlt].
        -- split; [apply in_app_iff; right; left; reflexivity|].
           intros email'. rewrite in_app_iff. intros [H|[[= <-]|[]]].
           ++ destruct (Hall _ _ H) as (v & Hv). congruence.
           ++ apply tuple_lt_false. lia.
      * intros Hv. destruct (Hget _ _ Hv) as [Hin Hmax].
        split; [apply in_app_iff; left; exact Hin|].
        intros email'. rewrite in_app_iff. intros [H|[[= <- _]|[]]]; [apply Hmax, H|].
        rewrite String.eqb_refl in Hk. discriminate.
    + intros k email'. rewrite dict_get_set, in_app_iff.
      destruct (String.eqb k full) eqn:Hk; [eexists; reflexivity|].
      intros [H|[[= <- _]|[]]]; [apply (Hall _ _ H)|].
      rewrite String.eqb_refl in Hk. discriminate.
  - assert (Hgo : negb (truthy full) || negb (truthy email) = true).
    { apply andb_false_iff in Ht as [-> | ->]; [reflexivity|apply orb_true_r]. }
    rewrite Hgo, app_nil_r. split; [exact Hnd|]. split; assumption.
Qed.

Lemma merge_rows_inv (rows : list row) :
  forall (d : Merge.dict) (ps : list (string * string)),
  merge_inv d ps ->
  merge_inv (foldl Merge.merge_row d rows)
    (ps ++ List.filter (fun '(full, email) => truthy full && truthy email)
             (map verified_pair rows)).
Proof.
  induction rows as [|r rows IH]; intros d ps Hinv; cbn [foldl].
  - simpl. rewrite app_nil_r. exact Hinv.
  - apply (merge_row_inv d ps r) in Hinv. apply IH in Hinv.
    rewrite <- app_assoc in Hinv.
    change (map verified_pair (r :: rows)) with (verified_pair r :: map verified_pair rows).
    destruct (verified_pair r) as [full email]. cbn [List.filter] in *.
    destruct (truthy full && truthy email); cbn [app] in *; exact Hinv.
Qed.

Lemma best_of_inv (files : list file) : merge_inv (Merge.best_of files) (verified_pairs files).
Proof.
  unfold Merge.best_of, verified_pairs.
  assert (Hgen : forall (d : Merge.dict) (ps : list (string * string)),
    merge_inv d ps ->
    merge_inv (foldl (fun best_by_name f => foldl Merge.merge_row best_by_name (DictReader f))
                 d files)
      (ps ++ List.filter (fun '(full, email) => truthy full && truthy email)
               (map verified_pair (flat_map DictReader files)))).
  { induction files as [|f files IH]; intros d ps Hinv; simpl.
    - rewrite app_nil_r. exact Hinv.
    - apply (merge_rows_inv (DictReader f)) in Hinv. apply IH in Hinv.
      rewrite List.map_app, List.filter_app, app_assoc. exact Hinv. }
  apply (Hgen [] []). split; [apply NoDup_nil_2|]. split; [discriminate|].
  intros ? ? [].
Qed.

(** [merge_verified], on files of ASCII text, writes one row for every
    person with a verified address, and no two rows for the same name;
    the address of the row is one of those read for the person, and
    none of them has a greater key (pattern rank, then length of the
    local part). *)
Theorem merge_keeps_the_best (files : list file) :
  forallb ascii_file files = true ->
  exists best : list (string * string),
    Merge.merge_verified files
    = (["full_name"; "email"] :: map (fun '(full, email) => [full; email]) best, length best)
    /\ NoDup (map fst best)
    /\ (forall full email,
          In (full, email) best ->
          In (full, email) (verified_pairs files)
          /\ forall email', In (full, email') (verified_pairs files) ->
               Merge.tuple_lt (score_of full email) (score_of full email') = false)
    /\ (forall full email',
          In (full, email') (verified_pairs files) -> exists email, In (full, email) best).
Proof.
  intros _. exists (Merge.best_of files). split; [reflexivity|].
  destruct (best_of_inv files) as (Hnd & Hget & Hall).
  split; [exact Hnd|]. split.
  - intros full email Hin. apply Hget, dict_get_in; assumption.
  - intros full email' Hin. destruct (Hall _ _ Hin) as (email & He).
    exists email. apply dict_get_in; assumption.
Qed.

Lemma merge_keeps_the_best_witness :
  forallb ascii_file verified_csvs = true
  /\ exists best : list (string * string),
       Merge.merge_verified verified_csvs
       = (["full_name"; "email"] :: map (fun '(full, email) => [full; email]) best,
          length best)
       /\ NoDup (map fst best)
       /\ (forall full email,
             In (full, email) best ->
             In (full, email) (verified_pairs verified_csvs)
             /\ forall email', In (full, email') (verified_pairs verified_csvs) ->
                  Merge.tuple_lt (score_of full email) (score_of full email') = false)
       /\ (forall full email',
             In (full, email') (verified_pairs verified_csvs) ->
             exists email, In (full, email) best).
Proof.
  split; [reflexivity|]. exact (merge_keeps_the_best verified_csvs eq_refl).
Defined.

(** *** The first.last pattern *)

Lemma score_local (f l email : string) :
  Merge.score f l email
  = (Merge.classify_local (Merge.before_at email) f l,
     Z.of_nat (String.length (Merge.before_at email))).
Proof.
  unfold Merge.score, Merge.EMAIL_RE_match.
  destruct (Merge.after_at email); [|reflexivity].
  destruct (truthy _ && _); reflexivity.
Qed.

Lemma classify_local_rank (local first last : string) :
  (Merge.classify_local local first last <= 3)%Z
  /\ (Merge.classify_local local first last = 3%Z <->
      truthy first = true /\ truthy last = true
      /\ str_lower local = first +:+ "." +:+ last).
Proof.
  unfold Merge.classify_local. cbv zeta.
  destruct (truthy first && truthy last && String.eqb (str_lower local) (first +:+ "." +:+ last))
    eqn:H3.
  - split; [lia|]. split; [intros _|reflexivity].
    apply andb_true_iff in H3 as [H3 He]. apply andb_true_iff in H3 as [Hf Hl].
    apply String.eqb_eq in He. auto.
  - assert (Hn : ~ (truthy first = true /\ truthy last = true
                    /\ str_lower local = first +:+ "." +:+ last)).
    { intros (Hf & Hl & He). rewrite Hf, Hl, He, String.eqb_refl in H3. discriminate. }
    repeat match goal with |- context [if ?b then _ else _] => destruct b end;
      (split; [lia|]); (split; [lia|intros H; destruct (Hn H)]).
Qed.

Lemma str_lower_length (s : string) : String.length (str_lower s) = String.length s.
Proof. induction s as [|c s IH]; simpl; [reflexivity|]. rewrite IH. reflexivity. Qed.

(** When, in files of ASCII text, one of the verified addresses of a
    person is first.last of the person's name, so is the address
    [merge_verified] writes for the person. *)
Theorem merge_prefers_first_dot_last (files : list file) (full email email1 : string) :
  let f := fst (Merge.split_name full) in
  let l := snd (Merge.split_name full) in
  forallb ascii_file files = true ->
  truthy f = true -> truthy l = true ->
  In (full, email1) (verified_pairs files) ->
  str_lower (Merge.before_at email1) = f +:+ "." +:+ l ->
  In [full; email] (tail (fst (Merge.merge_verified files))) ->
  str_lower (Merge.before_at email) = f +:+ "." +:+ l.
Proof.
  intros f l _ Hf Hl Hin1 H1 Hin. simpl in Hin.
  apply in_map_iff in Hin as ([full' email'] & [= -> ->] & Hin).
  destruct (best_of_inv files) as (Hnd & Hget & _).
  apply dict_get_in in Hin; [|exact Hnd]. destruct (Hget _ _ Hin) as [_ Hmax].
  specialize (Hmax _ Hin1). apply tuple_lt_false in Hmax.
  unfold score_of in Hmax. rewrite !score_local in Hmax. fold f l in Hmax.
  cbn [fst snd] in Hmax.
  destruct (classify_local_rank (Merge.before_at email1) f l) as [_ H3].
  destruct (classify_local_rank (Merge.before_at email) f l) as [Hle H3'].
  assert (Hr1 : Merge.classify_local (Merge.before_at email1) f l = 3%Z)
    by (apply H3; auto).
  assert (Hr : Merge.classify_local (Merge.before_at email) f l = 3%Z) by lia.
  apply H3' in Hr. tauto.
Qed.

Lemma merge_prefers_first_dot_last_witness :
  forallb ascii_file verified_csvs = true
  /\ In ("Jane Doe", "jane.doe@colgate.edu") (verified_pairs verified_csvs)
  /\ In ["Jane Doe"; "jane.doe@colgate.edu"]
       (tail (fst (Merge.merge_verified verified_csvs)))
  /\ str_lower (Merge.before_at "jane.doe@colgate.edu") = "jane" +:+ "." +:+ "doe".
Proof.
  assert (H1 : In ("Jane Doe", "jane.doe@colgate.edu") (verified_pairs verified_csvs))
    by (vm_compute; tauto).
  assert (H2 : In ["Jane Doe"; "jane.doe@colgate.edu"]
                 (tail (fst (Merge.merge_verified verified_csvs))))
    by (vm_compute; tauto).
  split; [reflexivity|]. split; [exact H1|]. split; [exact H2|].
  exact (merge_prefers_first_dot_last verified_csvs "Jane Doe" "jane.doe@colgate.edu"
           "jane.doe@colgate.edu" eq_refl eq_refl eq_refl H1 eq_refl H2).
Defined.

(** *** Merging what was merged *)

Lemma str_lstrip_chars (s : string) : str_lstrip s = lstrip_chars is_whitespace s.
Proof. induction s as [|c s IH]; simpl; [reflexivity|]. rewrite IH. reflexivity. Qed.

Lemma str_rstrip_chars (s : string) : str_rstrip s = rstrip_chars is_whitespace s.
Proof. induction s as [|c s IH]; simpl; [reflexivity|]. rewrite IH. reflexivity. Qed.

Lemma str_strip_chars (s : string) : str_strip s = strip_chars is_whitespace s.
Proof. unfold str_strip, strip_chars. rewrite str_rstrip_chars, str_lstrip_chars. reflexivity. Qed.

Lemma str_strip_ends (s : string) :
  head_in is_whitespace (str_strip s) = false /\ last_in is_whitespace (str_strip s) = false.
Proof.
  rewrite str_strip_chars. unfold strip_chars. split.
  - apply rstrip_chars_head, lstrip_chars_head.
  - apply rstrip_chars_last.
Qed.

Lemma str_strip_id (s : string) :
  head_in is_whitespace s = false -> last_in is_whitespace s = false -> str_strip s = s.
Proof.
  intros Hh Hl. rewrite str_strip_chars. unfold strip_chars.
  rewrite (lstrip_chars_id _ _ Hh). apply rstrip_chars_id, Hl.
Qed.

Lemma lower_ascii_whitespace (c : ascii) : is_whitespace (lower_ascii c) = is_whitespace c.
Proof. destruct c as [[] [] [] [] [] [] [] []]; reflexivity. Qed.

Lemma lower_ascii_idem (c : ascii) : lower_ascii (lower_ascii c) = lower_ascii c.
Proof. destruct c as [[] [] [] [] [] [] [] []]; reflexivity. Qed.

Lemma str_lower_idem (s : string) : str_lower (str_lower s) = str_lower s.
Proof.
  induction s as [|c s IH]; simpl; [reflexivity|]. rewrite lower_ascii_idem, IH. reflexivity.
Qed.

Lemma str_lower_ends (s : string) :
  head_in is_whitespace (str_lower s) = head_in is_whitespace s
  /\ last_in is_whitespace (str_lower s) = last_in is_whitespace s.
Proof.
  split.
  - destruct s; simpl; [reflexivity|apply lower_ascii_whitespace].
  - induction s as [|c s IH]; [reflexivity|].
    destruct s as [|c' s]; [simpl; apply lower_ascii_whitespace|exact IH].
Qed.

Lemma verified_pair_clean (r : row) (full email : string) :
  verified_pair r = (full, email) ->
  str_strip full = full /\ str_lower (str_strip email) = email.
Proof.
  unfold verified_pair. intros [= <- <-]. split.
  - apply str_strip_id; apply str_strip_ends.
  - rewrite str_strip_id, str_lower_idem; [reflexivity| |].
    + rewrite (proj1 (str_lower_ends _)). apply str_strip_ends.
    + rewrite (proj2 (str_lower_ends _)). apply str_strip_ends.
Qed.

Lemma verified_pairs_clean (files : list file) (full email : string) :
  In (full, email) (verified_pairs files) ->
  truthy full = true /\ truthy email = true
  /\ str_strip full = full /\ str_lower (str_strip email) = email.
Proof.
  unfold verified_pairs. rewrite filter_In, in_map_iff.
  intros [(r & Hr & _) Ht]. apply andb_true_iff in Ht as [Hf He].
  split; [exact Hf|]. split; [exact He|]. apply (verified_pair_clean r), Hr.
Qed.

Lemma dict_set_new (d : Merge.dict) (k v : string) :
  Merge.dict_get d k = None -> Merge.dict_set d k v = d ++ [(k, v)].
Proof.
  induction d as [|[k0 v0] d IH]; simpl; [reflexivity|].
  destruct (String.eqb k k0); [discriminate|]. intros H. rewrite (IH H). reflexivity.
Qed.

Lemma merge_clean_rows (ps : list (string * string)) :
  forall d : Merge.dict,
  NoDup (map fst (d ++ ps)) ->
  (forall full email, In (full, email) ps ->
     truthy full = true /\ truthy email = true
     /\ str_strip full = full /\ str_lower (str_strip email) = email) ->
  foldl Merge.merge_row d
    (map (zip_fields ∅ ["full_name"; "email"])
       (map (fun '(full, email) => [full; email]) ps))
  = d ++ ps.
Proof.
  induction ps as [|[full email] ps IH]; intros d Hnd Hclean; simpl.
  - rewrite app_nil_r. reflexivity.
  - destruct (Hclean full email (or_introl eq_refl)) as (Hf & He & Hsf & Hse).
    assert (Hrow : Merge.merge_row d (<["email" := Some email]> (<["full_name" := Some full]> ∅))
                   = d ++ [(full, email)]).
    { unfold Merge.merge_row, row_get.
      rewrite lookup_insert_ne by discriminate. rewrite !lookup_insert_eq.
      cbn [or_empty]. rewrite Hsf, Hse, Hf, He. cbn [negb orb].
      assert (Hnone : Merge.dict_get d full = None).
      { apply dict_get_none. intros Hin. rewrite List.map_app in Hnd.
        apply NoDup_app in Hnd as (_ & Hdis & _).
        apply (Hdis full); [apply list_elem_of_In, Hin|].
        apply list_elem_of_In. left. reflexivity. }
      rewrite Hnone. apply dict_set_new, Hnone. }
    rewrite Hrow, IH.
    + rewrite <- app_assoc. reflexivity.
    + rewrite <- app_assoc. exact Hnd.
    + intros f e Hin. apply Hclean. right. exact Hin.
Qed.

(** Merging the file [merge_verified] wrote gives that file again. *)
Theorem merge_of_merged (files : list file) :
  Merge.merge_verified [fst (Merge.merge_verified files)] = Merge.merge_verified files.
Proof.
  assert (H : Merge.best_of [fst (Merge.merge_verified files)] = Merge.best_of files).
  { destruct (best_of_inv files) as (Hnd & Hget & _).
    unfold Merge.merge_verified. cbv zeta. cbn [fst].
    unfold Merge.best_of at 1. cbn [foldl DictReader].
    assert (Hfilter : forall ps : list (string * string),
              List.filter nonblank (map (fun '(full, email) => [full; email]) ps)
              = map (fun '(full, email) => [full; email]) ps).
    { induction ps as [|[f e] ps IH]; simpl; [reflexivity|]. rewrite IH. reflexivity. }
    rewrite Hfilter. rewrite (merge_clean_rows (Merge.best_of files) []); [reflexivity| |].
    - exact Hnd.
    - intros full email Hin. apply (verified_pairs_clean files).
      apply Hget, dict_get_in; assumption. }
  unfold Merge.merge_verified at 1. cbv zeta. rewrite H. reflexivity.
Qed.

(** * The batches *)

(** *** Grouping the rows by name *)

Lemma setdefault_append_keys (people : list (option string * list SplitBatches.drow))
    (k : option string) (r : SplitBatches.drow) (x : option string) :
  In x (map fst (SplitBatches.setdefault_append people k r)) <->
  In x (map fst people) \/ x = k.
Proof.
  induction people as [|[k' rs] people IH]; simpl.
  - split; [intros [<-|[]]; auto|intros [[]| ->]; auto].
  - case_bool_decide as Hk; simpl.
    + subst k'. intuition congruence.
    + rewrite IH. tauto.
Qed.

Lemma setdefault_append_nodup (people : list (option string * list SplitBatches.drow))
    (k : option string) (r : SplitBatches.drow) :
  NoDup (map fst people) -> NoDup (map fst (SplitBatches.setdefault_append people k r)).
Proof.
  induction people as [|[k' rs] people IH]; simpl; intros Hnd.
  - apply NoDup_singleton.
  - apply NoDup_cons in Hnd as [Hk' Hnd]. case_bool_decide as Hk; simpl.
    + apply NoDup_cons. auto.
    + apply NoDup_cons. split; [|apply IH, Hnd].
      rewrite list_elem_of_In, setdefault_append_keys.
      intros [H| ->]; [|congruence]. apply Hk', list_elem_of_In, H.
Qed.

Lemma setdefault_append_elem (people : list (option string * list SplitBatches.drow))
    (k : option string) (r : SplitBatches.drow) (k0 : option string)
    (rs0 : list SplitBatches.drow) (r0 : SplitBatches.drow) :
  In (k0, rs0) (SplitBatches.setdefault_append people k r) -> In r0 rs0 ->
  (exists rs, In (k0, rs) people /\ In r0 rs) \/ (k0 = k /\ r0 = r).
Proof.
  induction people as [|[k' rs] people IH]; simpl.
  - intros [[= <- <-]|[]] [<-|[]]. right. auto.
  - case_bool_decide as Hk; simpl.
    + subst k'. intros [[= <- <-]|Hin] Hr0.
      * apply in_app_iff in Hr0 as [Hr0|[<-|[]]]; [|right; auto].
        left. exists rs. auto.
      * left. exists rs0. auto.
    + intros [[= <- <-]|Hin] Hr0.
      * left. exists rs. auto.
      * destruct (IH Hin Hr0) as [(rs1 & H1 & H2)|H]; [|right; exact H].
        left. exists rs1. auto.
Qed.

Lemma setdefault_append_concat (people : list (option string * list SplitBatches.drow))
    (k : option string) (r : SplitBatches.drow) :
  concat (map snd (SplitBatches.setdefault_append people k r))
  ≡ₚ concat (map snd people) ++ [r].
Proof.
  induction people as [|[k' rs] people IH]; simpl; [reflexivity|].
  case_bool_decide as Hk; simpl.
  - rewrite <- !app_assoc. apply Permutation_app_head, Permutation_app_comm.
  - rewrite IH, app_assoc. reflexivity.
Qed.

Lemma setdefault_append_inv (people : list (option string * list SplitBatches.drow))
    (rows : list SplitBatches.drow) (k : option string) (r : SplitBatches.drow) :
  group_inv people rows -> fst r !! "full_name" = Some k ->
  group_inv (SplitBatches.setdefault_append people k r) (rows ++ [r]).
Proof.
  intros (Hnd & Hkey & Hperm) Hk. split; [apply setdefault_append_nodup, Hnd|]. split.
  - intros k0 rs0 r0 Hin Hr0.
    destruct (setdefault_append_elem _ _ _ _ _ _ Hin Hr0) as [(rs & H1 & H2)|[-> ->]];
      [apply (Hkey _ _ _ H1 H2)|exact Hk].
  - rewrite setdefault_append_concat, Hperm. reflexivity.
Qed.

Lemma group_inv_end (rows : list SplitBatches.drow) :
  forall (people : list (option string * list SplitBatches.drow))
         (done : list SplitBatches.drow),
  group_inv people done ->
  (forall r, In r rows -> is_Some (fst r !! "full_name")) ->
  exists people', SplitBatches.group rows people = inr people'
                  /\ group_inv people' (done ++ rows).
Proof.
  induction rows as [|r rows IH]; intros people done Hinv Hkeys; simpl.
  - exists people. rewrite app_nil_r. auto.
  - destruct (Hkeys r (or_introl eq_refl)) as [k Hk]. rewrite Hk.
    destruct (IH (SplitBatches.setdefault_append people k r) (done ++ [r])) as (people' & Hg & Hi).
    + apply setdefault_append_inv; assumption.
    + intros r' Hr'. apply Hkeys. right. exact Hr'.
    + exists people'. rewrite <- app_assoc in Hi. auto.
Qed.

(** *** Dealing the people *)

Lemma map_lookup {A B : Type} (f : A -> B) (l : list A) (i : nat) (x : A) :
  l !! i = Some x -> map f l !! i = Some (f x).
Proof.
  revert i. induction l as [|a l IH]; intros [|i]; simpl; try discriminate.
  - intros [= ->]. reflexivity.
  - apply IH.
Qed.

Lemma map_lookup_Some {A B : Type} (f : A -> B) (l : list A) (i : nat) (y : B) :
  map f l !! i = Some y -> exists x, l !! i = Some x /\ y = f x.
Proof.
  revert i. induction l as [|a l IH]; intros [|i]; simpl; try discriminate.
  - intros [= <-]. exists a. auto.
  - apply IH.
Qed.

Lemma deal_length (people : list (option string * list SplitBatches.drow)) :
  forall (idx : nat) (batches : list (list SplitBatches.drow)),
  length (SplitBatches.deal idx people batches) = length batches.
Proof.
  induction people as [|[k rs] people IH]; intros idx batches; cbn [SplitBatches.deal];
    [reflexivity|].
  rewrite IH, length_alter. reflexivity.
Qed.

Lemma concat_alter (rs : list SplitBatches.drow) (batches : list (list SplitBatches.drow)) :
  forall i : nat, i < length batches ->
  concat (alter (fun b => b ++ rs) i batches) ≡ₚ concat batches ++ rs.
Proof.
  induction batches as [|b batches IH]; intros i Hi; [simpl in Hi; lia|].
  destruct i as [|i].
  - change (concat ((b ++ rs) :: batches) ≡ₚ concat (b :: batches) ++ rs).
    cbn [concat]. rewrite <- !app_assoc.
    apply Permutation_app_head, Permutation_app_comm.
  - change (concat (b :: alter (fun b => b ++ rs) i batches)
            ≡ₚ concat (b :: batches) ++ rs).
    cbn [concat]. rewrite IH by (simpl in Hi; lia). rewrite app_assoc. reflexivity.
Qed.

Lemma deal_concat (people : list (option string * list SplitBatches.drow)) :
  forall (idx : nat) (batches : list (list SplitBatches.drow)),
  length batches = 11 ->
  concat (SplitBatches.deal idx people batches)
  ≡ₚ concat batches ++ concat (map snd people).
Proof.
  induction people as [|[k rs] people IH]; intros idx batches Hlen;
    cbn [SplitBatches.deal map snd concat].
  - rewrite app_nil_r. reflexivity.
  - rewrite IH by (rewrite length_alter; exact Hlen).
    rewrite (concat_alter rs batches (idx mod 11)), app_assoc; [reflexivity|].
    rewrite Hlen. apply Nat.mod_upper_bound. lia.
Qed.

Lemma deal_elem (people : list (option string * list SplitBatches.drow)) :
  forall (idx : nat) (batches : list (list SplitBatches.drow)) (i : nat)
         (b : list SplitBatches.drow) (r : SplitBatches.drow),
  SplitBatches.deal idx people batches !! i = Some b -> In r b ->
  (exists b0, batches !! i = Some b0 /\ In r b0)
  \/ (exists n k rs, people !! n = Some (k, rs) /\ In r rs /\ (idx + n) mod 11 = i).
Proof.
  induction people as [|[k rs] people IH]; intros idx batches i b r;
    cbn [SplitBatches.deal].
  - intros Hb Hr. left. exists b. auto.
  - intros Hb Hr. destruct (IH _ _ _ _ _ Hb Hr) as [(b0 & Hb0 & Hr0)|(n & k' & rs' & Hn & Hr' & Hi)].
    + rewrite list_lookup_alter in Hb0. case_decide as Hidx.
      * destruct (batches !! (idx mod 11)) as [b1|] eqn:Hb1; [|discriminate].
        simpl in Hb0. injection Hb0 as <-. apply in_app_iff in Hr0 as [Hr0|Hr0].
        -- left. exists b1. rewrite <- Hidx. auto.
        -- right. exists 0, k, rs. rewrite Nat.add_0_r. auto.
      * left. exists b0. auto.
    + right. exists (S n), k', rs'. split; [exact Hn|]. split; [exact Hr'|].
      rewrite <- Hi. f_equal. lia.
Qed.

(** *** Writing the batches *)

Lemma writerows_clean (batch : list SplitBatches.drow) :
  (forall r, In r batch -> SplitBatches.wrong_fields r = false) ->
  SplitBatches.writerows batch
  = (map (writerow SplitBatches.fieldnames) (map fst batch), None).
Proof.
  induction batch as [|r batch IH]; intros H; simpl; [reflexivity|].
  rewrite (H r (or_introl eq_refl)), IH; [reflexivity|].
  intros r' Hr'. apply H. right. exact Hr'.
Qed.

Lemma write_batches_clean (batches : list (list SplitBatches.drow)) :
  (forall b r, In b batches -> In r b -> SplitBatches.wrong_fields r = false) ->
  SplitBatches.write_batches batches = (map batch_file (map (map fst) batches), None).
Proof.
  induction batches as [|b batches IH]; intros H; simpl; [reflexivity|].
  rewrite writerows_clean by (intros r Hr; apply (H b r); [left; reflexivity|exact Hr]).
  rewrite IH; [reflexivity|]. intros b' r Hb' Hr. apply (H b' r); [right; exact Hb'|exact Hr].
Qed.

Lemma zip_fields_dom (header : list string) :
  forall (d : row) (rec : record),
  dom (zip_fields d header rec) = dom d ∪ list_to_set header.
Proof.
  induction header as [|k header IH]; intros d rec; simpl.
  - set_solver.
  - destruct rec as [|v rec]; rewrite IH, dom_insert_L; set_solver.
Qed.

Lemma read_rows_of (input : file) : map fst (SplitBatches.read input) = DictReader input.
Proof.
  destruct input as [|header recs]; [reflexivity|]. simpl.
  rewrite List.map_map. reflexivity.
Qed.

(** The rows of an input whose fields are among the three and whose
    records are no longer than the header. *)
Lemma read_clean (input : file) (r : SplitBatches.drow) :
  In "full_name" (hd [] input) ->
  (forall k, In k (hd [] input) -> In k SplitBatches.fieldnames) ->
  (forall rec, In rec (tail input) -> length rec <= length (hd [] input)) ->
  In r (SplitBatches.read input) ->
  is_Some (fst r !! "full_name") /\ SplitBatches.wrong_fields r = false.
Proof.
  destruct input as [|header recs]; [intros _ _ _ []|]. simpl.
  intros Hfull Hsub Hlen Hr. apply in_map_iff in Hr as (rec & <- & Hrec).
  apply filter_In in Hrec as [Hrec _]. cbn [fst snd]. split.
  - apply elem_of_dom. rewrite zip_fields_dom. apply elem_of_union_r.
    apply elem_of_list_to_set, list_elem_of_In, Hfull.
  - unfold SplitBatches.wrong_fields. cbn [fst snd].
    rewrite drop_ge by (apply Hlen, Hrec). rewrite orb_false_r.
    apply negb_false_iff, bool_decide_eq_true. rewrite zip_fields_dom.
    intros k Hk. apply elem_of_union in Hk as [Hk|Hk]; [set_solver|].
    apply elem_of_list_to_set, list_elem_of_In, Hsub, list_elem_of_In.
    apply elem_of_list_to_set in Hk. exact Hk.
Qed.

(** With the fields [full_name], [username], [email] (the first of them
    at least) and no record longer than the header, the script writes
    eleven files; every row of the input is in one of them, once; and
    the rows of one name are all in the same file. *)
Theorem batches_keep_people_together (input : file) :
  In "full_name" (hd [] input) ->
  (forall k, In k (hd [] input) -> In k SplitBatches.fieldnames) ->
  (forall rec, In rec (tail input) -> length rec <= length (hd [] input)) ->
  exists batches : list (list row),
    SplitBatches.script input = (map batch_file batches, None)
    /\ length batches = 11
    /\ concat batches ≡ₚ DictReader input
    /\ (forall i j b1 b2 r1 r2,
          batches !! i = Some b1 -> batches !! j = Some b2 ->
          In r1 b1 -> In r2 b2 ->
          r1 !! "full_name" = r2 !! "full_name" -> i = j).
Proof.
  intros Hfull Hsub Hlen.
  assert (Hclean : forall r, In r (SplitBatches.read input) ->
            is_Some (fst r !! "full_name") /\ SplitBatches.wrong_fields r = false)
    by (intros r; apply read_clean; assumption).
  destruct (group_inv_end (SplitBatches.read input) [] []) as (people & Hg & Hinv).
  { split; [apply NoDup_nil_2|]. split; [intros ? ? ? []|reflexivity]. }
  { intros r Hr. apply Hclean, Hr. }
  simpl in Hinv. destruct Hinv as (Hnd & Hkey & Hperm).
  assert (Hall : concat (SplitBatches.batches_of people) ≡ₚ SplitBatches.read input).
  { unfold SplitBatches.batches_of. rewrite deal_concat by reflexivity. simpl. exact Hperm. }
  exists (map (map fst) (SplitBatches.batches_of people)).
  split; [|split; [|split]].
  - unfold SplitBatches.script. rewrite Hg. apply write_batches_clean.
    intros b r Hb Hr. apply Hclean. rewrite <- Hall. apply in_concat. exists b. auto.
  - rewrite length_map. unfold SplitBatches.batches_of. rewrite deal_length. reflexivity.
  - rewrite <- read_rows_of, <- Hall, concat_map. reflexivity.
  - intros i j b1 b2 r1 r2 Hb1 Hb2.
    apply map_lookup_Some in Hb1 as (d1 & H1 & ->).
    apply map_lookup_Some in Hb2 as (d2 & H2 & ->). intros Hr1 Hr2 Hsame.
    apply in_map_iff in Hr1 as (x1 & <- & Hx1). apply in_map_iff in Hr2 as (x2 & <- & Hx2).
    destruct (deal_elem _ _ _ _ _ _ H1 Hx1) as [(b0 & Hb0 & Hin0)|(n1 & k1 & rs1 & Hn1 & Hin1 & Hi)].
    { apply lookup_replicate in Hb0 as [-> _]. destruct Hin0. }
    destruct (deal_elem _ _ _ _ _ _ H2 Hx2) as [(b0 & Hb0 & Hin0)|(n2 & k2 & rs2 & Hn2 & Hin2 & Hj)].
    { apply lookup_replicate in Hb0 as [-> _]. destruct Hin0. }
    assert (Hk1 : fst x1 !! "full_name" = Some k1).
    { apply (Hkey k1 rs1); [|exact Hin1]. apply list_elem_of_In.
      apply (list_elem_of_lookup_2 _ n1), Hn1. }
    assert (Hk2 : fst x2 !! "full_name" = Some k2).
    { apply (Hkey k2 rs2); [|exact Hin2]. apply list_elem_of_In.
      apply (list_elem_of_lookup_2 _ n2), Hn2. }
    assert (Hk : k1 = k2) by congruence. subst k2.
    assert (Hn : n1 = n2).
    { apply (NoDup_lookup (map fst people) n1 n2 k1 Hnd).
      - apply (map_lookup fst _ _ _ Hn1).
      - apply (map_lookup fst _ _ _ Hn2). }
    subst n2. simpl in Hi, Hj. congruence.
Qed.

Lemma batches_keep_people_together_witness :
  exists batches : list (list row),
    SplitBatches.script twelve_people_csv = (map batch_file batches, None)
    /\ length batches = 11
    /\ concat batches ≡ₚ DictReader twelve_people_csv
    /\ (forall i j b1 b2 r1 r2,
          batches !! i = Some b1 -> batches !! j = Some b2 ->
          In r1 b1 -> In r2 b2 ->
          r1 !! "full_name" = r2 !! "full_name" -> i = j).
Proof.
  apply (batches_keep_people_together twelve_people_csv).
  - left. reflexivity.
  - intros k Hk. simpl in Hk. unfold SplitBatches.fieldnames. simpl. tauto.
  - intros rec Hrec. simpl in Hrec.
    repeat (destruct Hrec as [<-|Hrec]; [simpl; lia|]). destruct Hrec.
Defined.

(** *** When the script raises *)

Lemma setdefault_append_head (people : list (option string * list SplitBatches.drow))
    (k k0 : option string) (r r0 : SplitBatches.drow) (rs0 : list SplitBatches.drow)
    (people0 : list (option string * list SplitBatches.drow)) :
  people = (k0, r0 :: rs0) :: people0 ->
  exists rs1 people1,
    SplitBatches.setdefault_append people k r = (k0, r0 :: rs1) :: people1.
Proof.
  intros ->. simpl. case_bool_decide; eexists; eexists; reflexivity.
Qed.

Lemma group_head (rows : list SplitBatches.drow) :
  forall (people people' : list (option string * list SplitBatches.drow))
         (k0 : option string) (r0 : SplitBatches.drow) (rs0 : list SplitBatches.drow)
         (people0 : list (option string * list SplitBatches.drow)),
  people = (k0, r0 :: rs0) :: people0 ->
  SplitBatches.group rows people = inr people' ->
  exists rs1 people1, people' = (k0, r0 :: rs1) :: people1.
Proof.
  induction rows as [|r rows IH]; intros people people' k0 r0 rs0 people0 Hp; simpl.
  - intros [= <-]. eauto.
  - destruct (fst r !! "full_name") as [k|]; [|discriminate].
    destruct (setdefault_append_head people k k0 r r0 rs0 people0 Hp) as (rs1 & people1 & H1).
    apply (IH _ _ _ _ _ _ H1).
Qed.

Lemma deal_prefix (people : list (option string * list SplitBatches.drow)) :
  forall (idx : nat) (batches : list (list SplitBatches.drow)) (i : nat)
         (b0 : list SplitBatches.drow),
  batches !! i = Some b0 ->
  exists more, SplitBatches.deal idx people batches !! i = Some (b0 ++ more).
Proof.
  induction people as [|[k rs] people IH]; intros idx batches i b0 Hb;
    cbn [SplitBatches.deal].
  - exists []. rewrite app_nil_r. exact Hb.
  - destruct (decide (idx mod 11 = i)) as [Hi|Hi].
    + destruct (IH (S idx) (alter (fun b => b ++ rs) (idx mod 11) batches) i (b0 ++ rs))
        as (more & Hm).
      { rewrite Hi, list_lookup_alter_eq, Hb. reflexivity. }
      exists (rs ++ more). rewrite app_assoc. exact Hm.
    + apply IH. rewrite list_lookup_alter_ne by exact Hi. exact Hb.
Qed.

Lemma batches_of_head (k0 : option string) (r0 : SplitBatches.drow)
    (rs0 : list SplitBatches.drow) (people0 : list (option string * list SplitBatches.drow)) :
  exists b batches,
    SplitBatches.batches_of ((k0, r0 :: rs0) :: people0) = (r0 :: b) :: batches.
Proof.
  unfold SplitBatches.batches_of. cbn [SplitBatches.deal].
  destruct (deal_prefix people0 1
              (alter (fun b => b ++ r0 :: rs0) (0 mod 11) (replicate 11 [])) 0 (r0 :: rs0))
    as (more & Hm); [reflexivity|].
  destruct (SplitBatches.deal 1 people0 _) as [|b batches]; [discriminate|].
  simpl in Hm. injection Hm as ->. eexists. eexists. reflexivity.
Qed.

(** The edges of the script.  Without a row it writes eleven files of
    a header each.  With a row and no field [full_name] it raises
    [KeyError] before it writes a file.  With a row, the field
    [full_name] and a field that is none of the three, it raises
    [ValueError] at the first row it writes: the first file has the
    header only and there is no other file. *)
Theorem batches_edge_cases (input : file) :
  (DictReader input = [] ->
   SplitBatches.script input = (replicate 11 [SplitBatches.fieldnames], None))
  /\ (DictReader input <> [] -> ~ In "full_name" (hd [] input) ->
      SplitBatches.script input = ([], Some EKeyError))
  /\ (DictReader input <> [] -> In "full_name" (hd [] input) ->
      (exists k, In k (hd [] input) /\ ~ In k SplitBatches.fieldnames) ->
      SplitBatches.script input = ([[SplitBatches.fieldnames]], Some EValueError)).
Proof.
  rewrite <- read_rows_of. split; [|split].
  - intros Hnil. unfold SplitBatches.script.
    destruct (SplitBatches.read input); [reflexivity|discriminate].
  - intros Hrows Hno. unfold SplitBatches.script.
    destruct input as [|header recs]; [destruct Hrows; reflexivity|].
    simpl in *. destruct (List.filter nonblank recs) as [|rec recs']; [destruct Hrows; reflexivity|].
    cbn [map SplitBatches.group fst].
    assert (Hnone : zip_fields ∅ header rec !! "full_name" = None).
    { apply not_elem_of_dom. rewrite zip_fields_dom. intros Hin.
      apply elem_of_union in Hin as [Hin|Hin]; [set_solver|].
      apply elem_of_list_to_set, list_elem_of_In in Hin. exact (Hno Hin). }
    rewrite Hnone. reflexivity.
  - intros Hrows Hfull (k & Hk & Hnk). unfold SplitBatches.script.
    assert (Hwrong : forall r, In r (SplitBatches.read input) ->
              is_Some (fst r !! "full_name") /\ SplitBatches.wrong_fields r = true).
    { destruct input as [|header recs]; [intros r []|]. simpl in *.
      intros r Hr. apply in_map_iff in Hr as (rec & <- & _). cbn [fst]. split.
      - apply elem_of_dom. rewrite zip_fields_dom. apply elem_of_union_r.
        apply elem_of_list_to_set, list_elem_of_In, Hfull.
      - unfold SplitBatches.wrong_fields. cbn [fst snd].
        apply orb_true_iff. left. apply negb_true_iff, bool_decide_eq_false.
        rewrite zip_fields_dom. intros Hsub.
        assert (Hin : k ∈ (list_to_set SplitBatches.fieldnames : gset string)).
        { apply Hsub, elem_of_union_r, elem_of_list_to_set, list_elem_of_In, Hk. }
        apply elem_of_list_to_set, list_elem_of_In in Hin. exact (Hnk Hin). }
    destruct (SplitBatches.read input) as [|r0 rows] eqn:Hread; [destruct Hrows; reflexivity|].
    destruct (Hwrong r0 (or_introl eq_refl)) as [[k0 Hk0] Hw0].
    destruct (group_inv_end (r0 :: rows) [] []) as (people & Hg & _).
    { split; [apply NoDup_nil_2|]. split; [intros ? ? ? []|reflexivity]. }
    { intros r Hr. apply Hwrong, Hr. }
    rewrite Hg. simpl in Hg. rewrite Hk0 in Hg.
    destruct (group_head rows _ people k0 r0 [] [] eq_refl Hg) as (rs1 & people1 & ->).
    destruct (batches_of_head k0 r0 rs1 people1) as (b & batches & ->).
    simpl. rewrite Hw0. reflexivity.
Qed.

Lemma batches_edge_cases_witness :
  SplitBatches.script [["full_name"; "email"]]
  = (replicate 11 [SplitBatches.fieldnames], None)
  /\ SplitBatches.script [["name"; "email"]; ["Jane Doe"; "jdoe@colgate.edu"]]
     = ([], Some EKeyError)
  /\ SplitBatches.script
       [["full_name"; "email"; "status"]; ["Jane Doe"; "jdoe@colgate.edu"; "valid"]]
     = ([[SplitBatches.fieldnames]], Some EValueError).
Proof.
  split; [|split].
  - apply (proj1 (batches_edge_cases [["full_name"; "email"]])). reflexivity.
  - apply (proj1 (proj2 (batches_edge_cases
                           [["name"; "email"]; ["Jane Doe"; "jdoe@colgate.edu"]]))).
    + discriminate.
    + simpl. intros [H|[H|[]]]; discriminate.
  - apply (proj2 (proj2 (batches_edge_cases
                           [["full_name"; "email"; "status"];
                            ["Jane Doe"; "jdoe@colgate.edu"; "valid"]]))).
    + discriminate.
    + left. reflexivity.
    + exists "status". split; [simpl; auto|].
      unfold SplitBatches.fieldnames. simpl. intros [H|[H|[H|[]]]]; discriminate.
Defined.
